(** * orasort: cache-accelerated, common-prefix-aware string quicksort

    A shallow embedding of [orasort2.c] / [orasort2.cpp] (the cached variant)
    and of [orasort.c] / [orasort.cpp] (the byte-by-byte precursor), with the
    properties of the natural-language specification stated and proved over
    it.

    Conventions of the embedding.
    - A C string ([char *], [std::string::c_str()]) is the list of its bytes
      before the terminator; every byte is a [Z] in [1, 255].  The buffer
      behind it holds exactly those bytes followed by one NUL: a read at an
      offset past the terminator leaves the buffer.
    - The code is embedded twice.  The checked run stops with [Fault] at the
      first read that leaves a buffer: it tells where such reads happen, not
      what the compiled program goes on to do.  The unchecked run (the
      functions named [..._raw]) goes on as the compiled program does: the
      bytes a stray scan finds come from a tape of arbitrary values, and
      what is proved of it holds for every tape.
    - [uint64_t] values are [Z] in [0, 2^64) with the wrap-around written
      out; [int] values (depth, match length, comparison result) are [Z];
      the strings are taken shorter than [INT_MAX - 8], so that no [int]
      expression of the source overflows.
    - Array indices ([low], [high], [i], [j]) are [nat].  The source only
      forms [j - 1] and [n - 1] below zero in guards that are false there,
      and truncated subtraction gives the same guard value.
    - The target is little-endian, as the source assumes. *)

From Stdlib Require Import ZArith Lia List Ascii String.
From stdpp Require Import base list sorting.

Open Scope Z_scope.

(** ** Outcomes of running a piece of the program *)

Inductive outcome (A : Type) : Type :=
| Done (a : A)      (* ran to completion *)
| Fault             (* a read outside the bytes of a string buffer or of the array *)
| OutOfFuel.        (* loop budget of the embedding exhausted *)

Arguments Done {A} a.
Arguments Fault {A}.
Arguments OutOfFuel {A}.

#[global] Instance outcome_ret : MRet outcome := fun A a => Done a.
#[global] Instance outcome_bind : MBind outcome := fun A B f m =>
  match m with
  | Done a => f a
  | Fault => Fault
  | OutOfFuel => OutOfFuel
  end.

#[global] Instance outcome_fmap : FMap outcome := fun A B f m =>
  match m with
  | Done a => Done (f a)
  | Fault => Fault
  | OutOfFuel => OutOfFuel
  end.

(** ** Platform helpers: [bswap64] and [clz64] (portable fallbacks) *)

Definition wrap64 (z : Z) : Z := z mod 2 ^ 64.

Definition bswap64 (x : Z) : Z :=
  Z.lor (Z.lor (Z.lor (Z.lor (Z.lor (Z.lor (Z.lor
    (wrap64 (Z.shiftl (Z.land x 0x00000000000000FF) 56))
    (wrap64 (Z.shiftl (Z.land x 0x000000000000FF00) 40)))
    (wrap64 (Z.shiftl (Z.land x 0x0000000000FF0000) 24)))
    (wrap64 (Z.shiftl (Z.land x 0x00000000FF000000) 8)))
    (Z.shiftr (Z.land x 0x000000FF00000000) 8))
    (Z.shiftr (Z.land x 0x0000FF0000000000) 24))
    (Z.shiftr (Z.land x 0x00FF000000000000) 40))
    (Z.shiftr (Z.land x 0xFF00000000000000) 56).

Definition clz_step (mask k : Z) (st : Z * Z) : Z * Z :=
  let '(n, x) := st in
  if Z.land x mask =? 0 then (n + k, wrap64 (Z.shiftl x k)) else (n, x).

Definition clz64 (x : Z) : Z :=
  if x =? 0 then 64 else
  let st := (0, x) in
  let st := clz_step 0xFFFFFFFF00000000 32 st in
  let st := clz_step 0xFFFF000000000000 16 st in
  let st := clz_step 0xFF00000000000000 8 st in
  let st := clz_step 0xF000000000000000 4 st in
  let st := clz_step 0xC000000000000000 2 st in
  let '(n, x) := st in
  if Z.land x 0x8000000000000000 =? 0 then n + 1 else n.

(** ** Strings and items *)

Definition cstring := list Z.

Definition nul_free (s : cstring) : Prop := Forall (fun b => 0 < b < 256) s.

Definition bytes_ok (s : list Z) : Prop := Forall (fun b => 0 <= b < 256) s.

Definition strlen (s : cstring) : Z := Z.of_nat (length s).

(** [s[off]]: a byte of the string, the terminator at [strlen s], and a
    fault anywhere else. *)
Definition char_at (s : cstring) (off : Z) : outcome Z :=
  if off <? 0 then Fault
  else match s !! Z.to_nat off with
       | Some b => Done b
       | None => if off =? strlen s then Done 0 else Fault
       end.

Record StringItem : Type := mkItem { ptr : cstring; cache : Z }.

(** [memcpy(&raw, buf, 8)] on a little-endian machine. *)
Fixpoint load_le (buf : list Z) : Z :=
  match buf with
  | [] => 0
  | b :: rest => b + 256 * load_le rest
  end.

Definition refresh_cache (item : StringItem) (depth : Z) : StringItem :=
  let str := ptr item in
  let len := strlen str in
  if len <=? depth then mkItem str 0
  else
    let start := drop (Z.to_nat depth) str in
    let remaining := len - depth in
    let copy_len := if remaining <? 8 then remaining else 8 in
    let buf := take (Z.to_nat copy_len) start
               ++ replicate (8 - Z.to_nat copy_len)%nat 0 in
    let raw := load_le buf in
    mkItem str (bswap64 raw).

(** ** Specification-level notions *)

(** Lexicographic comparison under unsigned byte values. *)
Fixpoint lex_compare (u v : list Z) : comparison :=
  match u, v with
  | [], [] => Eq
  | [], _ :: _ => Lt
  | _ :: _, [] => Gt
  | a :: u', b :: v' =>
      match a ?= b with
      | Eq => lex_compare u' v'
      | c => c
      end
  end.

Definition lex_le (u v : list Z) : Prop := lex_compare u v <> Gt.

(** Number of leading positions on which two byte lists agree. *)
Fixpoint lcp (u v : list Z) : nat :=
  match u, v with
  | a :: u', b :: v' => if a =? b then S (lcp u' v') else O
  | _, _ => O
  end.

(** Big-endian packing: first byte most significant. *)
Fixpoint load_be (bs : list Z) : Z :=
  match bs with
  | [] => 0
  | b :: rest => b * 256 ^ Z.of_nat (length rest) + load_be rest
  end.

(** The [n]-byte slice of a string suffix, zero-filled on the right. *)
Definition padn (n : nat) (u : list Z) : list Z :=
  take n u ++ replicate (n - length u)%nat 0.

Definition pad8 (u : list Z) : list Z := padn 8 u.

(** The window the specification asks for: the zero-padded 8-byte slice of
    [s] at offset [d], first byte most significant. *)
Definition load_window (s : cstring) (d : Z) : Z :=
  load_be (pad8 (drop (Z.to_nat d) s)).

(** Byte [j] of a word, [j = 0] the least significant. *)
Definition byte_of (x j : Z) : Z := (x / 2 ^ (8 * j)) mod 256.

(** The bytes of [s] from offset [d] on. *)
Definition suffix (s : cstring) (d : Z) : list Z := drop (Z.to_nat d) s.

(** An item whose window reflects its string at depth [d]. *)
Definition item_ok (d : Z) (x : StringItem) : Prop :=
  nul_free (ptr x) /\ cache x = load_window (ptr x) d.

(** The eight bytes of a 64-bit window, most significant first. *)
Definition window_bytes (w : Z) : list Z :=
  map (fun i => (w / 2 ^ (8 * (7 - Z.of_nat i))) mod 256) (seq 0 8).

(** ** The comparator *)

(** [while (s1[k] && s2[k] && s1[k] == s2[k]) k++;] with [s1 = a + off],
    [s2 = b + off]. *)
Fixpoint scan_equal (fuel : nat) (a b : cstring) (off k : Z) : outcome Z :=
  match fuel with
  | O => OutOfFuel
  | S fuel' =>
      c1 ← char_at a (off + k);
      if c1 =? 0 then Done k else
      c2 ← char_at b (off + k);
      if c2 =? 0 then Done k else
      if c1 =? c2 then scan_equal fuel' a b off (k + 1) else Done k
  end.

(** Result: [(cmp, match_len)]. *)
Definition compare_and_count (a b : StringItem) (depth : Z) : outcome (Z * Z) :=
  if negb (cache a =? cache b) then
    let diff := Z.lxor (cache a) (cache b) in
    let leading_zeros := clz64 diff in
    Done (if cache a <? cache b then -1 else 1, leading_zeros / 8)
  else
    let off := depth + 8 in
    k ← scan_equal (S (length (ptr a))) (ptr a) (ptr b) off 0;
    c1 ← char_at (ptr a) (off + k);
    c2 ← char_at (ptr b) (off + k);
    Done (c1 - c2, 8 + k).

(** The C++ comparator tests [<] and [>] in turn instead of [!=]. *)
Definition compare_and_count_cpp (a b : StringItem) (depth : Z) : outcome (Z * Z) :=
  if cache a <? cache b then
    let diff := Z.lxor (cache a) (cache b) in
    Done (-1, clz64 diff / 8)
  else if cache a >? cache b then
    let diff := Z.lxor (cache a) (cache b) in
    Done (1, clz64 diff / 8)
  else
    let off := depth + 8 in
    k ← scan_equal (S (length (ptr a))) (ptr a) (ptr b) off 0;
    c1 ← char_at (ptr a) (off + k);
    c2 ← char_at (ptr b) (off + k);
    Done (c1 - c2, 8 + k).

(** What a comparison returns, in terms of the two suffixes at [depth]. *)
Definition compare_post (a b : StringItem) (depth : Z) (r : outcome (Z * Z)) : Prop :=
  match r with
  | Done (cmp, match_len) =>
      (cmp ?= 0) = lex_compare (suffix (ptr a) depth) (suffix (ptr b) depth)
      /\ match_len = Z.of_nat (lcp (suffix (ptr a) depth) (suffix (ptr b) depth))
  | Fault =>
      cache a = cache b /\ strlen (ptr a) < depth + 8
      /\ suffix (ptr a) depth = suffix (ptr b) depth
  | OutOfFuel => False
  end.

Definition INT_MAX : Z := 2147483647.

(** ** The item array *)

Definition array_get (arr : list StringItem) (i : nat) : outcome StringItem :=
  match arr !! i with
  | Some x => Done x
  | None => Fault
  end.

Definition swap_items (arr : list StringItem) (i j : nat) : outcome (list StringItem) :=
  a ← array_get arr i;
  b ← array_get arr j;
  Done (<[j := a]> (<[i := b]> arr)).

(** [for (k = lo; k <= hi; k++) refresh_cache(&arr[k], depth);] with
    [count = hi + 1 - lo] iterations left. *)
Fixpoint refresh_loop (count : nat) (arr : list StringItem) (k : nat) (depth : Z)
  : list StringItem :=
  match count with
  | O => arr
  | S count' =>
      let arr := match arr !! k with
                 | Some x => <[k := refresh_cache x depth]> arr
                 | None => arr
                 end in
      refresh_loop count' arr (S k) depth
  end.

Definition refresh_range (arr : list StringItem) (lo hi : nat) (depth : Z) : list StringItem :=
  refresh_loop (S hi - lo) arr lo depth.


(** ** Partition with integrated prefix tracking *)

Fixpoint scan_left (fuel : nat) (arr : list StringItem) (pivot : StringItem) (depth : Z)
    (i j : nat) (min_common : Z) : outcome (nat * Z) :=
  match fuel with
  | O => OutOfFuel
  | S fuel' =>
      if (i <=? j)%nat then
        x ← array_get arr i;
        '(cmp, match_len) ← compare_and_count x pivot depth;
        let min_common := if match_len <? min_common then match_len else min_common in
        if cmp >=? 0 then Done (i, min_common)
        else scan_left fuel' arr pivot depth (S i) j min_common
      else Done (i, min_common)
  end.

Fixpoint scan_right (fuel : nat) (arr : list StringItem) (pivot : StringItem) (depth : Z)
    (i j : nat) (min_common : Z) : outcome (nat * Z) :=
  match fuel with
  | O => OutOfFuel
  | S fuel' =>
      if (i <=? j)%nat then
        x ← array_get arr j;
        '(cmp, match_len) ← compare_and_count x pivot depth;
        let min_common := if match_len <? min_common then match_len else min_common in
        if cmp <=? 0 then Done (j, min_common)
        else scan_right fuel' arr pivot depth i (j - 1)%nat min_common
      else Done (j, min_common)
  end.

Fixpoint partition_loop (fuel : nat) (arr : list StringItem) (pivot : StringItem) (depth : Z)
    (i j : nat) (min_common : Z) : outcome (list StringItem * nat * Z) :=
  match fuel with
  | O => OutOfFuel
  | S fuel' =>
      '(i, min_common) ← scan_left (S (S j - i)) arr pivot depth i j min_common;
      '(j, min_common) ← scan_right (S (S j - i)) arr pivot depth i j min_common;
      if (i <=? j)%nat then
        arr ← swap_items arr i j;
        partition_loop fuel' arr pivot depth (S i) (j - 1)%nat min_common
      else Done (arr, j, min_common)
  end.

(** ** Ghost instrumentation of the partition

    The same loops, also returning the list of the comparisons they
    performed: the item compared against the pivot and the match length the
    comparator reported. *)

Definition comparisons := list (StringItem * Z).

Fixpoint scan_left_tr (fuel : nat) (arr : list StringItem) (pivot : StringItem) (depth : Z)
    (i j : nat) (min_common : Z) : outcome (nat * Z * comparisons) :=
  match fuel with
  | O => OutOfFuel
  | S fuel' =>
      if (i <=? j)%nat then
        x ← array_get arr i;
        '(cmp, match_len) ← compare_and_count x pivot depth;
        let min_common := if match_len <? min_common then match_len else min_common in
        if cmp >=? 0 then Done (i, min_common, [(x, match_len)])
        else
          '(i', mc', log) ← scan_left_tr fuel' arr pivot depth (S i) j min_common;
          Done (i', mc', (x, match_len) :: log)
      else Done (i, min_common, [])
  end.

Fixpoint scan_right_tr (fuel : nat) (arr : list StringItem) (pivot : StringItem) (depth : Z)
    (i j : nat) (min_common : Z) : outcome (nat * Z * comparisons) :=
  match fuel with
  | O => OutOfFuel
  | S fuel' =>
      if (i <=? j)%nat then
        x ← array_get arr j;
        '(cmp, match_len) ← compare_and_count x pivot depth;
        let min_common := if match_len <? min_common then match_len else min_common in
        if cmp <=? 0 then Done (j, min_common, [(x, match_len)])
        else
          '(j', mc', log) ← scan_right_tr fuel' arr pivot depth i (j - 1)%nat min_common;
          Done (j', mc', (x, match_len) :: log)
      else Done (j, min_common, [])
  end.

Fixpoint partition_loop_tr (fuel : nat) (arr : list StringItem) (pivot : StringItem)
    (depth : Z) (i j : nat) (min_common : Z)
  : outcome (list StringItem * nat * Z * comparisons) :=
  match fuel with
  | O => OutOfFuel
  | S fuel' =>
      '(i, min_common, log1) ← scan_left_tr (S (S j - i)) arr pivot depth i j min_common;
      '(j, min_common, log2) ← scan_right_tr (S (S j - i)) arr pivot depth i j min_common;
      if (i <=? j)%nat then
        arr ← swap_items arr i j;
        '(arr, j', mc', log3) ←
          partition_loop_tr fuel' arr pivot depth (S i) (j - 1)%nat min_common;
        Done (arr, j', mc', log1 ++ log2 ++ log3)
      else Done (arr, j, min_common, log1 ++ log2)
  end.

Definition drop_log {A : Type} (r : A * comparisons) : A := fst r.

(** ** Predicates of the correctness argument *)

Definition in_range {A : Type} (arr : list A) (lo hi : nat) (x : A) : Prop :=
  exists k, (lo <= k <= hi)%nat /\ arr !! k = Some x.

Definition range_ok (depth : Z) (arr : list StringItem) (lo hi : nat) : Prop :=
  forall k, (lo <= k <= hi)%nat -> exists x, arr !! k = Some x /\ item_ok depth x.

(** [arr'] is [arr] with the elements at positions [lo..hi] rearranged. *)
Definition moved {A : Type} (lo hi : nat) (arr arr' : list A) : Prop :=
  length arr' = length arr
  /\ (forall k, ~ (lo <= k <= hi)%nat -> arr' !! k = arr !! k)
  /\ (forall x, in_range arr' lo hi x -> in_range arr lo hi x)
  /\ arr' ≡ₚ arr.

(** Position of an item relative to the pivot, on the suffixes at [depth]. *)
Definition cmp_pivot (depth : Z) (pivot x : StringItem) : comparison :=
  lex_compare (suffix (ptr x) depth) (suffix (ptr pivot) depth).

(** Number of bytes beyond [depth] that an item shares with the pivot. *)
Definition shared (depth : Z) (pivot x : StringItem) : Z :=
  Z.of_nat (lcp (suffix (ptr x) depth) (suffix (ptr pivot) depth)).

(** The one way a comparison faults: the item equals the pivot from
    [depth] on and ends before [depth + 8]. *)
Definition short_twin (depth : Z) (pivot x : StringItem) : Prop :=
  suffix (ptr x) depth = suffix (ptr pivot) depth /\ strlen (ptr x) < depth + 8.

(** ** Postconditions of the loops *)

Definition scan_left_post (pivot : StringItem) (depth : Z) (arr : list StringItem) (i j : nat) (mc : Z)
    (r : outcome (nat * Z * comparisons)) : Prop :=
  match r with
  | Done (i', mc', log) =>
      (i <= i')%nat /\ ((i <= S j)%nat -> (i' <= S j)%nat)
      /\ (forall k x, (i <= k < i')%nat -> arr !! k = Some x ->
                      cmp_pivot depth pivot x = Lt)
      /\ ((i' <= j)%nat ->
          exists x, arr !! i' = Some x /\ cmp_pivot depth pivot x <> Lt)
      /\ (forall k x, (i <= k <= j)%nat -> (k <= i')%nat -> arr !! k = Some x ->
                      (x, shared depth pivot x) ∈ log)
      /\ (forall e, e ∈ log -> in_range arr i j e.1 /\ e.2 = shared depth pivot e.1)
      /\ mc' = foldr Z.min mc (map snd log)
  | Fault => exists x, in_range arr i j x /\ short_twin depth pivot x
  | OutOfFuel => False
  end.

Definition scan_right_post (pivot : StringItem) (depth : Z) (arr : list StringItem) (i j : nat) (mc : Z)
    (r : outcome (nat * Z * comparisons)) : Prop :=
  match r with
  | Done (j', mc', log) =>
      (j' <= j)%nat /\ ((i <= S j)%nat -> (i <= S j')%nat)
      /\ ((j < i)%nat -> j' = j)
      /\ (forall k x, (j' < k <= j)%nat -> arr !! k = Some x ->
                      cmp_pivot depth pivot x = Gt)
      /\ ((i <= j')%nat ->
          exists x, arr !! j' = Some x /\ cmp_pivot depth pivot x <> Gt)
      /\ (forall k x, (i <= k <= j)%nat -> (j' <= k)%nat -> arr !! k = Some x ->
                      (x, shared depth pivot x) ∈ log)
      /\ (forall e, e ∈ log -> in_range arr i j e.1 /\ e.2 = shared depth pivot e.1)
      /\ mc' = foldr Z.min mc (map snd log)
  | Fault => exists x, in_range arr i j x /\ short_twin depth pivot x
  | OutOfFuel => False
  end.

Definition partition_loop_post (pivot : StringItem) (depth : Z) (arr : list StringItem)
    (i j : nat) (mc : Z) (r : outcome (list StringItem * nat * Z * comparisons)) : Prop :=
  match r with
  | Done (arr', j', mc', log) =>
      (j' <= j)%nat /\ ((i <= S j)%nat -> (i <= S j')%nat)
      /\ ((j < i)%nat -> j' = j)
      /\ moved i j arr arr'
      /\ (forall k x, (i <= k <= j')%nat -> arr' !! k = Some x ->
                      cmp_pivot depth pivot x <> Gt)
      /\ (forall k x, (j' < k <= j)%nat -> arr' !! k = Some x ->
                      cmp_pivot depth pivot x <> Lt)
      /\ (forall x, in_range arr' i j x -> (x, shared depth pivot x) ∈ log)
      /\ (forall e, e ∈ log -> in_range arr i j e.1 /\ e.2 = shared depth pivot e.1)
      /\ mc' = foldr Z.min mc (map snd log)
  | Fault => exists x, in_range arr i j x /\ short_twin depth pivot x
  | OutOfFuel => False
  end.

(** The minimum match length over a list of comparisons, as the partition
    reports it ([INT_MAX] means that nothing was compared). *)
Definition min_match_len (log : comparisons) : Z :=
  let m := foldr Z.min INT_MAX (map snd log) in
  if m =? INT_MAX then 0 else m.

Definition partition_post {tape : Type} (depth : Z) (arr : list StringItem) (low high : nat)
    (r : outcome (list StringItem * nat * Z * tape * comparisons)) : Prop :=
  match r with
  | Done (arr', j, mc, _, log) =>
      (low <= j <= high)%nat /\ moved low high arr arr'
      /\ exists pivot,
          arr' !! j = Some pivot
          /\ (forall k x, (low <= k < j)%nat -> arr' !! k = Some x ->
                          cmp_pivot depth pivot x <> Gt)
          /\ (forall k x, (j < k <= high)%nat -> arr' !! k = Some x ->
                          cmp_pivot depth pivot x <> Lt)
          /\ (forall k x, (low <= k <= high)%nat -> k <> j -> arr' !! k = Some x ->
                          (x, shared depth pivot x) ∈ log)
          /\ (forall e, e ∈ log -> in_range arr low high e.1
                                   /\ e.2 = shared depth pivot e.1)
          /\ mc = min_match_len log
  | Fault =>
      exists kp kx pv x,
        (low <= kp <= high)%nat /\ (low <= kx <= high)%nat /\ kp <> kx
        /\ arr !! kp = Some pv /\ arr !! kx = Some x /\ short_twin depth pv x
  | OutOfFuel => False
  end.

(** [arr'] holds the same strings as [arr], those of positions [lo..hi]
    rearranged among themselves (their windows may differ). *)
Definition same_strings (lo hi : nat) (arr arr' : list StringItem) : Prop :=
  length arr' = length arr
  /\ (forall k, ~ (lo <= k <= hi)%nat -> arr' !! k = arr !! k)
  /\ (forall x', in_range arr' lo hi x' ->
                 exists x, in_range arr lo hi x /\ ptr x = ptr x')
  /\ map ptr arr' ≡ₚ map ptr arr.

Definition sorted_range (lo hi : nat) (arr : list StringItem) : Prop :=
  forall k1 k2 x y, (lo <= k1)%nat -> (k1 <= k2)%nat -> (k2 <= hi)%nat ->
    arr !! k1 = Some x -> arr !! k2 = Some y -> lex_le (ptr x) (ptr y).

(** All strings of the range agree on their first [d] bytes. *)
Definition prefix_eq (d : Z) (arr : list StringItem) (lo hi : nat) : Prop :=
  forall x y, in_range arr lo hi x -> in_range arr lo hi y ->
    take (Z.to_nat d) (ptr x) = take (Z.to_nat d) (ptr y).

(** What [sort_range] relies on when it starts on [lo..hi] at depth [d]. *)
Definition sort_pre (d : Z) (arr : list StringItem) (lo hi : nat) : Prop :=
  0 <= d /\ range_ok d arr lo hi /\ prefix_eq d arr lo hi.

Definition sort_post {tape : Type} (arr : list StringItem) (lo hi : nat)
    (r : outcome (list StringItem * tape)) : Prop :=
  match r with
  | Done (arr', _) => same_strings lo hi arr arr' /\ sorted_range lo hi arr'
  | Fault => ~ NoDup (map ptr arr)
  | OutOfFuel => False
  end.

(** A call of the recursive driver: the array it finds and its arguments
    [low], [high], [depth]. *)
Definition call : Type := list StringItem * nat * nat * Z.

(** The window invariant at a call: on a range of two or more items, every
    item holds the window of its string at the depth of the call. *)
Definition windows_valid (c : call) : Prop :=
  let '(arr, lo, hi, d) := c in
  (lo < hi)%nat ->
  0 <= d /\ forall k, (lo <= k <= hi)%nat ->
              exists x, arr !! k = Some x /\ cache x = load_window (ptr x) d.

(** What a call relies on: the precondition of [sort_range] on its range. *)
Definition call_pre (c : call) : Prop :=
  let '(arr, lo, hi, d) := c in (lo < hi)%nat -> sort_pre d arr lo hi.

Section Cached.
Context {tape : Type}.
Variable pick : tape -> nat -> nat -> nat * tape.

Definition partition (t : tape) (arr : list StringItem) (low high : nat) (depth : Z)
  : outcome (list StringItem * nat * Z * tape) :=
  let '(p, t) := pick t low high in
  arr ← swap_items arr low p;
  pivot ← array_get arr low;
  '(arr, j, min_common) ←
    partition_loop (S (high - low)) arr pivot depth (S low) high INT_MAX;
  arr ← swap_items arr low j;
  let min_common := if min_common =? INT_MAX then 0 else min_common in
  Done (arr, j, min_common, t).

Definition partition_tr (t : tape) (arr : list StringItem) (low high : nat) (depth : Z)
  : outcome (list StringItem * nat * Z * tape * comparisons) :=
  let '(p, t) := pick t low high in
  arr ← swap_items arr low p;
  pivot ← array_get arr low;
  '(arr, j, min_common, log) ←
    partition_loop_tr (S (high - low)) arr pivot depth (S low) high INT_MAX;
  arr ← swap_items arr low j;
  let min_common := if min_common =? INT_MAX then 0 else min_common in
  Done (arr, j, min_common, t, log).

Fixpoint sort_range (fuel : nat) (t : tape) (arr : list StringItem) (low high : nat)
    (depth : Z) : outcome (list StringItem * tape) :=
  match fuel with
  | O => OutOfFuel
  | S fuel' =>
      if (high <=? low)%nat then Done (arr, t) else
      '(arr, j, min_common, t) ← partition t arr low high depth;
      let new_depth := depth + min_common in
      '(arr, t) ←
        (if (low <? j - 1)%nat then
           let arr := if new_depth >? depth
                      then refresh_range arr low (j - 1) new_depth else arr in
           sort_range fuel' t arr low (j - 1)%nat new_depth
         else Done (arr, t));
      if (j + 1 <? high)%nat then
        let arr := if new_depth >? depth
                   then refresh_range arr (j + 1) high new_depth else arr in
        sort_range fuel' t arr (j + 1)%nat high new_depth
      else Done (arr, t)
  end.

(** [sort_range] instrumented with the calls it makes: the same function,
    which also returns, in the order in which they begin, the array and
    the arguments [(arr, low, high, depth)] every call finds on entry (its
    own, then those of the left recursion, then those of the right one).
    A run that faults returns the calls begun until then. *)
Fixpoint sort_range_calls (fuel : nat) (t : tape) (arr : list StringItem) (low high : nat)
    (depth : Z) : list call * outcome (list StringItem * tape) :=
  match fuel with
  | O => ([], OutOfFuel)
  | S fuel' =>
      let here := (arr, low, high, depth) in
      if (high <=? low)%nat then ([here], Done (arr, t)) else
      match partition t arr low high depth with
      | Done (arr, j, min_common, t) =>
          let new_depth := depth + min_common in
          let '(calls_left, res_left) :=
            if (low <? j - 1)%nat then
              let arr := if new_depth >? depth
                         then refresh_range arr low (j - 1) new_depth else arr in
              sort_range_calls fuel' t arr low (j - 1)%nat new_depth
            else ([], Done (arr, t)) in
          match res_left with
          | Done (arr, t) =>
              let '(calls_right, res_right) :=
                if (j + 1 <? high)%nat then
                  let arr := if new_depth >? depth
                             then refresh_range arr (j + 1) high new_depth else arr in
                  sort_range_calls fuel' t arr (j + 1)%nat high new_depth
                else ([], Done (arr, t)) in
              (here :: calls_left ++ calls_right, res_right)
          | Fault => (here :: calls_left, Fault)
          | OutOfFuel => (here :: calls_left, OutOfFuel)
          end
      | Fault => ([here], Fault)
      | OutOfFuel => ([here], OutOfFuel)
      end
  end.

(** The pivot rule draws over the whole range: every index of [low..high]
    is chosen for some state of the random source. *)
Definition random_over_range : Prop :=
  forall low high p, (low <= p <= high)%nat -> exists t, fst (pick t low high) = p.

(** The contract of [sort_range] for a given loop budget. *)
Definition sort_range_ok (fuel : nat) : Prop :=
  forall (t : tape) (arr : list StringItem) (low high : nat) (d : Z),
    ((low < high)%nat -> sort_pre d arr low high) -> (high - low < fuel)%nat ->
    sort_post arr low high (sort_range fuel t arr low high d).
End Cached.

(** C: [int mid = low + (high - low) / 2;] *)
Definition pick_mid (t : unit) (low high : nat) : nat * unit :=
  ((low + (high - low) / 2)%nat, t).

(** C++: [low + (rand() % (high - low + 1))]; the tape is the sequence of
    values [rand()] returns from now on. *)
Definition rand_tape := nat -> nat.
Definition rand (t : rand_tape) : nat * rand_tape := (t O, fun n => t (S n)).
Definition pick_rand (t : rand_tape) (low high : nat) : nat * rand_tape :=
  let '(r, t) := rand t in ((low + r mod (high - low + 1))%nat, t).


Definition orasort_recursive (arr : list StringItem) (low high : nat) (depth : Z)
  : outcome (list StringItem) :=
  fst <$> sort_range pick_mid (S (high - low)) tt arr low high depth.

Definition sort_recursive (t : rand_tape) (arr : list StringItem) (low high : nat) (depth : Z)
  : outcome (list StringItem * rand_tape) :=
  sort_range pick_rand (S (high - low)) t arr low high depth.

(** [items[i].ptr = strings[i]; refresh_cache(&items[i], 0);] *)
Definition init_items (strings : list cstring) : list StringItem :=
  map (fun s => refresh_cache (mkItem s 0) 0) strings.

(** [optimized_orasort(strings, n)] with [n] the length of [strings];
    [malloc_ok] tells whether [malloc] returned a block.  The result is the
    caller's array after the call: the function itself returns [void]. *)
Definition optimized_orasort (malloc_ok : bool) (strings : list cstring)
  : outcome (list cstring) :=
  let n := length strings in
  if (n <=? 1)%nat then Done strings
  else if negb malloc_ok then Done strings
  else
    let items := init_items strings in
    items ← orasort_recursive items 0 (n - 1) 0;
    Done (map ptr items).

(** [OptimizedOrasort::sort(data)].  The write-back [data[i] = items[i].ptr]
    rebuilds each string from its C string: the string itself, as the
    strings of [data] hold no NUL byte. *)
Definition OptimizedOrasort_sort (t : rand_tape) (data : list cstring)
  : outcome (list cstring * rand_tape) :=
  if (length data =? 0)%nat then Done (data, t)
  else
    let items := init_items data in
    '(items, t) ← sort_recursive t items 0 (length items - 1) 0;
    Done (map ptr items, t).

(** ** Runs that go on after a read outside a buffer

    [compare_and_count] starts its scan at [ptr + depth + 8] without looking
    at the length of the strings ([char_at] marks the read as a [Fault] when
    that offset lies past a terminator).  The compiled program does not stop
    there: the loop reads the bytes that happen to lie behind the two
    buffers, ends after some number [k] of steps, and the comparison goes on
    with the two bytes [*s1], [*s2] the loop stopped at.  In the definitions
    of this section a scan that starts inside both buffers is [scan_equal],
    and a scan that starts outside one of them takes [k], [*s1] and [*s2]
    from a tape of arbitrary values, one entry for every such scan (a run
    that the hardware stops at such a read is the [Fault] of the checked
    run).  Everything else is the code of the functions above. *)

Definition stray_tape := nat -> nat * Z * Z.
Definition stray (g : stray_tape) : nat * Z * Z * stray_tape := (g O, fun n => g (S n)).

(** Result: [(cmp, match_len)] and the rest of the tape. *)
Definition compare_and_count_raw (g : stray_tape) (a b : StringItem) (depth : Z)
  : outcome (Z * Z * stray_tape) :=
  if negb (cache a =? cache b) then
    let diff := Z.lxor (cache a) (cache b) in
    let leading_zeros := clz64 diff in
    Done (if cache a <? cache b then -1 else 1, leading_zeros / 8, g)
  else
    let off := depth + 8 in
    if (off <=? strlen (ptr a)) && (off <=? strlen (ptr b)) then
      k ← scan_equal (S (length (ptr a))) (ptr a) (ptr b) off 0;
      c1 ← char_at (ptr a) (off + k);
      c2 ← char_at (ptr b) (off + k);
      Done (c1 - c2, 8 + k, g)
    else
      let '(k, c1, c2, g) := stray g in
      Done (c1 - c2, 8 + Z.of_nat k, g).

(** The C++ comparator, with its tests [<] and [>]. *)
Definition compare_and_count_cpp_raw (g : stray_tape) (a b : StringItem) (depth : Z)
  : outcome (Z * Z * stray_tape) :=
  if cache a <? cache b then
    let diff := Z.lxor (cache a) (cache b) in
    Done (-1, clz64 diff / 8, g)
  else if cache a >? cache b then
    let diff := Z.lxor (cache a) (cache b) in
    Done (1, clz64 diff / 8, g)
  else
    let off := depth + 8 in
    if (off <=? strlen (ptr a)) && (off <=? strlen (ptr b)) then
      k ← scan_equal (S (length (ptr a))) (ptr a) (ptr b) off 0;
      c1 ← char_at (ptr a) (off + k);
      c2 ← char_at (ptr b) (off + k);
      Done (c1 - c2, 8 + k, g)
    else
      let '(k, c1, c2, g) := stray g in
      Done (c1 - c2, 8 + Z.of_nat k, g).

Fixpoint scan_left_raw (fuel : nat) (g : stray_tape) (arr : list StringItem)
    (pivot : StringItem) (depth : Z) (i j : nat) (min_common : Z)
  : outcome (nat * Z * stray_tape) :=
  match fuel with
  | O => OutOfFuel
  | S fuel' =>
      if (i <=? j)%nat then
        x ← array_get arr i;
        '(cmp, match_len, g) ← compare_and_count_raw g x pivot depth;
        let min_common := if match_len <? min_common then match_len else min_common in
        if cmp >=? 0 then Done (i, min_common, g)
        else scan_left_raw fuel' g arr pivot depth (S i) j min_common
      else Done (i, min_common, g)
  end.

Fixpoint scan_right_raw (fuel : nat) (g : stray_tape) (arr : list StringItem)
    (pivot : StringItem) (depth : Z) (i j : nat) (min_common : Z)
  : outcome (nat * Z * stray_tape) :=
  match fuel with
  | O => OutOfFuel
  | S fuel' =>
      if (i <=? j)%nat then
        x ← array_get arr j;
        '(cmp, match_len, g) ← compare_and_count_raw g x pivot depth;
        let min_common := if match_len <? min_common then match_len else min_common in
        if cmp <=? 0 then Done (j, min_common, g)
        else scan_right_raw fuel' g arr pivot depth i (j - 1)%nat min_common
      else Done (j, min_common, g)
  end.

Fixpoint partition_loop_raw (fuel : nat) (g : stray_tape) (arr : list StringItem)
    (pivot : StringItem) (depth : Z) (i j : nat) (min_common : Z)
  : outcome (list StringItem * nat * Z * stray_tape) :=
  match fuel with
  | O => OutOfFuel
  | S fuel' =>
      '(i, min_common, g) ← scan_left_raw (S (S j - i)) g arr pivot depth i j min_common;
      '(j, min_common, g) ← scan_right_raw (S (S j - i)) g arr pivot depth i j min_common;
      if (i <=? j)%nat then
        arr ← swap_items arr i j;
        partition_loop_raw fuel' g arr pivot depth (S i) (j - 1)%nat min_common
      else Done (arr, j, min_common, g)
  end.

(** The match length [mc] is safe for the item [x]: [x] shares at least
    [mc] bytes beyond [depth] with the pivot, or is the pivot's string from
    [depth] on. *)
Definition covered (depth : Z) (pivot : StringItem) (mc : Z) (x : StringItem) : Prop :=
  mc <= shared depth pivot x \/ suffix (ptr x) depth = suffix (ptr pivot) depth.

(** What a partition step of such a run establishes. *)
Definition partition_raw_post {tape : Type} (depth : Z) (arr : list StringItem)
    (low high : nat)
    (r : outcome (list StringItem * nat * Z * tape * stray_tape)) : Prop :=
  match r with
  | Done (arr', j, mc, _, _) =>
      (low <= j <= high)%nat /\ moved low high arr arr' /\ 0 <= mc
      /\ exists pivot,
          arr' !! j = Some pivot
          /\ (forall k x, (low <= k < j)%nat -> arr' !! k = Some x ->
                          cmp_pivot depth pivot x <> Gt)
          /\ (forall k x, (j < k <= high)%nat -> arr' !! k = Some x ->
                          cmp_pivot depth pivot x <> Lt)
          /\ (forall k x, (low <= k <= high)%nat -> k <> j -> arr' !! k = Some x ->
                          covered depth pivot mc x)
  | _ => False
  end.

(** Such a run always returns, with the range sorted. *)
Definition sort_raw_post {tape : Type} (arr : list StringItem) (lo hi : nat)
    (r : outcome (list StringItem * tape * stray_tape)) : Prop :=
  match r with
  | Done (arr', _, _) => same_strings lo hi arr arr' /\ sorted_range lo hi arr'
  | _ => False
  end.

Section CachedRaw.
Context {tape : Type}.
Variable pick : tape -> nat -> nat -> nat * tape.

Definition partition_raw (t : tape) (g : stray_tape) (arr : list StringItem)
    (low high : nat) (depth : Z)
  : outcome (list StringItem * nat * Z * tape * stray_tape) :=
  let '(p, t) := pick t low high in
  arr ← swap_items arr low p;
  pivot ← array_get arr low;
  '(arr, j, min_common, g) ←
    partition_loop_raw (S (high - low)) g arr pivot depth (S low) high INT_MAX;
  arr ← swap_items arr low j;
  let min_common := if min_common =? INT_MAX then 0 else min_common in
  Done (arr, j, min_common, t, g).

Fixpoint sort_range_raw (fuel : nat) (t : tape) (g : stray_tape) (arr : list StringItem)
    (low high : nat) (depth : Z) : outcome (list StringItem * tape * stray_tape) :=
  match fuel with
  | O => OutOfFuel
  | S fuel' =>
      if (high <=? low)%nat then Done (arr, t, g) else
      '(arr, j, min_common, t, g) ← partition_raw t g arr low high depth;
      let new_depth := depth + min_common in
      '(arr, t, g) ←
        (if (low <? j - 1)%nat then
           let arr := if new_depth >? depth
                      then refresh_range arr low (j - 1) new_depth else arr in
           sort_range_raw fuel' t g arr low (j - 1)%nat new_depth
         else Done (arr, t, g));
      if (j + 1 <? high)%nat then
        let arr := if new_depth >? depth
                   then refresh_range arr (j + 1) high new_depth else arr in
        sort_range_raw fuel' t g arr (j + 1)%nat high new_depth
      else Done (arr, t, g)
  end.

(** [sort_range_raw] instrumented with the calls it makes, as
    [sort_range_calls] is for [sort_range]. *)
Fixpoint sort_range_raw_calls (fuel : nat) (t : tape) (g : stray_tape)
    (arr : list StringItem) (low high : nat) (depth : Z)
  : list call * outcome (list StringItem * tape * stray_tape) :=
  match fuel with
  | O => ([], OutOfFuel)
  | S fuel' =>
      let here := (arr, low, high, depth) in
      if (high <=? low)%nat then ([here], Done (arr, t, g)) else
      match partition_raw t g arr low high depth with
      | Done (arr, j, min_common, t, g) =>
          let new_depth := depth + min_common in
          let '(calls_left, res_left) :=
            if (low <? j - 1)%nat then
              let arr := if new_depth >? depth
                         then refresh_range arr low (j - 1) new_depth else arr in
              sort_range_raw_calls fuel' t g arr low (j - 1)%nat new_depth
            else ([], Done (arr, t, g)) in
          match res_left with
          | Done (arr, t, g) =>
              let '(calls_right, res_right) :=
                if (j + 1 <? high)%nat then
                  let arr := if new_depth >? depth
                             then refresh_range arr (j + 1) high new_depth else arr in
                  sort_range_raw_calls fuel' t g arr (j + 1)%nat high new_depth
                else ([], Done (arr, t, g)) in
              (here :: calls_left ++ calls_right, res_right)
          | Fault => (here :: calls_left, Fault)
          | OutOfFuel => (here :: calls_left, OutOfFuel)
          end
      | Fault => ([here], Fault)
      | OutOfFuel => ([here], OutOfFuel)
      end
  end.

(** The contract of [sort_range_raw] for a given loop budget. *)
Definition sort_range_raw_ok (fuel : nat) : Prop :=
  forall (t : tape) (g : stray_tape) (arr : list StringItem) (low high : nat) (d : Z),
    ((low < high)%nat -> sort_pre d arr low high) -> (high - low < fuel)%nat ->
    sort_raw_post arr low high (sort_range_raw fuel t g arr low high d).
End CachedRaw.

Definition orasort_recursive_raw (g : stray_tape) (arr : list StringItem) (low high : nat)
    (depth : Z) : outcome (list StringItem) :=
  (fun r => fst (fst r)) <$> sort_range_raw pick_mid (S (high - low)) tt g arr low high depth.

Definition sort_recursive_raw (t : rand_tape) (g : stray_tape) (arr : list StringItem)
    (low high : nat) (depth : Z) : outcome (list StringItem * rand_tape * stray_tape) :=
  sort_range_raw pick_rand (S (high - low)) t g arr low high depth.

(** [optimized_orasort(strings, n)], the caller's array after the call. *)
Definition optimized_orasort_raw (malloc_ok : bool) (g : stray_tape) (strings : list cstring)
  : outcome (list cstring) :=
  let n := length strings in
  if (n <=? 1)%nat then Done strings
  else if negb malloc_ok then Done strings
  else
    let items := init_items strings in
    items ← orasort_recursive_raw g items 0 (n - 1) 0;
    Done (map ptr items).

(** [OptimizedOrasort::sort(data)], the vector after the call (the strings
    of [data] hold no NUL byte, as above). *)
Definition OptimizedOrasort_sort_raw (t : rand_tape) (g : stray_tape) (data : list cstring)
  : outcome (list cstring * rand_tape) :=
  if (length data =? 0)%nat then Done (data, t)
  else
    let items := init_items data in
    '(items, t, _) ← sort_recursive_raw t g items 0 (length items - 1) 0;
    Done (map ptr items, t).

(** ** Specification of the top-level sort *)

(** Every adjacent pair of the sequence is in lexicographic order. *)
Definition ordered (out : list cstring) : Prop :=
  forall i x y, out !! i = Some x -> out !! S i = Some y -> lex_le x y.

(** A run of a sort on [ss] either yields an ordered rearrangement of [ss],
    or faults, and then only when [ss] holds some string twice. *)
Definition sorted_result (ss : list cstring) (r : outcome (list cstring)) : Prop :=
  match r with
  | Done out => ordered out /\ out ≡ₚ ss
  | Fault => ~ NoDup ss
  | OutOfFuel => False
  end.

(** ** The precursor: scan the common prefix, then partition (orasort.c) *)

Definition str_get (arr : list cstring) (i : nat) : outcome cstring :=
  match arr !! i with
  | Some s => Done s
  | None => Fault
  end.

Definition swap (arr : list cstring) (i j : nat) : outcome (list cstring) :=
  a ← str_get arr i;
  b ← str_get arr j;
  Done (<[j := a]> (<[i := b]> arr)).

(** The inner [while] of [get_common_prefix]. *)
Fixpoint prefix_scan (fuel : nat) (ref curr : cstring) (depth k min_common : Z) : outcome Z :=
  match fuel with
  | O => OutOfFuel
  | S fuel' =>
      r ← char_at ref (depth + k);
      if r =? 0 then Done k else
      c ← char_at curr (depth + k);
      if c =? 0 then Done k else
      if r =? c then
        let k := k + 1 in
        if negb (min_common =? -1) && (k >=? min_common) then Done k
        else prefix_scan fuel' ref curr depth k min_common
      else Done k
  end.

(** The [for] loop of [get_common_prefix], with [count = high + 1 - i]
    iterations left; the result is the value the function returns. *)
Fixpoint prefix_loop (count : nat) (arr : list cstring) (ref : cstring) (i : nat)
    (depth min_common : Z) : outcome Z :=
  match count with
  | O => Done (if min_common =? -1 then 0 else min_common)
  | S count' =>
      curr ← str_get arr i;
      k ← prefix_scan (S (length ref)) ref curr depth 0 min_common;
      let min_common := if (min_common =? -1) || (k <? min_common) then k else min_common in
      if min_common =? 0 then Done 0
      else prefix_loop count' arr ref (S i) depth min_common
  end.

Definition get_common_prefix (arr : list cstring) (low high : nat) (depth : Z) : outcome Z :=
  if (high <=? low)%nat then Done 0
  else
    ref ← str_get arr low;
    prefix_loop (high - low) arr ref (S low) depth (-1).

(** [strcmp(s1 + off, s2 + off)]. *)
Fixpoint strcmp_from (fuel : nat) (s1 s2 : cstring) (off : Z) : outcome Z :=
  match fuel with
  | O => OutOfFuel
  | S fuel' =>
      c1 ← char_at s1 off;
      c2 ← char_at s2 off;
      if (c1 =? c2) && negb (c1 =? 0) then strcmp_from fuel' s1 s2 (off + 1)
      else Done (c1 - c2)
  end.

Definition compare_skip (s1 s2 : cstring) (depth : Z) : outcome Z :=
  strcmp_from (S (length s1)) s1 s2 depth.

(** [while (i <= high && compare_skip(arr[i], pivot, new_depth) < 0) i++;] *)
Fixpoint skip_smaller (fuel : nat) (arr : list cstring) (pivot : cstring) (depth : Z)
    (i high : nat) : outcome nat :=
  match fuel with
  | O => OutOfFuel
  | S fuel' =>
      if (i <=? high)%nat then
        x ← str_get arr i;
        c ← compare_skip x pivot depth;
        if c <? 0 then skip_smaller fuel' arr pivot depth (S i) high else Done i
      else Done i
  end.

(** [while (j > low && compare_skip(arr[j], pivot, new_depth) > 0) j--;] *)
Fixpoint skip_larger (fuel : nat) (arr : list cstring) (pivot : cstring) (depth : Z)
    (j low : nat) : outcome nat :=
  match fuel with
  | O => OutOfFuel
  | S fuel' =>
      if (low <? j)%nat then
        x ← str_get arr j;
        c ← compare_skip x pivot depth;
        if c >? 0 then skip_larger fuel' arr pivot depth (j - 1)%nat low else Done j
      else Done j
  end.

(** [while (i <= j) { ... }] of [common_prefix_quicksort_recursive]. *)
Fixpoint exchange_loop (fuel : nat) (arr : list cstring) (pivot : cstring) (depth : Z)
    (low high i j : nat) : outcome (list cstring * nat * nat) :=
  match fuel with
  | O => OutOfFuel
  | S fuel' =>
      if (i <=? j)%nat then
        i ← skip_smaller (S (S high - i)) arr pivot depth i high;
        j ← skip_larger (S (j - low)) arr pivot depth j low;
        if (i <=? j)%nat then
          arr ← swap arr i j;
          exchange_loop fuel' arr pivot depth low high (S i) (j - 1)%nat
        else exchange_loop fuel' arr pivot depth low high i j
      else Done (arr, i, j)
  end.

Fixpoint common_prefix_quicksort_recursive (fuel : nat) (t : rand_tape)
    (arr : list cstring) (low high : nat) (depth : Z) : outcome (list cstring * rand_tape) :=
  match fuel with
  | O => OutOfFuel
  | S fuel' =>
      if (high <=? low)%nat then Done (arr, t) else
      common ← get_common_prefix arr low high depth;
      let new_depth := depth + common in
      let '(pivot_idx, t) := pick_rand t low high in
      arr ← swap arr low pivot_idx;
      pivot ← str_get arr low;
      '(arr, i, j) ← exchange_loop (S (S (high - low))) arr pivot new_depth low high (S low) high;
      arr ← swap arr low j;
      '(arr, t) ← common_prefix_quicksort_recursive fuel' t arr low (j - 1)%nat new_depth;
      common_prefix_quicksort_recursive fuel' t arr i high new_depth
  end.

(** [legrand_sort(arr, n)]; [t] is the sequence [rand()] yields after
    [srand(time(NULL))]. *)
Definition legrand_sort (t : rand_tape) (arr : list cstring) : outcome (list cstring) :=
  let n := length arr in
  fst <$> common_prefix_quicksort_recursive (S n) t arr 0 (n - 1) 0.

(** ** The precursor in C++ (orasort.cpp, [LegrandSort]) *)

(** [std::string::npos], the initial value of [min_common]. *)
Definition npos : Z := 18446744073709551615.

(** The inner [while] of [LegrandSort::get_common_prefix]. *)
Fixpoint prefix_scan_cpp (fuel : nat) (ref curr : cstring) (depth k max_k min_common : Z)
  : outcome Z :=
  match fuel with
  | O => OutOfFuel
  | S fuel' =>
      if depth + k <? max_k then
        r ← char_at ref (depth + k);
        c ← char_at curr (depth + k);
        if r =? c then
          let k := k + 1 in
          if negb (min_common =? npos) && (k >=? min_common) then Done k
          else prefix_scan_cpp fuel' ref curr depth k max_k min_common
        else Done k
      else Done k
  end.

(** The [for] loop of [LegrandSort::get_common_prefix], with [count]
    iterations left; the result is the value the function returns. *)
Fixpoint prefix_loop_cpp (count : nat) (arr : list cstring) (ref : cstring) (i : nat)
    (depth min_common : Z) : outcome Z :=
  match count with
  | O => Done (if min_common =? npos then 0 else min_common)
  | S count' =>
      curr ← str_get arr i;
      let max_k := Z.min (strlen ref) (strlen curr) in
      if depth >=? max_k then Done 0
      else
        k ← prefix_scan_cpp (S (length ref)) ref curr depth 0 max_k min_common;
        let min_common :=
          if (min_common =? npos) || (k <? min_common) then k else min_common in
        if min_common =? 0 then Done 0
        else prefix_loop_cpp count' arr ref (S i) depth min_common
  end.

Definition get_common_prefix_cpp (arr : list cstring) (low high : nat) (depth : Z)
  : outcome Z :=
  if (high <=? low)%nat then Done 0
  else
    ref ← str_get arr low;
    prefix_loop_cpp (high - low) arr ref (S low) depth npos.

(** [p = (depth < s.length()) ? s.c_str() + depth : ""], as the C string
    that [p] points to, then [strcmp(p1, p2)]. *)
Definition compare_skip_cpp (s1 s2 : cstring) (depth : Z) : outcome Z :=
  let p1 := if depth <? strlen s1 then suffix s1 depth else [] in
  let p2 := if depth <? strlen s2 then suffix s2 depth else [] in
  strcmp_from (S (length p1)) p1 p2 0.

(** [while (i <= j && compare_skip(arr[i], pivot, new_depth) < 0) i++;] *)
Fixpoint skip_smaller_cpp (fuel : nat) (arr : list cstring) (pivot : cstring) (depth : Z)
    (i j : nat) : outcome nat :=
  match fuel with
  | O => OutOfFuel
  | S fuel' =>
      if (i <=? j)%nat then
        x ← str_get arr i;
        c ← compare_skip_cpp x pivot depth;
        if c <? 0 then skip_smaller_cpp fuel' arr pivot depth (S i) j else Done i
      else Done i
  end.

(** [while (i <= j && compare_skip(arr[j], pivot, new_depth) > 0) j--;] *)
Fixpoint skip_larger_cpp (fuel : nat) (arr : list cstring) (pivot : cstring) (depth : Z)
    (i j : nat) : outcome nat :=
  match fuel with
  | O => OutOfFuel
  | S fuel' =>
      if (i <=? j)%nat then
        x ← str_get arr j;
        c ← compare_skip_cpp x pivot depth;
        if c >? 0 then skip_larger_cpp fuel' arr pivot depth i (j - 1)%nat else Done j
      else Done j
  end.

(** The [while (true)] loop of [LegrandSort::sort_recursive]. *)
Fixpoint exchange_loop_cpp (fuel : nat) (arr : list cstring) (pivot : cstring) (depth : Z)
    (i j : nat) : outcome (list cstring * nat * nat) :=
  match fuel with
  | O => OutOfFuel
  | S fuel' =>
      i ← skip_smaller_cpp (S (S j - i)) arr pivot depth i j;
      j ← skip_larger_cpp (S (S j - i)) arr pivot depth i j;
      if (i <=? j)%nat then
        arr ← swap arr i j;
        exchange_loop_cpp fuel' arr pivot depth (S i) (j - 1)%nat
      else Done (arr, i, j)
  end.

Fixpoint LegrandSort_sort_recursive (fuel : nat) (t : rand_tape) (arr : list cstring)
    (low high : nat) (depth : Z) : outcome (list cstring * rand_tape) :=
  match fuel with
  | O => OutOfFuel
  | S fuel' =>
      if (high <=? low)%nat then Done (arr, t) else
      common ← get_common_prefix_cpp arr low high depth;
      let new_depth := depth + common in
      let '(pivot_idx, t) := pick_rand t low high in
      arr ← swap arr low pivot_idx;
      pivot ← str_get arr low;
      '(arr, i, j) ←
        exchange_loop_cpp (S (high - low)) arr pivot new_depth (S low) high;
      arr ← swap arr low j;
      '(arr, t) ← LegrandSort_sort_recursive fuel' t arr low (j - 1)%nat new_depth;
      LegrandSort_sort_recursive fuel' t arr i high new_depth
  end.

(** [LegrandSort::sort(arr)]. *)
Definition LegrandSort_sort (t : rand_tape) (arr : list cstring)
  : outcome (list cstring * rand_tape) :=
  if (length arr =? 0)%nat then Done (arr, t)
  else LegrandSort_sort_recursive (S (length arr)) t arr 0 (length arr - 1) 0.

(** ** Predicates for the precursor *)

(** A string that is NUL-free and reaches depth [d]. *)
Definition str_ok (d : Z) (s : cstring) : Prop := nul_free s /\ d <= strlen s.

Definition strs_ok (d : Z) (arr : list cstring) (lo hi : nat) : Prop :=
  forall k, (lo <= k <= hi)%nat -> exists s, arr !! k = Some s /\ str_ok d s.

Definition strs_prefix_eq (d : Z) (arr : list cstring) (lo hi : nat) : Prop :=
  forall x y, in_range arr lo hi x -> in_range arr lo hi y ->
    take (Z.to_nat d) x = take (Z.to_nat d) y.

Definition strs_sorted (lo hi : nat) (arr : list cstring) : Prop :=
  forall k1 k2 x y, (lo <= k1)%nat -> (k1 <= k2)%nat -> (k2 <= hi)%nat ->
    arr !! k1 = Some x -> arr !! k2 = Some y -> lex_le x y.

(** What the exchange loop maintains: left of [i] nothing exceeds the
    pivot, right of [j] nothing is below it. *)
Definition exchange_inv (pivot : cstring) (d : Z) (arr : list cstring) (low high i j : nat) : Prop :=
  (low < i)%nat /\ (i <= S high)%nat /\ (low <= j)%nat /\ (j <= high)%nat
  /\ strs_ok d arr (S low) high
  /\ (forall k x, (low < k < i)%nat -> arr !! k = Some x ->
        lex_compare (suffix x d) (suffix pivot d) <> Gt)
  /\ (forall k x, (j < k <= high)%nat -> arr !! k = Some x ->
        lex_compare (suffix x d) (suffix pivot d) <> Lt).

(** The strings fit the [size_t] lengths of [std::string]. *)
Definition lengths_fit (arr : list cstring) : Prop :=
  Forall (fun s => strlen s < npos) arr.

Definition naive_pre (d : Z) (arr : list cstring) (lo hi : nat) : Prop :=
  0 <= d /\ strs_ok d arr lo hi /\ strs_prefix_eq d arr lo hi.

Definition naive_post (arr : list cstring) (lo hi : nat)
    (r : outcome (list cstring * rand_tape)) : Prop :=
  match r with
  | Done (arr', _) => moved lo hi arr arr' /\ strs_sorted lo hi arr'
  | Fault => False
  | OutOfFuel => False
  end.

(** The contract of [common_prefix_quicksort_recursive] for a given budget. *)
Definition naive_sort_ok (fuel : nat) : Prop :=
  forall (t : rand_tape) (arr : list cstring) (low high : nat) (d : Z),
    ((low < high)%nat -> naive_pre d arr low high) -> (high - low < fuel)%nat ->
    naive_post arr low high (common_prefix_quicksort_recursive fuel t arr low high d).

Fixpoint bytes_of (s : string) : cstring :=
  match s with
  | EmptyString => []
  | String c rest => Z.of_N (N_of_ascii c) :: bytes_of rest
  end.

(** ** The data of the demonstration programs *)

(** [data] of [main] in orasort2.c and orasort2.cpp. *)
Definition demo_urls : list cstring :=
  map bytes_of
    ["http://www.google.com/search"; "http://www.google.com/mail";
     "http://www.yahoo.com"; "http://www.amazon.com"; "https://secure.site";
     "apple"; "apricot"; "banana"]%string.

Definition demo_urls_sorted : list cstring :=
  map bytes_of
    ["apple"; "apricot"; "banana"; "http://www.amazon.com";
     "http://www.google.com/mail"; "http://www.google.com/search";
     "http://www.yahoo.com"; "https://secure.site"]%string.

(** [data] of [main] in orasort.c and orasort.cpp. *)
Definition demo_words : list cstring :=
  map bytes_of ["banana"; "band"; "bee"; "absolute"; "abstract"; "apple"]%string.

Definition demo_words_sorted : list cstring :=
  map bytes_of ["absolute"; "abstract"; "apple"; "banana"; "band"; "bee"]%string.

(** ** The stand-alone loader of orasort2.cpp *)

(** [strnlen(ptr, maxlen)]. *)
Definition strnlen (s : cstring) (maxlen : Z) : Z :=
  if strlen s <? maxlen then strlen s else maxlen.

(** [load_bytes_be(ptr)], [s] being the C string at [ptr]: the first
    [strnlen(ptr, 8)] bytes are copied over a zeroed [uint64_t], which is
    then byte-swapped (little-endian target). *)
Definition load_bytes_be (s : cstring) : Z :=
  let n := strnlen s 8 in
  let bytes := take (Z.to_nat n) s ++ replicate (8 - Z.to_nat n)%nat 0 in
  bswap64 (load_le bytes).

(** ** Repeated short strings *)

(** Two positions of the range hold one and the same string, shorter than
    the eight bytes of a window. *)
Definition short_pair (arr : list StringItem) (lo hi : nat) : Prop :=
  exists k1 k2 x1 x2,
    (lo <= k1)%nat /\ (k1 < k2)%nat /\ (k2 <= hi)%nat
    /\ arr !! k1 = Some x1 /\ arr !! k2 = Some x2
    /\ ptr x1 = ptr x2 /\ strlen (ptr x1) < 8.

(** ** Bit-level facts *)

Lemma land_field (x k m : Z) :
  0 <= k -> 0 <= m ->
  Z.land x (Z.shiftl (Z.ones m) k) = ((x / 2 ^ k) mod 2 ^ m) * 2 ^ k.
Proof.
  intros Hk Hm.
  rewrite <- Z.shiftl_mul_pow2, <- Z.land_ones, <- Z.shiftr_div_pow2 by lia.
  apply Z.bits_inj'. intros n Hn.
  rewrite Z.land_spec.
  destruct (Z.lt_ge_cases n k) as [Hlt | Hge].
  - rewrite !Z.shiftl_spec_low by lia. apply andb_false_r.
  - rewrite !Z.shiftl_spec by lia.
    rewrite Z.land_spec, Z.shiftr_spec by lia.
    replace (n - k + k) with n by lia. reflexivity.
Qed.

Lemma lor_add (acc lo k : Z) :
  0 <= k -> acc mod 2 ^ k = 0 -> 0 <= lo < 2 ^ k -> Z.lor acc lo = acc + lo.
Proof.
  intros Hk Hacc Hlo. symmetry. apply Z.add_nocarry_lor.
  apply Z.bits_inj'. intros n Hn. rewrite Z.land_spec, Z.bits_0.
  destruct (Z.lt_ge_cases n k) as [Hlt | Hge].
  - rewrite <- (Z.mod_pow2_bits_low acc k n) by lia.
    rewrite Hacc, Z.bits_0. reflexivity.
  - destruct (Z.eq_dec lo 0) as [-> | Hne]; [rewrite Z.bits_0; apply andb_false_r|].
    rewrite (Z.bits_above_log2 lo n); [apply andb_false_r | lia |].
    apply Z.log2_lt_pow2; [lia|].
    pose proof (Z.pow_le_mono_r 2 k n). lia.
Qed.

Lemma land_lxor_distr (a b m : Z) :
  Z.land (Z.lxor a b) m = Z.lxor (Z.land a m) (Z.land b m).
Proof.
  apply Z.bits_inj'. intros n _.
  rewrite !Z.land_spec, !Z.lxor_spec, !Z.land_spec.
  destruct (Z.testbit a n), (Z.testbit b n), (Z.testbit m n); reflexivity.
Qed.

Lemma lxor_range64 (a b : Z) :
  0 <= a < 2 ^ 64 -> 0 <= b < 2 ^ 64 -> 0 <= Z.lxor a b < 2 ^ 64.
Proof.
  intros Ha Hb. assert (H0 : 0 <= Z.lxor a b) by (apply Z.lxor_nonneg; lia).
  split; [exact H0|].
  destruct (Z.eq_dec (Z.lxor a b) 0) as [-> | Hne]; [lia|].
  apply Z.log2_lt_pow2; [lia|].
  pose proof (Z.log2_lxor a b ltac:(lia) ltac:(lia)) as Hl.
  assert (Z.log2 a < 64).
  { destruct (Z.eq_dec a 0) as [-> | ?]; [simpl; lia|]. apply Z.log2_lt_pow2; lia. }
  assert (Z.log2 b < 64).
  { destruct (Z.eq_dec b 0) as [-> | ?]; [simpl; lia|]. apply Z.log2_lt_pow2; lia. }
  lia.
Qed.

Lemma byte_of_range (x j : Z) : 0 <= byte_of x j < 256.
Proof. unfold byte_of. apply Z.mod_pos_bound. lia. Qed.

Lemma byte_of_0 (c y : Z) : 0 <= c < 256 -> byte_of (c + 256 * y) 0 = c.
Proof.
  intros. unfold byte_of. change (2 ^ (8 * 0)) with 1. rewrite Z.div_1_r.
  Z.div_mod_to_equations. lia.
Qed.

Lemma byte_of_S (c y j : Z) :
  0 <= c < 256 -> 1 <= j -> byte_of (c + 256 * y) j = byte_of y (j - 1).
Proof.
  intros. unfold byte_of.
  replace (8 * j) with (8 + 8 * (j - 1)) by lia.
  rewrite Z.pow_add_r by lia. rewrite <- Z.div_div by lia.
  change (2 ^ 8) with 256.
  replace ((c + 256 * y) / 256) with y; [reflexivity|].
  Z.div_mod_to_equations. lia.
Qed.

Lemma byte_of_lxor (a b j : Z) :
  0 <= j -> byte_of (Z.lxor a b) j = Z.lxor (byte_of a j) (byte_of b j).
Proof.
  intros Hj. unfold byte_of. change 256 with (2 ^ 8).
  rewrite <- !Z.land_ones, <- !Z.shiftr_div_pow2 by lia.
  rewrite Z.shiftr_lxor. apply land_lxor_distr.
Qed.

Lemma byte_of_eqb_lxor (a b j : Z) :
  0 <= j -> (byte_of a j =? byte_of b j) = (byte_of (Z.lxor a b) j =? 0).
Proof.
  intros Hj. rewrite byte_of_lxor by exact Hj.
  destruct (Z.eqb_spec (byte_of a j) (byte_of b j)) as [-> | Hne].
  - rewrite Z.lxor_nilpotent. reflexivity.
  - symmetry. apply Z.eqb_neq. intros H. apply Z.lxor_eq in H. contradiction.
Qed.

(** *** [bswap64] reverses the eight bytes *)

Lemma bswap64_bytes (x : Z) :
  0 <= x < 2 ^ 64 ->
  bswap64 x = byte_of x 0 * 2 ^ 56 + byte_of x 1 * 2 ^ 48 + byte_of x 2 * 2 ^ 40
            + byte_of x 3 * 2 ^ 32 + byte_of x 4 * 2 ^ 24 + byte_of x 5 * 2 ^ 16
            + byte_of x 6 * 2 ^ 8 + byte_of x 7.
Proof.
  intros Hx. unfold bswap64, wrap64.
  change 0x00000000000000FF with (Z.shiftl (Z.ones 8) (8 * 0)).
  change 0x000000000000FF00 with (Z.shiftl (Z.ones 8) (8 * 1)).
  change 0x0000000000FF0000 with (Z.shiftl (Z.ones 8) (8 * 2)).
  change 0x00000000FF000000 with (Z.shiftl (Z.ones 8) (8 * 3)).
  change 0x000000FF00000000 with (Z.shiftl (Z.ones 8) (8 * 4)).
  change 0x0000FF0000000000 with (Z.shiftl (Z.ones 8) (8 * 5)).
  change 0x00FF000000000000 with (Z.shiftl (Z.ones 8) (8 * 6)).
  change 0xFF00000000000000 with (Z.shiftl (Z.ones 8) (8 * 7)).
  rewrite !land_field by lia.
  change (2 ^ 8) with 256.
  fold (byte_of x 0) (byte_of x 1) (byte_of x 2) (byte_of x 3)
       (byte_of x 4) (byte_of x 5) (byte_of x 6) (byte_of x 7).
  pose proof (byte_of_range x 0). pose proof (byte_of_range x 1).
  pose proof (byte_of_range x 2). pose proof (byte_of_range x 3).
  pose proof (byte_of_range x 4). pose proof (byte_of_range x 5).
  pose proof (byte_of_range x 6). pose proof (byte_of_range x 7).
  generalize dependent (byte_of x 0). generalize dependent (byte_of x 1).
  generalize dependent (byte_of x 2). generalize dependent (byte_of x 3).
  generalize dependent (byte_of x 4). generalize dependent (byte_of x 5).
  generalize dependent (byte_of x 6). generalize dependent (byte_of x 7).
  intros b7 H7 b6 H6 b5 H5 b4 H4 b3 H3 b2 H2 b1 H1 b0 H0.
  rewrite !Z.shiftl_mul_pow2, !Z.shiftr_div_pow2 by lia.
  replace ((b0 * 2 ^ (8 * 0) * 2 ^ 56) `mod` 2 ^ 64) with (b0 * 2 ^ 56)
    by (Z.div_mod_to_equations; lia).
  replace ((b1 * 2 ^ (8 * 1) * 2 ^ 40) `mod` 2 ^ 64) with (b1 * 2 ^ 48)
    by (Z.div_mod_to_equations; lia).
  replace ((b2 * 2 ^ (8 * 2) * 2 ^ 24) `mod` 2 ^ 64) with (b2 * 2 ^ 40)
    by (Z.div_mod_to_equations; lia).
  replace ((b3 * 2 ^ (8 * 3) * 2 ^ 8) `mod` 2 ^ 64) with (b3 * 2 ^ 32)
    by (Z.div_mod_to_equations; lia).
  replace ((b4 * 2 ^ (8 * 4)) `div` 2 ^ 8) with (b4 * 2 ^ 24)
    by (Z.div_mod_to_equations; lia).
  replace ((b5 * 2 ^ (8 * 5)) `div` 2 ^ 24) with (b5 * 2 ^ 16)
    by (Z.div_mod_to_equations; lia).
  replace ((b6 * 2 ^ (8 * 6)) `div` 2 ^ 40) with (b6 * 2 ^ 8)
    by (Z.div_mod_to_equations; lia).
  replace ((b7 * 2 ^ (8 * 7)) `div` 2 ^ 56) with b7
    by (Z.div_mod_to_equations; lia).
  rewrite (lor_add (b0 * 2 ^ 56) _ 56) by (try (Z.div_mod_to_equations; lia); lia).
  rewrite (lor_add (b0 * 2 ^ 56 + b1 * 2 ^ 48) _ 48)
    by (try (Z.div_mod_to_equations; lia); lia).
  rewrite (lor_add (b0 * 2 ^ 56 + b1 * 2 ^ 48 + b2 * 2 ^ 40) _ 40)
    by (try (Z.div_mod_to_equations; lia); lia).
  rewrite (lor_add (b0 * 2 ^ 56 + b1 * 2 ^ 48 + b2 * 2 ^ 40 + b3 * 2 ^ 32) _ 32)
    by (try (Z.div_mod_to_equations; lia); lia).
  rewrite (lor_add (b0 * 2 ^ 56 + b1 * 2 ^ 48 + b2 * 2 ^ 40 + b3 * 2 ^ 32
                    + b4 * 2 ^ 24) _ 24)
    by (try (Z.div_mod_to_equations; lia); lia).
  rewrite (lor_add (b0 * 2 ^ 56 + b1 * 2 ^ 48 + b2 * 2 ^ 40 + b3 * 2 ^ 32
                    + b4 * 2 ^ 24 + b5 * 2 ^ 16) _ 16)
    by (try (Z.div_mod_to_equations; lia); lia).
  rewrite (lor_add (b0 * 2 ^ 56 + b1 * 2 ^ 48 + b2 * 2 ^ 40 + b3 * 2 ^ 32
                    + b4 * 2 ^ 24 + b5 * 2 ^ 16 + b6 * 2 ^ 8) _ 8)
    by (try (Z.div_mod_to_equations; lia); lia).
  lia.
Qed.

Lemma bswap64_load_le (c0 c1 c2 c3 c4 c5 c6 c7 : Z) :
  0 <= c0 < 256 -> 0 <= c1 < 256 -> 0 <= c2 < 256 -> 0 <= c3 < 256 ->
  0 <= c4 < 256 -> 0 <= c5 < 256 -> 0 <= c6 < 256 -> 0 <= c7 < 256 ->
  bswap64 (load_le [c0; c1; c2; c3; c4; c5; c6; c7])
  = load_be [c0; c1; c2; c3; c4; c5; c6; c7].
Proof.
  intros. rewrite bswap64_bytes by (cbn [load_le]; lia).
  cbn [load_le].
  repeat (rewrite ?byte_of_0 by lia; rewrite ?byte_of_S by lia; simpl (_ - 1)).
  cbn [load_be length]. lia.
Qed.

(** *** [clz64] counts the leading zero bits *)

Lemma high_bits_zero (x k : Z) :
  0 < k < 64 -> 0 <= x < 2 ^ 64 ->
  (Z.land x (Z.shiftl (Z.ones k) (64 - k)) =? 0) = (x <? 2 ^ (64 - k)).
Proof.
  intros Hk Hx. rewrite land_field by lia.
  assert (Hp : 0 < 2 ^ (64 - k)) by (apply Z.pow_pos_nonneg; lia).
  assert (Hsplit : 2 ^ 64 = 2 ^ (64 - k) * 2 ^ k)
    by (rewrite <- Z.pow_add_r by lia; f_equal; lia).
  assert (Hq : 0 <= x / 2 ^ (64 - k) < 2 ^ k).
  { split; [apply Z.div_pos; lia|]. apply Z.div_lt_upper_bound; lia. }
  rewrite Z.mod_small by lia.
  destruct (Z.ltb_spec x (2 ^ (64 - k))) as [Hlt | Hge].
  - rewrite Z.div_small by lia. reflexivity.
  - apply Z.eqb_neq.
    assert (1 <= x / 2 ^ (64 - k)) by (apply Z.div_le_lower_bound; lia).
    nia.
Qed.

Lemma clz_step_spec (mask k n x : Z) :
  0 < k < 64 -> mask = Z.shiftl (Z.ones k) (64 - k) -> 0 <= x < 2 ^ 64 ->
  clz_step mask k (n, x) = if x <? 2 ^ (64 - k) then (n + k, x * 2 ^ k) else (n, x).
Proof.
  intros Hk -> Hx. unfold clz_step. rewrite high_bits_zero by lia.
  destruct (Z.ltb_spec x (2 ^ (64 - k))) as [Hlt | Hge]; [|reflexivity].
  unfold wrap64. rewrite Z.shiftl_mul_pow2 by lia.
  rewrite Z.mod_small; [reflexivity|].
  assert (Hsplit : 2 ^ 64 = 2 ^ (64 - k) * 2 ^ k)
    by (rewrite <- Z.pow_add_r by lia; f_equal; lia).
  assert (0 < 2 ^ k) by (apply Z.pow_pos_nonneg; lia).
  nia.
Qed.

Ltac clz_split k :=
  match goal with
  | |- context [?a <? 2 ^ (64 - k)] => destruct (Z.ltb_spec a (2 ^ (64 - k)))
  end.

Lemma clz64_bounds (x : Z) :
  0 < x < 2 ^ 64 ->
  0 <= clz64 x <= 63 /\ 2 ^ (63 - clz64 x) <= x < 2 ^ (64 - clz64 x).
Proof.
  intros Hx. unfold clz64.
  destruct (Z.eqb_spec x 0) as [|_]; [lia|].
  rewrite (clz_step_spec _ 32) by (try reflexivity; lia). clz_split 32;
  (rewrite (clz_step_spec _ 16) by (try reflexivity; lia)); clz_split 16;
  (rewrite (clz_step_spec _ 8) by (try reflexivity; lia)); clz_split 8;
  (rewrite (clz_step_spec _ 4) by (try reflexivity; lia)); clz_split 4;
  (rewrite (clz_step_spec _ 2) by (try reflexivity; lia)); clz_split 2;
  change 0x8000000000000000 with (Z.shiftl (Z.ones 1) (64 - 1));
  (rewrite high_bits_zero by lia); clz_split 1;
  simpl Z.add; simpl Z.sub; lia.
Qed.

Lemma clz64_log2 (x : Z) : 0 < x < 2 ^ 64 -> clz64 x = 63 - Z.log2 x.
Proof.
  intros Hx. destruct (clz64_bounds x Hx) as [Hr [Hlo Hhi]].
  assert (Z.log2 x = 63 - clz64 x); [|lia].
  apply Z.log2_unique; [lia|].
  replace (Z.succ (63 - clz64 x)) with (64 - clz64 x) by lia. lia.
Qed.

(** ** Windows and lexicographic order *)

Lemma nul_free_bytes_ok (s : cstring) : nul_free s -> bytes_ok s.
Proof.
  unfold nul_free, bytes_ok. intros H.
  eapply Forall_impl; [exact H|]. intros b Hb. simpl in Hb. lia.
Qed.

Lemma load_be_range (u : list Z) :
  bytes_ok u -> 0 <= load_be u < 256 ^ Z.of_nat (length u).
Proof.
  induction 1 as [|b u Hb Hu IH]; [simpl; lia|].
  cbn [load_be length]. rewrite Nat2Z.inj_succ, Z.pow_succ_r by lia.
  nia.
Qed.

Lemma load_be_compare (u v : list Z) :
  bytes_ok u -> bytes_ok v -> length u = length v ->
  (load_be u ?= load_be v) = lex_compare u v.
Proof.
  intros Hu. revert v. induction Hu as [|a u Ha Hu IH]; intros v Hv Hlen.
  - destruct v; [reflexivity | discriminate].
  - destruct Hv as [|b v Hb Hv]; [discriminate|].
    injection Hlen as Hlen. cbn [load_be lex_compare]. rewrite <- Hlen.
    pose proof (load_be_range u Hu) as Ru.
    pose proof (load_be_range v Hv) as Rv. rewrite <- Hlen in Rv.
    specialize (IH v Hv Hlen).
    destruct (Z.compare_spec a b) as [-> | Hlt | Hgt].
    + rewrite <- IH.
      destruct (Z.compare_spec (load_be u) (load_be v));
        [apply Z.compare_eq_iff | apply Z.compare_lt_iff | apply Z.compare_gt_iff]; lia.
    + apply Z.compare_lt_iff. nia.
    + apply Z.compare_gt_iff. nia.
Qed.

Lemma padn_cons (n : nat) (a : Z) (u : list Z) :
  padn (S n) (a :: u) = a :: padn n u.
Proof. reflexivity. Qed.

Lemma padn_nil (n : nat) : padn n [] = replicate n 0.
Proof. unfold padn. rewrite take_nil. simpl. f_equal. lia. Qed.

Lemma padn_length (n : nat) (u : list Z) : length (padn n u) = n.
Proof.
  unfold padn. rewrite length_app, length_take, length_replicate. lia.
Qed.

Lemma padn_bytes_ok (n : nat) (u : list Z) : bytes_ok u -> bytes_ok (padn n u).
Proof.
  intros Hu. unfold padn. apply Forall_app. split.
  - apply Forall_take, Hu.
  - apply Forall_replicate. lia.
Qed.

Lemma padn_eq_take (n : nat) (u v : list Z) :
  nul_free u -> nul_free v -> padn n u = padn n v -> take n u = take n v.
Proof.
  revert u v. induction n as [|n IH]; intros u v Hu Hv Heq; [reflexivity|].
  destruct Hu as [|a u Ha Hu], Hv as [|b v Hb Hv].
  - reflexivity.
  - rewrite padn_nil, padn_cons in Heq. simpl in Heq. injection Heq as Hb0 _. lia.
  - rewrite padn_nil, padn_cons in Heq. simpl in Heq. injection Heq as Ha0 _. lia.
  - rewrite !padn_cons in Heq. injection Heq as -> Heq. simpl. f_equal. eauto.
Qed.

Lemma padn_eq_short (n : nat) (u v : list Z) :
  nul_free u -> nul_free v -> padn n u = padn n v ->
  (length u < n)%nat -> u = v.
Proof.
  revert u v. induction n as [|n IH]; intros u v Hu Hv Heq Hlen; [lia|].
  destruct Hu as [|a u Ha Hu], Hv as [|b v Hb Hv].
  - reflexivity.
  - rewrite padn_nil, padn_cons in Heq. simpl in Heq. injection Heq as Hb0 _. lia.
  - rewrite padn_nil, padn_cons in Heq. simpl in Heq. injection Heq as Ha0 _. lia.
  - rewrite !padn_cons in Heq. injection Heq as -> Heq. f_equal.
    apply IH; auto. simpl in Hlen. lia.
Qed.

Lemma padn_neq_compare (n : nat) (u v : list Z) :
  nul_free u -> nul_free v -> padn n u <> padn n v ->
  lex_compare (padn n u) (padn n v) = lex_compare u v
  /\ lcp (padn n u) (padn n v) = lcp u v.
Proof.
  revert u v. induction n as [|n IH]; intros u v Hu Hv Hne.
  { exfalso. apply Hne. unfold padn. rewrite !take_0. reflexivity. }
  destruct Hu as [|a u Ha Hu], Hv as [|b v Hb Hv].
  - contradiction.
  - rewrite padn_nil, padn_cons. cbn [replicate lex_compare lcp].
    replace (0 ?= b) with Lt by (symmetry; apply Z.compare_lt_iff; lia).
    replace (0 =? b) with false by (symmetry; apply Z.eqb_neq; lia). auto.
  - rewrite padn_nil, padn_cons. cbn [replicate lex_compare lcp].
    replace (a ?= 0) with Gt by (symmetry; apply Z.compare_gt_iff; lia).
    replace (a =? 0) with false by (symmetry; apply Z.eqb_neq; lia). auto.
  - rewrite !padn_cons. cbn [lex_compare lcp].
    destruct (Z.eqb_spec a b) as [-> | Hab].
    + rewrite Z.compare_refl.
      destruct (IH u v Hu Hv) as [H1 H2].
      { intros Heq. apply Hne. rewrite !padn_cons. congruence. }
      rewrite H1, H2. auto.
    + split; [|reflexivity].
      destruct (Z.compare_spec a b); [contradiction | reflexivity | reflexivity].
Qed.

Lemma lex_compare_refl (u : list Z) : lex_compare u u = Eq.
Proof. induction u as [|a u IH]; [reflexivity|]. simpl. rewrite Z.compare_refl. exact IH. Qed.

Lemma lex_compare_eq (u v : list Z) : lex_compare u v = Eq -> u = v.
Proof.
  revert v. induction u as [|a u IH]; intros [|b v] H; try discriminate; [reflexivity|].
  simpl in H. destruct (Z.compare_spec a b); try discriminate.
  subst. f_equal. auto.
Qed.

(** *** The loader computes the specified window *)

Lemma load_window_range (s : cstring) (d : Z) :
  bytes_ok s -> 0 <= load_window s d < 2 ^ 64.
Proof.
  intros Hs. unfold load_window, pad8.
  pose proof (load_be_range (padn 8 (drop (Z.to_nat d) s))) as H.
  rewrite padn_length in H. apply H.
  apply padn_bytes_ok, Forall_drop, Hs.
Qed.

Lemma refresh_cache_ptr (it : StringItem) (d : Z) : ptr (refresh_cache it d) = ptr it.
Proof. unfold refresh_cache. destruct (_ <=? _); reflexivity. Qed.

Lemma refresh_cache_window (it : StringItem) (d : Z) :
  bytes_ok (ptr it) -> 0 <= d ->
  cache (refresh_cache it d) = load_window (ptr it) d.
Proof.
  intros Hs Hd. unfold refresh_cache, load_window, strlen.
  destruct (Z.leb_spec (Z.of_nat (length (ptr it))) d) as [Hle | Hgt]; cbn [cache].
  - rewrite drop_ge by lia. reflexivity.
  - set (start := drop (Z.to_nat d) (ptr it)).
    assert (Hlen : length start = (length (ptr it) - Z.to_nat d)%nat)
      by (apply length_drop).
    match goal with
    | |- context [Z.to_nat ?c] =>
        match c with d => fail 1 | _ => set (copy_len := c) end
    end.
    assert (Hbuf : take (Z.to_nat copy_len) start
                   ++ replicate (8 - Z.to_nat copy_len)%nat 0 = pad8 start).
    { unfold pad8, padn, copy_len.
      destruct (Z.ltb_spec (Z.of_nat (length (ptr it)) - d) 8) as [Hlt | Hge].
      - replace (Z.to_nat (Z.of_nat (length (ptr it)) - d)) with (length start) by lia.
        rewrite firstn_all, take_ge by lia. reflexivity.
      - replace (Z.to_nat 8) with 8%nat by reflexivity.
        replace (8 - length start)%nat with 0%nat by lia. reflexivity. }
    rewrite Hbuf.
    assert (Hok : bytes_ok (pad8 start)) by (apply padn_bytes_ok, Forall_drop, Hs).
    pose proof (padn_length 8 start) as Hl8. fold (pad8 start) in Hl8.
    destruct (pad8 start) as [|c0 [|c1 [|c2 [|c3 [|c4 [|c5 [|c6 [|c7 [|? ?]]]]]]]]];
      try discriminate.
    unfold bytes_ok in Hok.
    repeat match goal with H : Forall _ (_ :: _) |- _ => inversion_clear H end.
    apply bswap64_load_le; assumption.
Qed.

Lemma load_window_past_end (s : cstring) (d : Z) : strlen s <= d -> load_window s d = 0.
Proof.
  unfold strlen, load_window. intros H. rewrite drop_ge by lia. reflexivity.
Qed.

(** *** Bytes of a packed window *)

Lemma window_bytes_unfold (w : Z) :
  window_bytes w = [byte_of w 7; byte_of w 6; byte_of w 5; byte_of w 4;
                    byte_of w 3; byte_of w 2; byte_of w 1; byte_of w 0].
Proof. reflexivity. Qed.

Lemma window_bytes_load_be (bs : list Z) :
  bytes_ok bs -> length bs = 8%nat -> window_bytes (load_be bs) = bs.
Proof.
  intros Hok Hlen.
  destruct bs as [|c0 [|c1 [|c2 [|c3 [|c4 [|c5 [|c6 [|c7 [|? ?]]]]]]]]]; try discriminate.
  unfold bytes_ok in Hok.
  repeat match goal with H : Forall _ (_ :: _) |- _ => inversion_clear H end.
  rewrite window_bytes_unfold.
  replace (load_be [c0; c1; c2; c3; c4; c5; c6; c7])
    with (load_le [c7; c6; c5; c4; c3; c2; c1; c0])
    by (cbn [load_le load_be length]; lia).
  cbn [load_le].
  repeat (rewrite ?byte_of_0 by lia; rewrite ?byte_of_S by lia; simpl (_ - 1)).
  reflexivity.
Qed.

Lemma leading_bytes (x t : Z) :
  0 <= t <= 7 -> 2 ^ (56 - 8 * t) <= x < 2 ^ (64 - 8 * t) ->
  (forall j, 7 - t < j <= 7 -> byte_of x j = 0) /\ byte_of x (7 - t) <> 0.
Proof.
  intros Ht Hx. split.
  - intros j Hj. unfold byte_of.
    rewrite Z.div_small; [reflexivity|].
    split; [pose proof (Z.pow_pos_nonneg 2 (56 - 8 * t)); lia|].
    pose proof (Z.pow_le_mono_r 2 (64 - 8 * t) (8 * j)). lia.
  - unfold byte_of. replace (8 * (7 - t)) with (56 - 8 * t) by lia.
    assert (Hp : 0 < 2 ^ (56 - 8 * t)) by (apply Z.pow_pos_nonneg; lia).
    assert (Hs : 2 ^ (64 - 8 * t) = 2 ^ (56 - 8 * t) * 256).
    { replace (64 - 8 * t) with (56 - 8 * t + 8) by lia.
      rewrite Z.pow_add_r by lia. reflexivity. }
    assert (1 <= x / 2 ^ (56 - 8 * t)) by (apply Z.div_le_lower_bound; lia).
    assert (x / 2 ^ (56 - 8 * t) < 256) by (apply Z.div_lt_upper_bound; lia).
    rewrite Z.mod_small by lia. lia.
Qed.

Lemma lcp_window_bytes (a b : Z) :
  0 <= a < 2 ^ 64 -> 0 <= b < 2 ^ 64 -> a <> b ->
  Z.of_nat (lcp (window_bytes a) (window_bytes b)) = clz64 (Z.lxor a b) / 8
  /\ 0 <= clz64 (Z.lxor a b) / 8 <= 7.
Proof.
  intros Ha Hb Hne.
  pose proof (lxor_range64 a b Ha Hb) as Hx.
  assert (Hx0 : Z.lxor a b <> 0) by (intros H; apply Z.lxor_eq in H; contradiction).
  destruct (clz64_bounds (Z.lxor a b)) as [Hr [Hlo Hhi]]; [lia|].
  rewrite !window_bytes_unfold. cbn [lcp].
  rewrite !byte_of_eqb_lxor by lia.
  set (x := Z.lxor a b) in *. set (r := clz64 x) in *.
  assert (Ht : 0 <= r / 8 <= 7) by (Z.div_mod_to_equations; lia).
  split; [|exact Ht].
  assert (Hb8 : 2 ^ (56 - 8 * (r / 8)) <= x < 2 ^ (64 - 8 * (r / 8))).
  { pose proof (Z.pow_le_mono_r 2 (56 - 8 * (r / 8)) (63 - r)).
    pose proof (Z.pow_le_mono_r 2 (64 - r) (64 - 8 * (r / 8))).
    assert (8 * (r / 8) <= r <= 8 * (r / 8) + 7) by (Z.div_mod_to_equations; lia).
    lia. }
  destruct (leading_bytes x (r / 8) Ht Hb8) as [Hz Hnz].
  generalize dependent (r / 8). intros t Ht _ Hz Hnz.
  assert (Hcase : t = 0 \/ t = 1 \/ t = 2 \/ t = 3 \/ t = 4 \/ t = 5 \/ t = 6 \/ t = 7)
    by lia.
  repeat (destruct Hcase as [-> | Hcase]); try subst t;
    match type of Hnz with
    | byte_of _ ?e <> 0 => let v := eval compute in e in change e with v in Hnz
    end;
    rewrite ?(Hz 7), ?(Hz 6), ?(Hz 5), ?(Hz 4), ?(Hz 3), ?(Hz 2), ?(Hz 1) by lia;
    cbn [Z.eqb];
    apply Z.eqb_neq in Hnz; rewrite Hnz; reflexivity.
Qed.

(** ** The comparator *)

Lemma char_at_drop (s : cstring) (off : Z) :
  0 <= off <= strlen s ->
  char_at s off = Done (default 0 (head (drop (Z.to_nat off) s))).
Proof.
  unfold char_at, strlen. intros H.
  destruct (Z.ltb_spec off 0) as [|_]; [lia|].
  destruct (s !! Z.to_nat off) as [b|] eqn:Hb.
  - rewrite (drop_S _ _ _ Hb). reflexivity.
  - apply lookup_ge_None in Hb. rewrite drop_ge by lia.
    destruct (Z.eqb_spec off (Z.of_nat (length s))); [reflexivity | lia].
Qed.

Lemma char_at_fault (s : cstring) (off : Z) : strlen s < off -> char_at s off = Fault.
Proof.
  unfold char_at, strlen. intros H.
  destruct (Z.ltb_spec off 0) as [|_]; [reflexivity|].
  destruct (s !! Z.to_nat off) as [b|] eqn:Hb.
  - apply lookup_lt_Some in Hb. lia.
  - destruct (Z.eqb_spec off (Z.of_nat (length s))); [lia | reflexivity].
Qed.

Lemma nul_free_drop (s : cstring) (n : nat) : nul_free s -> nul_free (drop n s).
Proof. apply Forall_drop. Qed.

Lemma nul_free_head (b : Z) (s : cstring) : nul_free (b :: s) -> b <> 0.
Proof. intros H. inversion_clear H. lia. Qed.

Lemma scan_equal_spec (fuel : nat) (a b : cstring) (off k : Z) :
  nul_free a -> nul_free b ->
  0 <= off + k -> off + k <= strlen a -> off + k <= strlen b ->
  (length (drop (Z.to_nat (off + k)) a) < fuel)%nat ->
  scan_equal fuel a b off k
  = Done (k + Z.of_nat (lcp (drop (Z.to_nat (off + k)) a) (drop (Z.to_nat (off + k)) b))).
Proof.
  intros Ha Hb. revert k. induction fuel as [|fuel IH]; intros k H0 Hla Hlb Hfuel; [lia|].
  cbn [scan_equal]. rewrite !char_at_drop by lia.
  pose proof (nul_free_drop a (Z.to_nat (off + k)) Ha) as Hda.
  pose proof (nul_free_drop b (Z.to_nat (off + k)) Hb) as Hdb.
  destruct (drop (Z.to_nat (off + k)) a) as [|x ra] eqn:Ea; cbn.
  { f_equal. lia. }
  apply nul_free_head in Hda as Hx.
  destruct (Z.eqb_spec x 0) as [|_]; [contradiction|].
  destruct (drop (Z.to_nat (off + k)) b) as [|y rb] eqn:Eb; cbn.
  { f_equal. lia. }
  apply nul_free_head in Hdb as Hy.
  destruct (Z.eqb_spec y 0) as [|_]; [contradiction|].
  destruct (Z.eqb_spec x y) as [-> | Hne]; [|f_equal; lia].
  assert (Hra : drop (Z.to_nat (off + (k + 1))) a = ra).
  { replace (Z.to_nat (off + (k + 1))) with (Z.to_nat (off + k) + 1)%nat by lia.
    rewrite <- drop_drop, Ea. reflexivity. }
  assert (Hrb : drop (Z.to_nat (off + (k + 1))) b = rb).
  { replace (Z.to_nat (off + (k + 1))) with (Z.to_nat (off + k) + 1)%nat by lia.
    rewrite <- drop_drop, Eb. reflexivity. }
  assert (Hlen_a : (Z.to_nat (off + k) < length a)%nat).
  { destruct (Nat.lt_ge_cases (Z.to_nat (off + k)) (length a)); [assumption|].
    rewrite drop_ge in Ea by lia. discriminate. }
  assert (Hlen_b : (Z.to_nat (off + k) < length b)%nat).
  { destruct (Nat.lt_ge_cases (Z.to_nat (off + k)) (length b)); [assumption|].
    rewrite drop_ge in Eb by lia. discriminate. }
  unfold strlen in *.
  rewrite IH; rewrite ?Hra, ?Hrb; try lia.
  - f_equal. lia.
  - simpl in Hfuel. lia.
Qed.

Lemma lcp_app (t x y : list Z) : lcp (t ++ x) (t ++ y) = (length t + lcp x y)%nat.
Proof.
  induction t as [|c t IH]; [reflexivity|].
  cbn [app lcp length]. rewrite Z.eqb_refl, IH. reflexivity.
Qed.

Lemma lex_compare_app (t x y : list Z) : lex_compare (t ++ x) (t ++ y) = lex_compare x y.
Proof.
  induction t as [|c t IH]; [reflexivity|].
  cbn [app lex_compare]. rewrite Z.compare_refl. exact IH.
Qed.

Lemma lex_compare_at_lcp (x y : list Z) :
  nul_free x -> nul_free y ->
  lex_compare x y
  = (default 0 (head (drop (lcp x y) x)) ?= default 0 (head (drop (lcp x y) y))).
Proof.
  intros Hx. revert y. induction Hx as [|a x Ha Hx IH]; intros y Hy.
  - destruct Hy as [|b y Hb Hy]; cbn [lcp lex_compare drop head default from_option id]; [reflexivity|].
    symmetry. apply Z.compare_lt_iff. lia.
  - destruct Hy as [|b y Hb Hy]; cbn [lcp lex_compare drop head default from_option id].
    + symmetry. apply Z.compare_gt_iff. lia.
    + destruct (Z.eqb_spec a b) as [-> | Hne].
      * rewrite Z.compare_refl. cbn [drop]. apply IH, Hy.
      * cbn [drop head default from_option id].
        destruct (Z.compare_spec a b); [contradiction | reflexivity | reflexivity].
Qed.

Lemma lcp_le_length (x y : list Z) : (lcp x y <= length x)%nat /\ (lcp x y <= length y)%nat.
Proof.
  revert y. induction x as [|a x IH]; intros [|b y]; cbn; try lia.
  destruct (a =? b); cbn; [|lia]. specialize (IH y). lia.
Qed.

Lemma load_be_inj (u v : list Z) :
  bytes_ok u -> bytes_ok v -> length u = length v -> load_be u = load_be v -> u = v.
Proof.
  intros Hu Hv Hlen Heq. apply lex_compare_eq.
  rewrite <- load_be_compare by assumption. rewrite Heq. apply Z.compare_refl.
Qed.

Lemma window_eq_pad8 (s t : cstring) (d : Z) :
  nul_free s -> nul_free t -> load_window s d = load_window t d ->
  pad8 (suffix s d) = pad8 (suffix t d).
Proof.
  intros Hs Ht Heq. unfold load_window in Heq.
  apply load_be_inj; [ | | | exact Heq].
  - apply padn_bytes_ok, nul_free_bytes_ok, nul_free_drop, Hs.
  - apply padn_bytes_ok, nul_free_bytes_ok, nul_free_drop, Ht.
  - unfold pad8. rewrite !padn_length. reflexivity.
Qed.

Lemma compare_fast_path (a b : StringItem) (depth : Z) :
  item_ok depth a -> item_ok depth b -> cache a <> cache b ->
  compare_and_count a b depth
  = Done (if cache a <? cache b then -1 else 1, clz64 (Z.lxor (cache a) (cache b)) / 8)
  /\ compare_post a b depth (compare_and_count a b depth).
Proof.
  intros [Hna Hca] [Hnb Hcb] Hne.
  assert (E : compare_and_count a b depth
    = Done (if cache a <? cache b then -1 else 1, clz64 (Z.lxor (cache a) (cache b)) / 8)).
  { unfold compare_and_count. destruct (Z.eqb_spec (cache a) (cache b)); [contradiction|].
    reflexivity. }
  split; [exact E|]. rewrite E. unfold compare_post.
  set (u := suffix (ptr a) depth). set (v := suffix (ptr b) depth).
  assert (Hu : nul_free u) by (apply nul_free_drop, Hna).
  assert (Hv : nul_free v) by (apply nul_free_drop, Hnb).
  assert (Hpu : bytes_ok (pad8 u)) by (apply padn_bytes_ok, nul_free_bytes_ok, Hu).
  assert (Hpv : bytes_ok (pad8 v)) by (apply padn_bytes_ok, nul_free_bytes_ok, Hv).
  assert (Hwa : cache a = load_be (pad8 u)) by exact Hca.
  assert (Hwb : cache b = load_be (pad8 v)) by exact Hcb.
  assert (Hpne : padn 8 u <> padn 8 v).
  { intros Heq. apply Hne. rewrite Hwa, Hwb. unfold pad8. rewrite Heq. reflexivity. }
  destruct (padn_neq_compare 8 u v Hu Hv Hpne) as [Hcmp Hlcp].
  pose proof (load_window_range (ptr a) depth (nul_free_bytes_ok _ Hna)) as Ra.
  pose proof (load_window_range (ptr b) depth (nul_free_bytes_ok _ Hnb)) as Rb.
  rewrite <- Hca in Ra. rewrite <- Hcb in Rb.
  split.
  - rewrite <- Hcmp. fold (pad8 u) (pad8 v).
    rewrite <- load_be_compare, <- Hwa, <- Hwb
      by (try assumption; unfold pad8; rewrite !padn_length; reflexivity).
    destruct (Z.ltb_spec (cache a) (cache b)).
    + symmetry. apply Z.compare_lt_iff. assumption.
    + symmetry. apply Z.compare_gt_iff. lia.
  - destruct (lcp_window_bytes (cache a) (cache b) Ra Rb Hne) as [Hl _].
    rewrite <- Hl, Hwa, Hwb.
    rewrite !window_bytes_load_be
      by (try assumption; unfold pad8; rewrite padn_length; reflexivity).
    unfold pad8. rewrite Hlcp. reflexivity.
Qed.

Lemma compare_slow_path (a b : StringItem) (depth : Z) :
  0 <= depth -> item_ok depth a -> item_ok depth b -> cache a = cache b ->
  compare_post a b depth (compare_and_count a b depth).
Proof.
  intros Hd [Hna Hca] [Hnb Hcb] Heq.
  assert (Hpad : pad8 (suffix (ptr a) depth) = pad8 (suffix (ptr b) depth)).
  { apply window_eq_pad8; [assumption | assumption | congruence]. }
  unfold compare_and_count. rewrite Heq, Z.eqb_refl. cbn [negb].
  set (u := suffix (ptr a) depth) in *. set (v := suffix (ptr b) depth) in *.
  assert (Hu : nul_free u) by (apply nul_free_drop, Hna).
  assert (Hv : nul_free v) by (apply nul_free_drop, Hnb).
  assert (Hlu : length u = (length (ptr a) - Z.to_nat depth)%nat) by apply length_drop.
  assert (Hlv : length v = (length (ptr b) - Z.to_nat depth)%nat) by apply length_drop.
  destruct (Nat.lt_ge_cases (length u) 8) as [Hshort | Hlong].
  - (* the string ends inside the window: the scan starts past its terminator *)
    assert (Huv : u = v) by (apply (padn_eq_short 8); assumption).
    cbn [scan_equal]. rewrite (char_at_fault (ptr a)) by (unfold strlen; lia).
    cbn. unfold strlen. repeat split; [exact Heq | lia | exact Huv].
  - pose proof (padn_eq_take 8 u v Hu Hv Hpad) as Htake.
    assert (Hlv8 : (8 <= length v)%nat).
    { assert (length (take 8 u) = length (take 8 v)) by congruence.
      rewrite !length_take in H. lia. }
    assert (Hdu : drop (Z.to_nat (depth + 8 + 0)) (ptr a) = drop 8 u).
    { unfold u, suffix. rewrite drop_drop. f_equal. lia. }
    assert (Hdv : drop (Z.to_nat (depth + 8 + 0)) (ptr b) = drop 8 v).
    { unfold v, suffix. rewrite drop_drop. f_equal. lia. }
    rewrite scan_equal_spec; unfold strlen; try assumption; try lia.
    2:{ rewrite Hdu, length_drop. lia. }
    rewrite Hdu, Hdv. cbn [mbind outcome_bind].
    set (x := drop 8 u). set (y := drop 8 v).
    assert (Hx : nul_free x) by (apply nul_free_drop, Hu).
    assert (Hy : nul_free y) by (apply nul_free_drop, Hv).
    pose proof (lcp_le_length x y) as [Hkx Hky].
    assert (Hlx : length x = (length u - 8)%nat) by apply length_drop.
    assert (Hly : length y = (length v - 8)%nat) by apply length_drop.
    rewrite !char_at_drop by (unfold strlen; lia).
    cbn [mbind outcome_bind compare_post].
    replace (Z.to_nat (depth + 8 + (0 + Z.of_nat (lcp x y))))
      with (Z.to_nat depth + 8 + lcp x y)%nat by lia.
    rewrite <- !drop_drop. fold (suffix (ptr a) depth) (suffix (ptr b) depth).
    fold u v x y.
    assert (Hlex : lex_compare u v = lex_compare x y).
    { rewrite <- (take_drop 8 v), <- (take_drop 8 u), Htake. apply lex_compare_app. }
    assert (Hlcp : lcp u v = (8 + lcp x y)%nat).
    { rewrite <- (take_drop 8 v), <- (take_drop 8 u), Htake, lcp_app.
      rewrite length_take. fold x y. lia. }
    rewrite Hlex, Hlcp. split.
    + rewrite (lex_compare_at_lcp x y Hx Hy).
      set (c1 := default 0 (head (drop (lcp x y) x))).
      set (c2 := default 0 (head (drop (lcp x y) y))).
      destruct (Z.compare_spec c1 c2);
        [apply Z.compare_eq_iff | apply Z.compare_lt_iff | apply Z.compare_gt_iff]; lia.
    + lia.
Qed.

Lemma compare_and_count_post (a b : StringItem) (depth : Z) :
  0 <= depth -> item_ok depth a -> item_ok depth b ->
  compare_post a b depth (compare_and_count a b depth).
Proof.
  intros Hd Ha Hb. destruct (Z.eq_dec (cache a) (cache b)) as [Heq | Hne].
  - apply compare_slow_path; assumption.
  - apply compare_fast_path; assumption.
Qed.

Lemma compare_and_count_cpp_eq (a b : StringItem) (depth : Z) :
  compare_and_count_cpp a b depth = compare_and_count a b depth.
Proof.
  unfold compare_and_count_cpp, compare_and_count.
  destruct (Z.eqb_spec (cache a) (cache b)) as [Heq | Hne]; cbn [negb].
  - rewrite Heq, Z.ltb_irrefl.
    rewrite Z.gtb_ltb, Z.ltb_irrefl. reflexivity.
  - destruct (Z.ltb_spec (cache a) (cache b)); [reflexivity|].
    replace (cache a >? cache b) with true; [reflexivity|].
    symmetry. rewrite Z.gtb_ltb. apply Z.ltb_lt. lia.
Qed.

(** ** The scans of the partition *)

Lemma foldr_min_acc (a mc : Z) (l : list Z) :
  foldr Z.min (if a <? mc then a else mc) l = Z.min a (foldr Z.min mc l).
Proof.
  replace (if a <? mc then a else mc) with (Z.min a mc)
    by (destruct (Z.ltb_spec a mc); lia).
  induction l as [|b l IH]; cbn [foldr]; [reflexivity|]. rewrite IH. lia.
Qed.

Lemma foldr_min_le (mc : Z) (l : list Z) (m : Z) :
  m ∈ l -> foldr Z.min mc l <= m.
Proof.
  induction l as [|b l IH]; intros Hin; [inversion Hin|].
  cbn [foldr]. apply elem_of_cons in Hin as [-> | Hin]; [lia|].
  specialize (IH Hin). lia.
Qed.

Lemma foldr_min_le_acc (mc : Z) (l : list Z) : foldr Z.min mc l <= mc.
Proof. induction l as [|b l IH]; cbn [foldr]; lia. Qed.

Lemma foldr_min_app (mc : Z) (l1 l2 : list Z) :
  foldr Z.min (foldr Z.min mc l1) l2 = foldr Z.min mc (l1 ++ l2).
Proof.
  induction l1 as [|b l1 IH]; cbn [foldr app].
  - reflexivity.
  - rewrite <- IH. clear IH. induction l2 as [|c l2 IH]; cbn [foldr]; [reflexivity|].
    rewrite IH. lia.
Qed.

Lemma geb_compare (c : Z) (r : comparison) :
  (c ?= 0) = r -> (c >=? 0) = match r with Lt => false | _ => true end.
Proof. intros <-. unfold Z.geb. destruct (c ?= 0); reflexivity. Qed.

Lemma leb_compare (c : Z) (r : comparison) :
  (c ?= 0) = r -> (c <=? 0) = match r with Gt => false | _ => true end.
Proof. intros <-. unfold Z.leb. destruct (c ?= 0); reflexivity. Qed.

Section Scans.
Variables (pivot : StringItem) (depth : Z).
Hypothesis Hdepth : 0 <= depth.
Hypothesis Hpivot : item_ok depth pivot.


Lemma scan_left_tr_spec (fuel : nat) (arr : list StringItem) (i j : nat) (mc : Z) :
  range_ok depth arr i j -> (S j - i < fuel)%nat ->
  scan_left_post pivot depth arr i j mc (scan_left_tr fuel arr pivot depth i j mc).
Proof.
  revert i mc. induction fuel as [|fuel IH]; intros i mc Hok Hfuel; [lia|].
  cbn [scan_left_tr].
  destruct (Nat.leb_spec i j) as [Hij | Hij].
  2:{ cbn. repeat apply conj.
      - lia.
      - lia.
      - intros k x Hk. lia.
      - lia.
      - intros k x Hk. lia.
      - intros e He. inversion He.
      - reflexivity. }
  destruct (Hok i ltac:(lia)) as (x & Hx & Hxok).
  unfold array_get. rewrite Hx. cbn [mbind outcome_bind].
  pose proof (compare_and_count_post x pivot depth Hdepth Hxok Hpivot) as Hpost.
  destruct (compare_and_count x pivot depth) as [[cmp ml]| |]; cbn [compare_post] in Hpost.
  3:{ contradiction. }
  2:{ cbn. exists x. split; [exists i; split; [lia|exact Hx]|].
      destruct Hpost as (_ & Hs & Hsuf). split; assumption. }
  destruct Hpost as [Hcmp Hml]. cbn [mbind outcome_bind].
  fold (cmp_pivot depth pivot x) in Hcmp. fold (shared depth pivot x) in Hml.
  rewrite (geb_compare _ _ Hcmp).
  assert (Hstop : cmp_pivot depth pivot x <> Lt ->
    scan_left_post pivot depth arr i j mc (Done (i, if ml <? mc then ml else mc, [(x, ml)]))).
  { intros Hc. cbn. repeat apply conj.
    - lia.
    - lia.
    - intros k y Hk. lia.
    - intros _. exists x. split; [exact Hx | exact Hc].
    - intros k y Hk Hk' Hy. assert (k = i) by lia. subst k.
      rewrite Hx in Hy. injection Hy as <-. rewrite Hml.
      apply list_elem_of_singleton. reflexivity.
    - intros e He. apply list_elem_of_singleton in He. subst e.
      split; [exists i; split; [lia|exact Hx] | exact Hml].
    - destruct (Z.ltb_spec ml mc); lia. }
  destruct (cmp_pivot depth pivot x) eqn:Hc; [apply Hstop; discriminate | | apply Hstop; discriminate].
  (* smaller than the pivot: advance *)
  clear Hstop.
  specialize (IH (S i) (if ml <? mc then ml else mc)).
  assert (Hok' : range_ok depth arr (S i) j) by (intros k Hk; apply Hok; lia).
  specialize (IH Hok' ltac:(lia)).
  destruct (scan_left_tr fuel arr pivot depth (S i) j (if ml <? mc then ml else mc))
    as [[[i' mc'] log]| |]; cbn [mbind outcome_bind scan_left_post] in *.
  3:{ contradiction. }
  2:{ destruct IH as (y & (k & Hk & Hy) & Hst). exists y.
      split; [exists k; split; [lia | exact Hy] | exact Hst]. }
  destruct IH as (H1 & H2 & H3 & H4 & H5 & H6 & H7).
  repeat apply conj.
  - lia.
  - lia.
  - intros k y Hk Hy. destruct (decide (k = i)) as [-> | Hne].
    + rewrite Hx in Hy. injection Hy as <-. exact Hc.
    + apply (H3 k y); [lia | exact Hy].
  - exact H4.
  - intros k y Hk Hk' Hy. destruct (decide (k = i)) as [-> | Hne].
    + rewrite Hx in Hy. injection Hy as <-. rewrite Hml. apply elem_of_cons. left.
      reflexivity.
    + apply elem_of_cons. right. apply (H5 k y); [lia | lia | exact Hy].
  - intros e He. apply elem_of_cons in He as [-> | He].
    + split; [exists i; split; [lia | exact Hx] | exact Hml].
    + destruct (H6 e He) as [(k & Hk & Hy) Hs]. split; [|exact Hs].
      exists k. split; [lia | exact Hy].
  - rewrite H7. cbn [map foldr snd]. apply foldr_min_acc.
Qed.


Lemma scan_right_tr_spec (fuel : nat) (arr : list StringItem) (i j : nat) (mc : Z) :
  (1 <= i)%nat -> range_ok depth arr i j -> (S j - i < fuel)%nat ->
  scan_right_post pivot depth arr i j mc (scan_right_tr fuel arr pivot depth i j mc).
Proof.
  intros Hi. revert j mc. induction fuel as [|fuel IH]; intros j mc Hok Hfuel; [lia|].
  cbn [scan_right_tr].
  destruct (Nat.leb_spec i j) as [Hij | Hij].
  2:{ cbn. repeat apply conj.
      - lia.
      - lia.
      - reflexivity.
      - intros k x Hk. lia.
      - lia.
      - intros k x Hk. lia.
      - intros e He. inversion He.
      - reflexivity. }
  destruct (Hok j ltac:(lia)) as (x & Hx & Hxok).
  unfold array_get. rewrite Hx. cbn [mbind outcome_bind].
  pose proof (compare_and_count_post x pivot depth Hdepth Hxok Hpivot) as Hpost.
  destruct (compare_and_count x pivot depth) as [[cmp ml]| |]; cbn [compare_post] in Hpost.
  3:{ contradiction. }
  2:{ cbn. exists x. split; [exists j; split; [lia|exact Hx]|].
      destruct Hpost as (_ & Hs & Hsuf). split; assumption. }
  destruct Hpost as [Hcmp Hml]. cbn [mbind outcome_bind].
  fold (cmp_pivot depth pivot x) in Hcmp. fold (shared depth pivot x) in Hml.
  rewrite (leb_compare _ _ Hcmp).
  assert (Hstop : cmp_pivot depth pivot x <> Gt ->
    scan_right_post pivot depth arr i j mc (Done (j, if ml <? mc then ml else mc, [(x, ml)]))).
  { intros Hc. cbn. repeat apply conj.
    - lia.
    - lia.
    - lia.
    - intros k y Hk. lia.
    - intros _. exists x. split; [exact Hx | exact Hc].
    - intros k y Hk Hk' Hy. assert (k = j) by lia. subst k.
      rewrite Hx in Hy. injection Hy as <-. rewrite Hml.
      apply list_elem_of_singleton. reflexivity.
    - intros e He. apply list_elem_of_singleton in He. subst e.
      split; [exists j; split; [lia|exact Hx] | exact Hml].
    - destruct (Z.ltb_spec ml mc); lia. }
  destruct (cmp_pivot depth pivot x) eqn:Hc;
    [apply Hstop; discriminate | apply Hstop; discriminate | ].
  (* larger than the pivot: step down *)
  clear Hstop.
  specialize (IH (j - 1)%nat (if ml <? mc then ml else mc)).
  assert (Hok' : range_ok depth arr i (j - 1)) by (intros k Hk; apply Hok; lia).
  specialize (IH Hok' ltac:(lia)).
  destruct (scan_right_tr fuel arr pivot depth i (j - 1) (if ml <? mc then ml else mc))
    as [[[j' mc'] log]| |]; cbn [mbind outcome_bind scan_right_post] in *.
  3:{ contradiction. }
  2:{ destruct IH as (y & (k & Hk & Hy) & Hst). exists y.
      split; [exists k; split; [lia | exact Hy] | exact Hst]. }
  destruct IH as (H1 & H2 & H2' & H3 & H4 & H5 & H6 & H7).
  repeat apply conj.
  - lia.
  - lia.
  - lia.
  - intros k y Hk Hy. destruct (decide (k = j)) as [-> | Hne].
    + rewrite Hx in Hy. injection Hy as <-. exact Hc.
    + apply (H3 k y); [lia | exact Hy].
  - exact H4.
  - intros k y Hk Hk' Hy. destruct (decide (k = j)) as [-> | Hne].
    + rewrite Hx in Hy. injection Hy as <-. rewrite Hml. apply elem_of_cons. left.
      reflexivity.
    + apply elem_of_cons. right. apply (H5 k y); [lia | lia | exact Hy].
  - intros e He. apply elem_of_cons in He as [-> | He].
    + split; [exists j; split; [lia | exact Hx] | exact Hml].
    + destruct (H6 e He) as [(k & Hk & Hy) Hs]. split; [|exact Hs].
      exists k. split; [lia | exact Hy].
  - rewrite H7. cbn [map foldr snd]. apply foldr_min_acc.
Qed.
End Scans.

(** ** Rearrangements of a range *)

Lemma in_range_weaken {A : Type} (arr : list A) (lo hi lo' hi' : nat) (x : A) :
  (lo' <= lo)%nat -> (hi <= hi')%nat -> in_range arr lo hi x -> in_range arr lo' hi' x.
Proof. intros Hlo Hhi (k & Hk & Hx). exists k. split; [lia | exact Hx]. Qed.

Lemma moved_refl {A : Type} (lo hi : nat) (arr : list A) : moved lo hi arr arr.
Proof. repeat apply conj; auto. Qed.

Lemma moved_trans {A : Type} (lo hi : nat) (a b c : list A) :
  moved lo hi a b -> moved lo hi b c -> moved lo hi a c.
Proof.
  intros (L1 & F1 & I1 & P1) (L2 & F2 & I2 & P2). repeat apply conj.
  - congruence.
  - intros k Hk. rewrite F2, F1 by exact Hk. reflexivity.
  - auto.
  - etransitivity; eassumption.
Qed.

Lemma moved_weaken {A : Type} (lo hi lo' hi' : nat) (a b : list A) :
  (lo' <= lo)%nat -> (hi <= hi')%nat -> moved lo hi a b -> moved lo' hi' a b.
Proof.
  intros Hlo Hhi (L & F & I & P). repeat apply conj.
  - exact L.
  - intros k Hk. apply F. lia.
  - intros x (k & Hk & Hx).
    destruct (decide (lo <= k <= hi)%nat) as [Hin | Hout].
    + apply (in_range_weaken a lo hi); [lia | lia |]. apply I. exists k. auto.
    + rewrite F in Hx by exact Hout. exists k. auto.
  - exact P.
Qed.

Lemma swap_items_Done (arr : list StringItem) (i j : nat) (a b : StringItem) :
  arr !! i = Some a -> arr !! j = Some b ->
  swap_items arr i j = Done (<[j := a]> (<[i := b]> arr)).
Proof. intros Ha Hb. unfold swap_items, array_get. rewrite Ha, Hb. reflexivity. Qed.

Lemma swap_lookup {A : Type} (arr : list A) (i j k : nat) (a b : A) :
  arr !! i = Some a -> arr !! j = Some b ->
  <[j := a]> (<[i := b]> arr) !! k
  = if decide (k = j) then Some a else if decide (k = i) then Some b else arr !! k.
Proof.
  intros Ha Hb.
  pose proof (lookup_lt_Some _ _ _ Ha) as Li. pose proof (lookup_lt_Some _ _ _ Hb) as Lj.
  destruct (decide (k = j)) as [-> | Hkj].
  - apply list_lookup_insert_eq. rewrite length_insert. exact Lj.
  - rewrite list_lookup_insert_ne by congruence.
    destruct (decide (k = i)) as [-> | Hki].
    + apply list_lookup_insert_eq. exact Li.
    + apply list_lookup_insert_ne. congruence.
Qed.

Lemma moved_swap {A : Type} (lo hi : nat) (arr : list A) (i j : nat) (a b : A) :
  (lo <= i <= hi)%nat -> (lo <= j <= hi)%nat ->
  arr !! i = Some a -> arr !! j = Some b ->
  moved lo hi arr (<[j := a]> (<[i := b]> arr)).
Proof.
  intros Hi Hj Ha Hb. repeat apply conj.
  - rewrite !length_insert. reflexivity.
  - intros k Hk. rewrite (swap_lookup arr i j k a b Ha Hb).
    destruct (decide (k = j)); [lia|]. destruct (decide (k = i)); [lia|]. reflexivity.
  - intros x (k & Hk & Hx). rewrite (swap_lookup arr i j k a b Ha Hb) in Hx.
    destruct (decide (k = j)).
    + injection Hx as <-. exists i. auto.
    + destruct (decide (k = i)).
      * injection Hx as <-. exists j. auto.
      * exists k. auto.
  - apply Permutation_insert_swap; assumption.
Qed.

(** ** The exchange loop *)

Section Loop.
Variables (pivot : StringItem) (depth : Z).
Hypothesis Hdepth : 0 <= depth.
Hypothesis Hpivot : item_ok depth pivot.

Lemma partition_loop_tr_spec (fuel : nat) (arr : list StringItem) (i j : nat) (mc : Z) :
  (1 <= i)%nat -> range_ok depth arr i j -> (S j - i < fuel)%nat ->
  partition_loop_post pivot depth arr i j mc
    (partition_loop_tr fuel arr pivot depth i j mc).
Proof.
  revert arr i j mc. induction fuel as [|fuel IH]; intros arr i j mc Hi Hok Hfuel; [lia|].
  cbn [partition_loop_tr].
  pose proof (scan_left_tr_spec pivot depth Hdepth Hpivot (S (S j - i)) arr i j mc Hok
                ltac:(lia)) as HL.
  destruct (scan_left_tr (S (S j - i)) arr pivot depth i j mc) as [[[i1 mc1] log1]| |];
    cbn [scan_left_post mbind outcome_bind] in *; [ | exact HL | contradiction].
  destruct HL as (L1 & L2 & L3 & L4 & L5 & L6 & L7).
  assert (Hok1 : range_ok depth arr i1 j) by (intros k Hk; apply Hok; lia).
  pose proof (scan_right_tr_spec pivot depth Hdepth Hpivot (S (S j - i1)) arr i1 j mc1
                ltac:(lia) Hok1 ltac:(lia)) as HR.
  destruct (scan_right_tr (S (S j - i1)) arr pivot depth i1 j mc1) as [[[j1 mc2] log2]| |];
    cbn [scan_right_post mbind outcome_bind] in *; [ | | contradiction].
  2:{ destruct HR as (x & Hx & Hs). exists x. split; [|exact Hs].
      apply (in_range_weaken arr i1 j); [lia | lia | exact Hx]. }
  destruct HR as (R1 & R2 & R2' & R3 & R4 & R5 & R6 & R7).
  assert (Hlog12 : forall e, e ∈ log1 ++ log2 ->
            in_range arr i j e.1 /\ e.2 = shared depth pivot e.1).
  { intros e He. apply elem_of_app in He as [He | He]; [apply L6, He|].
    destruct (R6 e He) as [Hin Hs]. split; [|exact Hs].
    apply (in_range_weaken arr i1 j); [lia | lia | exact Hin]. }
  assert (Hmc12 : mc2 = foldr Z.min mc (map snd (log1 ++ log2))).
  { rewrite R7, L7, map_app. apply foldr_min_app. }
  destruct (Nat.leb_spec i1 j1) as [Hcross | Hcross].
  - (* exchange and continue *)
    destruct (Hok i1 ltac:(lia)) as (a & Ha & Haok).
    destruct (Hok j1 ltac:(lia)) as (b & Hb & Hbok).
    rewrite (swap_items_Done arr i1 j1 a b Ha Hb). cbn [mbind outcome_bind].
    set (arr2 := <[j1 := a]> (<[i1 := b]> arr)).
    assert (Hlk : forall k, arr2 !! k = if decide (k = j1) then Some a
                                       else if decide (k = i1) then Some b else arr !! k)
      by (intros k; apply swap_lookup; assumption).
    assert (Hmv2 : moved i j arr arr2) by (apply moved_swap; [lia | lia | exact Ha | exact Hb]).
    assert (Hok2 : range_ok depth arr2 (S i1) (j1 - 1)).
    { intros k Hk. rewrite Hlk. destruct (decide (k = j1)); [lia|].
      destruct (decide (k = i1)); [lia|]. apply Hok. lia. }
    specialize (IH arr2 (S i1) (j1 - 1)%nat mc2 ltac:(lia) Hok2 ltac:(lia)).
    destruct (partition_loop_tr fuel arr2 pivot depth (S i1) (j1 - 1) mc2)
      as [[[[arr' j'] mc'] log3]| |];
      cbn [partition_loop_post mbind outcome_bind] in *; [ | | contradiction].
    2:{ destruct IH as (x & (k & Hk & Hx) & Hs). exists x. split; [|exact Hs].
        rewrite Hlk in Hx. destruct (decide (k = j1)); [lia|].
        destruct (decide (k = i1)); [lia|]. exists k. split; [lia | exact Hx]. }
    destruct IH as (N1 & N2 & N2' & N3 & N4 & N5 & N6 & N7 & N8).
    destruct N3 as (NL & NF & NI & NP).
    destruct L4 as (a' & Ha' & Hage); [lia|].
    rewrite Ha in Ha'. injection Ha' as <-.
    destruct R4 as (b' & Hb' & Hble); [lia|].
    rewrite Hb in Hb'. injection Hb' as <-.
    assert (Hj' : (i1 - 1 <= j')%nat).
    { destruct (decide (i1 = j1)) as [-> | Hne]; [|lia].
      (* the two cursors met on one item: the recursive call returns at once *)
      clear - N1 N2 N2' Hi L1. lia. }
    split_and!.
    + lia.
    + lia.
    + lia.
    + eapply moved_trans; [exact Hmv2|].
      apply (moved_weaken (S i1) (j1 - 1)); [lia | lia |].
      repeat apply conj; assumption.
    + intros k x Hk Hx.
      destruct (decide (S i1 <= k)%nat) as [Hin | Hout]; [apply (N4 k x); [lia | exact Hx]|].
      rewrite NF, Hlk in Hx by lia.
      destruct (decide (k = j1)) as [-> | ?]; [lia|].
      destruct (decide (k = i1)) as [-> | ?]; [injection Hx as <-; exact Hble|].
      rewrite (L3 k x); [discriminate | lia | exact Hx].
    + intros k x Hk Hx.
      destruct (decide (k <= j1 - 1)%nat) as [Hin | Hout]; [apply (N5 k x); [lia | exact Hx]|].
      rewrite NF, Hlk in Hx by lia.
      destruct (decide (k = j1)) as [-> | ?]; [injection Hx as <-; exact Hage|].
      destruct (decide (k = i1)) as [-> | ?]; [lia|].
      rewrite (R3 k x); [discriminate | lia | exact Hx].
    + intros x (k & Hk & Hx). rewrite !elem_of_app.
      destruct (decide (S i1 <= k <= j1 - 1)%nat) as [Hin | Hout].
      { right. right. apply N6. exists k. auto. }
      rewrite NF, Hlk in Hx by exact Hout.
      destruct (decide (k = j1)) as [-> | ?].
      { injection Hx as <-. left. apply (L5 i1 a); [lia | lia | exact Ha]. }
      destruct (decide (k = i1)) as [-> | ?].
      { injection Hx as <-. right. left. apply (R5 j1 b); [lia | lia | exact Hb]. }
      destruct (decide (k <= i1)%nat).
      * left. apply (L5 k x); [lia | lia | exact Hx].
      * right. left. apply (R5 k x); [lia | lia | exact Hx].
    + intros e He. rewrite app_assoc in He. apply elem_of_app in He as [He | He].
      { apply Hlog12, He. }
      destruct (N7 e He) as [(k & Hk & Hx) Hs]. split; [|exact Hs].
      rewrite Hlk in Hx. destruct (decide (k = j1)); [lia|].
      destruct (decide (k = i1)); [lia|]. exists k. split; [lia | exact Hx].
    + rewrite N8, Hmc12, app_assoc, (map_app _ (log1 ++ log2)). apply foldr_min_app.
  - (* the cursors crossed *)
    cbn [partition_loop_post]. split_and!.
    + lia.
    + lia.
    + lia.
    + apply moved_refl.
    + intros k x Hk Hx. rewrite (L3 k x); [discriminate | lia | exact Hx].
    + intros k x Hk Hx. rewrite (R3 k x); [discriminate | lia | exact Hx].
    + intros x (k & Hk & Hx). apply elem_of_app.
      destruct (decide (k <= i1)%nat).
      * left. apply (L5 k x); [lia | lia | exact Hx].
      * right. apply (R5 k x); [lia | lia | exact Hx].
    + exact Hlog12.
    + exact Hmc12.
Qed.
End Loop.

(** ** The instrumented loops compute what the plain ones do *)

Lemma scan_left_erase (fuel : nat) (arr : list StringItem) (pivot : StringItem) (depth : Z)
    (i j : nat) (mc : Z) :
  drop_log <$> scan_left_tr fuel arr pivot depth i j mc
  = scan_left fuel arr pivot depth i j mc.
Proof.
  revert i mc. induction fuel as [|fuel IH]; intros i mc; [reflexivity|].
  cbn [scan_left_tr scan_left]. destruct (i <=? j)%nat; [|reflexivity].
  destruct (array_get arr i) as [x| |]; [|reflexivity|reflexivity]. cbn [mbind outcome_bind].
  destruct (compare_and_count x pivot depth) as [[cmp ml]| |]; [|reflexivity|reflexivity].
  cbn [mbind outcome_bind]. destruct (cmp >=? 0); [reflexivity|].
  rewrite <- IH.
  destruct (scan_left_tr fuel arr pivot depth (S i) j (if ml <? mc then ml else mc))
    as [[[i' mc'] log]| |]; reflexivity.
Qed.

Lemma scan_right_erase (fuel : nat) (arr : list StringItem) (pivot : StringItem) (depth : Z)
    (i j : nat) (mc : Z) :
  drop_log <$> scan_right_tr fuel arr pivot depth i j mc
  = scan_right fuel arr pivot depth i j mc.
Proof.
  revert j mc. induction fuel as [|fuel IH]; intros j mc; [reflexivity|].
  cbn [scan_right_tr scan_right]. destruct (i <=? j)%nat; [|reflexivity].
  destruct (array_get arr j) as [x| |]; [|reflexivity|reflexivity]. cbn [mbind outcome_bind].
  destruct (compare_and_count x pivot depth) as [[cmp ml]| |]; [|reflexivity|reflexivity].
  cbn [mbind outcome_bind]. destruct (cmp <=? 0); [reflexivity|].
  rewrite <- IH.
  destruct (scan_right_tr fuel arr pivot depth i (j - 1) (if ml <? mc then ml else mc))
    as [[[j' mc'] log]| |]; reflexivity.
Qed.

Lemma partition_loop_erase (fuel : nat) (arr : list StringItem) (pivot : StringItem)
    (depth : Z) (i j : nat) (mc : Z) :
  drop_log <$> partition_loop_tr fuel arr pivot depth i j mc
  = partition_loop fuel arr pivot depth i j mc.
Proof.
  revert arr i j mc. induction fuel as [|fuel IH]; intros arr i j mc; [reflexivity|].
  cbn [partition_loop_tr partition_loop].
  rewrite <- scan_left_erase.
  destruct (scan_left_tr (S (S j - i)) arr pivot depth i j mc) as [[[i1 mc1] log1]| |];
    [|reflexivity|reflexivity].
  cbn [fmap outcome_fmap mbind outcome_bind drop_log fst].
  rewrite <- scan_right_erase.
  destruct (scan_right_tr (S (S j - i1)) arr pivot depth i1 j mc1) as [[[j1 mc2] log2]| |];
    [|reflexivity|reflexivity].
  cbn [fmap outcome_fmap mbind outcome_bind drop_log fst].
  destruct (i1 <=? j1)%nat; [|reflexivity].
  destruct (swap_items arr i1 j1) as [arr2| |]; [|reflexivity|reflexivity].
  cbn [mbind outcome_bind]. rewrite <- IH.
  destruct (partition_loop_tr fuel arr2 pivot depth (S i1) (j1 - 1) mc2)
    as [[[[arr' j'] mc'] log3]| |]; reflexivity.
Qed.

Section PartitionSpec.
Context {tape : Type}.
Variable pick : tape -> nat -> nat -> nat * tape.
Hypothesis pick_in_range :
  forall t low high, (low <= high)%nat ->
    (low <= fst (pick t low high) <= high)%nat.

Lemma partition_erase (t : tape) (arr : list StringItem) (low high : nat) (depth : Z) :
  drop_log <$> partition_tr pick t arr low high depth = partition pick t arr low high depth.
Proof.
  unfold partition_tr, partition. destruct (pick t low high) as [p t'].
  destruct (swap_items arr low p) as [arr1| |]; [|reflexivity|reflexivity].
  cbn [mbind outcome_bind].
  destruct (array_get arr1 low) as [pivot| |]; [|reflexivity|reflexivity].
  cbn [mbind outcome_bind]. rewrite <- partition_loop_erase.
  destruct (partition_loop_tr (S (high - low)) arr1 pivot depth (S low) high INT_MAX)
    as [[[[arr2 j] mc] log]| |]; [|reflexivity|reflexivity].
  cbn [fmap outcome_fmap mbind outcome_bind drop_log fst].
  destruct (swap_items arr2 low j) as [arr3| |]; reflexivity.
Qed.

Lemma partition_tr_spec (t : tape) (arr : list StringItem) (low high : nat) (depth : Z) :
  0 <= depth -> (low < high)%nat -> range_ok depth arr low high ->
  partition_post depth arr low high (partition_tr pick t arr low high depth).
Proof.
  intros Hd Hlh Hok. unfold partition_tr.
  pose proof (pick_in_range t low high ltac:(lia)) as Hp.
  destruct (pick t low high) as [p t']. cbn [fst] in Hp.
  destruct (Hok low ltac:(lia)) as (a0 & Ha0 & Ha0ok).
  destruct (Hok p ltac:(lia)) as (pv & Hpv & Hpvok).
  rewrite (swap_items_Done arr low p a0 pv Ha0 Hpv). cbn [mbind outcome_bind].
  set (arr1 := <[p := a0]> (<[low := pv]> arr)).
  assert (Hlk1 : forall k, arr1 !! k = if decide (k = p) then Some a0
                                      else if decide (k = low) then Some pv else arr !! k)
    by (intros k; apply swap_lookup; assumption).
  assert (Hmv1 : moved low high arr arr1)
    by (apply moved_swap; [lia | lia | exact Ha0 | exact Hpv]).
  assert (Hpiv : arr1 !! low = Some pv).
  { rewrite Hlk1. destruct (decide (low = p)) as [<- | ?]; [congruence|].
    rewrite decide_True by reflexivity. reflexivity. }
  unfold array_get at 1. rewrite Hpiv. cbn [mbind outcome_bind].
  assert (Hok1 : range_ok depth arr1 (S low) high).
  { intros k Hk. rewrite Hlk1. destruct (decide (k = p)); [eauto|].
    destruct (decide (k = low)); [lia|]. apply Hok. lia. }
  pose proof (partition_loop_tr_spec pv depth Hd Hpvok (S (high - low)) arr1 (S low) high
                INT_MAX ltac:(lia) Hok1 ltac:(lia)) as HL.
  destruct (partition_loop_tr (S (high - low)) arr1 pv depth (S low) high INT_MAX)
    as [[[[arr2 j] mc] log]| |];
    cbn [partition_loop_post mbind outcome_bind] in *; [ | | contradiction].
  2:{ (* a comparison faulted: the item and the pivot sit at two positions of [arr] *)
      destruct HL as (x & (k & Hk & Hx) & Hs). rewrite Hlk1 in Hx.
      destruct (decide (k = p)) as [-> | Hkp].
      - injection Hx as <-. exists p, low, pv, a0.
        split_and!; try lia; assumption.
      - destruct (decide (k = low)); [lia|].
        exists p, k, pv, x. split_and!; try lia; assumption. }
  destruct HL as (N1 & N2 & _ & N3 & N4 & N5 & N6 & N7 & N8).
  assert (Hlow2 : arr2 !! low = Some pv).
  { destruct N3 as (_ & NF & _). rewrite NF by lia. exact Hpiv. }
  assert (Hlen2 : length arr2 = length arr).
  { destruct N3 as (NL & _). rewrite NL. unfold arr1. rewrite !length_insert. reflexivity. }
  assert (Hj : exists y, arr2 !! j = Some y).
  { apply lookup_lt_is_Some. rewrite Hlen2.
    apply lookup_lt_Some in Hpv. apply lookup_lt_Some in Ha0.
    destruct (Hok high ltac:(lia)) as (z & Hz & _). apply lookup_lt_Some in Hz. lia. }
  destruct Hj as (y & Hy).
  rewrite (swap_items_Done arr2 low j pv y Hlow2 Hy). cbn [mbind outcome_bind partition_post].
  set (arr3 := <[j := pv]> (<[low := y]> arr2)).
  assert (Hlk3 : forall k, arr3 !! k = if decide (k = j) then Some pv
                                      else if decide (k = low) then Some y else arr2 !! k)
    by (intros k; apply swap_lookup; assumption).
  split; [lia|]. split.
  { eapply moved_trans; [exact Hmv1|]. eapply moved_trans.
    - apply (moved_weaken (S low) high); [lia | lia | exact N3].
    - apply moved_swap; [lia | lia | exact Hlow2 | exact Hy]. }
  exists pv. split_and!.
  - rewrite Hlk3. rewrite decide_True by reflexivity. reflexivity.
  - intros k x Hk Hx. rewrite Hlk3 in Hx. destruct (decide (k = j)); [lia|].
    destruct (decide (k = low)) as [-> | ?].
    + injection Hx as <-. apply (N4 j y); [lia | exact Hy].
    + apply (N4 k x); [lia | exact Hx].
  - intros k x Hk Hx. rewrite Hlk3 in Hx. destruct (decide (k = j)); [lia|].
    destruct (decide (k = low)); [lia|]. apply (N5 k x); [lia | exact Hx].
  - intros k x Hk Hkj Hx. rewrite Hlk3 in Hx. destruct (decide (k = j)); [contradiction|].
    destruct (decide (k = low)) as [-> | ?].
    + injection Hx as <-. apply N6. exists j. split; [lia | exact Hy].
    + apply N6. exists k. split; [lia | exact Hx].
  - intros e He. destruct (N7 e He) as [Hin Hs]. split; [|exact Hs].
    destruct Hmv1 as (_ & _ & I1 & _). apply I1.
    apply (in_range_weaken arr1 (S low) high); [lia | lia | exact Hin].
  - unfold min_match_len. rewrite <- N8. reflexivity.
Qed.
End PartitionSpec.

(** ** Order and prefix facts used by the recursion *)

Lemma lex_compare_antisym (u v : list Z) : lex_compare v u = CompOpp (lex_compare u v).
Proof.
  revert v. induction u as [|a u IH]; intros [|b v]; cbn [lex_compare]; try reflexivity.
  rewrite (Z.compare_antisym a b).
  destruct (a ?= b); cbn [CompOpp]; [apply IH | reflexivity | reflexivity].
Qed.

Lemma lex_le_refl (u : list Z) : lex_le u u.
Proof. unfold lex_le. rewrite lex_compare_refl. discriminate. Qed.

Lemma lex_le_trans (u v w : list Z) : lex_le u v -> lex_le v w -> lex_le u w.
Proof.
  unfold lex_le. revert v w.
  induction u as [|a u IH]; intros [|b v] [|c w]; cbn [lex_compare]; try congruence.
  destruct (Z.compare_spec a b) as [-> | Hab | Hab]; [| |congruence].
  - destruct (Z.compare_spec b c) as [-> | Hbc | Hbc]; [apply IH | discriminate | congruence].
  - destruct (Z.compare_spec b c) as [-> | Hbc | Hbc]; [| |congruence].
    + intros _ _. replace (a ?= c) with Lt by (symmetry; apply Z.compare_lt_iff; lia).
      discriminate.
    + intros _ _. replace (a ?= c) with Lt by (symmetry; apply Z.compare_lt_iff; lia).
      discriminate.
Qed.

Lemma lex_le_total (u v : list Z) : lex_le u v \/ lex_le v u.
Proof.
  unfold lex_le. rewrite (lex_compare_antisym u v).
  destruct (lex_compare u v); cbn; [left | left | right]; discriminate.
Qed.

Lemma lex_compare_drop (n : nat) (u v : list Z) :
  take n u = take n v -> lex_compare u v = lex_compare (drop n u) (drop n v).
Proof.
  intros H. rewrite <- (take_drop n u) at 1. rewrite <- (take_drop n v) at 1.
  rewrite H. apply lex_compare_app.
Qed.

Lemma lcp_take (m : nat) (u v : list Z) : (m <= lcp u v)%nat -> take m u = take m v.
Proof.
  revert u v. induction m as [|m IH]; intros u v H; [reflexivity|].
  destruct u as [|a u], v as [|b v]; cbn [lcp] in H; try lia.
  destruct (Z.eqb_spec a b) as [-> | ?]; [|lia].
  cbn [take]. f_equal. apply IH. lia.
Qed.

Lemma take_extend (n m : nat) (u v : list Z) :
  take n u = take n v -> (m <= lcp (drop n u) (drop n v))%nat ->
  take (n + m) u = take (n + m) v.
Proof.
  intros H1 H2. rewrite <- !take_take_drop, H1, (lcp_take m _ _ H2). reflexivity.
Qed.

Lemma suffix_prefix_eq (d : Z) (s t : cstring) :
  take (Z.to_nat d) s = take (Z.to_nat d) t -> suffix s d = suffix t d -> s = t.
Proof.
  unfold suffix. intros H1 H2.
  rewrite <- (take_drop (Z.to_nat d) s), <- (take_drop (Z.to_nat d) t). congruence.
Qed.

(** ** [refresh_range] *)

Lemma refresh_loop_lookup (count : nat) (arr : list StringItem) (lo : nat) (depth : Z)
    (k : nat) :
  refresh_loop count arr lo depth !! k
  = if decide (lo <= k < lo + count)%nat
    then (fun x => refresh_cache x depth) <$> arr !! k
    else arr !! k.
Proof.
  revert arr lo. induction count as [|count IH]; intros arr lo; cbn [refresh_loop].
  - rewrite decide_False by lia. reflexivity.
  - rewrite IH. destruct (arr !! lo) as [x|] eqn:Hx.
    + destruct (decide (k = lo)) as [-> | Hne].
      * rewrite decide_False, decide_True by lia.
        rewrite list_lookup_insert_eq by (eapply lookup_lt_Some; eassumption).
        rewrite Hx. reflexivity.
      * rewrite list_lookup_insert_ne by congruence.
        destruct (decide (S lo <= k < S lo + count)%nat);
          [rewrite decide_True by lia | rewrite decide_False by lia]; reflexivity.
    + destruct (decide (k = lo)) as [-> | Hne].
      * rewrite decide_False, decide_True by lia. rewrite Hx. reflexivity.
      * destruct (decide (S lo <= k < S lo + count)%nat);
          [rewrite decide_True by lia | rewrite decide_False by lia]; reflexivity.
Qed.

Lemma refresh_range_lookup (arr : list StringItem) (lo hi : nat) (depth : Z) (k : nat) :
  refresh_range arr lo hi depth !! k
  = if decide (lo <= k <= hi)%nat
    then (fun x => refresh_cache x depth) <$> arr !! k
    else arr !! k.
Proof.
  unfold refresh_range. rewrite refresh_loop_lookup.
  destruct (decide (lo <= k <= hi)%nat);
    [rewrite decide_True by lia | rewrite decide_False by lia]; reflexivity.
Qed.

Lemma refresh_range_ptr (arr : list StringItem) (lo hi : nat) (depth : Z) :
  map ptr (refresh_range arr lo hi depth) = map ptr arr.
Proof.
  change (ptr <$> refresh_range arr lo hi depth = ptr <$> arr).
  apply list_eq. intros k. rewrite !list_lookup_fmap, refresh_range_lookup.
  destruct (decide (lo <= k <= hi)%nat); [|reflexivity].
  destruct (arr !! k) as [x|]; [|reflexivity]. cbn. rewrite refresh_cache_ptr. reflexivity.
Qed.

Lemma refresh_range_length (arr : list StringItem) (lo hi : nat) (depth : Z) :
  length (refresh_range arr lo hi depth) = length arr.
Proof.
  rewrite <- (length_map ptr), refresh_range_ptr. apply length_map.
Qed.

(** ** Ranges holding the same strings *)

Lemma same_strings_refl (lo hi : nat) (arr : list StringItem) : same_strings lo hi arr arr.
Proof. repeat apply conj; eauto. Qed.

Lemma same_strings_trans (lo hi : nat) (a b c : list StringItem) :
  same_strings lo hi a b -> same_strings lo hi b c -> same_strings lo hi a c.
Proof.
  intros (L1 & F1 & I1 & P1) (L2 & F2 & I2 & P2). repeat apply conj.
  - congruence.
  - intros k Hk. rewrite F2, F1 by exact Hk. reflexivity.
  - intros z Hz. destruct (I2 z Hz) as (y & Hy & Ey).
    destruct (I1 y Hy) as (x & Hx & Ex). exists x. split; [exact Hx | congruence].
  - etransitivity; eassumption.
Qed.

Lemma same_strings_weaken (lo hi lo' hi' : nat) (a b : list StringItem) :
  (lo' <= lo)%nat -> (hi <= hi')%nat -> same_strings lo hi a b -> same_strings lo' hi' a b.
Proof.
  intros Hlo Hhi (L & F & I & P). repeat apply conj.
  - exact L.
  - intros k Hk. apply F. lia.
  - intros x (k & Hk & Hx).
    destruct (decide (lo <= k <= hi)%nat) as [Hin | Hout].
    + destruct (I x) as (y & Hy & Ey); [exists k; auto|].
      exists y. split; [|exact Ey]. apply (in_range_weaken a lo hi); [lia | lia | exact Hy].
    + rewrite F in Hx by exact Hout. exists x. split; [exists k; auto | reflexivity].
  - exact P.
Qed.

Lemma moved_same_strings (lo hi : nat) (a b : list StringItem) :
  moved lo hi a b -> same_strings lo hi a b.
Proof.
  intros (L & F & I & P). repeat apply conj.
  - exact L.
  - exact F.
  - intros x Hx. exists x. split; [apply I, Hx | reflexivity].
  - apply Permutation_map, P.
Qed.

Lemma refresh_same_strings (lo hi : nat) (arr : list StringItem) (depth : Z) :
  same_strings lo hi arr (refresh_range arr lo hi depth).
Proof.
  repeat apply conj.
  - apply refresh_range_length.
  - intros k Hk. rewrite refresh_range_lookup, decide_False by exact Hk. reflexivity.
  - intros x' (k & Hk & Hx). rewrite refresh_range_lookup, decide_True in Hx by exact Hk.
    destruct (arr !! k) as [x|] eqn:Ex; [|discriminate]. cbn in Hx. injection Hx as <-.
    exists x. split; [exists k; auto|]. rewrite refresh_cache_ptr. reflexivity.
  - rewrite refresh_range_ptr. reflexivity.
Qed.

Lemma duplicate_not_NoDup (arr : list StringItem) (k1 k2 : nat) (x y : StringItem) :
  k1 <> k2 -> arr !! k1 = Some x -> arr !! k2 = Some y -> ptr x = ptr y ->
  ~ NoDup (map ptr arr).
Proof.
  intros Hne Hx Hy Heq Hnd. apply Hne.
  apply (NoDup_lookup (ptr <$> arr) k1 k2 (ptr x)).
  - exact Hnd.
  - rewrite list_lookup_fmap, Hx. reflexivity.
  - rewrite list_lookup_fmap, Hy, Heq. reflexivity.
Qed.

Lemma min_match_len_bound (log : comparisons) :
  (forall e, e ∈ log -> 0 <= e.2) ->
  0 <= min_match_len log /\ (forall e, e ∈ log -> min_match_len log <= e.2).
Proof.
  intros Hpos. unfold min_match_len.
  assert (Hm : 0 <= foldr Z.min INT_MAX (map snd log)).
  { clear -Hpos. induction log as [|e log IH]; cbn [map foldr]; [unfold INT_MAX; lia|].
    assert (0 <= e.2) by (apply Hpos, elem_of_cons; auto).
    assert (0 <= foldr Z.min INT_MAX (map snd log))
      by (apply IH; intros e' He'; apply Hpos, elem_of_cons; auto).
    lia. }
  destruct (Z.eqb_spec (foldr Z.min INT_MAX (map snd log)) INT_MAX) as [E | NE].
  - split; [lia|]. intros e He. apply Hpos, He.
  - split; [exact Hm|]. intros e He. apply foldr_min_le.
    change (e.2 ∈ snd <$> log). apply list_elem_of_fmap. exists e. auto.
Qed.

(** ** The recursive driver *)

Lemma in_range_item_ok (d : Z) (arr : list StringItem) (lo hi : nat) (x : StringItem) :
  range_ok d arr lo hi -> in_range arr lo hi x -> item_ok d x.
Proof.
  intros Hok (k & Hk & Hx). destruct (Hok k Hk) as (y & Hy & Hyok). congruence.
Qed.

Lemma sorted_range_trivial (lo hi : nat) (arr : list StringItem) :
  (hi <= lo)%nat -> sorted_range lo hi arr.
Proof.
  intros H k1 k2 x y H1 H2 H3 Hx Hy. assert (k1 = k2) by lia. subst k2.
  assert (x = y) by congruence. subst y. apply lex_le_refl.
Qed.

(** What one partition step establishes for the items on either side of
    the pivot. *)
Lemma partition_sides {tape : Type} (d : Z) (arr : list StringItem) (low high : nat)
    (arr1 : list StringItem) (j : nat) (mc : Z) (t1 : tape) (log : comparisons) :
  sort_pre d arr low high ->
  partition_post d arr low high (Done (arr1, j, mc, t1, log)) ->
  0 <= mc
  /\ exists pivot, arr1 !! j = Some pivot
     /\ forall k, (low <= k <= high)%nat -> k <> j ->
          exists x, arr1 !! k = Some x /\ item_ok d x
            /\ take (Z.to_nat (d + mc)) (ptr x) = take (Z.to_nat (d + mc)) (ptr pivot)
            /\ mc <= shared d pivot x
            /\ ((k < j)%nat -> lex_le (ptr x) (ptr pivot))
            /\ ((j < k)%nat -> lex_le (ptr pivot) (ptr x)).
Proof.
  intros (Hd & Hok & Hpre) (Hj & Hmv & pivot & Hpiv & Hle & Hge & Hcmp & Hlog & Hmc).
  assert (Hnonneg : forall e, e ∈ log -> 0 <= e.2).
  { intros e He. destruct (Hlog e He) as [_ ->]. unfold shared. lia. }
  destruct (min_match_len_bound log Hnonneg) as [Hmc0 Hmcle]. rewrite <- Hmc in *.
  split; [exact Hmc0|]. exists pivot. split; [exact Hpiv|].
  intros k Hk Hkj.
  destruct Hmv as (HL & HF & HI & HP).
  assert (Hx : exists x, arr1 !! k = Some x).
  { apply lookup_lt_is_Some. rewrite HL.
    destruct (Hok high ltac:(lia)) as (z & Hz & _). apply lookup_lt_Some in Hz. lia. }
  destruct Hx as (x & Hx). exists x.
  assert (Hxin : in_range arr low high x) by (apply HI; exists k; auto).
  assert (Hpin : in_range arr low high pivot) by (apply HI; exists j; auto).
  pose proof (Hpre x pivot Hxin Hpin) as Htake.
  assert (Hsh : mc <= shared d pivot x).
  { apply (Hmcle (x, shared d pivot x)). apply (Hcmp k x Hk Hkj Hx). }
  split_and!.
  - exact Hx.
  - eapply in_range_item_ok; eassumption.
  - replace (Z.to_nat (d + mc)) with (Z.to_nat d + Z.to_nat mc)%nat by lia.
    apply take_extend; [exact Htake|]. unfold shared, suffix in Hsh. lia.
  - exact Hsh.
  - intros Hlt. unfold lex_le. rewrite (lex_compare_drop (Z.to_nat d) _ _ Htake).
    apply (Hle k x); [lia | exact Hx].
  - intros Hgt. unfold lex_le. rewrite lex_compare_antisym.
    rewrite (lex_compare_drop (Z.to_nat d) _ _ Htake).
    specialize (Hge k x ltac:(lia) Hx). unfold cmp_pivot, suffix in Hge.
    destruct (lex_compare (drop (Z.to_nat d) (ptr x)) (drop (Z.to_nat d) (ptr pivot)));
      cbn [CompOpp]; congruence.
Qed.

(** The precondition of a recursive call on a sub-range whose items are
    valid at [d] and agree with the pivot on [d + mc] bytes. *)
Lemma sub_range_pre (d mc : Z) (arr : list StringItem) (lo hi : nat) (pivot : StringItem) :
  0 <= d -> 0 <= mc ->
  (forall k, (lo <= k <= hi)%nat ->
     exists x, arr !! k = Some x /\ item_ok d x
       /\ take (Z.to_nat (d + mc)) (ptr x) = take (Z.to_nat (d + mc)) (ptr pivot)) ->
  sort_pre (d + mc)
    (if d + mc >? d then refresh_range arr lo hi (d + mc) else arr) lo hi.
Proof.
  intros Hd Hmc Hitems. split; [lia|].
  destruct (Z.gtb_spec (d + mc) d) as [Hdeeper | Hsame].
  - split.
    + intros k Hk. destruct (Hitems k Hk) as (x & Hx & [Hnf _] & _).
      exists (refresh_cache x (d + mc)).
      rewrite refresh_range_lookup, decide_True, Hx by exact Hk. split; [reflexivity|].
      split; [rewrite refresh_cache_ptr; exact Hnf|].
      rewrite refresh_cache_ptr. apply refresh_cache_window; [|lia].
      apply nul_free_bytes_ok, Hnf.
    + intros x y (kx & Hkx & Hx) (ky & Hky & Hy).
      rewrite refresh_range_lookup, decide_True in Hx by assumption.
      rewrite refresh_range_lookup, decide_True in Hy by assumption.
      destruct (Hitems kx Hkx) as (x0 & Hx0 & _ & Tx).
      destruct (Hitems ky Hky) as (y0 & Hy0 & _ & Ty).
      rewrite Hx0 in Hx. rewrite Hy0 in Hy. cbn in Hx, Hy.
      injection Hx as <-. injection Hy as <-.
      rewrite !refresh_cache_ptr. congruence.
  - assert (mc = 0) by lia. subst mc. replace (d + 0) with d in * by lia. split.
    + intros k Hk. destruct (Hitems k Hk) as (x & Hx & Hxok & _). eauto.
    + intros x y (kx & Hkx & Hx) (ky & Hky & Hy).
      destruct (Hitems kx Hkx) as (x0 & Hx0 & _ & Tx).
      destruct (Hitems ky Hky) as (y0 & Hy0 & _ & Ty). congruence.
Qed.

Section SortSpec.
Context {tape : Type}.
Variable pick : tape -> nat -> nat -> nat * tape.
Hypothesis pick_in_range :
  forall t low high, (low <= high)%nat ->
    (low <= fst (pick t low high) <= high)%nat.

Lemma sub_call_post (fuel : nat) (t : tape) (arr : list StringItem) (lo hi : nat)
    (d nd : Z) :
  sort_range_ok pick fuel ->
  ((lo < hi)%nat ->
     sort_pre nd (if nd >? d then refresh_range arr lo hi nd else arr) lo hi) ->
  (hi - lo < fuel)%nat ->
  sort_post arr lo hi
    (if (lo <? hi)%nat
     then sort_range pick fuel t
            (if nd >? d then refresh_range arr lo hi nd else arr) lo hi nd
     else Done (arr, t))
  /\ ((hi <= lo)%nat ->
      (if (lo <? hi)%nat
       then sort_range pick fuel t
              (if nd >? d then refresh_range arr lo hi nd else arr) lo hi nd
       else Done (arr, t)) = Done (arr, t)).
Proof.
  intros IH Hpre Hfuel. destruct (Nat.ltb_spec lo hi) as [Hlt | Hge];
    (split; [|intros; (lia || reflexivity)]).
  - specialize (IH t (if nd >? d then refresh_range arr lo hi nd else arr) lo hi nd
                   Hpre Hfuel).
    assert (Hss : same_strings lo hi arr
                    (if nd >? d then refresh_range arr lo hi nd else arr)).
    { destruct (nd >? d); [apply refresh_same_strings | apply same_strings_refl]. }
    destruct (sort_range pick fuel t _ lo hi nd) as [[arr' t']| |];
      cbn [sort_post] in *; [ | | contradiction].
    + destruct IH as [Hs Hsorted]. split; [|exact Hsorted].
      eapply same_strings_trans; eassumption.
    + destruct Hss as (_ & _ & _ & HP). rewrite <- HP. exact IH.
  - cbn [sort_post]. split; [apply same_strings_refl|].
    apply sorted_range_trivial. lia.
Qed.

Lemma sort_range_spec (fuel : nat) : sort_range_ok pick fuel.
Proof.
  induction fuel as [|fuel IH]; intros t arr low high d Hpre Hfuel; [lia|].
  cbn [sort_range]. destruct (Nat.leb_spec high low) as [Htriv | Hlh].
  { cbn [sort_post]. split; [apply same_strings_refl | apply sorted_range_trivial; lia]. }
  specialize (Hpre Hlh). pose proof Hpre as (Hd & Hok & Hpfx).
  rewrite <- partition_erase.
  pose proof (partition_tr_spec pick pick_in_range t arr low high d Hd Hlh Hok) as HP.
  destruct (partition_tr pick t arr low high d) as [[[[[arr1 j] mc] t1] log]| |];
    cbn [fmap outcome_fmap mbind outcome_bind drop_log fst]; [ | | contradiction].
  2:{ (* a comparison read past a terminator: two equal strings *)
      cbn [partition_post sort_post] in *.
      destruct HP as (kp & kx & pv & x & Hkp & Hkx & Hne & Hpv & Hx & Hsuf & _).
      apply (duplicate_not_NoDup arr kx kp x pv); [congruence | exact Hx | exact Hpv |].
      apply (suffix_prefix_eq d); [|exact Hsuf].
      apply Hpfx; [exists kx | exists kp]; auto. }
  destruct (partition_sides d arr low high arr1 j mc t1 log Hpre HP)
    as (Hmc & pivot & Hpiv & Hside).
  destruct HP as (Hj & Hmv & _).
  pose proof (moved_same_strings _ _ _ _ Hmv) as Hss1.
  (* left sub-range *)
  pose proof (sub_call_post fuel t1 arr1 low (j - 1) d (d + mc) IH) as HL.
  match type of HL with ?A -> ?B -> _ =>
    assert (HA : A); [|assert (HB : B) by lia; specialize (HL HA HB); clear HA HB] end.
  { intros Hlt. apply (sub_range_pre d mc arr1 low (j - 1) pivot Hd Hmc).
    intros k Hk. destruct (Hside k ltac:(lia) ltac:(lia)) as (x & Hx & Hxok & Htk & _).
    eauto. }
  cbv zeta. destruct HL as [HL HLid].
  destruct (if (low <? j - 1)%nat then _ else _) as [[arr2 t2]| |];
    cbn [sort_post mbind outcome_bind] in *; [ | | contradiction].
  2:{ destruct Hss1 as (_ & _ & _ & HPm). rewrite <- HPm. exact HL. }
  destruct HL as [Hss2 Hsorted2].
  assert (HF2 : forall k, ~ (low <= k < j)%nat -> arr2 !! k = arr1 !! k).
  { intros k Hk. destruct (Nat.le_gt_cases (j - 1) low) as [Hno | Hyes].
    - specialize (HLid Hno). injection HLid as -> _. reflexivity.
    - destruct Hss2 as (_ & HF & _). apply HF. lia. }
  (* right sub-range *)
  pose proof (sub_call_post fuel t2 arr2 (j + 1) high d (d + mc) IH) as HR.
  assert (Hright : forall k, (j + 1 <= k <= high)%nat -> arr2 !! k = arr1 !! k).
  { intros k Hk. apply HF2. lia. }
  match type of HR with ?A -> ?B -> _ =>
    assert (HA : A); [|assert (HB : B) by lia; specialize (HR HA HB); clear HA HB] end.
  { intros Hlt. apply (sub_range_pre d mc arr2 (j + 1) high pivot Hd Hmc).
    intros k Hk. rewrite (Hright k Hk).
    destruct (Hside k ltac:(lia) ltac:(lia)) as (x & Hx & Hxok & Htk & _). eauto. }
  destruct HR as [HR _].
  destruct (if (j + 1 <? high)%nat then _ else _) as [[arr3 t3]| |];
    cbn [sort_post] in *; [ | | contradiction].
  2:{ destruct Hss1 as (_ & _ & _ & HPm). destruct Hss2 as (_ & _ & _ & HPm2).
      rewrite <- HPm, <- HPm2. exact HR. }
  destruct HR as [Hss3 Hsorted3].
  split.
  { eapply same_strings_trans; [exact Hss1|]. eapply same_strings_trans.
    - apply (same_strings_weaken low (j - 1)); [lia | lia | exact Hss2].
    - apply (same_strings_weaken (j + 1) high); [lia | lia | exact Hss3]. }
  (* the pivot stays between the two sorted halves *)
  destruct Hss2 as (_ & _ & HI2 & _). destruct Hss3 as (_ & HF3 & HI3 & _).
  assert (Hpiv3 : arr3 !! j = Some pivot).
  { rewrite HF3, HF2 by lia. exact Hpiv. }
  assert (Hleft : forall k x, (low <= k < j)%nat -> arr3 !! k = Some x ->
                              lex_le (ptr x) (ptr pivot)).
  { intros k x Hk Hx. rewrite HF3 in Hx by lia.
    destruct (HI2 x) as (x1 & (k1 & Hk1 & Hx1) & Ex); [exists k; split; [lia | exact Hx]|].
    destruct (Hside k1 ltac:(lia) ltac:(lia)) as (x1' & Hx1' & _ & _ & _ & Hle & _).
    rewrite Hx1 in Hx1'. injection Hx1' as <-. rewrite <- Ex. apply Hle. lia. }
  assert (Hrightge : forall k x, (j < k <= high)%nat -> arr3 !! k = Some x ->
                                 lex_le (ptr pivot) (ptr x)).
  { intros k x Hk Hx.
    destruct (HI3 x) as (x2 & (k2 & Hk2 & Hx2) & Ex); [exists k; split; [lia | exact Hx]|].
    rewrite Hright in Hx2 by lia.
    destruct (Hside k2 ltac:(lia) ltac:(lia)) as (x2' & Hx2' & _ & _ & _ & _ & Hge).
    rewrite Hx2 in Hx2'. injection Hx2' as <-. rewrite <- Ex. apply Hge. lia. }
  intros k1 k2 x y H1 H2 H3 Hx Hy.
  destruct (Nat.lt_trichotomy k2 j) as [Hk2 | [-> | Hk2]].
  - (* both on the left *)
    rewrite HF3 in Hx, Hy by lia. apply (Hsorted2 k1 k2 x y); (lia || assumption).
  - destruct (decide (k1 = j)) as [-> | Hne].
    + assert (x = y) by congruence. subst y. apply lex_le_refl.
    + rewrite Hpiv3 in Hy. injection Hy as <-. apply (Hleft k1 x); [lia | exact Hx].
  - destruct (Nat.lt_trichotomy k1 j) as [Hk1 | [-> | Hk1]].
    + apply (lex_le_trans _ (ptr pivot)).
      * apply (Hleft k1 x); [lia | exact Hx].
      * apply (Hrightge k2 y); [lia | exact Hy].
    + rewrite Hpiv3 in Hx. injection Hx as <-. apply (Hrightge k2 y); [lia | exact Hy].
    + apply (Hsorted3 k1 k2 x y); (lia || assumption).
Qed.
End SortSpec.

(** ** The top-level drivers *)

Lemma pick_mid_in_range (t : unit) (low high : nat) :
  (low <= high)%nat -> (low <= fst (pick_mid t low high) <= high)%nat.
Proof.
  intros H. unfold pick_mid. cbn [fst].
  pose proof (Nat.Div0.div_le_upper_bound (high - low) 2 (high - low) ltac:(lia)).
  lia.
Qed.

Lemma pick_rand_in_range (t : rand_tape) (low high : nat) :
  (low <= high)%nat -> (low <= fst (pick_rand t low high) <= high)%nat.
Proof.
  intros H. unfold pick_rand, rand. cbn [fst].
  pose proof (Nat.mod_upper_bound (t 0%nat) (high - low + 1) ltac:(lia)). lia.
Qed.

Lemma init_items_ptr (ss : list cstring) : map ptr (init_items ss) = ss.
Proof.
  unfold init_items. rewrite map_map. rewrite <- (map_id ss) at 2.
  apply map_ext. intros s. apply refresh_cache_ptr.
Qed.

Lemma init_items_length (ss : list cstring) : length (init_items ss) = length ss.
Proof. unfold init_items. apply length_map. Qed.

Lemma init_items_lookup (ss : list cstring) (k : nat) :
  init_items ss !! k = (fun s => refresh_cache (mkItem s 0) 0) <$> ss !! k.
Proof. unfold init_items. apply (list_lookup_fmap _ ss k). Qed.

Lemma init_items_pre (ss : list cstring) :
  Forall nul_free ss -> (1 <= length ss)%nat ->
  sort_pre 0 (init_items ss) 0 (length ss - 1).
Proof.
  intros Hnf Hlen. split; [lia|]. split.
  - intros k Hk. rewrite init_items_lookup.
    destruct (ss !! k) as [s|] eqn:Hs.
    + exists (refresh_cache (mkItem s 0) 0). split; [reflexivity|].
      assert (nul_free s) by (eapply Forall_lookup_1; eassumption).
      split; rewrite refresh_cache_ptr; [assumption|].
      apply refresh_cache_window; [apply nul_free_bytes_ok; assumption | lia].
    + apply lookup_ge_None in Hs. lia.
  - intros x y _ _. reflexivity.
Qed.

Lemma ordered_short (out : list cstring) : (length out <= 1)%nat -> ordered out.
Proof.
  intros H i x y Hx Hy. apply lookup_lt_Some in Hy. unfold cstring in *. lia.
Qed.

Lemma sorted_range_ordered (arr : list StringItem) :
  sorted_range 0 (length arr - 1) arr -> ordered (map ptr arr).
Proof.
  intros Hs i x y Hx Hy.
  change (map ptr arr) with (ptr <$> arr) in Hx, Hy.
  rewrite list_lookup_fmap in Hx, Hy.
  destruct (arr !! i) as [a|] eqn:Ha; [|discriminate].
  destruct (arr !! S i) as [b|] eqn:Hb; [|discriminate].
  cbn in Hx, Hy. injection Hx as <-. injection Hy as <-.
  pose proof (lookup_lt_Some _ _ _ Hb).
  apply (Hs i (S i) a b); (lia || assumption).
Qed.

Section TopLevel.
Context {tape : Type}.
Variable pick : tape -> nat -> nat -> nat * tape.
Hypothesis pick_in_range :
  forall t low high, (low <= high)%nat ->
    (low <= fst (pick t low high) <= high)%nat.

(** Sorting the freshly built item array and reading the strings back. *)
Lemma sort_items_result (t : tape) (ss : list cstring) (fuel : nat) :
  Forall nul_free ss -> (1 <= length ss)%nat -> (length ss - 1 < fuel)%nat ->
  sorted_result ss
    ((fun r => map ptr (fst r))
       <$> sort_range pick fuel t (init_items ss) 0 (length ss - 1) 0).
Proof.
  intros Hnf Hlen Hfuel.
  pose proof (sort_range_spec pick pick_in_range fuel t (init_items ss) 0%nat
                (length ss - 1)%nat 0 (fun _ => init_items_pre ss Hnf Hlen)
                ltac:(lia)) as H.
  destruct (sort_range pick fuel t (init_items ss) 0 (length ss - 1) 0)
    as [[arr' t']| |]; cbn [sort_post sorted_result fmap outcome_fmap fst] in *.
  - destruct H as [(HL & _ & _ & HP) Hsorted]. split.
    + apply sorted_range_ordered. rewrite HL, init_items_length. exact Hsorted.
    + rewrite HP, init_items_ptr. reflexivity.
  - rewrite init_items_ptr in H. exact H.
  - exact H.
Qed.
End TopLevel.

Lemma optimized_orasort_result (ss : list cstring) :
  Forall nul_free ss -> sorted_result ss (optimized_orasort true ss).
Proof.
  intros Hnf. unfold optimized_orasort.
  destruct (Nat.leb_spec (length ss) 1) as [Hshort | Hlong].
  { cbn. split; [apply ordered_short; exact Hshort | reflexivity]. }
  cbn [negb]. unfold orasort_recursive.
  pose proof (sort_items_result pick_mid pick_mid_in_range tt ss (S (length ss - 1 - 0))
                Hnf ltac:(lia) ltac:(lia)) as H.
  destruct (sort_range pick_mid (S (length ss - 1 - 0)) tt (init_items ss) 0
              (length ss - 1) 0) as [[arr' t']| |]; exact H.
Qed.

Lemma OptimizedOrasort_sort_result (t : rand_tape) (ss : list cstring) :
  Forall nul_free ss -> sorted_result ss (fst <$> OptimizedOrasort_sort t ss).
Proof.
  intros Hnf. unfold OptimizedOrasort_sort.
  destruct (Nat.eqb_spec (length ss) 0) as [Hempty | Hne].
  { cbn. split; [apply ordered_short; lia | reflexivity]. }
  unfold sort_recursive. rewrite init_items_length.
  pose proof (sort_items_result pick_rand pick_rand_in_range t ss (S (length ss - 1 - 0))
                Hnf ltac:(lia) ltac:(lia)) as H.
  destruct (sort_range pick_rand (S (length ss - 1 - 0)) t (init_items ss) 0
              (length ss - 1) 0) as [[arr' t']| |]; exact H.
Qed.

(** On inputs without repeated strings both drivers return, with an ordered
    rearrangement of the input. *)
Lemma optimized_orasort_distinct (ss : list cstring) :
  Forall nul_free ss -> NoDup ss ->
  exists out, optimized_orasort true ss = Done out /\ ordered out /\ out ≡ₚ ss.
Proof.
  intros Hnf Hnd. pose proof (optimized_orasort_result ss Hnf) as H.
  destruct (optimized_orasort true ss) as [out| |]; cbn [sorted_result] in H.
  - exists out. tauto.
  - contradiction.
  - contradiction.
Qed.

Lemma OptimizedOrasort_sort_distinct (t : rand_tape) (ss : list cstring) :
  Forall nul_free ss -> NoDup ss ->
  exists out t', OptimizedOrasort_sort t ss = Done (out, t') /\ ordered out /\ out ≡ₚ ss.
Proof.
  intros Hnf Hnd. pose proof (OptimizedOrasort_sort_result t ss Hnf) as H.
  destruct (OptimizedOrasort_sort t ss) as [[out t']| |];
    cbn [sorted_result fmap outcome_fmap fst] in H.
  - exists out, t'. tauto.
  - contradiction.
  - contradiction.
Qed.

(** ** The window invariant along the recursion *)

Lemma call_pre_windows_valid (c : call) : call_pre c -> windows_valid c.
Proof.
  destruct c as [[[arr lo] hi] d]. cbn. intros H Hlt.
  destruct (H Hlt) as (Hd & Hok & _). split; [exact Hd|].
  intros k Hk. destruct (Hok k Hk) as (x & Hx & _ & Hw). eauto.
Qed.

Section Calls.
Context {tape : Type}.
Variable pick : tape -> nat -> nat -> nat * tape.



Hypothesis pick_in_range :
  forall t low high, (low <= high)%nat ->
    (low <= fst (pick t low high) <= high)%nat.

Lemma partition_Done_tr (t : tape) (arr : list StringItem) (low high : nat) (d : Z)
    (arr1 : list StringItem) (j : nat) (mc : Z) (t1 : tape) :
  partition pick t arr low high d = Done (arr1, j, mc, t1) ->
  exists log, partition_tr pick t arr low high d = Done (arr1, j, mc, t1, log).
Proof.
  rewrite <- partition_erase.
  destruct (partition_tr pick t arr low high d) as [[r log]| |]; cbn; [|discriminate..].
  intros H. injection H as ->. exists log. reflexivity.
Qed.


Lemma left_call_pre (t : tape) (arr : list StringItem) (low high : nat) (d : Z)
    (arr1 : list StringItem) (j : nat) (mc : Z) (t1 : tape) :
  sort_pre d arr low high -> (low < high)%nat ->
  partition pick t arr low high d = Done (arr1, j, mc, t1) ->
  (low < j - 1)%nat ->
  sort_pre (d + mc)
    (if d + mc >? d then refresh_range arr1 low (j - 1) (d + mc) else arr1) low (j - 1).
Proof.
  intros Hpre Hlh Hpart Hlt. pose proof Hpre as (Hd & Hok & _).
  destruct (partition_Done_tr _ _ _ _ _ _ _ _ _ Hpart) as (log & Htr).
  pose proof (partition_tr_spec pick pick_in_range t arr low high d Hd Hlh Hok) as HP.
  rewrite Htr in HP.
  destruct (partition_sides d arr low high arr1 j mc t1 log Hpre HP)
    as (Hmc & pivot & Hpiv & Hside).
  destruct HP as (Hj & _).
  apply (sub_range_pre d mc arr1 low (j - 1) pivot Hd Hmc).
  intros k Hk. destruct (Hside k ltac:(lia) ltac:(lia)) as (x & Hx & Hxok & Htk & _).
  eauto.
Qed.

Lemma right_call_pre (fuel : nat) (t : tape) (arr : list StringItem) (low high : nat)
    (d : Z) (arr1 : list StringItem) (j : nat) (mc : Z) (t1 : tape)
    (arr2 : list StringItem) (t2 : tape) :
  sort_pre d arr low high -> (low < high)%nat -> (high - low <= fuel)%nat ->
  partition pick t arr low high d = Done (arr1, j, mc, t1) ->
  (if (low <? j - 1)%nat
   then sort_range pick fuel t1
          (if d + mc >? d then refresh_range arr1 low (j - 1) (d + mc) else arr1)
          low (j - 1) (d + mc)
   else Done (arr1, t1)) = Done (arr2, t2) ->
  (j + 1 < high)%nat ->
  sort_pre (d + mc)
    (if d + mc >? d then refresh_range arr2 (j + 1) high (d + mc) else arr2)
    (j + 1) high.
Proof.
  intros Hpre Hlh Hfuel Hpart Hleft Hlt. pose proof Hpre as (Hd & Hok & _).
  destruct (partition_Done_tr _ _ _ _ _ _ _ _ _ Hpart) as (log & Htr).
  pose proof (partition_tr_spec pick pick_in_range t arr low high d Hd Hlh Hok) as HP.
  rewrite Htr in HP.
  destruct (partition_sides d arr low high arr1 j mc t1 log Hpre HP)
    as (Hmc & pivot & Hpiv & Hside).
  destruct HP as (Hj & _).
  pose proof (sub_call_post pick fuel t1 arr1 low (j - 1) d (d + mc)
                (sort_range_spec pick pick_in_range fuel)
                (left_call_pre t arr low high d arr1 j mc t1 Hpre Hlh Hpart)
                ltac:(lia)) as [HL _].
  rewrite Hleft in HL. cbn [sort_post] in HL. destruct HL as [(_ & HF & _) _].
  apply (sub_range_pre d mc arr2 (j + 1) high pivot Hd Hmc).
  intros k Hk. rewrite HF by lia.
  destruct (Hside k ltac:(lia) ltac:(lia)) as (x & Hx & Hxok & Htk & _). eauto.
Qed.

End Calls.

(** * The precursor (orasort.c) *)

(** ** String comparison and the common-prefix scan *)

Lemma drop_cons_inv (s : cstring) (n : nat) (x : Z) (r : list Z) :
  drop n s = x :: r -> drop (S n) s = r /\ (n < length s)%nat.
Proof.
  intros H. split.
  - replace (S n) with (n + 1)%nat by lia. rewrite <- drop_drop, H. reflexivity.
  - destruct (Nat.lt_ge_cases n (length s)); [assumption|].
    rewrite drop_ge in H by lia. discriminate.
Qed.

Lemma strcmp_from_spec (fuel : nat) (s1 s2 : cstring) (off : Z) :
  nul_free s1 -> nul_free s2 ->
  0 <= off -> off <= strlen s1 -> off <= strlen s2 ->
  (length (drop (Z.to_nat off) s1) < fuel)%nat ->
  exists c, strcmp_from fuel s1 s2 off = Done c
    /\ (c ?= 0) = lex_compare (drop (Z.to_nat off) s1) (drop (Z.to_nat off) s2).
Proof.
  intros H1 H2. revert off. induction fuel as [|fuel IH]; intros off H0 Hl1 Hl2 Hfuel; [lia|].
  cbn [strcmp_from]. rewrite !char_at_drop by lia. cbn [mbind outcome_bind].
  pose proof (nul_free_drop s1 (Z.to_nat off) H1) as Hd1.
  pose proof (nul_free_drop s2 (Z.to_nat off) H2) as Hd2.
  destruct (drop (Z.to_nat off) s1) as [|a u] eqn:E1;
    destruct (drop (Z.to_nat off) s2) as [|b v] eqn:E2;
    cbn [head default from_option id lex_compare].
  - exists (0 - 0). split; reflexivity.
  - assert (Hb : 0 < b) by (inversion_clear Hd2; lia).
    replace (0 =? b) with false by (symmetry; apply Z.eqb_neq; lia). cbn [andb].
    exists (0 - b). split; [reflexivity|]. apply Z.compare_lt_iff. lia.
  - assert (Ha : 0 < a) by (inversion_clear Hd1; lia).
    replace (a =? 0) with false by (symmetry; apply Z.eqb_neq; lia). cbn [andb].
    exists (a - 0). split; [reflexivity|]. apply Z.compare_gt_iff. lia.
  - assert (Ha : 0 < a) by (inversion_clear Hd1; lia).
    replace (a =? 0) with false by (symmetry; apply Z.eqb_neq; lia). cbn [negb].
    rewrite andb_true_r.
    destruct (Z.eqb_spec a b) as [-> | Hne].
    + rewrite Z.compare_refl.
      destruct (drop_cons_inv _ _ _ _ E1) as [T1 L1].
      destruct (drop_cons_inv _ _ _ _ E2) as [T2 L2].
      unfold strlen in *.
      destruct (IH (off + 1)) as (c & Hc & Hcmp); try lia.
      { replace (Z.to_nat (off + 1)) with (S (Z.to_nat off)) by lia.
        rewrite T1. cbn [length] in Hfuel. lia. }
      exists c. split; [exact Hc|].
      replace (Z.to_nat (off + 1)) with (S (Z.to_nat off)) in Hcmp by lia.
      rewrite T1, T2 in Hcmp. exact Hcmp.
    + exists (a - b). split; [reflexivity|].
      destruct (Z.compare_spec a b) as [? | ? | ?]; [contradiction | |].
      * apply Z.compare_lt_iff. lia.
      * apply Z.compare_gt_iff. lia.
Qed.

Lemma compare_skip_spec (s1 s2 : cstring) (d : Z) :
  0 <= d -> str_ok d s1 -> str_ok d s2 ->
  exists c, compare_skip s1 s2 d = Done c
    /\ (c ?= 0) = lex_compare (suffix s1 d) (suffix s2 d).
Proof.
  intros Hd [N1 L1] [N2 L2]. unfold compare_skip, suffix.
  apply strcmp_from_spec; try assumption.
  rewrite length_drop. lia.
Qed.

Lemma prefix_scan_spec (fuel : nat) (ref curr : cstring) (d k mc : Z) :
  nul_free ref -> nul_free curr ->
  0 <= d + k -> d + k <= strlen ref -> d + k <= strlen curr ->
  (length (drop (Z.to_nat (d + k)) ref) < fuel)%nat ->
  exists k', prefix_scan fuel ref curr d k mc = Done k'
    /\ k <= k'
    /\ k' - k <= Z.of_nat (lcp (drop (Z.to_nat (d + k)) ref)
                               (drop (Z.to_nat (d + k)) curr)).
Proof.
  intros Hr Hc. revert k. induction fuel as [|fuel IH]; intros k H0 Hlr Hlc Hfuel; [lia|].
  cbn [prefix_scan]. rewrite !char_at_drop by lia.
  pose proof (nul_free_drop ref (Z.to_nat (d + k)) Hr) as Hdr.
  pose proof (nul_free_drop curr (Z.to_nat (d + k)) Hc) as Hdc.
  destruct (drop (Z.to_nat (d + k)) ref) as [|a u] eqn:E1;
    cbn [head default from_option id mbind outcome_bind lcp].
  { exists k. split; [reflexivity | lia]. }
  assert (Ha : 0 < a) by (inversion_clear Hdr; lia).
  replace (a =? 0) with false by (symmetry; apply Z.eqb_neq; lia).
  destruct (drop (Z.to_nat (d + k)) curr) as [|b v] eqn:E2;
    cbn [head default from_option id mbind outcome_bind lcp].
  { exists k. split; [reflexivity | lia]. }
  assert (Hb : 0 < b) by (inversion_clear Hdc; lia).
  replace (b =? 0) with false by (symmetry; apply Z.eqb_neq; lia).
  destruct (Z.eqb_spec a b) as [-> | Hne]; [|exists k; split; [reflexivity | lia]].
  destruct (negb (mc =? -1) && (k + 1 >=? mc)).
  { exists (k + 1). split; [reflexivity | lia]. }
  destruct (drop_cons_inv _ _ _ _ E1) as [T1 L1].
  destruct (drop_cons_inv _ _ _ _ E2) as [T2 L2].
  unfold strlen in *.
  destruct (IH (k + 1)) as (k' & Hk' & Hle & Hlcp); try lia.
  { replace (Z.to_nat (d + (k + 1))) with (S (Z.to_nat (d + k))) by lia.
    rewrite T1. cbn [length] in Hfuel. lia. }
  exists k'. split; [exact Hk'|]. split; [lia|].
  replace (Z.to_nat (d + (k + 1))) with (S (Z.to_nat (d + k))) in Hlcp by lia.
  rewrite T1, T2 in Hlcp. lia.
Qed.

Lemma prefix_loop_spec (count : nat) (arr : list cstring) (ref : cstring) (i : nat)
    (d mc : Z) :
  0 <= d -> str_ok d ref ->
  (forall k, (i <= k < i + count)%nat -> exists s, arr !! k = Some s /\ str_ok d s) ->
  (mc = -1 \/ 0 < mc) ->
  exists c, prefix_loop count arr ref i d mc = Done c
    /\ 0 <= c /\ (mc <> -1 -> c <= mc)
    /\ forall k s, (i <= k < i + count)%nat -> arr !! k = Some s ->
         c <= Z.of_nat (lcp (suffix ref d) (suffix s d)).
Proof.
  intros Hd [Hr Hlr]. revert i mc.
  induction count as [|count IH]; intros i mc Hitems Hmc; cbn [prefix_loop].
  { exists (if mc =? -1 then 0 else mc). split; [reflexivity|].
    destruct (Z.eqb_spec mc (-1)); split_and!; try lia; intros k s Hk; lia. }
  destruct (Hitems i ltac:(lia)) as (curr & Hcurr & Hc & Hlc).
  unfold str_get. rewrite Hcurr. cbn [mbind outcome_bind].
  destruct (prefix_scan_spec (S (length ref)) ref curr d 0 mc Hr Hc)
    as (k & Hk & Hk0 & Hklcp); try lia.
  { rewrite length_drop. lia. }
  rewrite Hk. cbn [mbind outcome_bind].
  replace (d + 0) with d in Hklcp by lia. fold (suffix ref d) (suffix curr d) in Hklcp.
  set (mc' := if (mc =? -1) || (k <? mc) then k else mc).
  assert (Hmc' : 0 <= mc' /\ mc' <= k /\ (mc <> -1 -> mc' <= mc)).
  { unfold mc'. destruct (Z.eqb_spec mc (-1)); cbn [orb]; [lia|].
    destruct (Z.ltb_spec k mc); lia. }
  destruct (Z.eqb_spec mc' 0) as [E0 | NE0].
  { exists 0. split; [reflexivity|]. split_and!; try lia; intros j s _ _; lia. }
  destruct (IH (S i) mc') as (c & Hc' & Hc0 & Hcle & Hbound).
  { intros j Hj. apply Hitems. lia. }
  { right. lia. }
  exists c. split; [exact Hc'|]. split_and!; try lia.
  intros j s Hj Hs. destruct (decide (j = i)) as [-> | Hne].
  - rewrite Hcurr in Hs. injection Hs as <-. specialize (Hcle ltac:(lia)). lia.
  - apply (Hbound j s); [lia | exact Hs].
Qed.

Lemma lcp_comm (u v : list Z) : lcp u v = lcp v u.
Proof.
  revert v. induction u as [|a u IH]; intros [|b v]; cbn [lcp]; try reflexivity.
  rewrite (Z.eqb_sym b a). destruct (a =? b); [f_equal; apply IH | reflexivity].
Qed.

(** The scan returns a depth increment that every string of the range
    shares with the first one, and that every string reaches. *)
Lemma get_common_prefix_spec (arr : list cstring) (low high : nat) (d : Z) :
  (low < high)%nat -> naive_pre d arr low high ->
  exists c, get_common_prefix arr low high d = Done c /\ naive_pre (d + c) arr low high.
Proof.
  intros Hlh (Hd & Hok & Hpfx). unfold get_common_prefix.
  destruct (Nat.leb_spec high low) as [|_]; [lia|].
  destruct (Hok low ltac:(lia)) as (ref & Href & Hrok).
  unfold str_get. rewrite Href. cbn [mbind outcome_bind].
  destruct (prefix_loop_spec (high - low) arr ref (S low) d (-1) Hd Hrok)
    as (c & Hc & Hc0 & _ & Hbound).
  { intros k Hk. apply Hok. lia. }
  { left. reflexivity. }
  exists c. split; [exact Hc|].
  assert (Hall : forall k s, (low <= k <= high)%nat -> arr !! k = Some s ->
            str_ok (d + c) s
            /\ take (Z.to_nat (d + c)) s = take (Z.to_nat (d + c)) ref).
  { intros k s Hk Hs.
    destruct (Hok k Hk) as (s' & Hs' & Hsn & Hsl). rewrite Hs in Hs'. injection Hs' as <-.
    assert (Htk : take (Z.to_nat d) s = take (Z.to_nat d) ref)
      by (apply Hpfx; [exists k | exists low]; split; (lia || assumption)).
    destruct (decide (k = low)) as [-> | Hne].
    - rewrite Href in Hs. injection Hs as <-. split; [|reflexivity].
      split; [exact Hsn|].
      destruct (Hok high ltac:(lia)) as (z & Hz & _).
      pose proof (Hbound high z ltac:(lia) Hz) as Hb.
      pose proof (lcp_le_length (suffix ref d) (suffix z d)) as [Hl _].
      unfold suffix in Hl, Hb. rewrite length_drop in Hl. unfold strlen in *. lia.
    - pose proof (Hbound k s ltac:(lia) Hs) as Hb.
      pose proof (lcp_le_length (suffix ref d) (suffix s d)) as [_ Hl].
      unfold suffix in Hl, Hb. rewrite length_drop in Hl.
      split; [split; [exact Hsn | unfold strlen in *; lia]|].
      replace (Z.to_nat (d + c)) with (Z.to_nat d + Z.to_nat c)%nat by lia.
      apply take_extend; [exact Htk|]. rewrite lcp_comm. lia. }
  split; [lia|]. split.
  - intros k Hk. destruct (Hok k Hk) as (s & Hs & _). exists s. split; [exact Hs|].
    apply (Hall k s Hk Hs).
  - intros x y (kx & Hkx & Hx) (ky & Hky & Hy).
    destruct (Hall kx x Hkx Hx) as [_ ->]. destruct (Hall ky y Hky Hy) as [_ ->].
    reflexivity.
Qed.

(** ** The partition of the precursor *)

Lemma swap_Done (arr : list cstring) (i j : nat) (a b : cstring) :
  arr !! i = Some a -> arr !! j = Some b ->
  swap arr i j = Done (<[j := a]> (<[i := b]> arr)).
Proof. intros Ha Hb. unfold swap, str_get. rewrite Ha, Hb. reflexivity. Qed.

Lemma ltb_compare (c : Z) (r : comparison) :
  (c ?= 0) = r -> (c <? 0) = match r with Lt => true | _ => false end.
Proof. intros <-. unfold Z.ltb. destruct (c ?= 0); reflexivity. Qed.

Lemma gtb_compare (c : Z) (r : comparison) :
  (c ?= 0) = r -> (c >? 0) = match r with Gt => true | _ => false end.
Proof. intros <-. unfold Z.gtb. destruct (c ?= 0); reflexivity. Qed.

Section NaivePartition.
Variables (pivot : cstring) (d : Z).
Hypothesis Hd : 0 <= d.
Hypothesis Hpivot : str_ok d pivot.

Lemma skip_smaller_spec (fuel : nat) (arr : list cstring) (i high : nat) :
  strs_ok d arr i high -> (S high - i < fuel)%nat ->
  exists i', skip_smaller fuel arr pivot d i high = Done i'
    /\ (i <= i')%nat /\ ((i <= S high)%nat -> (i' <= S high)%nat)
    /\ (forall k x, (i <= k < i')%nat -> arr !! k = Some x ->
          lex_compare (suffix x d) (suffix pivot d) = Lt)
    /\ ((i' <= high)%nat ->
        exists x, arr !! i' = Some x /\ lex_compare (suffix x d) (suffix pivot d) <> Lt).
Proof.
  revert i. induction fuel as [|fuel IH]; intros i Hok Hfuel; [lia|].
  cbn [skip_smaller]. destruct (Nat.leb_spec i high) as [Hih | Hih].
  2:{ exists i. split; [reflexivity|]. split_and!; lia. }
  destruct (Hok i ltac:(lia)) as (x & Hx & Hxok).
  unfold str_get. rewrite Hx. cbn [mbind outcome_bind].
  destruct (compare_skip_spec x pivot d Hd Hxok Hpivot) as (c & Hc & Hcmp).
  rewrite Hc. cbn [mbind outcome_bind]. rewrite (ltb_compare _ _ Hcmp).
  assert (Hstop : lex_compare (suffix x d) (suffix pivot d) <> Lt ->
    exists i', Done i = Done i'
      /\ (i <= i')%nat /\ ((i <= S high)%nat -> (i' <= S high)%nat)
      /\ (forall k y, (i <= k < i')%nat -> arr !! k = Some y ->
            lex_compare (suffix y d) (suffix pivot d) = Lt)
      /\ ((i' <= high)%nat ->
          exists y, arr !! i' = Some y
                    /\ lex_compare (suffix y d) (suffix pivot d) <> Lt)).
  { intros Hne. exists i. split; [reflexivity|]. split_and!; try lia.
    intros _. eauto. }
  destruct (lex_compare (suffix x d) (suffix pivot d)) eqn:E;
    [apply Hstop; discriminate | | apply Hstop; discriminate].
  destruct (IH (S i)) as (i' & Hi' & H1 & H2 & H3 & H4).
  { intros k Hk. apply Hok. lia. }
  { lia. }
  exists i'. split; [exact Hi'|]. split_and!; try lia.
  - intros k y Hk Hy. destruct (decide (k = i)) as [-> | Hne].
    + rewrite Hx in Hy. injection Hy as <-. exact E.
    + apply (H3 k y); [lia | exact Hy].
  - exact H4.
Qed.

Lemma skip_larger_spec (fuel : nat) (arr : list cstring) (j low : nat) :
  strs_ok d arr (S low) j -> (j - low < fuel)%nat ->
  exists j', skip_larger fuel arr pivot d j low = Done j'
    /\ (j' <= j)%nat /\ ((low <= j)%nat -> (low <= j')%nat)
    /\ (forall k x, (j' < k <= j)%nat -> arr !! k = Some x ->
          lex_compare (suffix x d) (suffix pivot d) = Gt)
    /\ ((low < j')%nat ->
        exists x, arr !! j' = Some x /\ lex_compare (suffix x d) (suffix pivot d) <> Gt).
Proof.
  revert j. induction fuel as [|fuel IH]; intros j Hok Hfuel; [lia|].
  cbn [skip_larger]. destruct (Nat.ltb_spec low j) as [Hlj | Hlj].
  2:{ exists j. split; [reflexivity|]. split_and!; lia. }
  destruct (Hok j ltac:(lia)) as (x & Hx & Hxok).
  unfold str_get. rewrite Hx. cbn [mbind outcome_bind].
  destruct (compare_skip_spec x pivot d Hd Hxok Hpivot) as (c & Hc & Hcmp).
  rewrite Hc. cbn [mbind outcome_bind]. rewrite (gtb_compare _ _ Hcmp).
  assert (Hstop : lex_compare (suffix x d) (suffix pivot d) <> Gt ->
    exists j', Done j = Done j'
      /\ (j' <= j)%nat /\ ((low <= j)%nat -> (low <= j')%nat)
      /\ (forall k y, (j' < k <= j)%nat -> arr !! k = Some y ->
            lex_compare (suffix y d) (suffix pivot d) = Gt)
      /\ ((low < j')%nat ->
          exists y, arr !! j' = Some y
                    /\ lex_compare (suffix y d) (suffix pivot d) <> Gt)).
  { intros Hne. exists j. split; [reflexivity|]. split_and!; try lia.
    intros _. eauto. }
  destruct (lex_compare (suffix x d) (suffix pivot d)) eqn:E;
    [apply Hstop; discriminate | apply Hstop; discriminate | ].
  destruct (IH (j - 1)%nat) as (j' & Hj' & H1 & H2 & H3 & H4).
  { intros k Hk. apply Hok. lia. }
  { lia. }
  exists j'. split; [exact Hj'|]. split_and!; try lia.
  - intros k y Hk Hy. destruct (decide (k = j)) as [-> | Hne].
    + rewrite Hx in Hy. injection Hy as <-. exact E.
    + apply (H3 k y); [lia | exact Hy].
  - exact H4.
Qed.

Lemma exchange_loop_spec (fuel : nat) (arr : list cstring) (low high i j : nat) :
  exchange_inv pivot d arr low high i j ->
  ((if (i <=? j)%nat then S j - i + 2 else 1) <= fuel)%nat ->
  exists arr' i' j',
    exchange_loop fuel arr pivot d low high i j = Done (arr', i', j')
    /\ moved (S low) high arr arr' /\ (j' < i')%nat
    /\ exchange_inv pivot d arr' low high i' j'.
Proof.
  revert arr i j. induction fuel as [|fuel IH]; intros arr i j Hinv Hfuel.
  { destruct (i <=? j)%nat; lia. }
  cbn [exchange_loop]. destruct (Nat.leb_spec i j) as [Hij | Hij].
  2:{ exists arr, i, j. split; [reflexivity|]. split; [apply moved_refl|].
      split; [lia | exact Hinv]. }
  destruct Hinv as (B1 & B2 & B3 & B4 & Hok & HL & HR).
  destruct (skip_smaller_spec (S (S high - i)) arr i high) as (i1 & Hi1 & L1 & L2 & L3 & L4).
  { intros k Hk. apply Hok. lia. }
  { lia. }
  rewrite Hi1. cbn [mbind outcome_bind].
  destruct (skip_larger_spec (S (j - low)) arr j low) as (j1 & Hj1 & R1 & R2 & R3 & R4).
  { intros k Hk. apply Hok. lia. }
  { lia. }
  rewrite Hj1. cbn [mbind outcome_bind].
  destruct (Nat.leb_spec i1 j1) as [Hc | Hc].
  - destruct (Hok i1 ltac:(lia)) as (a & Ha & Haok).
    destruct (Hok j1 ltac:(lia)) as (b & Hb & Hbok).
    rewrite (swap_Done arr i1 j1 a b Ha Hb). cbn [mbind outcome_bind].
    set (arr2 := <[j1 := a]> (<[i1 := b]> arr)).
    assert (Hlk : forall k, arr2 !! k = if decide (k = j1) then Some a
                                       else if decide (k = i1) then Some b else arr !! k)
      by (intros k; apply swap_lookup; assumption).
    destruct L4 as (a' & Ha' & Hage); [lia|]. rewrite Ha in Ha'. injection Ha' as <-.
    destruct R4 as (b' & Hb' & Hble); [lia|]. rewrite Hb in Hb'. injection Hb' as <-.
    destruct (IH arr2 (S i1) (j1 - 1)%nat) as (arr' & i' & j' & Hrun & Hmv & Hji & Hinv').
    { split_and!; try lia.
      - intros k Hk. rewrite Hlk. destruct (decide (k = j1)); [eauto|].
        destruct (decide (k = i1)); [eauto|]. apply Hok. lia.
      - intros k x Hk Hx. rewrite Hlk in Hx.
        destruct (decide (k = j1)) as [-> | ?].
        { injection Hx as <-. assert (i1 = j1) by lia. subst j1.
          assert (a = b) by congruence. subst b. exact Hble. }
        destruct (decide (k = i1)) as [-> | ?]; [injection Hx as <-; exact Hble|].
        destruct (decide (k < i)%nat).
        + apply (HL k x); [lia | exact Hx].
        + rewrite (L3 k x); [discriminate | lia | exact Hx].
      - intros k x Hk Hx. rewrite Hlk in Hx.
        destruct (decide (k = j1)) as [-> | ?]; [injection Hx as <-; exact Hage|].
        destruct (decide (k = i1)) as [-> | ?]; [lia|].
        destruct (decide (j < k)%nat).
        + apply (HR k x); [lia | exact Hx].
        + rewrite (R3 k x); [discriminate | lia | exact Hx]. }
    { destruct (Nat.leb_spec (S i1) (j1 - 1)); lia. }
    exists arr', i', j'. split; [exact Hrun|]. split; [|split; assumption].
    eapply moved_trans; [|exact Hmv].
    apply moved_swap; [lia | lia | exact Ha | exact Hb].
  - destruct (IH arr i1 j1) as (arr' & i' & j' & Hrun & Hmv & Hji & Hinv').
    { split_and!; try lia.
      - exact Hok.
      - intros k x Hk Hx. destruct (decide (k < i)%nat).
        + apply (HL k x); [lia | exact Hx].
        + rewrite (L3 k x); [discriminate | lia | exact Hx].
      - intros k x Hk Hx. destruct (decide (j < k)%nat).
        + apply (HR k x); [lia | exact Hx].
        + rewrite (R3 k x); [discriminate | lia | exact Hx]. }
    { destruct (Nat.leb_spec i1 j1); lia. }
    exists arr', i', j'. split; [exact Hrun|]. split; [exact Hmv | split; assumption].
Qed.
End NaivePartition.

(** ** The recursion of the precursor *)

Lemma strs_sorted_trivial (lo hi : nat) (arr : list cstring) :
  (hi <= lo)%nat -> strs_sorted lo hi arr.
Proof.
  intros H k1 k2 x y H1 H2 H3 Hx Hy. assert (k1 = k2) by lia. subst k2.
  assert (x = y) by congruence. subst y. apply lex_le_refl.
Qed.

Lemma naive_trivial (fuel : nat) (t : rand_tape) (arr : list cstring) (low high : nat)
    (d : Z) :
  (high <= low)%nat ->
  common_prefix_quicksort_recursive (S fuel) t arr low high d = Done (arr, t).
Proof.
  intros H. cbn [common_prefix_quicksort_recursive].
  destruct (Nat.leb_spec high low); [reflexivity | lia].
Qed.

Lemma naive_pre_sub (d : Z) (arr arr' : list cstring) (low high lo hi : nat) :
  naive_pre d arr low high -> moved low high arr arr' ->
  (low <= lo)%nat -> (hi <= high)%nat ->
  naive_pre d arr' lo hi.
Proof.
  intros (Hd & Hok & Hpfx) (HL & HF & HI & HP) Hlo Hhi. split; [exact Hd|]. split.
  - intros k Hk.
    assert (Hx : exists x, arr' !! k = Some x).
    { apply lookup_lt_is_Some. rewrite HL.
      destruct (Hok k ltac:(lia)) as (z & Hz & _). eapply lookup_lt_Some, Hz. }
    destruct Hx as (x & Hx). exists x. split; [exact Hx|].
    destruct (HI x) as (k' & Hk' & Hx'); [exists k; split; [lia | exact Hx]|].
    destruct (Hok k' Hk') as (z & Hz & Hzok). congruence.
  - intros x y Hx Hy. apply Hpfx; apply HI.
    + apply (in_range_weaken arr' lo hi); [lia | lia | exact Hx].
    + apply (in_range_weaken arr' lo hi); [lia | lia | exact Hy].
Qed.

Lemma naive_sort_spec (fuel : nat) : naive_sort_ok fuel.
Proof.
  induction fuel as [|fuel IH]; intros t arr low high d Hpre Hfuel; [lia|].
  cbn [common_prefix_quicksort_recursive].
  destruct (Nat.leb_spec high low) as [Htriv | Hlh].
  { cbn [naive_post]. split; [apply moved_refl | apply strs_sorted_trivial; lia]. }
  specialize (Hpre Hlh).
  destruct (get_common_prefix_spec arr low high d Hlh Hpre) as (c & Hc & Hpre').
  rewrite Hc. cbn [mbind outcome_bind]. clear Hpre Hc.
  set (nd := d + c) in *. pose proof Hpre' as (Hnd & Hok & Hpfx).
  pose proof (pick_rand_in_range t low high ltac:(lia)) as Hp.
  destruct (pick_rand t low high) as [p t1]. cbn [fst] in Hp.
  destruct (Hok low ltac:(lia)) as (a0 & Ha0 & Ha0ok).
  destruct (Hok p ltac:(lia)) as (pivot & Hpv & Hpvok).
  rewrite (swap_Done arr low p a0 pivot Ha0 Hpv). cbn [mbind outcome_bind].
  set (arr1 := <[p := a0]> (<[low := pivot]> arr)).
  assert (Hmv1 : moved low high arr arr1)
    by (apply moved_swap; [lia | lia | exact Ha0 | exact Hpv]).
  assert (Hpiv1 : arr1 !! low = Some pivot).
  { unfold arr1. rewrite (swap_lookup arr low p low a0 pivot Ha0 Hpv).
    destruct (decide (low = p)) as [<- | ?]; [congruence|].
    rewrite decide_True by reflexivity. reflexivity. }
  unfold str_get at 1. rewrite Hpiv1. cbn [mbind outcome_bind].
  pose proof (naive_pre_sub nd arr arr1 low high low high Hpre' Hmv1 ltac:(lia) ltac:(lia))
    as (_ & Hok1 & Hpfx1).
  destruct (exchange_loop_spec pivot nd Hnd Hpvok (S (S (high - low))) arr1 low high
              (S low) high) as (arr2 & i & j & Hrun & Hmv2 & Hji & Hinv).
  { split_and!; try lia. intros k Hk. apply Hok1. lia. }
  { destruct (Nat.leb_spec (S low) high); lia. }
  rewrite Hrun. cbn [mbind outcome_bind].
  destruct Hinv as (B1 & B2 & B3 & B4 & Hok2 & HLe & HGe).
  assert (Hlow2 : arr2 !! low = Some pivot).
  { destruct Hmv2 as (_ & HF & _). rewrite HF by lia. exact Hpiv1. }
  assert (Hmv12 : moved low high arr arr2).
  { eapply moved_trans; [exact Hmv1|].
    apply (moved_weaken (S low) high); [lia | lia | exact Hmv2]. }
  destruct (naive_pre_sub nd arr arr2 low high low high Hpre' Hmv12 ltac:(lia) ltac:(lia))
    as (_ & Hok2' & Hpfx2).
  destruct (Hok2' j ltac:(lia)) as (y & Hy & Hyok).
  rewrite (swap_Done arr2 low j pivot y Hlow2 Hy). cbn [mbind outcome_bind].
  set (arr3 := <[j := pivot]> (<[low := y]> arr2)).
  assert (Hlk3 : forall k, arr3 !! k = if decide (k = j) then Some pivot
                                      else if decide (k = low) then Some y else arr2 !! k)
    by (intros k; apply swap_lookup; assumption).
  assert (Hmv3 : moved low high arr arr3).
  { eapply moved_trans; [exact Hmv12|].
    apply moved_swap; [lia | lia | exact Hlow2 | exact Hy]. }
  pose proof (naive_pre_sub nd arr arr3 low high low high Hpre' Hmv3 ltac:(lia) ltac:(lia))
    as Hpre3.
  (* every string of the range agrees with the pivot on [nd] bytes *)
  assert (Hpin : in_range arr low high pivot) by (exists p; auto).
  assert (Hsame : forall x, in_range arr low high x ->
            take (Z.to_nat nd) x = take (Z.to_nat nd) pivot)
    by (intros x Hx; apply Hpfx; assumption).
  assert (Hle_of : forall x, in_range arr low high x ->
            lex_compare (suffix x nd) (suffix pivot nd) <> Gt -> lex_le x pivot).
  { intros x Hx Hc'. unfold lex_le.
    rewrite (lex_compare_drop (Z.to_nat nd) _ _ (Hsame x Hx)). exact Hc'. }
  assert (Hge_of : forall x, in_range arr low high x ->
            lex_compare (suffix x nd) (suffix pivot nd) <> Lt -> lex_le pivot x).
  { intros x Hx Hc'. unfold lex_le. rewrite lex_compare_antisym.
    rewrite (lex_compare_drop (Z.to_nat nd) _ _ (Hsame x Hx)). unfold suffix in Hc'.
    destruct (lex_compare (drop (Z.to_nat nd) x) (drop (Z.to_nat nd) pivot));
      cbn [CompOpp]; congruence. }
  assert (Hin3 : forall k x, (low <= k <= high)%nat -> arr3 !! k = Some x ->
            in_range arr low high x).
  { intros k x Hk Hx. destruct Hmv3 as (_ & _ & HI & _). apply HI. exists k. auto. }
  assert (Hleft3 : forall k x, (low <= k < i)%nat -> arr3 !! k = Some x -> lex_le x pivot).
  { intros k x Hk Hx. pose proof (Hin3 k x ltac:(lia) Hx) as Hin.
    rewrite Hlk3 in Hx. destruct (decide (k = j)) as [-> | ?].
    { injection Hx as <-. apply lex_le_refl. }
    destruct (decide (k = low)) as [-> | ?].
    - injection Hx as <-. apply (Hle_of y Hin).
      destruct (decide (j = low)) as [-> | ?]; [congruence|].
      apply (HLe j y); [lia | exact Hy].
    - apply (Hle_of x Hin). apply (HLe k x); [lia | exact Hx]. }
  assert (Hright3 : forall k x, (j <= k <= high)%nat -> arr3 !! k = Some x ->
            lex_le pivot x).
  { intros k x Hk Hx. pose proof (Hin3 k x ltac:(lia) Hx) as Hin.
    rewrite Hlk3 in Hx. destruct (decide (k = j)) as [-> | ?].
    { injection Hx as <-. apply lex_le_refl. }
    destruct (decide (k = low)) as [-> | ?]; [lia|].
    apply (Hge_of x Hin). apply (HGe k x); [lia | exact Hx]. }
  (* left recursion *)
  pose proof (IH t1 arr3 low (j - 1)%nat nd) as HL.
  match type of HL with ?A -> ?B -> _ =>
    assert (HA : A); [|assert (HB : B) by lia; specialize (HL HA HB); clear HA HB] end.
  { intros _. apply (naive_pre_sub nd arr arr3 low high); [assumption.. | lia | lia]. }
  destruct (common_prefix_quicksort_recursive fuel t1 arr3 low (j - 1) nd)
    as [[arr4 t2]| |] eqn:E4; cbn [naive_post mbind outcome_bind] in *; try contradiction.
  destruct HL as [Hmv4 Hsorted4].
  assert (HF4 : forall k, ~ (low <= k < j)%nat -> arr4 !! k = arr3 !! k).
  { intros k Hk. destruct (Nat.le_gt_cases (j - 1) low) as [Hno | Hyes].
    - destruct fuel as [|fuel']; [lia|].
      rewrite (naive_trivial fuel' t1 arr3 low (j - 1) nd Hno) in E4.
      injection E4 as <- _. reflexivity.
    - destruct Hmv4 as (_ & HF & _). apply HF. lia. }
  assert (Hmv34 : moved low high arr3 arr4)
    by (apply (moved_weaken low (j - 1)); [lia | lia | exact Hmv4]).
  (* right recursion *)
  pose proof (IH t2 arr4 i high nd) as HR.
  match type of HR with ?A -> ?B -> _ =>
    assert (HA : A); [|assert (HB : B) by lia; specialize (HR HA HB); clear HA HB] end.
  { intros _. apply (naive_pre_sub nd arr arr4 low high); [assumption | | lia | lia].
    eapply moved_trans; eassumption. }
  destruct (common_prefix_quicksort_recursive fuel t2 arr4 i high nd)
    as [[arr5 t3]| |]; cbn [naive_post] in *; try contradiction.
  destruct HR as [Hmv5 Hsorted5].
  split.
  { eapply moved_trans; [exact Hmv3|]. eapply moved_trans; [exact Hmv34|].
    apply (moved_weaken i high); [lia | lia | exact Hmv5]. }
  destruct Hmv4 as (_ & _ & HI4 & _). destruct Hmv5 as (_ & HF5 & HI5 & _).
  assert (Hle5 : forall k x, (low <= k < i)%nat -> arr5 !! k = Some x -> lex_le x pivot).
  { intros k x Hk Hx. rewrite HF5 in Hx by lia.
    destruct (decide (k < j)%nat) as [Hkj | Hkj].
    - destruct (HI4 x) as (k' & Hk' & Hx'); [exists k; split; [lia | exact Hx]|].
      apply (Hleft3 k' x); [lia | exact Hx'].
    - rewrite HF4 in Hx by lia. apply (Hleft3 k x); [lia | exact Hx]. }
  assert (Hge5 : forall k x, (j <= k <= high)%nat -> arr5 !! k = Some x -> lex_le pivot x).
  { intros k x Hk Hx. destruct (decide (k < i)%nat) as [Hki | Hki].
    - rewrite HF5, HF4 in Hx by lia. apply (Hright3 k x); [lia | exact Hx].
    - destruct (HI5 x) as (k' & Hk' & Hx'); [exists k; split; [lia | exact Hx]|].
      rewrite HF4 in Hx' by lia. apply (Hright3 k' x); [lia | exact Hx']. }
  intros k1 k2 u v H1 H2 H3 Hu Hv.
  destruct (decide (k2 < j)%nat) as [Hk2 | Hk2].
  { rewrite HF5 in Hu, Hv by lia. apply (Hsorted4 k1 k2 u v); (lia || assumption). }
  destruct (decide (i <= k1)%nat) as [Hk1 | Hk1].
  { apply (Hsorted5 k1 k2 u v); (lia || assumption). }
  apply (lex_le_trans _ pivot).
  - apply (Hle5 k1 u); [lia | exact Hu].
  - apply (Hge5 k2 v); [lia | exact Hv].
Qed.

(** ** The precursor sorts, and agrees with the cached variant *)

Lemma strs_sorted_ordered (out : list cstring) :
  strs_sorted 0 (length out - 1) out -> ordered out.
Proof.
  intros Hs i x y Hx Hy. pose proof (lookup_lt_Some _ _ _ Hy).
  apply (Hs i (S i) x y); (unfold cstring in *; lia) || assumption.
Qed.

Lemma legrand_sort_result (t : rand_tape) (ss : list cstring) :
  Forall nul_free ss ->
  exists out, legrand_sort t ss = Done out /\ ordered out /\ out ≡ₚ ss.
Proof.
  intros Hnf. unfold legrand_sort.
  pose proof (naive_sort_spec (S (length ss)) t ss 0%nat (length ss - 1)%nat 0) as H.
  match type of H with ?A -> ?B -> _ =>
    assert (HA : A); [|assert (HB : B) by lia; specialize (H HA HB); clear HA HB] end.
  { intros Hlt. split; [lia|]. split.
    - intros k Hk. destruct (ss !! k) as [s|] eqn:Hs.
      + exists s. split; [reflexivity|]. split; [|unfold strlen; lia].
        eapply Forall_lookup_1; eassumption.
      + apply lookup_ge_None in Hs. lia.
    - intros x y _ _. reflexivity. }
  destruct (common_prefix_quicksort_recursive (S (length ss)) t ss 0 (length ss - 1) 0)
    as [[out t']| |]; cbn [naive_post] in H; try contradiction.
  destruct H as [(HL & _ & _ & HP) Hsorted].
  exists out. split; [reflexivity|]. split; [|exact HP].
  apply strs_sorted_ordered. rewrite HL. exact Hsorted.
Qed.

#[local] Instance lex_le_transitive : Transitive lex_le.
Proof. intros u v w. apply lex_le_trans. Qed.

#[local] Instance lex_le_antisym : AntiSymm eq lex_le.
Proof.
  intros u v Huv Hvu. apply lex_compare_eq. unfold lex_le in *.
  rewrite (lex_compare_antisym u v) in Hvu.
  destruct (lex_compare u v); cbn [CompOpp] in Hvu; congruence.
Qed.

Lemma ordered_Sorted (out : list cstring) : ordered out -> Sorted lex_le out.
Proof.
  induction out as [|x out IH]; intros Ho; [constructor|].
  constructor.
  - apply IH. intros i a b Ha Hb. apply (Ho (S i) a b); assumption.
  - destruct out as [|y out']; constructor. apply (Ho 0%nat x y); reflexivity.
Qed.

(** Two ordered rearrangements of the same strings are the same sequence. *)
Lemma ordered_unique (l1 l2 : list cstring) :
  ordered l1 -> ordered l2 -> l1 ≡ₚ l2 -> l1 = l2.
Proof.
  intros H1 H2 HP. apply (Sorted_unique lex_le); [apply ordered_Sorted.. | ]; assumption.
Qed.

(** Whenever the cached variant returns, it returns what the precursor
    returns; the precursor always returns. *)
Lemma variants_agree (t : rand_tape) (ss : list cstring) :
  Forall nul_free ss ->
  exists out,
    legrand_sort t ss = Done out
    /\ (forall out', optimized_orasort true ss = Done out' -> out' = out)
    /\ (forall t' out' t'', OptimizedOrasort_sort t' ss = Done (out', t'') -> out' = out).
Proof.
  intros Hnf. destruct (legrand_sort_result t ss Hnf) as (out & Hrun & Hord & Hperm).
  exists out. split; [exact Hrun|]. split.
  - intros out' E. pose proof (optimized_orasort_result ss Hnf) as H.
    rewrite E in H. destruct H as [Ho Hp].
    apply ordered_unique; [assumption | assumption |]. rewrite Hp, Hperm. reflexivity.
  - intros t' out' t'' E. pose proof (OptimizedOrasort_sort_result t' ss Hnf) as H.
    rewrite E in H. destruct H as [Ho Hp].
    apply ordered_unique; [assumption | assumption |]. rewrite Hp, Hperm. reflexivity.
Qed.

Lemma variants_agree_distinct (t : rand_tape) (ss : list cstring) :
  Forall nul_free ss -> NoDup ss ->
  exists out, legrand_sort t ss = Done out /\ optimized_orasort true ss = Done out.
Proof.
  intros Hnf Hnd. destruct (variants_agree t ss Hnf) as (out & Hrun & Hc & _).
  destruct (optimized_orasort_distinct ss Hnf Hnd) as (out' & E & _).
  exists out. split; [exact Hrun|]. rewrite E. f_equal. apply Hc, E.
Qed.

(** * The precursor in C++ (orasort.cpp) *)

(** ** String comparison and the common-prefix scan *)

Lemma suffix_guarded (s : cstring) (d : Z) :
  (if d <? strlen s then suffix s d else []) = suffix s d.
Proof.
  destruct (Z.ltb_spec d (strlen s)); [reflexivity|].
  unfold suffix, strlen in *. rewrite drop_ge by lia. reflexivity.
Qed.

Lemma compare_skip_cpp_spec (s1 s2 : cstring) (d : Z) :
  nul_free s1 -> nul_free s2 ->
  exists c, compare_skip_cpp s1 s2 d = Done c
    /\ (c ?= 0) = lex_compare (suffix s1 d) (suffix s2 d).
Proof.
  intros N1 N2. unfold compare_skip_cpp. rewrite !suffix_guarded.
  destruct (strcmp_from_spec (S (length (suffix s1 d))) (suffix s1 d) (suffix s2 d) 0)
    as (c & Hc & Hcmp); try (unfold strlen; lia).
  - apply nul_free_drop, N1.
  - apply nul_free_drop, N2.
  - rewrite length_drop. lia.
  - exists c. split; [exact Hc|].
    change (Z.to_nat 0) with 0%nat in Hcmp. rewrite !drop_0 in Hcmp. exact Hcmp.
Qed.

Lemma prefix_scan_cpp_spec (fuel : nat) (ref curr : cstring) (d k max_k mc : Z) :
  0 <= d + k -> max_k <= strlen ref -> max_k <= strlen curr ->
  (Z.to_nat (max_k - (d + k)) < fuel)%nat ->
  exists k', prefix_scan_cpp fuel ref curr d k max_k mc = Done k'
    /\ k <= k'
    /\ k' - k <= Z.of_nat (lcp (drop (Z.to_nat (d + k)) ref)
                               (drop (Z.to_nat (d + k)) curr)).
Proof.
  intros H0 Hr Hc. revert k H0. induction fuel as [|fuel IH]; intros k H0 Hfuel; [lia|].
  cbn [prefix_scan_cpp]. destruct (Z.ltb_spec (d + k) max_k) as [Hin | Hout].
  2:{ exists k. split; [reflexivity | lia]. }
  rewrite !char_at_drop by lia. cbn [mbind outcome_bind].
  destruct (drop (Z.to_nat (d + k)) ref) as [|a u] eqn:E1.
  { apply (f_equal length) in E1. rewrite length_drop in E1. cbn [length] in E1.
    unfold strlen in *. lia. }
  destruct (drop (Z.to_nat (d + k)) curr) as [|b v] eqn:E2.
  { apply (f_equal length) in E2. rewrite length_drop in E2. cbn [length] in E2.
    unfold strlen in *. lia. }
  cbn [head default from_option id lcp].
  destruct (Z.eqb_spec a b) as [-> | Hne]; [|exists k; split; [reflexivity | lia]].
  destruct (negb (mc =? npos) && (k + 1 >=? mc)).
  { exists (k + 1). split; [reflexivity | lia]. }
  destruct (drop_cons_inv _ _ _ _ E1) as [T1 _].
  destruct (drop_cons_inv _ _ _ _ E2) as [T2 _].
  destruct (IH (k + 1)) as (k' & Hk' & Hle & Hlcp); try lia.
  exists k'. split; [exact Hk'|]. split; [lia|].
  replace (Z.to_nat (d + (k + 1))) with (S (Z.to_nat (d + k))) in Hlcp by lia.
  rewrite T1, T2 in Hlcp. lia.
Qed.

Lemma prefix_loop_cpp_spec (count : nat) (arr : list cstring) (ref : cstring) (i : nat)
    (d mc : Z) :
  0 <= d -> strlen ref < npos ->
  (forall k, (i <= k < i + count)%nat -> exists s, arr !! k = Some s) ->
  (mc = npos \/ 0 < mc < npos) ->
  exists c, prefix_loop_cpp count arr ref i d mc = Done c
    /\ 0 <= c /\ (mc <> npos -> c <= mc)
    /\ forall k s, (i <= k < i + count)%nat -> arr !! k = Some s ->
         c <= Z.of_nat (lcp (suffix ref d) (suffix s d)).
Proof.
  intros Hd Hsmall. revert i mc.
  induction count as [|count IH]; intros i mc Hitems Hmc; cbn [prefix_loop_cpp].
  { exists (if mc =? npos then 0 else mc). split; [reflexivity|].
    destruct (Z.eqb_spec mc npos); split_and!; try lia; intros k s Hk; lia. }
  destruct (Hitems i ltac:(lia)) as (curr & Hcurr).
  unfold str_get. rewrite Hcurr. cbn [mbind outcome_bind].
  set (max_k := Z.min (strlen ref) (strlen curr)).
  destruct (Z.geb_spec d max_k) as [Hge | Hlt].
  { exists 0. split; [reflexivity|]. split_and!; try lia; intros j s _ _; lia. }
  destruct (prefix_scan_cpp_spec (S (length ref)) ref curr d 0 max_k mc)
    as (k & Hk & Hk0 & Hklcp); try (unfold max_k, strlen in *; lia).
  rewrite Hk. cbn [mbind outcome_bind].
  replace (d + 0) with d in Hklcp by lia. fold (suffix ref d) (suffix curr d) in Hklcp.
  assert (Hknp : k < npos).
  { pose proof (lcp_le_length (suffix ref d) (suffix curr d)) as [Hl _].
    unfold suffix in Hl, Hklcp. rewrite length_drop in Hl. unfold strlen in *. lia. }
  set (mc' := if (mc =? npos) || (k <? mc) then k else mc).
  assert (Hmc' : 0 <= mc' /\ mc' <= k /\ mc' < npos /\ (mc <> npos -> mc' <= mc)).
  { unfold mc'. destruct (Z.eqb_spec mc npos); cbn [orb]; [lia|].
    destruct (Z.ltb_spec k mc); lia. }
  destruct (Z.eqb_spec mc' 0) as [E0 | NE0].
  { exists 0. split; [reflexivity|]. split_and!; try lia; intros j s _ _; lia. }
  destruct (IH (S i) mc') as (c & Hc' & Hc0 & Hcle & Hbound).
  { intros j Hj. apply Hitems. lia. }
  { right. lia. }
  exists c. split; [exact Hc'|]. split_and!; try lia.
  intros j s Hj Hs. destruct (decide (j = i)) as [-> | Hne].
  - rewrite Hcurr in Hs. injection Hs as <-. specialize (Hcle ltac:(lia)). lia.
  - apply (Hbound j s); [lia | exact Hs].
Qed.

Lemma get_common_prefix_cpp_spec (arr : list cstring) (low high : nat) (d : Z) :
  (low < high)%nat -> lengths_fit arr -> naive_pre d arr low high ->
  exists c, get_common_prefix_cpp arr low high d = Done c
    /\ naive_pre (d + c) arr low high.
Proof.
  intros Hlh Hfit (Hd & Hok & Hpfx). unfold get_common_prefix_cpp.
  destruct (Nat.leb_spec high low) as [|_]; [lia|].
  destruct (Hok low ltac:(lia)) as (ref & Href & Hrok).
  unfold str_get. rewrite Href. cbn [mbind outcome_bind].
  destruct (prefix_loop_cpp_spec (high - low) arr ref (S low) d npos Hd)
    as (c & Hc & Hc0 & _ & Hbound).
  { eapply Forall_lookup_1 in Hfit; [exact Hfit | exact Href]. }
  { intros k Hk. destruct (Hok k ltac:(lia)) as (s & Hs & _). eauto. }
  { left. reflexivity. }
  exists c. split; [exact Hc|].
  assert (Hall : forall k s, (low <= k <= high)%nat -> arr !! k = Some s ->
            str_ok (d + c) s
            /\ take (Z.to_nat (d + c)) s = take (Z.to_nat (d + c)) ref).
  { intros k s Hk Hs.
    destruct (Hok k Hk) as (s' & Hs' & Hsn & Hsl). rewrite Hs in Hs'. injection Hs' as <-.
    assert (Htk : take (Z.to_nat d) s = take (Z.to_nat d) ref)
      by (apply Hpfx; [exists k | exists low]; split; (lia || assumption)).
    destruct (decide (k = low)) as [-> | Hne].
    - rewrite Href in Hs. injection Hs as <-. split; [|reflexivity].
      split; [exact Hsn|].
      destruct (Hok high ltac:(lia)) as (z & Hz & _).
      pose proof (Hbound high z ltac:(lia) Hz) as Hb.
      pose proof (lcp_le_length (suffix ref d) (suffix z d)) as [Hl _].
      unfold suffix in Hl, Hb. rewrite length_drop in Hl. unfold strlen in *. lia.
    - pose proof (Hbound k s ltac:(lia) Hs) as Hb.
      pose proof (lcp_le_length (suffix ref d) (suffix s d)) as [_ Hl].
      unfold suffix in Hl, Hb. rewrite length_drop in Hl.
      split; [split; [exact Hsn | unfold strlen in *; lia]|].
      replace (Z.to_nat (d + c)) with (Z.to_nat d + Z.to_nat c)%nat by lia.
      apply take_extend; [exact Htk|]. rewrite lcp_comm. lia. }
  split; [lia|]. split.
  - intros k Hk. destruct (Hok k Hk) as (s & Hs & _). exists s. split; [exact Hs|].
    apply (Hall k s Hk Hs).
  - intros x y (kx & Hkx & Hx) (ky & Hky & Hy).
    destruct (Hall kx x Hkx Hx) as [_ ->]. destruct (Hall ky y Hky Hy) as [_ ->].
    reflexivity.
Qed.

(** ** The partition and the recursion of the C++ precursor *)

Section CppPartition.
Variables (pivot : cstring) (d : Z).
Hypothesis Hd : 0 <= d.
Hypothesis Hpivot : str_ok d pivot.

Lemma skip_smaller_cpp_spec (fuel : nat) (arr : list cstring) (i high : nat) :
  strs_ok d arr i high -> (S high - i < fuel)%nat ->
  exists i', skip_smaller_cpp fuel arr pivot d i high = Done i'
    /\ (i <= i')%nat /\ (i' <= Nat.max i (S high))%nat
    /\ (forall k x, (i <= k < i')%nat -> arr !! k = Some x ->
          lex_compare (suffix x d) (suffix pivot d) = Lt)
    /\ ((i' <= high)%nat ->
        exists x, arr !! i' = Some x /\ lex_compare (suffix x d) (suffix pivot d) <> Lt).
Proof.
  revert i. induction fuel as [|fuel IH]; intros i Hok Hfuel; [lia|].
  cbn [skip_smaller_cpp]. destruct (Nat.leb_spec i high) as [Hih | Hih].
  2:{ exists i. split; [reflexivity|]. split_and!; lia. }
  destruct (Hok i ltac:(lia)) as (x & Hx & Hxok).
  unfold str_get. rewrite Hx. cbn [mbind outcome_bind].
  destruct (compare_skip_cpp_spec x pivot d (proj1 Hxok) (proj1 Hpivot)) as (c & Hc & Hcmp).
  rewrite Hc. cbn [mbind outcome_bind]. rewrite (ltb_compare _ _ Hcmp).
  assert (Hstop : lex_compare (suffix x d) (suffix pivot d) <> Lt ->
    exists i', Done i = Done i'
      /\ (i <= i')%nat /\ (i' <= Nat.max i (S high))%nat
      /\ (forall k y, (i <= k < i')%nat -> arr !! k = Some y ->
            lex_compare (suffix y d) (suffix pivot d) = Lt)
      /\ ((i' <= high)%nat ->
          exists y, arr !! i' = Some y
                    /\ lex_compare (suffix y d) (suffix pivot d) <> Lt)).
  { intros Hne. exists i. split; [reflexivity|]. split_and!; try lia.
    intros _. eauto. }
  destruct (lex_compare (suffix x d) (suffix pivot d)) eqn:E;
    [apply Hstop; discriminate | | apply Hstop; discriminate].
  destruct (IH (S i)) as (i' & Hi' & H1 & H2 & H3 & H4).
  { intros k Hk. apply Hok. lia. }
  { lia. }
  exists i'. split; [exact Hi'|]. split_and!; try lia.
  - intros k y Hk Hy. destruct (decide (k = i)) as [-> | Hne].
    + rewrite Hx in Hy. injection Hy as <-. exact E.
    + apply (H3 k y); [lia | exact Hy].
  - exact H4.
Qed.

Lemma skip_larger_cpp_spec (fuel : nat) (arr : list cstring) (i j : nat) :
  (1 <= i)%nat -> strs_ok d arr i j -> (S j - i < fuel)%nat ->
  exists j', skip_larger_cpp fuel arr pivot d i j = Done j'
    /\ (j' <= j)%nat /\ (Nat.min j (i - 1) <= j')%nat
    /\ (forall k x, (j' < k <= j)%nat -> arr !! k = Some x ->
          lex_compare (suffix x d) (suffix pivot d) = Gt)
    /\ ((i <= j')%nat ->
        exists x, arr !! j' = Some x /\ lex_compare (suffix x d) (suffix pivot d) <> Gt).
Proof.
  intros Hi. revert j. induction fuel as [|fuel IH]; intros j Hok Hfuel; [lia|].
  cbn [skip_larger_cpp]. destruct (Nat.leb_spec i j) as [Hij | Hij].
  2:{ exists j. split; [reflexivity|]. split_and!; lia. }
  destruct (Hok j ltac:(lia)) as (x & Hx & Hxok).
  unfold str_get. rewrite Hx. cbn [mbind outcome_bind].
  destruct (compare_skip_cpp_spec x pivot d (proj1 Hxok) (proj1 Hpivot)) as (c & Hc & Hcmp).
  rewrite Hc. cbn [mbind outcome_bind]. rewrite (gtb_compare _ _ Hcmp).
  assert (Hstop : lex_compare (suffix x d) (suffix pivot d) <> Gt ->
    exists j', Done j = Done j'
      /\ (j' <= j)%nat /\ (Nat.min j (i - 1) <= j')%nat
      /\ (forall k y, (j' < k <= j)%nat -> arr !! k = Some y ->
            lex_compare (suffix y d) (suffix pivot d) = Gt)
      /\ ((i <= j')%nat ->
          exists y, arr !! j' = Some y
                    /\ lex_compare (suffix y d) (suffix pivot d) <> Gt)).
  { intros Hne. exists j. split; [reflexivity|]. split_and!; try lia.
    intros _. eauto. }
  destruct (lex_compare (suffix x d) (suffix pivot d)) eqn:E;
    [apply Hstop; discriminate | apply Hstop; discriminate | ].
  destruct (IH (j - 1)%nat) as (j' & Hj' & H1 & H2 & H3 & H4).
  { intros k Hk. apply Hok. lia. }
  { lia. }
  exists j'. split; [exact Hj'|]. split_and!; try lia.
  - intros k y Hk Hy. destruct (decide (k = j)) as [-> | Hne].
    + rewrite Hx in Hy. injection Hy as <-. exact E.
    + apply (H3 k y); [lia | exact Hy].
  - exact H4.
Qed.

Lemma exchange_loop_cpp_spec (fuel : nat) (arr : list cstring) (low high i j : nat) :
  exchange_inv pivot d arr low high i j ->
  ((if (i <=? j)%nat then S j - i + 1 else 1) <= fuel)%nat ->
  exists arr' i' j',
    exchange_loop_cpp fuel arr pivot d i j = Done (arr', i', j')
    /\ moved (S low) high arr arr' /\ (j' < i')%nat
    /\ exchange_inv pivot d arr' low high i' j'.
Proof.
  revert arr i j. induction fuel as [|fuel IH]; intros arr i j Hinv Hfuel.
  { destruct (i <=? j)%nat; lia. }
  cbn [exchange_loop_cpp].
  destruct Hinv as (B1 & B2 & B3 & B4 & Hok & HL & HR).
  destruct (skip_smaller_cpp_spec (S (S j - i)) arr i j) as (i1 & Hi1 & L1 & L2 & L3 & L4).
  { intros k Hk. apply Hok. lia. }
  { lia. }
  rewrite Hi1. cbn [mbind outcome_bind].
  destruct (skip_larger_cpp_spec (S (S j - i1)) arr i1 j) as (j1 & Hj1 & R1 & R2 & R3 & R4).
  { lia. }
  { intros k Hk. apply Hok. lia. }
  { lia. }
  rewrite Hj1. cbn [mbind outcome_bind].
  assert (HL1 : forall k x, (low < k < i1)%nat -> arr !! k = Some x ->
            lex_compare (suffix x d) (suffix pivot d) <> Gt).
  { intros k x Hk Hx. destruct (decide (k < i)%nat).
    - apply (HL k x); [lia | exact Hx].
    - rewrite (L3 k x); [discriminate | lia | exact Hx]. }
  assert (HR1 : forall k x, (j1 < k <= high)%nat -> arr !! k = Some x ->
            lex_compare (suffix x d) (suffix pivot d) <> Lt).
  { intros k x Hk Hx. destruct (decide (j < k)%nat).
    - apply (HR k x); [lia | exact Hx].
    - rewrite (R3 k x); [discriminate | lia | exact Hx]. }
  destruct (Nat.leb_spec i1 j1) as [Hc | Hc].
  - destruct (Hok i1 ltac:(lia)) as (a & Ha & Haok).
    destruct (Hok j1 ltac:(lia)) as (b & Hb & Hbok).
    rewrite (swap_Done arr i1 j1 a b Ha Hb). cbn [mbind outcome_bind].
    set (arr2 := <[j1 := a]> (<[i1 := b]> arr)).
    assert (Hlk : forall k, arr2 !! k = if decide (k = j1) then Some a
                                       else if decide (k = i1) then Some b else arr !! k)
      by (intros k; apply swap_lookup; assumption).
    destruct L4 as (a' & Ha' & Hage); [lia|]. rewrite Ha in Ha'. injection Ha' as <-.
    destruct R4 as (b' & Hb' & Hble); [lia|]. rewrite Hb in Hb'. injection Hb' as <-.
    destruct (IH arr2 (S i1) (j1 - 1)%nat) as (arr' & i' & j' & Hrun & Hmv & Hji & Hinv').
    { split_and!; try lia.
      - intros k Hk. rewrite Hlk. destruct (decide (k = j1)); [eauto|].
        destruct (decide (k = i1)); [eauto|]. apply Hok. lia.
      - intros k x Hk Hx. rewrite Hlk in Hx.
        destruct (decide (k = j1)) as [-> | ?].
        { injection Hx as <-. assert (i1 = j1) by lia. subst j1.
          assert (a = b) by congruence. subst b. exact Hble. }
        destruct (decide (k = i1)) as [-> | ?]; [injection Hx as <-; exact Hble|].
        apply (HL1 k x); [lia | exact Hx].
      - intros k x Hk Hx. rewrite Hlk in Hx.
        destruct (decide (k = j1)) as [-> | ?]; [injection Hx as <-; exact Hage|].
        destruct (decide (k = i1)) as [-> | ?]; [lia|].
        apply (HR1 k x); [lia | exact Hx]. }
    { destruct (Nat.leb_spec (S i1) (j1 - 1)); destruct (Nat.leb_spec i j); lia. }
    exists arr', i', j'. split; [exact Hrun|]. split; [|split; assumption].
    eapply moved_trans; [|exact Hmv].
    apply moved_swap; [lia | lia | exact Ha | exact Hb].
  - exists arr, i1, j1. split; [reflexivity|]. split; [apply moved_refl|].
    split; [lia|]. split_and!; [lia | lia | lia | lia | exact Hok | exact HL1 | exact HR1].
Qed.
End CppPartition.

Lemma LegrandSort_trivial (fuel : nat) (t : rand_tape) (arr : list cstring) (low high : nat)
    (d : Z) :
  (high <= low)%nat ->
  LegrandSort_sort_recursive (S fuel) t arr low high d = Done (arr, t).
Proof.
  intros H. cbn [LegrandSort_sort_recursive].
  destruct (Nat.leb_spec high low); [reflexivity | lia].
Qed.

Lemma LegrandSort_sort_recursive_spec (fuel : nat) (t : rand_tape) (arr : list cstring)
    (low high : nat) (d : Z) :
  lengths_fit arr ->
  ((low < high)%nat -> naive_pre d arr low high) -> (high - low < fuel)%nat ->
  naive_post arr low high (LegrandSort_sort_recursive fuel t arr low high d).
Proof.
  revert t arr low high d.
  induction fuel as [|fuel IH]; intros t arr low high d Hfit Hpre Hfuel; [lia|].
  cbn [LegrandSort_sort_recursive].
  destruct (Nat.leb_spec high low) as [Htriv | Hlh].
  { cbn [naive_post]. split; [apply moved_refl | apply strs_sorted_trivial; lia]. }
  specialize (Hpre Hlh).
  destruct (get_common_prefix_cpp_spec arr low high d Hlh Hfit Hpre) as (c & Hc & Hpre').
  rewrite Hc. cbn [mbind outcome_bind]. clear Hpre Hc.
  set (nd := d + c) in *. pose proof Hpre' as (Hnd & Hok & Hpfx).
  pose proof (pick_rand_in_range t low high ltac:(lia)) as Hp.
  destruct (pick_rand t low high) as [p t1]. cbn [fst] in Hp.
  destruct (Hok low ltac:(lia)) as (a0 & Ha0 & Ha0ok).
  destruct (Hok p ltac:(lia)) as (pivot & Hpv & Hpvok).
  rewrite (swap_Done arr low p a0 pivot Ha0 Hpv). cbn [mbind outcome_bind].
  set (arr1 := <[p := a0]> (<[low := pivot]> arr)).
  assert (Hmv1 : moved low high arr arr1)
    by (apply moved_swap; [lia | lia | exact Ha0 | exact Hpv]).
  assert (Hpiv1 : arr1 !! low = Some pivot).
  { unfold arr1. rewrite (swap_lookup arr low p low a0 pivot Ha0 Hpv).
    destruct (decide (low = p)) as [<- | ?]; [congruence|].
    rewrite decide_True by reflexivity. reflexivity. }
  unfold str_get at 1. rewrite Hpiv1. cbn [mbind outcome_bind].
  pose proof (naive_pre_sub nd arr arr1 low high low high Hpre' Hmv1 ltac:(lia) ltac:(lia))
    as (_ & Hok1 & Hpfx1).
  destruct (exchange_loop_cpp_spec pivot nd Hpvok (S (high - low)) arr1 low high
              (S low) high) as (arr2 & i & j & Hrun & Hmv2 & Hji & Hinv).
  { split_and!; try lia. intros k Hk. apply Hok1. lia. }
  { destruct (Nat.leb_spec (S low) high); lia. }
  rewrite Hrun. cbn [mbind outcome_bind].
  destruct Hinv as (B1 & B2 & B3 & B4 & Hok2 & HLe & HGe).
  assert (Hlow2 : arr2 !! low = Some pivot).
  { destruct Hmv2 as (_ & HF & _). rewrite HF by lia. exact Hpiv1. }
  assert (Hmv12 : moved low high arr arr2).
  { eapply moved_trans; [exact Hmv1|].
    apply (moved_weaken (S low) high); [lia | lia | exact Hmv2]. }
  destruct (naive_pre_sub nd arr arr2 low high low high Hpre' Hmv12 ltac:(lia) ltac:(lia))
    as (_ & Hok2' & Hpfx2).
  destruct (Hok2' j ltac:(lia)) as (y & Hy & Hyok).
  rewrite (swap_Done arr2 low j pivot y Hlow2 Hy). cbn [mbind outcome_bind].
  set (arr3 := <[j := pivot]> (<[low := y]> arr2)).
  assert (Hlk3 : forall k, arr3 !! k = if decide (k = j) then Some pivot
                                      else if decide (k = low) then Some y else arr2 !! k)
    by (intros k; apply swap_lookup; assumption).
  assert (Hmv3 : moved low high arr arr3).
  { eapply moved_trans; [exact Hmv12|].
    apply moved_swap; [lia | lia | exact Hlow2 | exact Hy]. }
  pose proof (naive_pre_sub nd arr arr3 low high low high Hpre' Hmv3 ltac:(lia) ltac:(lia))
    as Hpre3.
  (* every string of the range agrees with the pivot on [nd] bytes *)
  assert (Hpin : in_range arr low high pivot) by (exists p; auto).
  assert (Hsame : forall x, in_range arr low high x ->
            take (Z.to_nat nd) x = take (Z.to_nat nd) pivot)
    by (intros x Hx; apply Hpfx; assumption).
  assert (Hle_of : forall x, in_range arr low high x ->
            lex_compare (suffix x nd) (suffix pivot nd) <> Gt -> lex_le x pivot).
  { intros x Hx Hc'. unfold lex_le.
    rewrite (lex_compare_drop (Z.to_nat nd) _ _ (Hsame x Hx)). exact Hc'. }
  assert (Hge_of : forall x, in_range arr low high x ->
            lex_compare (suffix x nd) (suffix pivot nd) <> Lt -> lex_le pivot x).
  { intros x Hx Hc'. unfold lex_le. rewrite lex_compare_antisym.
    rewrite (lex_compare_drop (Z.to_nat nd) _ _ (Hsame x Hx)). unfold suffix in Hc'.
    destruct (lex_compare (drop (Z.to_nat nd) x) (drop (Z.to_nat nd) pivot));
      cbn [CompOpp]; congruence. }
  assert (Hin3 : forall k x, (low <= k <= high)%nat -> arr3 !! k = Some x ->
            in_range arr low high x).
  { intros k x Hk Hx. destruct Hmv3 as (_ & _ & HI & _). apply HI. exists k. auto. }
  assert (Hleft3 : forall k x, (low <= k < i)%nat -> arr3 !! k = Some x -> lex_le x pivot).
  { intros k x Hk Hx. pose proof (Hin3 k x ltac:(lia) Hx) as Hin.
    rewrite Hlk3 in Hx. destruct (decide (k = j)) as [-> | ?].
    { injection Hx as <-. apply lex_le_refl. }
    destruct (decide (k = low)) as [-> | ?].
    - injection Hx as <-. apply (Hle_of y Hin).
      destruct (decide (j = low)) as [-> | ?]; [congruence|].
      apply (HLe j y); [lia | exact Hy].
    - apply (Hle_of x Hin). apply (HLe k x); [lia | exact Hx]. }
  assert (Hright3 : forall k x, (j <= k <= high)%nat -> arr3 !! k = Some x ->
            lex_le pivot x).
  { intros k x Hk Hx. pose proof (Hin3 k x ltac:(lia) Hx) as Hin.
    rewrite Hlk3 in Hx. destruct (decide (k = j)) as [-> | ?].
    { injection Hx as <-. apply lex_le_refl. }
    destruct (decide (k = low)) as [-> | ?]; [lia|].
    apply (Hge_of x Hin). apply (HGe k x); [lia | exact Hx]. }
  (* left recursion *)
  pose proof (IH t1 arr3 low (j - 1)%nat nd) as HL.
  match type of HL with ?F -> ?A -> ?B -> _ =>
    assert (HF : F); [|assert (HA : A);
      [|assert (HB : B) by lia; specialize (HL HF HA HB); clear HF HA HB]] end.
  { destruct Hmv3 as (_ & _ & _ & HP). unfold lengths_fit. rewrite HP. exact Hfit. }
  { intros _. apply (naive_pre_sub nd arr arr3 low high); [assumption.. | lia | lia]. }
  destruct (LegrandSort_sort_recursive fuel t1 arr3 low (j - 1) nd)
    as [[arr4 t2]| |] eqn:E4; cbn [naive_post mbind outcome_bind] in *; try contradiction.
  destruct HL as [Hmv4 Hsorted4].
  assert (HF4 : forall k, ~ (low <= k < j)%nat -> arr4 !! k = arr3 !! k).
  { intros k Hk. destruct (Nat.le_gt_cases (j - 1) low) as [Hno | Hyes].
    - destruct fuel as [|fuel']; [lia|].
      rewrite (LegrandSort_trivial fuel' t1 arr3 low (j - 1) nd Hno) in E4.
      injection E4 as <- _. reflexivity.
    - destruct Hmv4 as (_ & HF & _). apply HF. lia. }
  assert (Hmv34 : moved low high arr3 arr4)
    by (apply (moved_weaken low (j - 1)); [lia | lia | exact Hmv4]).
  (* right recursion *)
  pose proof (IH t2 arr4 i high nd) as HR.
  match type of HR with ?F -> ?A -> ?B -> _ =>
    assert (HF : F); [|assert (HA : A);
      [|assert (HB : B) by lia; specialize (HR HF HA HB); clear HF HA HB]] end.
  { destruct Hmv34 as (_ & _ & _ & HP34). destruct Hmv3 as (_ & _ & _ & HP3).
    unfold lengths_fit. rewrite HP34, HP3. exact Hfit. }
  { intros _. apply (naive_pre_sub nd arr arr4 low high); [assumption | | lia | lia].
    eapply moved_trans; eassumption. }
  destruct (LegrandSort_sort_recursive fuel t2 arr4 i high nd)
    as [[arr5 t3]| |]; cbn [naive_post] in *; try contradiction.
  destruct HR as [Hmv5 Hsorted5].
  split.
  { eapply moved_trans; [exact Hmv3|]. eapply moved_trans; [exact Hmv34|].
    apply (moved_weaken i high); [lia | lia | exact Hmv5]. }
  destruct Hmv4 as (_ & _ & HI4 & _). destruct Hmv5 as (_ & HF5 & HI5 & _).
  assert (Hle5 : forall k x, (low <= k < i)%nat -> arr5 !! k = Some x -> lex_le x pivot).
  { intros k x Hk Hx. rewrite HF5 in Hx by lia.
    destruct (decide (k < j)%nat) as [Hkj | Hkj].
    - destruct (HI4 x) as (k' & Hk' & Hx'); [exists k; split; [lia | exact Hx]|].
      apply (Hleft3 k' x); [lia | exact Hx'].
    - rewrite HF4 in Hx by lia. apply (Hleft3 k x); [lia | exact Hx]. }
  assert (Hge5 : forall k x, (j <= k <= high)%nat -> arr5 !! k = Some x -> lex_le pivot x).
  { intros k x Hk Hx. destruct (decide (k < i)%nat) as [Hki | Hki].
    - rewrite HF5, HF4 in Hx by lia. apply (Hright3 k x); [lia | exact Hx].
    - destruct (HI5 x) as (k' & Hk' & Hx'); [exists k; split; [lia | exact Hx]|].
      rewrite HF4 in Hx' by lia. apply (Hright3 k' x); [lia | exact Hx']. }
  intros k1 k2 u v H1 H2 H3 Hu Hv.
  destruct (decide (k2 < j)%nat) as [Hk2 | Hk2].
  { rewrite HF5 in Hu, Hv by lia. apply (Hsorted4 k1 k2 u v); (lia || assumption). }
  destruct (decide (i <= k1)%nat) as [Hk1 | Hk1].
  { apply (Hsorted5 k1 k2 u v); (lia || assumption). }
  apply (lex_le_trans _ pivot).
  - apply (Hle5 k1 u); [lia | exact Hu].
  - apply (Hge5 k2 v); [lia | exact Hv].
Qed.

(** ** The C++ precursor sorts, and agrees with the cached variant *)

Lemma LegrandSort_sort_result (t : rand_tape) (ss : list cstring) :
  Forall nul_free ss -> lengths_fit ss ->
  exists out t', LegrandSort_sort t ss = Done (out, t') /\ ordered out /\ out ≡ₚ ss.
Proof.
  intros Hnf Hfit. unfold LegrandSort_sort.
  destruct (Nat.eqb_spec (length ss) 0) as [E | _].
  { exists ss, t. split; [reflexivity|]. split; [|reflexivity].
    apply ordered_short. lia. }
  pose proof (LegrandSort_sort_recursive_spec (S (length ss)) t ss 0%nat
                (length ss - 1)%nat 0 Hfit) as H.
  match type of H with ?A -> ?B -> _ =>
    assert (HA : A); [|assert (HB : B) by lia; specialize (H HA HB); clear HA HB] end.
  { intros Hlt. split; [lia|]. split.
    - intros k Hk. destruct (ss !! k) as [s|] eqn:Hs.
      + exists s. split; [reflexivity|]. split; [|unfold strlen; lia].
        eapply Forall_lookup_1; eassumption.
      + apply lookup_ge_None in Hs. lia.
    - intros x y _ _. reflexivity. }
  destruct (LegrandSort_sort_recursive (S (length ss)) t ss 0 (length ss - 1) 0)
    as [[out t']| |]; cbn [naive_post] in H; try contradiction.
  destruct H as [(HL & _ & _ & HP) Hsorted].
  exists out, t'. split; [reflexivity|]. split; [|exact HP].
  apply strs_sorted_ordered. rewrite HL. exact Hsorted.
Qed.

(** The two precursors return the same sequence, and the C++ cached
    variant returns that sequence whenever it returns. *)
Lemma variants_agree_cpp (t : rand_tape) (ss : list cstring) :
  Forall nul_free ss -> lengths_fit ss ->
  exists out t',
    LegrandSort_sort t ss = Done (out, t')
    /\ (forall t0, legrand_sort t0 ss = Done out)
    /\ (forall t1 out' t2, OptimizedOrasort_sort t1 ss = Done (out', t2) -> out' = out).
Proof.
  intros Hnf Hfit.
  destruct (LegrandSort_sort_result t ss Hnf Hfit) as (out & t' & Hrun & Hord & Hperm).
  exists out, t'. split; [exact Hrun|]. split.
  - intros t0. destruct (legrand_sort_result t0 ss Hnf) as (out0 & E & Ho & Hp).
    rewrite E. f_equal.
    apply ordered_unique; [assumption | assumption |]. rewrite Hp, Hperm. reflexivity.
  - intros t1 out' t2 E. pose proof (OptimizedOrasort_sort_result t1 ss Hnf) as H.
    rewrite E in H. destruct H as [Ho Hp].
    apply ordered_unique; [assumption | assumption |]. rewrite Hp, Hperm. reflexivity.
Qed.

(** ** Runs that go on after a stray read: the comparator *)

Lemma suffix_length (s : cstring) (d : Z) :
  0 <= d -> Z.of_nat (length (suffix s d)) = Z.max 0 (strlen s - d).
Proof. intros Hd. unfold suffix, strlen. rewrite length_drop. lia. Qed.

(** The comparator of such a run returns what [compare_and_count] returns
    when that one stays inside the buffers; where it does not, the two
    strings are equal from [depth] on and the result comes from the tape. *)
Lemma compare_and_count_raw_cases (g : stray_tape) (a b : StringItem) (depth : Z) :
  0 <= depth -> item_ok depth a -> item_ok depth b ->
  match compare_and_count a b depth with
  | Done r => compare_and_count_raw g a b depth = Done (r, g)
  | Fault =>
      suffix (ptr a) depth = suffix (ptr b) depth
      /\ exists k c1 c2,
           compare_and_count_raw g a b depth = Done (c1 - c2, 8 + Z.of_nat k, snd (stray g))
  | OutOfFuel => False
  end.
Proof.
  intros Hd Ha Hb.
  pose proof (compare_and_count_post a b depth Hd Ha Hb) as Hab.
  pose proof (compare_and_count_post b a depth Hd Hb Ha) as Hba.
  unfold compare_and_count_raw. unfold compare_and_count in Hab, Hba |- *.
  destruct (Z.eqb_spec (cache a) (cache b)) as [Heq | Hne]; cbn [negb] in *.
  2:{ reflexivity. }
  rewrite <- Heq, Z.eqb_refl in Hba. cbn [negb] in Hba. cbv zeta in *.
  destruct (Z.leb_spec (depth + 8) (strlen (ptr a))) as [Hla | Hla]; cbn [andb].
  - destruct (Z.leb_spec (depth + 8) (strlen (ptr b))) as [Hlb | Hlb].
    + destruct (scan_equal (S (length (ptr a))) (ptr a) (ptr b) (depth + 8) 0) as [k| |];
        cbn [mbind outcome_bind compare_post] in *; [ | lia | contradiction].
      destruct (char_at (ptr a) (depth + 8 + k)) as [c1| |];
        cbn [mbind outcome_bind compare_post] in *; [ | lia | contradiction].
      destruct (char_at (ptr b) (depth + 8 + k)) as [c2| |];
        cbn [mbind outcome_bind compare_post] in *; [reflexivity | lia | contradiction].
    + (* [b] ends inside the window: so does [a] *)
      exfalso.
      assert (Hfault : scan_equal (S (length (ptr b))) (ptr b) (ptr a) (depth + 8) 0
                         ≫= (fun k => c1 ← char_at (ptr b) (depth + 8 + k);
                                      c2 ← char_at (ptr a) (depth + 8 + k);
                                      Done (c1 - c2, 8 + k)) = Fault).
      { cbn [scan_equal]. rewrite (char_at_fault (ptr b)) by lia. reflexivity. }
      rewrite Hfault in Hba. cbn [compare_post] in Hba. destruct Hba as (_ & _ & Hs).
      pose proof (suffix_length (ptr a) depth Hd) as La.
      pose proof (suffix_length (ptr b) depth Hd) as Lb.
      rewrite Hs in Lb. lia.
  - assert (Hfault : scan_equal (S (length (ptr a))) (ptr a) (ptr b) (depth + 8) 0
                       ≫= (fun k => c1 ← char_at (ptr a) (depth + 8 + k);
                                    c2 ← char_at (ptr b) (depth + 8 + k);
                                    Done (c1 - c2, 8 + k)) = Fault).
    { cbn [scan_equal]. rewrite (char_at_fault (ptr a)) by lia. reflexivity. }
    rewrite Hfault in Hab |- *. cbn [compare_post] in Hab. destruct Hab as (_ & _ & Hs).
    split; [exact Hs|]. unfold stray. cbn [snd].
    destruct (g O) as [[k c1] c2]. exists k, c1, c2. reflexivity.
Qed.

Lemma compare_and_count_cpp_raw_eq (g : stray_tape) (a b : StringItem) (depth : Z) :
  compare_and_count_cpp_raw g a b depth = compare_and_count_raw g a b depth.
Proof.
  unfold compare_and_count_cpp_raw, compare_and_count_raw.
  destruct (Z.eqb_spec (cache a) (cache b)) as [Heq | Hne]; cbn [negb].
  - rewrite Heq, Z.ltb_irrefl. rewrite Z.gtb_ltb, Z.ltb_irrefl. reflexivity.
  - destruct (Z.ltb_spec (cache a) (cache b)) as [Hlt | Hge]; [reflexivity|].
    rewrite Z.gtb_ltb. destruct (Z.ltb_spec (cache b) (cache a)); [reflexivity | lia].
Qed.

(** What the scans use of a comparison against the pivot. *)
Lemma compare_and_count_raw_post (g : stray_tape) (x pivot : StringItem) (depth : Z) :
  0 <= depth -> item_ok depth x -> item_ok depth pivot ->
  exists cmp ml g',
    compare_and_count_raw g x pivot depth = Done (cmp, ml, g')
    /\ (cmp <= 0 -> cmp_pivot depth pivot x <> Gt)
    /\ (0 <= cmp -> cmp_pivot depth pivot x <> Lt)
    /\ 0 <= ml /\ covered depth pivot ml x.
Proof.
  intros Hd Hx Hp.
  pose proof (compare_and_count_raw_cases g x pivot depth Hd Hx Hp) as Hc.
  pose proof (compare_and_count_post x pivot depth Hd Hx Hp) as Hpost.
  destruct (compare_and_count x pivot depth) as [[cmp ml]| |]; cbn [compare_post] in Hpost.
  - destruct Hpost as [Hcmp Hml]. exists cmp, ml, g. split; [exact Hc|].
    fold (cmp_pivot depth pivot x) in Hcmp. fold (shared depth pivot x) in Hml.
    split_and!.
    + intros Hle. destruct (Z.compare_spec cmp 0) as [H0 | H0 | H0];
        rewrite <- Hcmp; (discriminate || lia).
    + intros Hge. destruct (Z.compare_spec cmp 0) as [H0 | H0 | H0];
        rewrite <- Hcmp; (discriminate || lia).
    + unfold shared in Hml. lia.
    + left. lia.
  - destruct Hc as (Hs & k & c1 & c2 & E). exists (c1 - c2), (8 + Z.of_nat k), (snd (stray g)).
    split; [exact E|]. unfold cmp_pivot. rewrite Hs, lex_compare_refl. split_and!.
    + discriminate.
    + discriminate.
    + lia.
    + right. exact Hs.
  - contradiction.
Qed.

Lemma covered_le (depth : Z) (pivot : StringItem) (mc mc' : Z) (x : StringItem) :
  mc' <= mc -> covered depth pivot mc x -> covered depth pivot mc' x.
Proof. intros Hle [H | H]; [left; lia | right; exact H]. Qed.

(** ** Runs that go on after a stray read: the scans *)

Section ScansRaw.
Variables (pivot : StringItem) (depth : Z).
Hypothesis Hdepth : 0 <= depth.
Hypothesis Hpivot : item_ok depth pivot.

Lemma scan_left_raw_spec (fuel : nat) (g : stray_tape) (arr : list StringItem)
    (i j : nat) (mc : Z) :
  range_ok depth arr i j -> (S j - i < fuel)%nat ->
  exists i' mc' g',
    scan_left_raw fuel g arr pivot depth i j mc = Done (i', mc', g')
    /\ (i <= i')%nat /\ ((i <= S j)%nat -> (i' <= S j)%nat)
    /\ (forall k x, (i <= k < i')%nat -> arr !! k = Some x ->
                    cmp_pivot depth pivot x <> Gt)
    /\ ((i' <= j)%nat ->
        exists x, arr !! i' = Some x /\ cmp_pivot depth pivot x <> Lt)
    /\ mc' <= mc /\ (0 <= mc -> 0 <= mc')
    /\ (forall k x, (i <= k <= j)%nat -> (k <= i')%nat -> arr !! k = Some x ->
                    covered depth pivot mc' x).
Proof.
  revert g i mc. induction fuel as [|fuel IH]; intros g i mc Hok Hfuel; [lia|].
  cbn [scan_left_raw].
  destruct (Nat.leb_spec i j) as [Hij | Hij].
  2:{ exists i, mc, g. split; [reflexivity|]. split_and!; lia. }
  destruct (Hok i ltac:(lia)) as (x & Hx & Hxok).
  unfold array_get. rewrite Hx. cbn [mbind outcome_bind].
  destruct (compare_and_count_raw_post g x pivot depth Hdepth Hxok Hpivot)
    as (cmp & ml & g1 & E & Hle & Hge & Hml & Hcov).
  rewrite E. cbn [mbind outcome_bind].
  set (mc1 := if ml <? mc then ml else mc).
  assert (Hmc1 : mc1 <= mc /\ mc1 <= ml /\ (0 <= mc -> 0 <= mc1))
    by (unfold mc1; destruct (Z.ltb_spec ml mc); lia).
  destruct (Z.geb_spec cmp 0) as [Hstop | Hgo].
  - exists i, mc1, g1. split; [reflexivity|]. split_and!; try lia.
    + intros _. exists x. split; [exact Hx | apply Hge; lia].
    + intros k y Hk Hk' Hy. assert (k = i) by lia. subst k.
      rewrite Hx in Hy. injection Hy as <-. apply (covered_le _ _ ml); [lia | exact Hcov].
  - assert (Hok' : range_ok depth arr (S i) j) by (intros k Hk; apply Hok; lia).
    destruct (IH g1 (S i) mc1 Hok' ltac:(lia))
      as (i' & mc' & g' & E' & H1 & H2 & H3 & H4 & H5 & H6 & H7).
    exists i', mc', g'. split; [exact E'|]. split_and!; try lia.
    + intros k y Hk Hy. destruct (decide (k = i)) as [-> | Hne].
      * rewrite Hx in Hy. injection Hy as <-. apply Hle. lia.
      * apply (H3 k y); [lia | exact Hy].
    + exact H4.
    + intros k y Hk Hk' Hy. destruct (decide (k = i)) as [-> | Hne].
      * rewrite Hx in Hy. injection Hy as <-.
        apply (covered_le _ _ ml); [lia | exact Hcov].
      * apply (H7 k y); [lia | lia | exact Hy].
Qed.

Lemma scan_right_raw_spec (fuel : nat) (g : stray_tape) (arr : list StringItem)
    (i j : nat) (mc : Z) :
  (1 <= i)%nat -> range_ok depth arr i j -> (S j - i < fuel)%nat ->
  exists j' mc' g',
    scan_right_raw fuel g arr pivot depth i j mc = Done (j', mc', g')
    /\ (j' <= j)%nat /\ ((i <= S j)%nat -> (i <= S j')%nat)
    /\ ((j < i)%nat -> j' = j)
    /\ (forall k x, (j' < k <= j)%nat -> arr !! k = Some x ->
                    cmp_pivot depth pivot x <> Lt)
    /\ ((i <= j')%nat ->
        exists x, arr !! j' = Some x /\ cmp_pivot depth pivot x <> Gt)
    /\ mc' <= mc /\ (0 <= mc -> 0 <= mc')
    /\ (forall k x, (i <= k <= j)%nat -> (j' <= k)%nat -> arr !! k = Some x ->
                    covered depth pivot mc' x).
Proof.
  intros Hi. revert g j mc. induction fuel as [|fuel IH]; intros g j mc Hok Hfuel; [lia|].
  cbn [scan_right_raw].
  destruct (Nat.leb_spec i j) as [Hij | Hij].
  2:{ exists j, mc, g. split; [reflexivity|]. split_and!; lia. }
  destruct (Hok j ltac:(lia)) as (x & Hx & Hxok).
  unfold array_get. rewrite Hx. cbn [mbind outcome_bind].
  destruct (compare_and_count_raw_post g x pivot depth Hdepth Hxok Hpivot)
    as (cmp & ml & g1 & E & Hle & Hge & Hml & Hcov).
  rewrite E. cbn [mbind outcome_bind].
  set (mc1 := if ml <? mc then ml else mc).
  assert (Hmc1 : mc1 <= mc /\ mc1 <= ml /\ (0 <= mc -> 0 <= mc1))
    by (unfold mc1; destruct (Z.ltb_spec ml mc); lia).
  destruct (Z.leb_spec cmp 0) as [Hstop | Hgo].
  - exists j, mc1, g1. split; [reflexivity|]. split_and!; try lia.
    + intros _. exists x. split; [exact Hx | apply Hle; lia].
    + intros k y Hk Hk' Hy. assert (k = j) by lia. subst k.
      rewrite Hx in Hy. injection Hy as <-. apply (covered_le _ _ ml); [lia | exact Hcov].
  - assert (Hok' : range_ok depth arr i (j - 1)) by (intros k Hk; apply Hok; lia).
    destruct (IH g1 (j - 1)%nat mc1 Hok' ltac:(lia))
      as (j' & mc' & g' & E' & H1 & H2 & H2' & H3 & H4 & H5 & H6 & H7).
    exists j', mc', g'. split; [exact E'|]. split_and!; try lia.
    + intros k y Hk Hy. destruct (decide (k = j)) as [-> | Hne].
      * rewrite Hx in Hy. injection Hy as <-. apply Hge. lia.
      * apply (H3 k y); [lia | exact Hy].
    + exact H4.
    + intros k y Hk Hk' Hy. destruct (decide (k = j)) as [-> | Hne].
      * rewrite Hx in Hy. injection Hy as <-.
        apply (covered_le _ _ ml); [lia | exact Hcov].
      * apply (H7 k y); [lia | lia | exact Hy].
Qed.
End ScansRaw.

(** ** Runs that go on after a stray read: the partition *)

Section LoopRaw.
Variables (pivot : StringItem) (depth : Z).
Hypothesis Hdepth : 0 <= depth.
Hypothesis Hpivot : item_ok depth pivot.

Lemma partition_loop_raw_spec (fuel : nat) (g : stray_tape) (arr : list StringItem)
    (i j : nat) (mc : Z) :
  (1 <= i)%nat -> range_ok depth arr i j -> (S j - i < fuel)%nat ->
  exists arr' j' mc' g',
    partition_loop_raw fuel g arr pivot depth i j mc = Done (arr', j', mc', g')
    /\ (j' <= j)%nat /\ ((i <= S j)%nat -> (i <= S j')%nat)
    /\ ((j < i)%nat -> j' = j)
    /\ moved i j arr arr'
    /\ (forall k x, (i <= k <= j')%nat -> arr' !! k = Some x ->
                    cmp_pivot depth pivot x <> Gt)
    /\ (forall k x, (j' < k <= j)%nat -> arr' !! k = Some x ->
                    cmp_pivot depth pivot x <> Lt)
    /\ mc' <= mc /\ (0 <= mc -> 0 <= mc')
    /\ (forall x, in_range arr' i j x -> covered depth pivot mc' x).
Proof.
  revert g arr i j mc.
  induction fuel as [|fuel IH]; intros g arr i j mc Hi Hok Hfuel; [lia|].
  cbn [partition_loop_raw].
  destruct (scan_left_raw_spec pivot depth Hdepth Hpivot (S (S j - i)) g arr i j mc Hok
              ltac:(lia)) as (i1 & mc1 & g1 & EL & L1 & L2 & L3 & L4 & L5 & L6 & L7).
  rewrite EL. cbn [mbind outcome_bind].
  assert (Hok1 : range_ok depth arr i1 j) by (intros k Hk; apply Hok; lia).
  destruct (scan_right_raw_spec pivot depth Hdepth Hpivot (S (S j - i1)) g1 arr i1 j mc1
              ltac:(lia) Hok1 ltac:(lia))
    as (j1 & mc2 & g2 & ER & R1 & R2 & R2' & R3 & R4 & R5 & R6 & R7).
  rewrite ER. cbn [mbind outcome_bind].
  assert (Hcov12 : forall k x, (i <= k <= j)%nat -> (k <= i1 \/ j1 <= k)%nat ->
                     arr !! k = Some x -> covered depth pivot mc2 x).
  { intros k x Hk Hside Hx. destruct (decide (k <= i1)%nat) as [Hl | Hr].
    - apply (covered_le _ _ mc1); [lia|]. apply (L7 k x); [lia | lia | exact Hx].
    - apply (R7 k x); [lia | lia | exact Hx]. }
  destruct (Nat.leb_spec i1 j1) as [Hcross | Hcross].
  - (* exchange and continue *)
    destruct (Hok i1 ltac:(lia)) as (a & Ha & Haok).
    destruct (Hok j1 ltac:(lia)) as (b & Hb & Hbok).
    rewrite (swap_items_Done arr i1 j1 a b Ha Hb). cbn [mbind outcome_bind].
    set (arr2 := <[j1 := a]> (<[i1 := b]> arr)).
    assert (Hlk : forall k, arr2 !! k = if decide (k = j1) then Some a
                                       else if decide (k = i1) then Some b else arr !! k)
      by (intros k; apply swap_lookup; assumption).
    assert (Hmv2 : moved i j arr arr2) by (apply moved_swap; [lia | lia | exact Ha | exact Hb]).
    assert (Hok2 : range_ok depth arr2 (S i1) (j1 - 1)).
    { intros k Hk. rewrite Hlk. destruct (decide (k = j1)); [lia|].
      destruct (decide (k = i1)); [lia|]. apply Hok. lia. }
    destruct (IH g2 arr2 (S i1) (j1 - 1)%nat mc2 ltac:(lia) Hok2 ltac:(lia))
      as (arr' & j' & mc' & g' & EN & N1 & N2 & N2' & N3 & N4 & N5 & N6 & N7 & N8).
    exists arr', j', mc', g'. split; [exact EN|].
    destruct N3 as (NL & NF & NI & NP).
    destruct L4 as (a' & Ha' & Hage); [lia|].
    rewrite Ha in Ha'. injection Ha' as <-.
    destruct R4 as (b' & Hb' & Hble); [lia|].
    rewrite Hb in Hb'. injection Hb' as <-.
    assert (Hj' : (i1 - 1 <= j')%nat).
    { destruct (decide (i1 = j1)) as [-> | Hne]; [|lia].
      clear - N1 N2 N2' Hi L1. lia. }
    split; [lia|]. split; [lia|]. split; [lia|]. split.
    { eapply moved_trans; [exact Hmv2|].
      apply (moved_weaken (S i1) (j1 - 1)); [lia | lia |].
      repeat apply conj; assumption. }
    split.
    { intros k x Hk Hx.
      destruct (decide (S i1 <= k)%nat) as [Hin | Hout]; [apply (N4 k x); [lia | exact Hx]|].
      rewrite NF, Hlk in Hx by lia.
      destruct (decide (k = j1)) as [-> | ?]; [lia|].
      destruct (decide (k = i1)) as [-> | ?]; [injection Hx as <-; exact Hble|].
      apply (L3 k x); [lia | exact Hx]. }
    split.
    { intros k x Hk Hx.
      destruct (decide (k <= j1 - 1)%nat) as [Hin | Hout]; [apply (N5 k x); [lia | exact Hx]|].
      rewrite NF, Hlk in Hx by lia.
      destruct (decide (k = j1)) as [-> | ?]; [injection Hx as <-; exact Hage|].
      destruct (decide (k = i1)) as [-> | ?]; [lia|].
      apply (R3 k x); [lia | exact Hx]. }
    split; [lia|]. split; [lia|].
    intros x (k & Hk & Hx).
    destruct (decide (S i1 <= k <= j1 - 1)%nat) as [Hin | Hout].
    { apply N8. exists k. auto. }
    rewrite NF, Hlk in Hx by exact Hout.
    apply (covered_le _ _ mc2); [lia|].
    destruct (decide (k = j1)) as [-> | ?].
    { injection Hx as <-. apply (Hcov12 i1 a); [lia | lia | exact Ha]. }
    destruct (decide (k = i1)) as [-> | ?].
    { injection Hx as <-. apply (Hcov12 j1 b); [lia | lia | exact Hb]. }
    apply (Hcov12 k x); [lia | lia | exact Hx].
  - (* the cursors crossed *)
    exists arr, j1, mc2, g2. split; [reflexivity|].
    split; [lia|]. split; [lia|]. split; [lia|]. split; [apply moved_refl|].
    split; [intros k x Hk Hx; apply (L3 k x); [lia | exact Hx]|].
    split; [intros k x Hk Hx; apply (R3 k x); [lia | exact Hx]|].
    split; [lia|]. split; [lia|].
    intros x (k & Hk & Hx). apply (Hcov12 k x); [lia | lia | exact Hx].
Qed.
End LoopRaw.

Section PartitionRaw.
Context {tape : Type}.
Variable pick : tape -> nat -> nat -> nat * tape.
Hypothesis pick_in_range :
  forall t low high, (low <= high)%nat ->
    (low <= fst (pick t low high) <= high)%nat.

Lemma partition_raw_spec (t : tape) (g : stray_tape) (arr : list StringItem)
    (low high : nat) (depth : Z) :
  0 <= depth -> (low < high)%nat -> range_ok depth arr low high ->
  partition_raw_post depth arr low high (partition_raw pick t g arr low high depth).
Proof.
  intros Hd Hlh Hok. unfold partition_raw.
  pose proof (pick_in_range t low high ltac:(lia)) as Hp.
  destruct (pick t low high) as [p t']. cbn [fst] in Hp.
  destruct (Hok low ltac:(lia)) as (a0 & Ha0 & Ha0ok).
  destruct (Hok p ltac:(lia)) as (pv & Hpv & Hpvok).
  rewrite (swap_items_Done arr low p a0 pv Ha0 Hpv). cbn [mbind outcome_bind].
  set (arr1 := <[p := a0]> (<[low := pv]> arr)).
  assert (Hlk1 : forall k, arr1 !! k = if decide (k = p) then Some a0
                                      else if decide (k = low) then Some pv else arr !! k)
    by (intros k; apply swap_lookup; assumption).
  assert (Hmv1 : moved low high arr arr1)
    by (apply moved_swap; [lia | lia | exact Ha0 | exact Hpv]).
  assert (Hpiv : arr1 !! low = Some pv).
  { rewrite Hlk1. destruct (decide (low = p)) as [<- | ?]; [congruence|].
    rewrite decide_True by reflexivity. reflexivity. }
  unfold array_get at 1. rewrite Hpiv. cbn [mbind outcome_bind].
  assert (Hok1 : range_ok depth arr1 (S low) high).
  { intros k Hk. rewrite Hlk1. destruct (decide (k = p)); [eauto|].
    destruct (decide (k = low)); [lia|]. apply Hok. lia. }
  destruct (partition_loop_raw_spec pv depth Hd Hpvok (S (high - low)) g arr1 (S low) high
              INT_MAX ltac:(lia) Hok1 ltac:(lia))
    as (arr2 & j & mc & g' & EL & N1 & N2 & _ & N3 & N4 & N5 & N6 & N7 & N8).
  rewrite EL. cbn [mbind outcome_bind].
  assert (Hlow2 : arr2 !! low = Some pv).
  { destruct N3 as (_ & NF & _). rewrite NF by lia. exact Hpiv. }
  assert (Hlen2 : length arr2 = length arr).
  { destruct N3 as (NL & _). rewrite NL. unfold arr1. rewrite !length_insert. reflexivity. }
  assert (Hj : exists y, arr2 !! j = Some y).
  { apply lookup_lt_is_Some. rewrite Hlen2.
    apply lookup_lt_Some in Hpv. apply lookup_lt_Some in Ha0.
    destruct (Hok high ltac:(lia)) as (z & Hz & _). apply lookup_lt_Some in Hz. lia. }
  destruct Hj as (y & Hy).
  rewrite (swap_items_Done arr2 low j pv y Hlow2 Hy).
  cbn [mbind outcome_bind partition_raw_post].
  set (arr3 := <[j := pv]> (<[low := y]> arr2)).
  assert (Hlk3 : forall k, arr3 !! k = if decide (k = j) then Some pv
                                      else if decide (k = low) then Some y else arr2 !! k)
    by (intros k; apply swap_lookup; assumption).
  assert (Hmc0 : 0 <= mc) by (apply N7; unfold INT_MAX; lia).
  set (mcf := if mc =? INT_MAX then 0 else mc).
  assert (Hmcf : 0 <= mcf <= mc).
  { unfold mcf. destruct (Z.eqb_spec mc INT_MAX); lia. }
  split; [lia|]. split.
  { eapply moved_trans; [exact Hmv1|]. eapply moved_trans.
    - apply (moved_weaken (S low) high); [lia | lia | exact N3].
    - apply moved_swap; [lia | lia | exact Hlow2 | exact Hy]. }
  split; [lia|].
  exists pv. split; [|split; [|split]].
  - rewrite Hlk3. rewrite decide_True by reflexivity. reflexivity.
  - intros k x Hk Hx. rewrite Hlk3 in Hx. destruct (decide (k = j)); [lia|].
    destruct (decide (k = low)) as [-> | ?].
    + injection Hx as <-. apply (N4 j y); [lia | exact Hy].
    + apply (N4 k x); [lia | exact Hx].
  - intros k x Hk Hx. rewrite Hlk3 in Hx. destruct (decide (k = j)); [lia|].
    destruct (decide (k = low)); [lia|]. apply (N5 k x); [lia | exact Hx].
  - intros k x Hk Hkj Hx. apply (covered_le _ _ mc); [lia|].
    rewrite Hlk3 in Hx. destruct (decide (k = j)); [contradiction|].
    destruct (decide (k = low)) as [-> | ?].
    + injection Hx as <-. apply N8. exists j. split; [lia | exact Hy].
    + apply N8. exists k. split; [lia | exact Hx].
Qed.
End PartitionRaw.

(** ** Runs that go on after a stray read: the recursive driver *)

(** What one partition step of such a run establishes for the items on
    either side of the pivot. *)
Lemma partition_raw_sides {tape : Type} (d : Z) (arr : list StringItem) (low high : nat)
    (arr1 : list StringItem) (j : nat) (mc : Z) (t1 : tape) (g1 : stray_tape) :
  sort_pre d arr low high ->
  partition_raw_post d arr low high (Done (arr1, j, mc, t1, g1)) ->
  0 <= mc /\ (low <= j <= high)%nat
  /\ exists pivot, arr1 !! j = Some pivot
     /\ forall k, (low <= k <= high)%nat -> k <> j ->
          exists x, arr1 !! k = Some x /\ item_ok d x
            /\ take (Z.to_nat (d + mc)) (ptr x) = take (Z.to_nat (d + mc)) (ptr pivot)
            /\ ((k < j)%nat -> lex_le (ptr x) (ptr pivot))
            /\ ((j < k)%nat -> lex_le (ptr pivot) (ptr x)).
Proof.
  intros (Hd & Hok & Hpre) (Hj & Hmv & Hmc & pivot & Hpiv & Hle & Hge & Hcov).
  split; [exact Hmc|]. split; [exact Hj|]. exists pivot. split; [exact Hpiv|].
  intros k Hk Hkj.
  destruct Hmv as (HL & HF & HI & HP).
  assert (Hx : exists x, arr1 !! k = Some x).
  { apply lookup_lt_is_Some. rewrite HL.
    destruct (Hok high ltac:(lia)) as (z & Hz & _). apply lookup_lt_Some in Hz. lia. }
  destruct Hx as (x & Hx). exists x.
  assert (Hxin : in_range arr low high x) by (apply HI; exists k; auto).
  assert (Hpin : in_range arr low high pivot) by (apply HI; exists j; auto).
  pose proof (Hpre x pivot Hxin Hpin) as Htake.
  split; [exact Hx|]. split; [eapply in_range_item_ok; eassumption|]. split; [|split].
  - destruct (Hcov k x Hk Hkj Hx) as [Hsh | Htwin].
    + replace (Z.to_nat (d + mc)) with (Z.to_nat d + Z.to_nat mc)%nat by lia.
      apply take_extend; [exact Htake|]. unfold shared, suffix in Hsh. lia.
    + rewrite (suffix_prefix_eq d (ptr x) (ptr pivot) Htake Htwin). reflexivity.
  - intros Hlt. unfold lex_le. rewrite (lex_compare_drop (Z.to_nat d) _ _ Htake).
    apply (Hle k x); [lia | exact Hx].
  - intros Hgt. unfold lex_le. rewrite lex_compare_antisym.
    rewrite (lex_compare_drop (Z.to_nat d) _ _ Htake).
    specialize (Hge k x ltac:(lia) Hx). unfold cmp_pivot, suffix in Hge.
    destruct (lex_compare (drop (Z.to_nat d) (ptr x)) (drop (Z.to_nat d) (ptr pivot)));
      cbn [CompOpp]; congruence.
Qed.

Section SortRawSpec.
Context {tape : Type}.
Variable pick : tape -> nat -> nat -> nat * tape.
Hypothesis pick_in_range :
  forall t low high, (low <= high)%nat ->
    (low <= fst (pick t low high) <= high)%nat.

Lemma sub_call_raw_post (fuel : nat) (t : tape) (g : stray_tape) (arr : list StringItem)
    (lo hi : nat) (d nd : Z) :
  sort_range_raw_ok pick fuel ->
  ((lo < hi)%nat ->
     sort_pre nd (if nd >? d then refresh_range arr lo hi nd else arr) lo hi) ->
  (hi - lo < fuel)%nat ->
  exists arr' t' g',
    (if (lo <? hi)%nat
     then sort_range_raw pick fuel t g
            (if nd >? d then refresh_range arr lo hi nd else arr) lo hi nd
     else Done (arr, t, g)) = Done (arr', t', g')
    /\ same_strings lo hi arr arr' /\ sorted_range lo hi arr'
    /\ ((hi <= lo)%nat -> arr' = arr).
Proof.
  intros IH Hpre Hfuel. destruct (Nat.ltb_spec lo hi) as [Hlt | Hge].
  - specialize (IH t g (if nd >? d then refresh_range arr lo hi nd else arr) lo hi nd
                   Hpre Hfuel).
    assert (Hss : same_strings lo hi arr
                    (if nd >? d then refresh_range arr lo hi nd else arr)).
    { destruct (nd >? d); [apply refresh_same_strings | apply same_strings_refl]. }
    destruct (sort_range_raw pick fuel t g _ lo hi nd) as [[[arr' t'] g']| |];
      cbn [sort_raw_post] in IH; [ | contradiction | contradiction].
    destruct IH as [Hs Hsorted]. exists arr', t', g'. split; [reflexivity|].
    split; [eapply same_strings_trans; eassumption|]. split; [exact Hsorted | lia].
  - exists arr, t, g. split; [reflexivity|]. split; [apply same_strings_refl|].
    split; [apply sorted_range_trivial; lia | reflexivity].
Qed.

Lemma sort_range_raw_spec (fuel : nat) : sort_range_raw_ok pick fuel.
Proof.
  induction fuel as [|fuel IH]; intros t g arr low high d Hpre Hfuel; [lia|].
  cbn [sort_range_raw]. destruct (Nat.leb_spec high low) as [Htriv | Hlh].
  { cbn [sort_raw_post]. split; [apply same_strings_refl | apply sorted_range_trivial; lia]. }
  specialize (Hpre Hlh). pose proof Hpre as (Hd & Hok & Hpfx).
  pose proof (partition_raw_spec pick pick_in_range t g arr low high d Hd Hlh Hok) as HP.
  destruct (partition_raw pick t g arr low high d) as [[[[[arr1 j] mc] t1] g1]| |];
    cbn [mbind outcome_bind]; [ | contradiction | contradiction].
  destruct (partition_raw_sides d arr low high arr1 j mc t1 g1 Hpre HP)
    as (Hmc & Hj & pivot & Hpiv & Hside).
  destruct HP as (_ & Hmv & _).
  pose proof (moved_same_strings _ _ _ _ Hmv) as Hss1.
  cbv zeta.
  (* left sub-range *)
  destruct (sub_call_raw_post fuel t1 g1 arr1 low (j - 1) d (d + mc) IH)
    as (arr2 & t2 & g2 & EL & Hss2 & Hsorted2 & HLid); [ | lia | ].
  { intros Hlt. apply (sub_range_pre d mc arr1 low (j - 1) pivot Hd Hmc).
    intros k Hk. destruct (Hside k ltac:(lia) ltac:(lia)) as (x & Hx & Hxok & Htk & _).
    eauto. }
  rewrite EL. cbn [mbind outcome_bind].
  assert (HF2 : forall k, ~ (low <= k < j)%nat -> arr2 !! k = arr1 !! k).
  { intros k Hk. destruct (Nat.le_gt_cases (j - 1) low) as [Hno | Hyes].
    - rewrite (HLid Hno). reflexivity.
    - destruct Hss2 as (_ & HF & _). apply HF. lia. }
  assert (Hright : forall k, (j + 1 <= k <= high)%nat -> arr2 !! k = arr1 !! k).
  { intros k Hk. apply HF2. lia. }
  (* right sub-range *)
  destruct (sub_call_raw_post fuel t2 g2 arr2 (j + 1) high d (d + mc) IH)
    as (arr3 & t3 & g3 & ER & Hss3 & Hsorted3 & _); [ | lia | ].
  { intros Hlt. apply (sub_range_pre d mc arr2 (j + 1) high pivot Hd Hmc).
    intros k Hk. rewrite (Hright k Hk).
    destruct (Hside k ltac:(lia) ltac:(lia)) as (x & Hx & Hxok & Htk & _). eauto. }
  rewrite ER. cbn [sort_raw_post].
  split.
  { eapply same_strings_trans; [exact Hss1|]. eapply same_strings_trans.
    - apply (same_strings_weaken low (j - 1)); [lia | lia | exact Hss2].
    - apply (same_strings_weaken (j + 1) high); [lia | lia | exact Hss3]. }
  (* the pivot stays between the two sorted halves *)
  destruct Hss2 as (_ & _ & HI2 & _). destruct Hss3 as (_ & HF3 & HI3 & _).
  assert (Hpiv3 : arr3 !! j = Some pivot).
  { rewrite HF3, HF2 by lia. exact Hpiv. }
  assert (Hleft : forall k x, (low <= k < j)%nat -> arr3 !! k = Some x ->
                              lex_le (ptr x) (ptr pivot)).
  { intros k x Hk Hx. rewrite HF3 in Hx by lia.
    destruct (HI2 x) as (x1 & (k1 & Hk1 & Hx1) & Ex); [exists k; split; [lia | exact Hx]|].
    destruct (Hside k1 ltac:(lia) ltac:(lia)) as (x1' & Hx1' & _ & _ & Hle & _).
    rewrite Hx1 in Hx1'. injection Hx1' as <-. rewrite <- Ex. apply Hle. lia. }
  assert (Hrightge : forall k x, (j < k <= high)%nat -> arr3 !! k = Some x ->
                                 lex_le (ptr pivot) (ptr x)).
  { intros k x Hk Hx.
    destruct (HI3 x) as (x2 & (k2 & Hk2 & Hx2) & Ex); [exists k; split; [lia | exact Hx]|].
    rewrite Hright in Hx2 by lia.
    destruct (Hside k2 ltac:(lia) ltac:(lia)) as (x2' & Hx2' & _ & _ & _ & Hge).
    rewrite Hx2 in Hx2'. injection Hx2' as <-. rewrite <- Ex. apply Hge. lia. }
  intros k1 k2 x y H1 H2 H3 Hx Hy.
  destruct (Nat.lt_trichotomy k2 j) as [Hk2 | [-> | Hk2]].
  - rewrite HF3 in Hx, Hy by lia. apply (Hsorted2 k1 k2 x y); (lia || assumption).
  - destruct (decide (k1 = j)) as [-> | Hne].
    + assert (x = y) by congruence. subst y. apply lex_le_refl.
    + rewrite Hpiv3 in Hy. injection Hy as <-. apply (Hleft k1 x); [lia | exact Hx].
  - destruct (Nat.lt_trichotomy k1 j) as [Hk1 | [-> | Hk1]].
    + apply (lex_le_trans _ (ptr pivot)).
      * apply (Hleft k1 x); [lia | exact Hx].
      * apply (Hrightge k2 y); [lia | exact Hy].
    + rewrite Hpiv3 in Hx. injection Hx as <-. apply (Hrightge k2 y); [lia | exact Hy].
    + apply (Hsorted3 k1 k2 x y); (lia || assumption).
Qed.

(** Sorting the freshly built item array and reading the strings back. *)
Lemma sort_items_raw_result (t : tape) (g : stray_tape) (ss : list cstring) (fuel : nat) :
  Forall nul_free ss -> (1 <= length ss)%nat -> (length ss - 1 < fuel)%nat ->
  exists arr' t' g',
    sort_range_raw pick fuel t g (init_items ss) 0 (length ss - 1) 0 = Done (arr', t', g')
    /\ ordered (map ptr arr') /\ map ptr arr' ≡ₚ ss.
Proof.
  intros Hnf Hlen Hfuel.
  pose proof (sort_range_raw_spec fuel t g (init_items ss) 0%nat
                (length ss - 1)%nat 0 (fun _ => init_items_pre ss Hnf Hlen)
                ltac:(lia)) as H.
  destruct (sort_range_raw pick fuel t g (init_items ss) 0 (length ss - 1) 0)
    as [[[arr' t'] g']| |]; cbn [sort_raw_post] in H; [ | contradiction | contradiction].
  exists arr', t', g'. split; [reflexivity|].
  destruct H as [(HL & _ & _ & HP) Hsorted]. split.
  - apply sorted_range_ordered. rewrite HL, init_items_length. exact Hsorted.
  - rewrite HP, init_items_ptr. reflexivity.
Qed.
End SortRawSpec.

(** Both drivers always return, with an ordered rearrangement of the input,
    whatever the stray reads yield. *)
Lemma optimized_orasort_raw_result (g : stray_tape) (ss : list cstring) :
  Forall nul_free ss ->
  exists out, optimized_orasort_raw true g ss = Done out /\ ordered out /\ out ≡ₚ ss.
Proof.
  intros Hnf. unfold optimized_orasort_raw.
  destruct (Nat.leb_spec (length ss) 1) as [Hshort | Hlong].
  { exists ss. split; [reflexivity|]. split; [apply ordered_short; exact Hshort | reflexivity]. }
  cbn [negb]. unfold orasort_recursive_raw.
  destruct (sort_items_raw_result pick_mid pick_mid_in_range tt g ss (S (length ss - 1 - 0))
              Hnf ltac:(lia) ltac:(lia)) as (arr' & t' & g' & E & Ho & Hp).
  rewrite E. exists (map ptr arr'). split; [reflexivity|]. split; assumption.
Qed.

Lemma OptimizedOrasort_sort_raw_result (t : rand_tape) (g : stray_tape) (ss : list cstring) :
  Forall nul_free ss ->
  exists out t', OptimizedOrasort_sort_raw t g ss = Done (out, t')
                 /\ ordered out /\ out ≡ₚ ss.
Proof.
  intros Hnf. unfold OptimizedOrasort_sort_raw.
  destruct (Nat.eqb_spec (length ss) 0) as [Hempty | Hne].
  { exists ss, t. split; [reflexivity|]. split; [apply ordered_short; lia | reflexivity]. }
  unfold sort_recursive_raw. rewrite init_items_length.
  destruct (sort_items_raw_result pick_rand pick_rand_in_range t g ss (S (length ss - 1 - 0))
              Hnf ltac:(lia) ltac:(lia)) as (arr' & t' & g' & E & Ho & Hp).
  rewrite E. exists (map ptr arr'), t'. split; [reflexivity|]. split; assumption.
Qed.

(** ** Runs that go on after a stray read: the calls of the driver *)

Section CallsRaw.
Context {tape : Type}.
Variable pick : tape -> nat -> nat -> nat * tape.

Lemma sort_range_raw_calls_erase (fuel : nat) (t : tape) (g : stray_tape)
    (arr : list StringItem) (low high : nat) (d : Z) :
  snd (sort_range_raw_calls pick fuel t g arr low high d)
  = sort_range_raw pick fuel t g arr low high d.
Proof.
  revert t g arr low high d. induction fuel as [|fuel IH]; intros t g arr low high d;
    [reflexivity|].
  cbn [sort_range_raw_calls sort_range_raw]. destruct (high <=? low)%nat; [reflexivity|].
  destruct (partition_raw pick t g arr low high d) as [[[[[arr1 j] mc] t1] g1]| |];
    cbn [mbind outcome_bind snd]; [ | reflexivity | reflexivity].
  cbv zeta.
  assert (EL : forall a, snd (if (low <? j - 1)%nat
                    then sort_range_raw_calls pick fuel t1 g1 a low (j - 1) (d + mc)
                    else ([], Done (arr1, t1, g1)))
               = if (low <? j - 1)%nat
                 then sort_range_raw pick fuel t1 g1 a low (j - 1) (d + mc)
                 else Done (arr1, t1, g1)).
  { intros a. destruct (low <? j - 1)%nat; [apply IH | reflexivity]. }
  specialize (EL (if d + mc >? d then refresh_range arr1 low (j - 1) (d + mc) else arr1)).
  destruct (if (low <? j - 1)%nat
            then sort_range_raw_calls pick fuel t1 g1 _ low (j - 1) (d + mc)
            else ([], Done (arr1, t1, g1))) as [cl rl].
  cbn [snd] in EL. rewrite <- EL.
  destruct rl as [[[arr2 t2] g2]| |]; cbn [mbind outcome_bind snd];
    [ | reflexivity | reflexivity].
  destruct (j + 1 <? high)%nat.
  - rewrite <- IH.
    destruct (sort_range_raw_calls pick fuel t2 g2 _ (j + 1) high (d + mc)) as [cr rr].
    reflexivity.
  - reflexivity.
Qed.

Hypothesis pick_in_range :
  forall t low high, (low <= high)%nat ->
    (low <= fst (pick t low high) <= high)%nat.

(** Every call of such a run finds the precondition of the driver on its
    range. *)
Lemma sort_range_raw_calls_pre (fuel : nat) (t : tape) (g : stray_tape)
    (arr : list StringItem) (low high : nat) (d : Z) :
  ((low < high)%nat -> sort_pre d arr low high) -> (high - low < fuel)%nat ->
  Forall call_pre (fst (sort_range_raw_calls pick fuel t g arr low high d)).
Proof.
  revert t g arr low high d.
  induction fuel as [|fuel IH]; intros t g arr low high d Hpre Hfuel; [lia|].
  assert (Hhere : call_pre (arr, low, high, d)) by exact Hpre.
  cbn [sort_range_raw_calls]. destruct (Nat.leb_spec high low) as [Htriv | Hlh].
  { cbn [fst]. constructor; [exact Hhere | constructor]. }
  specialize (Hpre Hlh). pose proof Hpre as (Hd & Hok & _).
  pose proof (partition_raw_spec pick pick_in_range t g arr low high d Hd Hlh Hok) as HP.
  destruct (partition_raw pick t g arr low high d) as [[[[[arr1 j] mc] t1] g1]| |];
    [ | contradiction | contradiction].
  destruct (partition_raw_sides d arr low high arr1 j mc t1 g1 Hpre HP)
    as (Hmc & Hj & pivot & Hpiv & Hside).
  cbv zeta.
  set (arrL := if d + mc >? d then refresh_range arr1 low (j - 1) (d + mc) else arr1).
  assert (HpreL : (low < j - 1)%nat -> sort_pre (d + mc) arrL low (j - 1)).
  { intros Hlt. apply (sub_range_pre d mc arr1 low (j - 1) pivot Hd Hmc).
    intros k Hk. destruct (Hside k ltac:(lia) ltac:(lia)) as (x & Hx & Hxok & Htk & _).
    eauto. }
  assert (HL : Forall call_pre
                 (fst (if (low <? j - 1)%nat
                       then sort_range_raw_calls pick fuel t1 g1 arrL low (j - 1) (d + mc)
                       else ([], Done (arr1, t1, g1))))).
  { destruct (Nat.ltb_spec low (j - 1)) as [Hlt | _]; [|constructor].
    apply IH; [exact HpreL | lia]. }
  assert (EL : snd (if (low <? j - 1)%nat
                    then sort_range_raw_calls pick fuel t1 g1 arrL low (j - 1) (d + mc)
                    else ([], Done (arr1, t1, g1)))
               = if (low <? j - 1)%nat
                 then sort_range_raw pick fuel t1 g1 arrL low (j - 1) (d + mc)
                 else Done (arr1, t1, g1)).
  { destruct (low <? j - 1)%nat; [apply sort_range_raw_calls_erase | reflexivity]. }
  destruct (sub_call_raw_post pick fuel t1 g1 arr1 low (j - 1) d (d + mc)
              (sort_range_raw_spec pick pick_in_range fuel) HpreL ltac:(lia))
    as (arr2 & t2 & g2 & EL' & Hss2 & _ & HLid).
  fold arrL in EL'. rewrite EL' in EL.
  destruct (if (low <? j - 1)%nat
            then sort_range_raw_calls pick fuel t1 g1 arrL low (j - 1) (d + mc)
            else ([], Done (arr1, t1, g1))) as [cl rl].
  cbn [fst snd] in HL, EL. subst rl.
  assert (Hright : forall k, (j + 1 <= k <= high)%nat -> arr2 !! k = arr1 !! k).
  { intros k Hk. destruct (Nat.le_gt_cases (j - 1) low) as [Hno | Hyes].
    - rewrite (HLid Hno). reflexivity.
    - destruct Hss2 as (_ & HF & _). apply HF. lia. }
  set (arrR := if d + mc >? d then refresh_range arr2 (j + 1) high (d + mc) else arr2).
  assert (HR : Forall call_pre
                 (fst (if (j + 1 <? high)%nat
                       then sort_range_raw_calls pick fuel t2 g2 arrR (j + 1) high (d + mc)
                       else ([], Done (arr2, t2, g2))))).
  { destruct (Nat.ltb_spec (j + 1) high) as [Hlt | _]; [|constructor].
    apply IH; [|lia]. intros _.
    apply (sub_range_pre d mc arr2 (j + 1) high pivot Hd Hmc).
    intros k Hk. rewrite (Hright k Hk).
    destruct (Hside k ltac:(lia) ltac:(lia)) as (x & Hx & Hxok & Htk & _). eauto. }
  destruct (if (j + 1 <? high)%nat
            then sort_range_raw_calls pick fuel t2 g2 arrR (j + 1) high (d + mc)
            else ([], Done (arr2, t2, g2))) as [cr rr].
  cbn [fst] in *. constructor; [exact Hhere|]. apply Forall_app. split; assumption.
Qed.
End CallsRaw.

(** ** Runs that stay inside the buffers

    Where the checked run returns, the run that goes on after stray reads
    returns the same result and takes nothing from the tape. *)

Lemma scan_equal_ge (fuel : nat) (a b : cstring) (off k k' : Z) :
  scan_equal fuel a b off k = Done k' -> k <= k'.
Proof.
  revert k. induction fuel as [|fuel IH]; intros k H; [discriminate|].
  cbn [scan_equal] in H.
  destruct (char_at a (off + k)) as [c1| |]; cbn [mbind outcome_bind] in H; try discriminate.
  destruct (c1 =? 0); [injection H as <-; lia|].
  destruct (char_at b (off + k)) as [c2| |]; cbn [mbind outcome_bind] in H; try discriminate.
  destruct (c2 =? 0); [injection H as <-; lia|].
  destruct (c1 =? c2); [|injection H as <-; lia].
  specialize (IH _ H). lia.
Qed.

Lemma char_at_Done_bound (s : cstring) (off c : Z) :
  char_at s off = Done c -> 0 <= off <= strlen s.
Proof.
  intros H. destruct (Z.lt_ge_cases off 0) as [Hneg | Hpos].
  - unfold char_at in H. destruct (Z.ltb_spec off 0); [discriminate | lia].
  - destruct (Z.le_gt_cases off (strlen s)) as [Hle | Hgt]; [lia|].
    rewrite char_at_fault in H by lia. discriminate.
Qed.

Lemma compare_and_count_raw_Done (g : stray_tape) (a b : StringItem) (depth : Z)
    (r : Z * Z) :
  compare_and_count a b depth = Done r ->
  compare_and_count_raw g a b depth = Done (r, g).
Proof.
  unfold compare_and_count, compare_and_count_raw.
  destruct (negb (cache a =? cache b)); [intros H; injection H as <-; reflexivity|].
  cbv zeta.
  destruct (scan_equal (S (length (ptr a))) (ptr a) (ptr b) (depth + 8) 0) as [k| |] eqn:Ek;
    cbn [mbind outcome_bind]; try discriminate.
  destruct (char_at (ptr a) (depth + 8 + k)) as [c1| |] eqn:E1;
    cbn [mbind outcome_bind]; try discriminate.
  destruct (char_at (ptr b) (depth + 8 + k)) as [c2| |] eqn:E2;
    cbn [mbind outcome_bind]; try discriminate.
  intros H. injection H as <-.
  pose proof (scan_equal_ge _ _ _ _ _ _ Ek) as Hk.
  pose proof (char_at_Done_bound _ _ _ E1) as H1.
  pose proof (char_at_Done_bound _ _ _ E2) as H2.
  destruct (Z.leb_spec (depth + 8) (strlen (ptr a))); [|lia].
  destruct (Z.leb_spec (depth + 8) (strlen (ptr b))); [|lia].
  cbn [andb]. reflexivity.
Qed.

Lemma scan_left_raw_Done (fuel : nat) (g : stray_tape) (arr : list StringItem)
    (pivot : StringItem) (depth : Z) (i j : nat) (mc : Z) (r : nat * Z) :
  scan_left fuel arr pivot depth i j mc = Done r ->
  scan_left_raw fuel g arr pivot depth i j mc = Done (r, g).
Proof.
  revert i mc. induction fuel as [|fuel IH]; intros i mc H; [discriminate|].
  cbn [scan_left scan_left_raw] in *.
  destruct (i <=? j)%nat; [|injection H as <-; reflexivity].
  destruct (array_get arr i) as [x| |]; cbn [mbind outcome_bind] in *; try discriminate.
  destruct (compare_and_count x pivot depth) as [[cmp ml]| |] eqn:E;
    cbn [mbind outcome_bind] in *; try discriminate.
  rewrite (compare_and_count_raw_Done g _ _ _ _ E). cbn [mbind outcome_bind].
  destruct (cmp >=? 0); [injection H as <-; reflexivity | apply IH; exact H].
Qed.

Lemma scan_right_raw_Done (fuel : nat) (g : stray_tape) (arr : list StringItem)
    (pivot : StringItem) (depth : Z) (i j : nat) (mc : Z) (r : nat * Z) :
  scan_right fuel arr pivot depth i j mc = Done r ->
  scan_right_raw fuel g arr pivot depth i j mc = Done (r, g).
Proof.
  revert j mc. induction fuel as [|fuel IH]; intros j mc H; [discriminate|].
  cbn [scan_right scan_right_raw] in *.
  destruct (i <=? j)%nat; [|injection H as <-; reflexivity].
  destruct (array_get arr j) as [x| |]; cbn [mbind outcome_bind] in *; try discriminate.
  destruct (compare_and_count x pivot depth) as [[cmp ml]| |] eqn:E;
    cbn [mbind outcome_bind] in *; try discriminate.
  rewrite (compare_and_count_raw_Done g _ _ _ _ E). cbn [mbind outcome_bind].
  destruct (cmp <=? 0); [injection H as <-; reflexivity | apply IH; exact H].
Qed.

Lemma partition_loop_raw_Done (fuel : nat) (g : stray_tape) (arr : list StringItem)
    (pivot : StringItem) (depth : Z) (i j : nat) (mc : Z) (r : list StringItem * nat * Z) :
  partition_loop fuel arr pivot depth i j mc = Done r ->
  partition_loop_raw fuel g arr pivot depth i j mc = Done (r, g).
Proof.
  revert arr i j mc. induction fuel as [|fuel IH]; intros arr i j mc H; [discriminate|].
  cbn [partition_loop partition_loop_raw] in *.
  destruct (scan_left (S (S j - i)) arr pivot depth i j mc) as [[i1 mc1]| |] eqn:EL;
    cbn [mbind outcome_bind] in *; try discriminate.
  rewrite (scan_left_raw_Done _ g _ _ _ _ _ _ _ EL). cbn [mbind outcome_bind].
  destruct (scan_right (S (S j - i1)) arr pivot depth i1 j mc1) as [[j1 mc2]| |] eqn:ER;
    cbn [mbind outcome_bind] in *; try discriminate.
  rewrite (scan_right_raw_Done _ g _ _ _ _ _ _ _ ER). cbn [mbind outcome_bind].
  destruct (i1 <=? j1)%nat; [|injection H as <-; reflexivity].
  destruct (swap_items arr i1 j1) as [arr2| |]; cbn [mbind outcome_bind] in *;
    try discriminate.
  apply IH. exact H.
Qed.

Section StayInside.
Context {tape : Type}.
Variable pick : tape -> nat -> nat -> nat * tape.

Lemma partition_raw_Done (t : tape) (g : stray_tape) (arr : list StringItem)
    (low high : nat) (depth : Z) (r : list StringItem * nat * Z * tape) :
  partition pick t arr low high depth = Done r ->
  partition_raw pick t g arr low high depth = Done (r, g).
Proof.
  unfold partition, partition_raw. destruct (pick t low high) as [p t'].
  destruct (swap_items arr low p) as [arr1| |]; cbn [mbind outcome_bind]; try discriminate.
  destruct (array_get arr1 low) as [pivot| |]; cbn [mbind outcome_bind]; try discriminate.
  destruct (partition_loop (S (high - low)) arr1 pivot depth (S low) high INT_MAX)
    as [[[arr2 j] mc]| |] eqn:E; cbn [mbind outcome_bind]; try discriminate.
  rewrite (partition_loop_raw_Done _ g _ _ _ _ _ _ _ E). cbn [mbind outcome_bind].
  destruct (swap_items arr2 low j) as [arr3| |]; cbn [mbind outcome_bind]; try discriminate.
  intros H. injection H as <-. reflexivity.
Qed.

Lemma sort_range_raw_Done (fuel : nat) (t : tape) (g : stray_tape) (arr : list StringItem)
    (low high : nat) (depth : Z) (r : list StringItem * tape) :
  sort_range pick fuel t arr low high depth = Done r ->
  sort_range_raw pick fuel t g arr low high depth = Done (r, g).
Proof.
  revert t arr low high depth r.
  induction fuel as [|fuel IH]; intros t arr low high depth r H; [discriminate|].
  cbn [sort_range sort_range_raw] in *.
  destruct (high <=? low)%nat; [injection H as <-; reflexivity|].
  destruct (partition pick t arr low high depth) as [[[[arr1 j] mc] t1]| |] eqn:EP;
    cbn [mbind outcome_bind] in *; try discriminate.
  rewrite (partition_raw_Done _ g _ _ _ _ _ EP). cbn [mbind outcome_bind]. cbv zeta in *.
  destruct (low <? j - 1)%nat.
  - destruct (sort_range pick fuel t1 _ low (j - 1) (depth + mc)) as [[arr2 t2]| |] eqn:EL;
      cbn [mbind outcome_bind] in *; try discriminate.
    rewrite (IH _ _ _ _ _ _ EL). cbn [mbind outcome_bind].
    destruct (j + 1 <? high)%nat; [apply IH; exact H | injection H as <-; reflexivity].
  - cbn [mbind outcome_bind] in *.
    destruct (j + 1 <? high)%nat; [apply IH; exact H | injection H as <-; reflexivity].
Qed.
End StayInside.

Lemma optimized_orasort_raw_Done (malloc_ok : bool) (g : stray_tape) (ss out : list cstring) :
  optimized_orasort malloc_ok ss = Done out ->
  optimized_orasort_raw malloc_ok g ss = Done out.
Proof.
  unfold optimized_orasort, optimized_orasort_raw, orasort_recursive, orasort_recursive_raw.
  destruct (length ss <=? 1)%nat; [trivial|]. destruct (negb malloc_ok); [trivial|].
  destruct (sort_range pick_mid (S (length ss - 1 - 0)) tt (init_items ss) 0 (length ss - 1) 0)
    as [[arr' t']| |] eqn:E; cbn [fmap outcome_fmap mbind outcome_bind]; try discriminate.
  rewrite (sort_range_raw_Done pick_mid _ _ g _ _ _ _ _ E). trivial.
Qed.

Lemma OptimizedOrasort_sort_raw_Done (t : rand_tape) (g : stray_tape) (ss : list cstring)
    (r : list cstring * rand_tape) :
  OptimizedOrasort_sort t ss = Done r ->
  OptimizedOrasort_sort_raw t g ss = Done r.
Proof.
  unfold OptimizedOrasort_sort, OptimizedOrasort_sort_raw, sort_recursive, sort_recursive_raw.
  destruct (length ss =? 0)%nat; [trivial|].
  destruct (sort_range pick_rand _ t (init_items ss) 0 _ 0) as [[arr' t']| |] eqn:E;
    cbn [mbind outcome_bind]; try discriminate.
  rewrite (sort_range_raw_Done pick_rand _ _ g _ _ _ _ _ E). trivial.
Qed.

(** * The demonstration programs *)

(** Bytewise check of a concrete list of strings. *)
Ltac check_strings :=
  unfold nul_free, lengths_fit; apply (bool_decide_unpack _); vm_compute; exact I.

(** [main] of orasort2.c prints the eight strings in order. *)
Example main_orasort2_c :
  optimized_orasort true demo_urls = Done demo_urls_sorted.
Proof. vm_compute. reflexivity. Qed.

(** So does [main] of orasort2.cpp, whatever [rand()] returns. *)
Example main_orasort2_cpp (t : rand_tape) :
  fst <$> OptimizedOrasort_sort t demo_urls = Done demo_urls_sorted.
Proof.
  assert (Hnf : Forall nul_free demo_urls).
  { check_strings. }
  assert (Hnd : NoDup demo_urls).
  { check_strings. }
  destruct (OptimizedOrasort_sort_distinct t demo_urls Hnf Hnd)
    as (out & t' & E & Ho & Hp).
  rewrite E. cbn [fmap outcome_fmap fst]. f_equal.
  pose proof (optimized_orasort_result demo_urls Hnf) as H.
  rewrite main_orasort2_c in H. destruct H as [Ho' Hp'].
  apply ordered_unique; [assumption | assumption |]. rewrite Hp, Hp'. reflexivity.
Qed.

(** The cached sort on the words of the precursor's demonstration. *)
Example cached_sort_words :
  optimized_orasort true demo_words = Done demo_words_sorted.
Proof. vm_compute. reflexivity. Qed.

(** [main] of orasort.c prints the six words in order, whatever [rand()]
    returns. *)
Example main_orasort_c (t : rand_tape) :
  legrand_sort t demo_words = Done demo_words_sorted.
Proof.
  assert (Hnf : Forall nul_free demo_words).
  { check_strings. }
  destruct (variants_agree t demo_words Hnf) as (out & E & Hc & _).
  rewrite E. f_equal. symmetry. apply Hc. exact cached_sort_words.
Qed.

(** So does [main] of orasort.cpp. *)
Example main_orasort_cpp (t : rand_tape) :
  fst <$> LegrandSort_sort t demo_words = Done demo_words_sorted.
Proof.
  assert (Hnf : Forall nul_free demo_words).
  { check_strings. }
  assert (Hfit : lengths_fit demo_words).
  { check_strings. }
  destruct (variants_agree_cpp t demo_words Hnf Hfit) as (out & t' & E & Hc & _).
  rewrite E. cbn [fmap outcome_fmap fst]. rewrite <- (Hc t). apply main_orasort_c.
Qed.

(** * The claims of the specification *)

(** ** Byte window loader *)

(** C4. For NUL-free strings and a depth [d >= 0], [refresh_cache] stores 0
    when [d] is at or past the end of the string and otherwise the
    zero-padded 8-byte slice at [d] packed with the first byte most
    significant; the stored window is a 64-bit value, and comparing two
    windows as unsigned integers is comparing the two padded slices
    lexicographically by unsigned byte value. *)
Theorem refresh_cache_loads_window (s t : cstring) (c1 c2 d : Z) :
  nul_free s -> nul_free t -> 0 <= d ->
  let ws := cache (refresh_cache (mkItem s c1) d) in
  let wt := cache (refresh_cache (mkItem t c2) d) in
  (strlen s <= d -> ws = 0)
  /\ ws = load_be (pad8 (suffix s d))
  /\ 0 <= ws < 2 ^ 64
  /\ (ws ?= wt) = lex_compare (pad8 (suffix s d)) (pad8 (suffix t d)).
Proof.
  intros Hs Ht Hd. cbv zeta.
  rewrite (refresh_cache_window (mkItem s c1) d)
    by (try apply nul_free_bytes_ok; assumption).
  rewrite (refresh_cache_window (mkItem t c2) d)
    by (try apply nul_free_bytes_ok; assumption).
  cbn [ptr]. split_and!.
  - apply load_window_past_end.
  - reflexivity.
  - apply load_window_range, nul_free_bytes_ok, Hs.
  - apply load_window_range, nul_free_bytes_ok, Hs.
  - unfold load_window. apply load_be_compare.
    + apply padn_bytes_ok, nul_free_bytes_ok, nul_free_drop, Hs.
    + apply padn_bytes_ok, nul_free_bytes_ok, nul_free_drop, Ht.
    + unfold pad8. rewrite !padn_length. reflexivity.
Qed.

Lemma refresh_cache_loads_window_witness :
  let ws := cache (refresh_cache (mkItem [97; 98] 0) 1) in
  let wt := cache (refresh_cache (mkItem [97; 98; 99] 0) 1) in
  (strlen [97; 98] <= 1 -> ws = 0)
  /\ ws = load_be (pad8 (suffix [97; 98] 1))
  /\ 0 <= ws < 2 ^ 64
  /\ (ws ?= wt) = lex_compare (pad8 (suffix [97; 98] 1)) (pad8 (suffix [97; 98; 99] 1)).
Proof.
  apply (refresh_cache_loads_window [97; 98] [97; 98; 99] 0 0 1).
  - repeat constructor; lia.
  - repeat constructor; lia.
  - lia.
Defined.

(** ** Comparator *)

(** C5. When the two windows differ, [compare_and_count] (and its C++ twin)
    returns [match_len = clz64 (a.cache XOR b.cache) / 8], a value of 0..7
    that is the number of leading bytes on which the two windows agree, and
    an ordering that is negative exactly when [a.cache < b.cache] and
    positive exactly when [a.cache > b.cache]. *)
Theorem compare_and_count_fast_path (a b : StringItem) (depth : Z) :
  0 <= cache a < 2 ^ 64 -> 0 <= cache b < 2 ^ 64 -> cache a <> cache b ->
  exists cmp match_len,
    compare_and_count a b depth = Done (cmp, match_len)
    /\ compare_and_count_cpp a b depth = Done (cmp, match_len)
    /\ match_len = clz64 (Z.lxor (cache a) (cache b)) / 8
    /\ 0 <= match_len <= 7
    /\ match_len = Z.of_nat (lcp (window_bytes (cache a)) (window_bytes (cache b)))
    /\ (cmp < 0 <-> cache a < cache b)
    /\ (cmp > 0 <-> cache b < cache a).
Proof.
  intros Ha Hb Hne.
  destruct (lcp_window_bytes (cache a) (cache b) Ha Hb Hne) as [Hl Hr].
  exists (if cache a <? cache b then -1 else 1), (clz64 (Z.lxor (cache a) (cache b)) / 8).
  assert (E : compare_and_count a b depth
    = Done (if cache a <? cache b then -1 else 1, clz64 (Z.lxor (cache a) (cache b)) / 8)).
  { unfold compare_and_count. destruct (Z.eqb_spec (cache a) (cache b)); [contradiction|].
    reflexivity. }
  repeat apply conj;
    first [ exact E
          | rewrite compare_and_count_cpp_eq; exact E
          | reflexivity
          | symmetry; exact Hl
          | destruct (Z.ltb_spec (cache a) (cache b)); lia ].
Qed.

Lemma compare_and_count_fast_path_witness :
  exists cmp match_len,
    compare_and_count (mkItem [97; 98] 0x6162000000000000)
                      (mkItem [97; 99] 0x6163000000000000) 0 = Done (cmp, match_len)
    /\ compare_and_count_cpp (mkItem [97; 98] 0x6162000000000000)
                             (mkItem [97; 99] 0x6163000000000000) 0 = Done (cmp, match_len)
    /\ match_len = clz64 (Z.lxor 0x6162000000000000 0x6163000000000000) / 8
    /\ 0 <= match_len <= 7
    /\ match_len = Z.of_nat (lcp (window_bytes 0x6162000000000000)
                                 (window_bytes 0x6163000000000000))
    /\ (cmp < 0 <-> 0x6162000000000000 < 0x6163000000000000)
    /\ (cmp > 0 <-> 0x6163000000000000 < 0x6162000000000000).
Proof.
  apply (compare_and_count_fast_path (mkItem [97; 98] 0x6162000000000000)
           (mkItem [97; 99] 0x6163000000000000) 0); cbn [cache]; lia.
Defined.

(** The comparator faults exactly on equal windows of strings that end
    before [depth + 8]. *)
Lemma compare_and_count_fault_iff (a b : StringItem) (depth : Z) :
  0 <= depth -> item_ok depth a -> item_ok depth b ->
  (compare_and_count a b depth = Fault
   <-> cache a = cache b /\ strlen (ptr a) < depth + 8).
Proof.
  intros Hd Ha Hb. split.
  - intros E. pose proof (compare_and_count_post a b depth Hd Ha Hb) as H.
    rewrite E in H. cbn in H. tauto.
  - intros [Heq Hshort]. unfold compare_and_count. rewrite Heq, Z.eqb_refl. cbn [negb].
    cbn [scan_equal]. rewrite (char_at_fault (ptr a)) by lia. reflexivity.
Qed.

(** On equal windows of strings that reach [depth + 8] the slow path stays
    inside both buffers and returns. *)
Lemma compare_and_count_long (a b : StringItem) (depth : Z) :
  0 <= depth -> item_ok depth a -> item_ok depth b ->
  depth + 8 <= strlen (ptr a) ->
  exists cmp match_len, compare_and_count a b depth = Done (cmp, match_len).
Proof.
  intros Hd Ha Hb Hlong. pose proof (compare_and_count_post a b depth Hd Ha Hb) as H.
  destruct (compare_and_count a b depth) as [[cmp ml]| |]; cbn in H.
  - eauto.
  - lia.
  - contradiction.
Qed.

(** C6 (fails on the code). Two items for the string "ab" at depth 0 have
    equal windows; the slow path starts reading at offset 8, past the
    terminator at offset 2, and the comparison faults. *)
Theorem slow_path_reads_past_terminator :
  let a := refresh_cache (mkItem [97; 98] 0) 0 in
  let b := refresh_cache (mkItem [97; 98] 0) 0 in
  nul_free (ptr a) /\ item_ok 0 a /\ item_ok 0 b /\ cache a = cache b
  /\ strlen (ptr a) = 2
  /\ char_at (ptr a) (0 + 8 + 0) = Fault
  /\ compare_and_count a b 0 = Fault
  /\ compare_and_count_cpp a b 0 = Fault.
Proof.
  assert (Hnf : nul_free [97; 98]) by (repeat constructor; lia).
  cbv zeta. split_and!; try reflexivity.
  - exact Hnf.
  - split; [exact Hnf | reflexivity].
  - split; [exact Hnf | reflexivity].
Qed.

(** ** Stepping through a run *)

Lemma sort_range_S {tape : Type} (pick : tape -> nat -> nat -> nat * tape) (fuel : nat)
    (t : tape) (arr : list StringItem) (low high : nat) (depth : Z) :
  sort_range pick (S fuel) t arr low high depth =
    if (high <=? low)%nat then Done (arr, t) else
    '(arr, j, min_common, t) ← partition pick t arr low high depth;
    let new_depth := depth + min_common in
    '(arr, t) ←
      (if (low <? j - 1)%nat then
         let arr := if new_depth >? depth
                    then refresh_range arr low (j - 1) new_depth else arr in
         sort_range pick fuel t arr low (j - 1)%nat new_depth
       else Done (arr, t));
    if (j + 1 <? high)%nat then
      let arr := if new_depth >? depth
                 then refresh_range arr (j + 1) high new_depth else arr in
      sort_range pick fuel t arr (j + 1)%nat high new_depth
    else Done (arr, t).
Proof. reflexivity. Qed.

(** ** Partition *)

(** Whenever a partition call returns, the value it reports is the minimum
    match length over the comparisons it made, every item of the two
    sub-ranges was compared against the pivot, and the reported value bounds
    from below the bytes each of them shares with the pivot beyond [d]. *)
Lemma partition_lower_bound {tape : Type} (pick : tape -> nat -> nat -> nat * tape)
    (t : tape) (arr : list StringItem) (low high : nat) (d : Z)
    (arr' : list StringItem) (j : nat) (shared_prefix : Z) (t' : tape) (log : comparisons) :
  (forall t low high, (low <= high)%nat -> (low <= fst (pick t low high) <= high)%nat) ->
  0 <= d -> (low < high)%nat -> range_ok d arr low high ->
  partition_tr pick t arr low high d = Done (arr', j, shared_prefix, t', log) ->
  partition pick t arr low high d = Done (arr', j, shared_prefix, t')
  /\ shared_prefix = min_match_len log
  /\ exists pivot, arr' !! j = Some pivot
     /\ forall k x, (low <= k <= high)%nat -> k <> j -> arr' !! k = Some x ->
          (x, shared d pivot x) ∈ log /\ shared_prefix <= shared d pivot x.
Proof.
  intros Hpick Hd Hlh Hok Htr.
  pose proof (partition_tr_spec pick Hpick t arr low high d Hd Hlh Hok) as HP.
  rewrite Htr in HP. split; [|split].
  - rewrite <- partition_erase, Htr. reflexivity.
  - destruct HP as (_ & _ & pivot & _ & _ & _ & _ & _ & Hmc). exact Hmc.
  - destruct HP as (_ & _ & pivot & Hpiv & _ & _ & Hcmp & Hlog & Hmc).
    exists pivot. split; [exact Hpiv|]. intros k x Hk Hkj Hx.
    pose proof (Hcmp k x Hk Hkj Hx) as Hin. split; [exact Hin|].
    assert (Hnonneg : forall e, e ∈ log -> 0 <= e.2).
    { intros e He. destruct (Hlog e He) as [_ ->]. unfold shared. lia. }
    destruct (min_match_len_bound log Hnonneg) as [_ Hle].
    rewrite Hmc. apply (Hle (x, shared d pivot x) Hin).
Qed.

(** C3 (fails on the code). The partition call on the items of "ab", "ab"
    at depth 0 meets the hypotheses of the claim, yet its one comparison
    takes the slow path on two strings of 2 bytes and reads at offset 8: no
    lower bound is computed, the call faults, for either pivot rule. *)
Theorem partition_faults_on_equal_strings :
  let arr := init_items [[97; 98]; [97; 98]] in
  range_ok 0 arr 0 1
  /\ partition pick_mid tt arr 0 1 0 = Fault
  /\ forall t, partition pick_rand t arr 0 1 0 = Fault.
Proof.
  cbv zeta. split; [|split].
  - apply (init_items_pre [[97; 98]; [97; 98]]); [repeat constructor; lia | cbn; lia].
  - reflexivity.
  - intros t. unfold partition, pick_rand, rand. cbn [Nat.sub Nat.add].
    destruct (Nat.mod_bound_pos (t 0%nat) 2 ltac:(lia) ltac:(lia)) as [_ Hlt].
    destruct (t 0%nat mod 2)%nat as [|[|n]]; [reflexivity | reflexivity | lia].
Qed.

(** The same call in the run that goes on after the stray read: it reports
    what the stray scan gives, 8 + 3 here, for two strings that share 2
    bytes. *)
Example partition_raw_on_equal_strings :
  (fun r => (r.1.1.1.2, r.1.1.2))
    <$> partition_raw pick_mid tt (fun _ => (3%nat, 0, 0))
          (init_items [[97; 98]; [97; 98]]) 0 1 0
  = Done (0%nat, 11)
  /\ shared 0 (mkItem [97; 98] 0) (mkItem [97; 98] 0) = 2.
Proof. vm_compute. split; reflexivity. Qed.

(** ** Recursive driver *)



(** The calls of the run of the C driver on "abd", "abf", "abc", "abe": the
    whole range at depth 0, then the three items left of the pivot at depth
    2, the bytes "ab" being shared by all. *)
Example calls_of_a_run :
  map (fun c : call => (c.1.1.2, c.1.2, c.2))
      (fst (sort_range_calls pick_mid 4 tt
              (init_items [[97; 98; 100]; [97; 98; 102]; [97; 98; 99]; [97; 98; 101]])
              0 3 0))
  = [(0%nat, 3%nat, 0); (0%nat, 2%nat, 2)].
Proof. vm_compute. reflexivity. Qed.

(** ** Top-level driver *)

(** The scenario "", "a", "" of the specification.  The checked run stops
    at the stray read of the comparison of the two empty strings; the run
    that goes on returns the same output whether the stray scan reports
    equal bytes, a greater one or a smaller one. *)
Example stray_reads_on_spec_scenario :
  optimized_orasort true [[]; [97]; []] = Fault
  /\ optimized_orasort_raw true (fun _ => (0%nat, 0, 0)) [[]; [97]; []]
     = Done [[]; []; [97]]
  /\ optimized_orasort_raw true (fun _ => (3%nat, 200, 7)) [[]; [97]; []]
     = Done [[]; []; [97]]
  /\ optimized_orasort_raw true (fun _ => (3%nat, 7, 200)) [[]; [97]; []]
     = Done [[]; []; [97]].
Proof. vm_compute. repeat split. Qed.

(** C1. On every sequence of NUL-free strings the cached sort returns, and
    every adjacent pair of its output is in lexicographic order of the byte
    values: [optimized_orasort] (with a successful allocation) and
    [OptimizedOrasort::sort] for every sequence of [rand()] values, in the
    runs that go on after the stray reads of the comparator, whatever bytes
    those reads find. *)
Theorem sorted_output_is_ordered (ss : list cstring) :
  Forall nul_free ss ->
  (forall g, exists out, optimized_orasort_raw true g ss = Done out /\ ordered out)
  /\ (forall t g, exists out t',
        OptimizedOrasort_sort_raw t g ss = Done (out, t') /\ ordered out).
Proof.
  intros Hnf. split.
  - intros g. destruct (optimized_orasort_raw_result g ss Hnf) as (out & E & Ho & _). eauto.
  - intros t g.
    destruct (OptimizedOrasort_sort_raw_result t g ss Hnf) as (out & t' & E & Ho & _). eauto.
Qed.

Lemma sorted_output_is_ordered_witness :
  (forall g, exists out,
      optimized_orasort_raw true g [[]; [97]; []] = Done out /\ ordered out)
  /\ (forall t g, exists out t',
        OptimizedOrasort_sort_raw t g [[]; [97]; []] = Done (out, t') /\ ordered out).
Proof.
  apply (sorted_output_is_ordered [[]; [97]; []]). repeat constructor; lia.
Defined.

(** C2. On every sequence of NUL-free strings the output of the cached sort
    is a rearrangement of the input: the same strings with the same
    multiplicities, each with its bytes as they were; for
    [optimized_orasort] (with a successful allocation) and
    [OptimizedOrasort::sort], whatever bytes the stray reads of the
    comparator find. *)
Theorem sorted_output_is_permutation (ss : list cstring) :
  Forall nul_free ss ->
  (forall g, exists out, optimized_orasort_raw true g ss = Done out /\ out ≡ₚ ss)
  /\ (forall t g, exists out t',
        OptimizedOrasort_sort_raw t g ss = Done (out, t') /\ out ≡ₚ ss).
Proof.
  intros Hnf. split.
  - intros g. destruct (optimized_orasort_raw_result g ss Hnf) as (out & E & _ & Hp). eauto.
  - intros t g.
    destruct (OptimizedOrasort_sort_raw_result t g ss Hnf) as (out & t' & E & _ & Hp). eauto.
Qed.

Lemma sorted_output_is_permutation_witness :
  (forall g, exists out,
      optimized_orasort_raw true g [[]; [97]; []] = Done out /\ out ≡ₚ [[]; [97]; []])
  /\ (forall t g, exists out t',
        OptimizedOrasort_sort_raw t g [[]; [97]; []] = Done (out, t')
        /\ out ≡ₚ [[]; [97]; []]).
Proof.
  apply (sorted_output_is_permutation [[]; [97]; []]). repeat constructor; lia.
Defined.

(** ** Pivot selection *)

(** C8 (as stated, false for the C variant): [orasort_recursive] takes the
    middle index, whatever the state of any random source; on the range
    [0..2] it is index 1 every time, so index 0 of the range is never the
    pivot. *)
Lemma pick_mid_is_not_random :
  (0 <= 0 <= 2)%nat /\ forall t, fst (pick_mid t 0 2) <> 0%nat.
Proof. split; [lia|]. intros t. cbn. discriminate. Qed.

(** C8 (amended). The C++ variant draws the pivot index as
    [low + rand() % (high - low + 1)], which lies in [low..high] and reaches
    every index of the range; the C variant takes the fixed middle index
    [low + (high - low) / 2] and consumes nothing from a random source. *)
Theorem pivot_rules :
  (forall t low high,
      fst (pick_rand t low high) = (low + t 0%nat mod (high - low + 1))%nat)
  /\ (forall t low n, (low <= fst (pick_rand t low (low + n)) <= low + n)%nat)
  /\ random_over_range pick_rand
  /\ (forall t low high, pick_mid t low high = ((low + (high - low) / 2)%nat, t))
  /\ (forall t low n, (low <= fst (pick_mid t low (low + n)) <= low + n)%nat).
Proof.
  split_and!.
  - reflexivity.
  - intros t low n. apply pick_rand_in_range. lia.
  - intros low high p Hp. exists (fun _ => (p - low)%nat).
    unfold pick_rand, rand. cbn [fst].
    rewrite Nat.mod_small by lia. lia.
  - reflexivity.
  - intros t low n. apply pick_mid_in_range. lia.
Qed.

(** ** Allocation failure *)

(** C9 (as stated, false): with a failed [malloc] the call returns normally
    and leaves an unsorted input as it was; on an input already in order the
    caller sees exactly what a successful call gives. *)
Lemma failed_allocation_is_silent :
  optimized_orasort false [[98]; [97]] = Done [[98]; [97]]
  /\ optimized_orasort false [[97]; [98]] = optimized_orasort true [[97]; [98]].
Proof. split; reflexivity. Qed.

(** C9 (amended). When the allocation of the item array fails,
    [optimized_orasort] returns normally without any failure indication and
    leaves the caller's sequence unmodified. *)
Theorem failed_allocation_leaves_input (ss : list cstring) :
  optimized_orasort false ss = Done ss.
Proof.
  unfold optimized_orasort. destruct (length ss <=? 1)%nat; reflexivity.
Qed.

(** ** The precursor *)

(** C10. On every sequence of NUL-free strings the precursor and the cached
    variant return the same sequence: there is one output that
    [legrand_sort] returns for every sequence of [rand()] values,
    [optimized_orasort] (with a successful allocation) returns whatever bytes
    its stray reads find, and [LegrandSort::sort] (on strings whose lengths
    fit [size_t]) and [OptimizedOrasort::sort] return as well. *)
Theorem precursor_and_cached_agree (ss : list cstring) :
  Forall nul_free ss ->
  exists out,
    (forall t, legrand_sort t ss = Done out)
    /\ (forall g, optimized_orasort_raw true g ss = Done out)
    /\ (lengths_fit ss -> forall t, exists t', LegrandSort_sort t ss = Done (out, t'))
    /\ (forall t g, exists t', OptimizedOrasort_sort_raw t g ss = Done (out, t')).
Proof.
  intros Hnf.
  destruct (legrand_sort_result (fun _ => 0%nat) ss Hnf) as (out & _ & Hord & Hperm).
  assert (Huniq : forall out', ordered out' -> out' ≡ₚ ss -> out' = out).
  { intros out' Ho Hp. apply ordered_unique; [assumption | assumption |].
    rewrite Hp, Hperm. reflexivity. }
  exists out. split_and!.
  - intros t. destruct (legrand_sort_result t ss Hnf) as (out' & E & Ho & Hp).
    rewrite E, (Huniq out' Ho Hp). reflexivity.
  - intros g. destruct (optimized_orasort_raw_result g ss Hnf) as (out' & E & Ho & Hp).
    rewrite E, (Huniq out' Ho Hp). reflexivity.
  - intros Hfit t.
    destruct (LegrandSort_sort_result t ss Hnf Hfit) as (out' & t' & E & Ho & Hp).
    exists t'. rewrite E, (Huniq out' Ho Hp). reflexivity.
  - intros t g.
    destruct (OptimizedOrasort_sort_raw_result t g ss Hnf) as (out' & t' & E & Ho & Hp).
    exists t'. rewrite E, (Huniq out' Ho Hp). reflexivity.
Qed.

Lemma precursor_and_cached_agree_witness :
  exists out,
    (forall t, legrand_sort t [[98]; []; [98]; []] = Done out)
    /\ (forall g, optimized_orasort_raw true g [[98]; []; [98]; []] = Done out)
    /\ (lengths_fit [[98]; []; [98]; []] ->
        forall t, exists t', LegrandSort_sort t [[98]; []; [98]; []] = Done (out, t'))
    /\ (forall t g, exists t',
          OptimizedOrasort_sort_raw t g [[98]; []; [98]; []] = Done (out, t')).
Proof.
  apply (precursor_and_cached_agree [[98]; []; [98]; []]). repeat constructor; lia.
Defined.

(** * Further properties of the code *)

(** ** Platform helpers *)

Lemma byte_of_load_le (buf : list Z) (j : nat) :
  bytes_ok buf -> byte_of (load_le buf) (Z.of_nat j) = default 0 (buf !! j).
Proof.
  intros H. revert j. induction H as [|c rest Hc Hrest IH]; intros j.
  - cbn. unfold byte_of. rewrite Z.div_0_l, Z.mod_0_l; [reflexivity | lia |].
    apply Z.pow_nonzero; lia.
  - cbn [load_le]. destruct j as [|j].
    + apply byte_of_0. exact Hc.
    + rewrite byte_of_S by lia. replace (Z.of_nat (S j) - 1) with (Z.of_nat j) by lia.
      apply IH.
Qed.

Lemma load_le_bytes (x : Z) :
  0 <= x < 2 ^ 64 ->
  x = load_le [byte_of x 0; byte_of x 1; byte_of x 2; byte_of x 3;
               byte_of x 4; byte_of x 5; byte_of x 6; byte_of x 7].
Proof.
  intros Hx. unfold byte_of, load_le.
  change (8 * 0) with 0. change (8 * 1) with 8. change (8 * 2) with 16.
  change (8 * 3) with 24. change (8 * 4) with 32. change (8 * 5) with 40.
  change (8 * 6) with 48. change (8 * 7) with 56.
  set (q1 := x / 256). set (q2 := q1 / 256). set (q3 := q2 / 256). set (q4 := q3 / 256).
  set (q5 := q4 / 256). set (q6 := q5 / 256). set (q7 := q6 / 256).
  assert (E0 : x / 2 ^ 0 = x) by apply Z.div_1_r.
  assert (E1 : x / 2 ^ 8 = q1) by reflexivity.
  assert (E2 : x / 2 ^ 16 = q2) by (unfold q2, q1; rewrite !Z.div_div by lia; reflexivity).
  assert (E3 : x / 2 ^ 24 = q3)
    by (unfold q3, q2, q1; rewrite !Z.div_div by lia; reflexivity).
  assert (E4 : x / 2 ^ 32 = q4)
    by (unfold q4, q3, q2, q1; rewrite !Z.div_div by lia; reflexivity).
  assert (E5 : x / 2 ^ 40 = q5)
    by (unfold q5, q4, q3, q2, q1; rewrite !Z.div_div by lia; reflexivity).
  assert (E6 : x / 2 ^ 48 = q6)
    by (unfold q6, q5, q4, q3, q2, q1; rewrite !Z.div_div by lia; reflexivity).
  assert (E7 : x / 2 ^ 56 = q7)
    by (unfold q7, q6, q5, q4, q3, q2, q1; rewrite !Z.div_div by lia; reflexivity).
  assert (E8 : q7 / 256 = 0).
  { unfold q7, q6, q5, q4, q3, q2, q1. rewrite !Z.div_div by lia.
    apply Z.div_small. lia. }
  rewrite E0, E1, E2, E3, E4, E5, E6, E7.
  pose proof (Z.div_mod x 256 ltac:(lia)) as D0.
  pose proof (Z.div_mod q1 256 ltac:(lia)) as D1.
  pose proof (Z.div_mod q2 256 ltac:(lia)) as D2.
  pose proof (Z.div_mod q3 256 ltac:(lia)) as D3.
  pose proof (Z.div_mod q4 256 ltac:(lia)) as D4.
  pose proof (Z.div_mod q5 256 ltac:(lia)) as D5.
  pose proof (Z.div_mod q6 256 ltac:(lia)) as D6.
  pose proof (Z.div_mod q7 256 ltac:(lia)) as D7.
  fold q1 in D0. fold q2 in D1. fold q3 in D2. fold q4 in D3. fold q5 in D4.
  fold q6 in D5. fold q7 in D6.
  lia.
Qed.

Lemma bswap64_as_load_le (x : Z) :
  0 <= x < 2 ^ 64 ->
  bswap64 x = load_le [byte_of x 7; byte_of x 6; byte_of x 5; byte_of x 4;
                       byte_of x 3; byte_of x 2; byte_of x 1; byte_of x 0].
Proof.
  intros Hx.
  transitivity (bswap64 (load_le [byte_of x 0; byte_of x 1; byte_of x 2; byte_of x 3;
                                  byte_of x 4; byte_of x 5; byte_of x 6; byte_of x 7])).
  { f_equal. apply load_le_bytes, Hx. }
  rewrite bswap64_load_le by apply byte_of_range.
  unfold load_be, load_le. cbn [length Z.of_nat Pos.of_succ_nat Pos.succ].
  lia.
Qed.

(** X1. On a 64-bit value the portable [bswap64] reverses the order of the
    eight bytes: byte [j] of the result is byte [7 - j] of the argument, the
    result is again a 64-bit value, and swapping twice gives the argument
    back. *)
Theorem bswap64_reverses_bytes (x : Z) :
  0 <= x < 2 ^ 64 ->
  0 <= bswap64 x < 2 ^ 64
  /\ (forall j, (j < 8)%nat ->
        byte_of (bswap64 x) (Z.of_nat j) = byte_of x (7 - Z.of_nat j))
  /\ bswap64 (bswap64 x) = x.
Proof.
  intros Hx. pose proof (bswap64_as_load_le x Hx) as E.
  assert (Hbytes : forall j, (j < 8)%nat ->
            byte_of (bswap64 x) (Z.of_nat j) = byte_of x (7 - Z.of_nat j)).
  { intros j Hj. rewrite E. rewrite byte_of_load_le.
    - do 8 (destruct j as [|j]; [reflexivity|]). lia.
    - repeat constructor; apply byte_of_range. }
  assert (Hrange : 0 <= bswap64 x < 2 ^ 64).
  { rewrite E. unfold load_le.
    pose proof (byte_of_range x 0). pose proof (byte_of_range x 1).
    pose proof (byte_of_range x 2). pose proof (byte_of_range x 3).
    pose proof (byte_of_range x 4). pose proof (byte_of_range x 5).
    pose proof (byte_of_range x 6). pose proof (byte_of_range x 7). lia. }
  split; [exact Hrange|]. split; [exact Hbytes|].
  rewrite (bswap64_as_load_le (bswap64 x) Hrange).
  assert (Hb : forall j, 0 <= j <= 7 -> byte_of (bswap64 x) j = byte_of x (7 - j)).
  { intros j Hj. replace j with (Z.of_nat (Z.to_nat j)) by lia. apply Hbytes. lia. }
  rewrite !Hb by lia. symmetry. apply load_le_bytes, Hx.
Qed.

Lemma bswap64_reverses_bytes_witness :
  0 <= bswap64 0x0102030405060708 < 2 ^ 64
  /\ (forall j, (j < 8)%nat ->
        byte_of (bswap64 0x0102030405060708) (Z.of_nat j)
        = byte_of 0x0102030405060708 (7 - Z.of_nat j))
  /\ bswap64 (bswap64 0x0102030405060708) = 0x0102030405060708.
Proof. apply (bswap64_reverses_bytes 0x0102030405060708). lia. Defined.

(** X2. The portable [clz64] returns 64 on zero; on a nonzero 64-bit value
    it returns a count of 0..63 such that the bit at position
    [63 - clz64 x] is set and every bit above it is clear. *)
Theorem clz64_counts_leading_zeros (x : Z) :
  0 <= x < 2 ^ 64 ->
  (x = 0 -> clz64 x = 64)
  /\ (0 < x ->
      0 <= clz64 x <= 63
      /\ Z.testbit x (63 - clz64 x) = true
      /\ forall i, 63 - clz64 x < i -> Z.testbit x i = false).
Proof.
  intros Hx. split.
  - intros ->. reflexivity.
  - intros Hpos. pose proof (clz64_bounds x ltac:(lia)) as [Hc _].
    pose proof (clz64_log2 x ltac:(lia)) as E.
    split; [exact Hc|].
    replace (63 - clz64 x) with (Z.log2 x) by lia. split.
    + apply Z.bit_log2. exact Hpos.
    + intros i Hi. apply Z.bits_above_log2; lia.
Qed.

Lemma clz64_counts_leading_zeros_witness :
  (0x0000010000000000 = 0 -> clz64 0x0000010000000000 = 64)
  /\ (0 < 0x0000010000000000 ->
      0 <= clz64 0x0000010000000000 <= 63
      /\ Z.testbit 0x0000010000000000 (63 - clz64 0x0000010000000000) = true
      /\ forall i, 63 - clz64 0x0000010000000000 < i ->
           Z.testbit 0x0000010000000000 i = false).
Proof. apply (clz64_counts_leading_zeros 0x0000010000000000). lia. Defined.

(** ** Windows and the comparator *)

(** X3. Two NUL-free strings whose windows at depth [d] are equal agree on
    the eight bytes from [d] on; if one of them ends inside the window
    (before [d + 8]), they are equal from [d] on. *)
Theorem equal_windows_equal_slices (s t : cstring) (c1 c2 d : Z) :
  nul_free s -> nul_free t -> 0 <= d ->
  cache (refresh_cache (mkItem s c1) d) = cache (refresh_cache (mkItem t c2) d) ->
  take 8 (suffix s d) = take 8 (suffix t d)
  /\ (strlen s < d + 8 -> suffix s d = suffix t d).
Proof.
  intros Hs Ht Hd E.
  rewrite !refresh_cache_window in E by (try apply nul_free_bytes_ok; assumption).
  cbn [ptr] in E. apply window_eq_pad8 in E; [|assumption..].
  pose proof (nul_free_drop s (Z.to_nat d) Hs) as Hds.
  pose proof (nul_free_drop t (Z.to_nat d) Ht) as Hdt.
  fold (suffix s d) in Hds. fold (suffix t d) in Hdt. split.
  - apply padn_eq_take; assumption.
  - intros Hshort. apply (padn_eq_short 8); try assumption.
    unfold suffix. rewrite length_drop. unfold strlen in Hshort. lia.
Qed.

Lemma equal_windows_equal_slices_witness :
  take 8 (suffix [120; 97; 98] 1) = take 8 (suffix [121; 97; 98] 1)
  /\ (strlen [120; 97; 98] < 1 + 8 -> suffix [120; 97; 98] 1 = suffix [121; 97; 98] 1).
Proof.
  apply (equal_windows_equal_slices [120; 97; 98] [121; 97; 98] 0 5 1).
  - repeat constructor; lia.
  - repeat constructor; lia.
  - lia.
  - reflexivity.
Defined.



(** X5. On two items whose windows reflect their NUL-free strings at
    [depth], the comparator reads outside a string buffer exactly when the
    windows are equal and the first string ends before [depth + 8]; the two
    strings are then equal from [depth] on.  In every other case it returns
    a result. *)
Theorem compare_and_count_bounds (a b : StringItem) (depth : Z) :
  0 <= depth -> item_ok depth a -> item_ok depth b ->
  (compare_and_count a b depth = Fault
   <-> cache a = cache b /\ strlen (ptr a) < depth + 8)
  /\ (compare_and_count a b depth = Fault ->
      suffix (ptr a) depth = suffix (ptr b) depth)
  /\ (cache a <> cache b \/ depth + 8 <= strlen (ptr a) ->
      exists cmp match_len, compare_and_count a b depth = Done (cmp, match_len)).
Proof.
  intros Hd Ha Hb. pose proof (compare_and_count_post a b depth Hd Ha Hb) as H.
  pose proof (compare_and_count_fault_iff a b depth Hd Ha Hb) as Hiff.
  split; [exact Hiff|]. split.
  - intros E. rewrite E in H. cbn in H. tauto.
  - intros Hcase. destruct (compare_and_count a b depth) as [[cmp ml]| |] eqn:E.
    + eauto.
    + exfalso. destruct Hiff as [Hf _]. specialize (Hf eq_refl). lia.
    + contradiction.
Qed.

Lemma compare_and_count_bounds_witness :
  (compare_and_count (mkItem [97; 98] 0x6162000000000000)
                     (mkItem [97; 98] 0x6162000000000000) 0 = Fault
   <-> 0x6162000000000000 = 0x6162000000000000 /\ strlen [97; 98] < 0 + 8)
  /\ (compare_and_count (mkItem [97; 98] 0x6162000000000000)
                        (mkItem [97; 98] 0x6162000000000000) 0 = Fault ->
      suffix [97; 98] 0 = suffix [97; 98] 0)
  /\ (0x6162000000000000 <> 0x6162000000000000 \/ 0 + 8 <= strlen [97; 98] ->
      exists cmp match_len,
        compare_and_count (mkItem [97; 98] 0x6162000000000000)
                          (mkItem [97; 98] 0x6162000000000000) 0 = Done (cmp, match_len)).
Proof.
  apply (compare_and_count_bounds (mkItem [97; 98] 0x6162000000000000)
           (mkItem [97; 98] 0x6162000000000000) 0).
  - lia.
  - split; [repeat constructor; lia | reflexivity].
  - split; [repeat constructor; lia | reflexivity].
Defined.

(** ** Exchanges and the partition *)

(** X6. [swap_items] on two positions of the array exchanges the two items
    and leaves every other position as it was: the result is a
    rearrangement of the array, and exchanging the same two positions again
    restores it. *)
Theorem swap_items_exchanges (arr : list StringItem) (i j : nat) :
  (i < length arr)%nat -> (j < length arr)%nat ->
  exists arr',
    swap_items arr i j = Done arr'
    /\ length arr' = length arr
    /\ arr' !! i = arr !! j /\ arr' !! j = arr !! i
    /\ (forall k, k <> i -> k <> j -> arr' !! k = arr !! k)
    /\ arr' ≡ₚ arr
    /\ swap_items arr' i j = Done arr.
Proof.
  intros Hi Hj.
  destruct (lookup_lt_is_Some_2 arr i Hi) as [a Ha].
  destruct (lookup_lt_is_Some_2 arr j Hj) as [b Hb].
  exists (<[j := a]> (<[i := b]> arr)).
  assert (Hlk : forall k, <[j := a]> (<[i := b]> arr) !! k
                  = if decide (k = j) then Some a
                    else if decide (k = i) then Some b else arr !! k)
    by (intros k; apply swap_lookup; assumption).
  split_and!.
  - apply swap_items_Done; assumption.
  - rewrite !length_insert. reflexivity.
  - rewrite Hlk, Hb. destruct (decide (i = j)) as [-> | ?]; [congruence|].
    rewrite decide_True by reflexivity. reflexivity.
  - rewrite Hlk, Ha, decide_True by reflexivity. reflexivity.
  - intros k Hki Hkj. rewrite Hlk, decide_False, decide_False by assumption. reflexivity.
  - destruct (moved_swap 0 (length arr) arr i j a b) as (_ & _ & _ & HP);
      [lia | lia | assumption | assumption | exact HP].
  - assert (Hi' : <[j := a]> (<[i := b]> arr) !! i = Some (if decide (i = j) then a else b)).
    { rewrite Hlk. destruct (decide (i = j)); [reflexivity|].
      rewrite decide_True by reflexivity. reflexivity. }
    assert (Hj' : <[j := a]> (<[i := b]> arr) !! j = Some a)
      by (rewrite Hlk, decide_True by reflexivity; reflexivity).
    rewrite (swap_items_Done _ i j _ _ Hi' Hj'). f_equal.
    apply list_eq. intros k. rewrite (swap_lookup _ i j k _ _ Hi' Hj'), Hlk.
    destruct (decide (k = j)) as [-> | ?].
    + destruct (decide (i = j)) as [-> | ?]; congruence.
    + destruct (decide (k = i)) as [-> | ?]; congruence.
Qed.

Lemma swap_items_exchanges_witness :
  exists arr',
    swap_items [mkItem [97] 1; mkItem [98] 2; mkItem [99] 3] 0 2 = Done arr'
    /\ length arr' = length [mkItem [97] 1; mkItem [98] 2; mkItem [99] 3]
    /\ arr' !! 0%nat = [mkItem [97] 1; mkItem [98] 2; mkItem [99] 3] !! 2%nat
    /\ arr' !! 2%nat = [mkItem [97] 1; mkItem [98] 2; mkItem [99] 3] !! 0%nat
    /\ (forall k, k <> 0%nat -> k <> 2%nat ->
          arr' !! k = [mkItem [97] 1; mkItem [98] 2; mkItem [99] 3] !! k)
    /\ arr' ≡ₚ [mkItem [97] 1; mkItem [98] 2; mkItem [99] 3]
    /\ swap_items arr' 0 2 = Done [mkItem [97] 1; mkItem [98] 2; mkItem [99] 3].
Proof.
  apply (swap_items_exchanges [mkItem [97] 1; mkItem [98] 2; mkItem [99] 3] 0 2);
    cbn [length]; lia.
Defined.



(** X8. A partition call on a range of two or more items with valid windows
    never exhausts its loop budget, and it reads outside a string buffer
    only if two different positions of the range hold strings that are
    equal from [depth] on and end before [depth + 8]. *)
Theorem partition_fault_cause {tape : Type} (pick : tape -> nat -> nat -> nat * tape)
    (t : tape) (arr : list StringItem) (low high : nat) (depth : Z) :
  (forall t low high, (low <= high)%nat -> (low <= fst (pick t low high) <= high)%nat) ->
  0 <= depth -> (low < high)%nat -> range_ok depth arr low high ->
  partition pick t arr low high depth <> OutOfFuel
  /\ (partition pick t arr low high depth = Fault ->
      exists kp kx pv x,
        (low <= kp <= high)%nat /\ (low <= kx <= high)%nat /\ kp <> kx
        /\ arr !! kp = Some pv /\ arr !! kx = Some x
        /\ suffix (ptr x) depth = suffix (ptr pv) depth
        /\ strlen (ptr x) < depth + 8).
Proof.
  intros Hpick Hd Hlh Hok.
  pose proof (partition_tr_spec pick Hpick t arr low high depth Hd Hlh Hok) as HP.
  rewrite <- partition_erase.
  destruct (partition_tr pick t arr low high depth) as [[r log]| |];
    cbn [fmap outcome_fmap partition_post] in *.
  - split; [discriminate | intros H; discriminate].
  - split; [discriminate|]. intros _.
    destruct HP as (kp & kx & pv & x & H1 & H2 & H3 & H4 & H5 & H6 & H7).
    exists kp, kx, pv, x. split_and!; (assumption || lia).
  - contradiction.
Qed.

Lemma partition_fault_cause_witness :
  partition pick_mid tt (init_items [[97; 98]; [97; 98]]) 0 1 0 <> OutOfFuel
  /\ (partition pick_mid tt (init_items [[97; 98]; [97; 98]]) 0 1 0 = Fault ->
      exists kp kx pv x,
        (0 <= kp <= 1)%nat /\ (0 <= kx <= 1)%nat /\ kp <> kx
        /\ init_items [[97; 98]; [97; 98]] !! kp = Some pv
        /\ init_items [[97; 98]; [97; 98]] !! kx = Some x
        /\ suffix (ptr x) 0 = suffix (ptr pv) 0
        /\ strlen (ptr x) < 0 + 8).
Proof.
  apply (partition_fault_cause pick_mid tt (init_items [[97; 98]; [97; 98]]) 0 1 0).
  - exact pick_mid_in_range.
  - lia.
  - lia.
  - apply (init_items_pre [[97; 98]; [97; 98]]); [repeat constructor; lia | cbn; lia].
Defined.

(** ** The recursion *)

(** X9. Started on a range whose items hold valid windows at [depth] and
    whose strings agree on their first [depth] bytes, the recursion of the
    cached sort (C and C++) never exhausts a budget of one level per item;
    whenever it returns, the strings of the range are in lexicographic
    order, they are the strings the range held before, and every item
    outside the range is untouched. *)
Theorem recursion_sorts_its_range (arr : list StringItem) (low high : nat) (depth : Z) :
  ((low < high)%nat -> sort_pre depth arr low high) ->
  (forall arr', orasort_recursive arr low high depth = Done arr' ->
     same_strings low high arr arr' /\ sorted_range low high arr')
  /\ (forall t arr' t', sort_recursive t arr low high depth = Done (arr', t') ->
        same_strings low high arr arr' /\ sorted_range low high arr')
  /\ orasort_recursive arr low high depth <> OutOfFuel
  /\ (forall t, sort_recursive t arr low high depth <> OutOfFuel).
Proof.
  intros Hpre.
  pose proof (sort_range_spec pick_mid pick_mid_in_range (S (high - low)) tt arr low high
                depth Hpre ltac:(lia)) as HC.
  assert (HR : forall t, sort_post arr low high (sort_recursive t arr low high depth)).
  { intros t. apply (sort_range_spec pick_rand pick_rand_in_range); [exact Hpre | lia]. }
  unfold orasort_recursive. split_and!.
  - intros arr' E.
    destruct (sort_range pick_mid (S (high - low)) tt arr low high depth) as [[a u]| |];
      cbn [fmap outcome_fmap fst sort_post] in *; [|discriminate..].
    injection E as <-. exact HC.
  - intros t arr' t' E. specialize (HR t). rewrite E in HR. exact HR.
  - destruct (sort_range pick_mid (S (high - low)) tt arr low high depth) as [[a u]| |];
      cbn [fmap outcome_fmap fst sort_post] in *; [discriminate | discriminate | contradiction].
  - intros t E. specialize (HR t). rewrite E in HR. exact HR.
Qed.

Lemma recursion_sorts_its_range_witness :
  (forall arr', orasort_recursive (init_items [[98]; [99]; [97]]) 0 2 0 = Done arr' ->
     same_strings 0 2 (init_items [[98]; [99]; [97]]) arr' /\ sorted_range 0 2 arr')
  /\ (forall t arr' t',
        sort_recursive t (init_items [[98]; [99]; [97]]) 0 2 0 = Done (arr', t') ->
        same_strings 0 2 (init_items [[98]; [99]; [97]]) arr' /\ sorted_range 0 2 arr')
  /\ orasort_recursive (init_items [[98]; [99]; [97]]) 0 2 0 <> OutOfFuel
  /\ (forall t, sort_recursive t (init_items [[98]; [99]; [97]]) 0 2 0 <> OutOfFuel).
Proof.
  apply (recursion_sorts_its_range (init_items [[98]; [99]; [97]]) 0 2 0).
  intros _. apply (init_items_pre [[98]; [99]; [97]]); [repeat constructor; lia | cbn; lia].
Defined.

(** ** The drivers of the cached sort *)

(** X10. On NUL-free strings the cached sort (C driver with a successful
    allocation, C++ driver with any sequence of [rand()] values) never
    exhausts its budget; whenever it returns, the output is in
    lexicographic order and is a rearrangement of the input; and it reads
    outside a buffer only on inputs that hold some string twice. *)
Theorem cached_sort_result (ss : list cstring) :
  Forall nul_free ss ->
  (forall out, optimized_orasort true ss = Done out -> ordered out /\ out ≡ₚ ss)
  /\ (optimized_orasort true ss = Fault -> ~ NoDup ss)
  /\ optimized_orasort true ss <> OutOfFuel
  /\ (forall t out t', OptimizedOrasort_sort t ss = Done (out, t') ->
        ordered out /\ out ≡ₚ ss)
  /\ (forall t, OptimizedOrasort_sort t ss = Fault -> ~ NoDup ss)
  /\ (forall t, OptimizedOrasort_sort t ss <> OutOfFuel).
Proof.
  intros Hnf. pose proof (optimized_orasort_result ss Hnf) as HC.
  pose proof (fun t => OptimizedOrasort_sort_result t ss Hnf) as HR.
  split_and!.
  - intros out E. rewrite E in HC. exact HC.
  - intros E. rewrite E in HC. exact HC.
  - intros E. rewrite E in HC. exact HC.
  - intros t out t' E. specialize (HR t). rewrite E in HR. exact HR.
  - intros t E. specialize (HR t). rewrite E in HR. exact HR.
  - intros t E. specialize (HR t). rewrite E in HR. exact HR.
Qed.

Lemma cached_sort_result_witness :
  (forall out, optimized_orasort true [[98]; [97]; [98; 97]] = Done out ->
     ordered out /\ out ≡ₚ [[98]; [97]; [98; 97]])
  /\ (optimized_orasort true [[98]; [97]; [98; 97]] = Fault ->
      ~ NoDup [[98]; [97]; [98; 97]])
  /\ optimized_orasort true [[98]; [97]; [98; 97]] <> OutOfFuel
  /\ (forall t out t', OptimizedOrasort_sort t [[98]; [97]; [98; 97]] = Done (out, t') ->
        ordered out /\ out ≡ₚ [[98]; [97]; [98; 97]])
  /\ (forall t, OptimizedOrasort_sort t [[98]; [97]; [98; 97]] = Fault ->
        ~ NoDup [[98]; [97]; [98; 97]])
  /\ (forall t, OptimizedOrasort_sort t [[98]; [97]; [98; 97]] <> OutOfFuel).
Proof.
  apply (cached_sort_result [[98]; [97]; [98; 97]]). repeat constructor; lia.
Defined.

(** X11. On NUL-free strings that are pairwise different the cached sort
    returns: the C driver and, for every sequence of [rand()] values, the
    C++ driver produce one and the same output, which is in lexicographic
    order and a rearrangement of the input. *)
Theorem cached_sort_distinct (ss : list cstring) :
  Forall nul_free ss -> NoDup ss ->
  exists out,
    optimized_orasort true ss = Done out
    /\ (forall t, fst <$> OptimizedOrasort_sort t ss = Done out)
    /\ ordered out /\ out ≡ₚ ss.
Proof.
  intros Hnf Hnd. destruct (optimized_orasort_distinct ss Hnf Hnd) as (out & E & Ho & Hp).
  exists out. split_and!; try assumption.
  intros t. destruct (OptimizedOrasort_sort_distinct t ss Hnf Hnd) as (o & t' & E' & Ho' & Hp').
  rewrite E'. cbn [fmap outcome_fmap fst]. f_equal.
  apply ordered_unique; [assumption..|]. rewrite Hp, Hp'. reflexivity.
Qed.

Lemma cached_sort_distinct_witness :
  exists out,
    optimized_orasort true [[98]; [97]; [98; 97]] = Done out
    /\ (forall t, fst <$> OptimizedOrasort_sort t [[98]; [97]; [98; 97]] = Done out)
    /\ ordered out /\ out ≡ₚ [[98]; [97]; [98; 97]].
Proof.
  apply (cached_sort_distinct [[98]; [97]; [98; 97]]).
  - repeat constructor; lia.
  - apply (bool_decide_unpack _). vm_compute. exact I.
Defined.

(** ** The precursor *)

(** X12. On NUL-free strings, repeated ones included, [legrand_sort] always
    returns: the output is in lexicographic order, it is a rearrangement of
    the input, and it does not depend on the values [rand()] returns. *)
Theorem legrand_sort_sorts (ss : list cstring) :
  Forall nul_free ss ->
  exists out,
    ordered out /\ out ≡ₚ ss /\ forall t, legrand_sort t ss = Done out.
Proof.
  intros Hnf.
  destruct (legrand_sort_result (fun _ => 0%nat) ss Hnf) as (out & E & Ho & Hp).
  exists out. split_and!; try assumption.
  intros t. destruct (legrand_sort_result t ss Hnf) as (out' & E' & Ho' & Hp').
  rewrite E'. f_equal. apply ordered_unique; [assumption..|]. rewrite Hp, Hp'. reflexivity.
Qed.

Lemma legrand_sort_sorts_witness :
  exists out,
    ordered out /\ out ≡ₚ [[98]; []; [97]; [98]; []]
    /\ forall t, legrand_sort t [[98]; []; [97]; [98]; []] = Done out.
Proof.
  apply (legrand_sort_sorts [[98]; []; [97]; [98]; []]). repeat constructor; lia.
Defined.

(** X13. On NUL-free strings whose lengths fit [size_t], repeated ones
    included, [LegrandSort::sort] always returns, whatever [rand()] gives:
    the output is in lexicographic order, it is a rearrangement of the
    input, and it is the sequence the C precursor [legrand_sort] returns. *)
Theorem LegrandSort_sort_sorts (ss : list cstring) :
  Forall nul_free ss -> lengths_fit ss ->
  exists out,
    ordered out /\ out ≡ₚ ss
    /\ (forall t, fst <$> LegrandSort_sort t ss = Done out)
    /\ (forall t, legrand_sort t ss = Done out).
Proof.
  intros Hnf Hfit.
  destruct (variants_agree_cpp (fun _ => 0%nat) ss Hnf Hfit) as (out & t' & E & HC & _).
  destruct (LegrandSort_sort_result (fun _ => 0%nat) ss Hnf Hfit)
    as (out0 & t0 & E0 & Ho & Hp).
  assert (out0 = out) by congruence. subst out0.
  exists out. split_and!; try assumption.
  intros t. destruct (LegrandSort_sort_result t ss Hnf Hfit) as (o & t1 & E1 & Ho1 & Hp1).
  rewrite E1. cbn [fmap outcome_fmap fst]. f_equal.
  apply ordered_unique; [assumption..|]. rewrite Hp, Hp1. reflexivity.
Qed.

Lemma LegrandSort_sort_sorts_witness :
  exists out,
    ordered out /\ out ≡ₚ [[98]; []; [97]; [98]; []]
    /\ (forall t, fst <$> LegrandSort_sort t [[98]; []; [97]; [98]; []] = Done out)
    /\ (forall t, legrand_sort t [[98]; []; [97]; [98]; []] = Done out).
Proof.
  apply (LegrandSort_sort_sorts [[98]; []; [97]; [98]; []]).
  - repeat constructor; lia.
  - repeat constructor.
Defined.

(** ** The two variants side by side *)

(** X14. On NUL-free strings, whenever the cached sort returns (C or C++
    driver, any sequence of [rand()] values), its output is the sequence the
    precursor returns; on strings that are pairwise different it always
    returns, so that the two variants then produce identical outputs. *)
Theorem cached_agrees_with_precursor (ss : list cstring) :
  Forall nul_free ss ->
  exists out,
    (forall t, legrand_sort t ss = Done out)
    /\ (forall out', optimized_orasort true ss = Done out' -> out' = out)
    /\ (forall t out' t', OptimizedOrasort_sort t ss = Done (out', t') -> out' = out)
    /\ (NoDup ss ->
        optimized_orasort true ss = Done out
        /\ forall t, fst <$> OptimizedOrasort_sort t ss = Done out).
Proof.
  intros Hnf.
  destruct (variants_agree (fun _ => 0%nat) ss Hnf) as (out & E & HC & HR).
  exists out.
  assert (Hall : forall t, legrand_sort t ss = Done out).
  { intros t. destruct (variants_agree t ss Hnf) as (o & Eo & _ & _).
    destruct (legrand_sort_result t ss Hnf) as (o1 & E1 & Ho1 & Hp1).
    destruct (legrand_sort_result (fun _ => 0%nat) ss Hnf) as (o2 & E2 & Ho2 & Hp2).
    rewrite E1. f_equal. assert (o2 = out) by congruence. subst o2.
    apply ordered_unique; [assumption..|]. rewrite Hp1, Hp2. reflexivity. }
  split_and!; [exact Hall | exact HC | exact HR |].
  intros Hnd. destruct (optimized_orasort_distinct ss Hnf Hnd) as (o & Eo & _).
  split.
  - rewrite Eo. f_equal. apply HC, Eo.
  - intros t. destruct (OptimizedOrasort_sort_distinct t ss Hnf Hnd) as (o' & t' & E' & _).
    rewrite E'. cbn [fmap outcome_fmap fst]. f_equal. apply (HR t o' t' E').
Qed.

Lemma cached_agrees_with_precursor_witness :
  exists out,
    (forall t, legrand_sort t [[98]; [97]; [98; 97]] = Done out)
    /\ (forall out', optimized_orasort true [[98]; [97]; [98; 97]] = Done out' -> out' = out)
    /\ (forall t out' t',
          OptimizedOrasort_sort t [[98]; [97]; [98; 97]] = Done (out', t') -> out' = out)
    /\ (NoDup [[98]; [97]; [98; 97]] ->
        optimized_orasort true [[98]; [97]; [98; 97]] = Done out
        /\ forall t, fst <$> OptimizedOrasort_sort t [[98]; [97]; [98; 97]] = Done out).
Proof.
  apply (cached_agrees_with_precursor [[98]; [97]; [98; 97]]). repeat constructor; lia.
Defined.

(** ** Short inputs *)

(** X15. An input of at most one NUL-free string is returned as it is by
    all four drivers, whether or not the allocation succeeds, and the C++
    drivers consume no value of [rand()]. *)
Theorem short_input_unchanged (ss : list cstring) (malloc_ok : bool) (t : rand_tape) :
  Forall nul_free ss -> (length ss <= 1)%nat ->
  optimized_orasort malloc_ok ss = Done ss
  /\ OptimizedOrasort_sort t ss = Done (ss, t)
  /\ legrand_sort t ss = Done ss
  /\ LegrandSort_sort t ss = Done (ss, t).
Proof.
  intros _ H. destruct ss as [|s [|s' ss]]; [| |cbn [length] in H; lia].
  - split_and!; reflexivity.
  - split_and!; try reflexivity.
    unfold OptimizedOrasort_sort, sort_recursive. cbn. rewrite refresh_cache_ptr.
    reflexivity.
Qed.

Lemma short_input_unchanged_witness :
  optimized_orasort false [[97; 98]] = Done [[97; 98]]
  /\ OptimizedOrasort_sort (fun n => n) [[97; 98]] = Done ([[97; 98]], fun n => n)
  /\ legrand_sort (fun n => n) [[97; 98]] = Done [[97; 98]]
  /\ LegrandSort_sort (fun n => n) [[97; 98]] = Done ([[97; 98]], fun n => n).
Proof.
  apply (short_input_unchanged [[97; 98]] false (fun n => n)).
  - repeat constructor; lia.
  - cbn. lia.
Defined.

(** ** The common-prefix scan of the precursor *)

Lemma lcp_nil_r (u : list Z) : lcp u [] = 0%nat.
Proof. destruct u; reflexivity. Qed.

Lemma lcp_diag (u : list Z) : lcp u u = length u.
Proof.
  induction u as [|a u IH]; cbn [lcp length]; [reflexivity|].
  rewrite Z.eqb_refl, IH. reflexivity.
Qed.

Lemma prefix_scan_exact (fuel : nat) (ref curr : cstring) (d k mc : Z) :
  nul_free ref -> nul_free curr ->
  0 <= d + k -> d + k <= strlen ref -> d + k <= strlen curr ->
  (length (drop (Z.to_nat (d + k)) ref) < fuel)%nat ->
  (mc = -1 \/ k < mc) ->
  prefix_scan fuel ref curr d k mc
  = Done (let l := k + Z.of_nat (lcp (drop (Z.to_nat (d + k)) ref)
                                     (drop (Z.to_nat (d + k)) curr)) in
          if mc =? -1 then l else Z.min l mc).
Proof.
  intros Hr Hc. revert k.
  induction fuel as [|fuel IH]; intros k H0 Hlr Hlc Hfuel Hmc; [lia|].
  cbn [prefix_scan]. rewrite !char_at_drop by lia. cbv zeta.
  pose proof (nul_free_drop ref (Z.to_nat (d + k)) Hr) as Hdr.
  pose proof (nul_free_drop curr (Z.to_nat (d + k)) Hc) as Hdc.
  assert (Hstop : Done k = Done (if mc =? -1 then k + Z.of_nat 0 else Z.min (k + Z.of_nat 0) mc)).
  { f_equal. destruct (Z.eqb_spec mc (-1)); lia. }
  destruct (drop (Z.to_nat (d + k)) ref) as [|a u] eqn:E1;
    cbn [head default from_option id mbind outcome_bind lcp].
  { exact Hstop. }
  assert (Ha : 0 < a) by (inversion_clear Hdr; lia).
  replace (a =? 0) with false by (symmetry; apply Z.eqb_neq; lia).
  destruct (drop (Z.to_nat (d + k)) curr) as [|b v] eqn:E2;
    cbn [head default from_option id mbind outcome_bind lcp].
  { exact Hstop. }
  assert (Hb : 0 < b) by (inversion_clear Hdc; lia).
  replace (b =? 0) with false by (symmetry; apply Z.eqb_neq; lia).
  destruct (Z.eqb_spec a b) as [-> | Hne]; [|exact Hstop].
  destruct (drop_cons_inv _ _ _ _ E1) as [T1 L1].
  destruct (drop_cons_inv _ _ _ _ E2) as [T2 L2].
  destruct (Z.eqb_spec mc (-1)) as [Hm | Hm]; cbn [negb andb].
  - unfold strlen in *. rewrite IH; try lia.
    + replace (Z.to_nat (d + (k + 1))) with (S (Z.to_nat (d + k))) by lia.
      rewrite T1, T2. subst mc. cbn [Z.eqb]. f_equal. lia.
    + replace (Z.to_nat (d + (k + 1))) with (S (Z.to_nat (d + k))) by lia.
      rewrite T1. cbn [length] in Hfuel. lia.
  - destruct (Z.geb_spec (k + 1) mc) as [Hge | Hlt].
    + f_equal. lia.
    + unfold strlen in *. rewrite IH; try lia.
      * replace (Z.to_nat (d + (k + 1))) with (S (Z.to_nat (d + k))) by lia.
        rewrite T1, T2. destruct (Z.eqb_spec mc (-1)); [contradiction|]. f_equal. lia.
      * replace (Z.to_nat (d + (k + 1))) with (S (Z.to_nat (d + k))) by lia.
        rewrite T1. cbn [length] in Hfuel. lia.
Qed.

Lemma prefix_loop_exact (count : nat) (arr : list cstring) (ref : cstring) (i : nat)
    (d mc : Z) :
  0 <= d -> str_ok d ref ->
  (forall k, (i <= k < i + count)%nat -> exists s, arr !! k = Some s /\ str_ok d s) ->
  (mc = -1 \/ 0 < mc) ->
  exists c, prefix_loop count arr ref i d mc = Done c
    /\ 0 <= c /\ (mc <> -1 -> c <= mc)
    /\ (forall k s, (i <= k < i + count)%nat -> arr !! k = Some s ->
          c <= Z.of_nat (lcp (suffix ref d) (suffix s d)))
    /\ (c = mc \/ (mc = -1 /\ count = 0%nat)
        \/ exists k s, (i <= k < i + count)%nat /\ arr !! k = Some s
             /\ c = Z.of_nat (lcp (suffix ref d) (suffix s d))).
Proof.
  intros Hd [Hr Hlr]. revert i mc.
  induction count as [|count IH]; intros i mc Hitems Hmc; cbn [prefix_loop].
  { exists (if mc =? -1 then 0 else mc). split; [reflexivity|].
    destruct (Z.eqb_spec mc (-1)).
    - split; [lia|]. split; [lia|]. split; [intros k s Hk; lia|].
      right. left. split; [assumption | reflexivity].
    - split; [lia|]. split; [lia|]. split; [intros k s Hk; lia|].
      left. reflexivity. }
  destruct (Hitems i ltac:(lia)) as (curr & Hcurr & Hc & Hlc).
  unfold str_get. rewrite Hcurr. cbn [mbind outcome_bind].
  rewrite (prefix_scan_exact (S (length ref)) ref curr d 0 mc Hr Hc);
    try lia; [|rewrite length_drop; lia].
  cbv zeta. cbn [mbind outcome_bind].
  replace (d + 0) with d by lia. fold (suffix ref d) (suffix curr d).
  set (l := Z.of_nat (lcp (suffix ref d) (suffix curr d))).
  replace (0 + l) with l by lia.
  set (k := if mc =? -1 then l else Z.min l mc).
  set (mc' := if (mc =? -1) || (k <? mc) then k else mc).
  assert (Hmc' : mc' = if mc =? -1 then l else Z.min l mc).
  { unfold mc', k. destruct (Z.eqb_spec mc (-1)); cbn [orb]; [reflexivity|].
    destruct (Z.ltb_spec (Z.min l mc) mc); lia. }
  assert (Hl0 : 0 <= l) by (unfold l; lia).
  destruct (Z.eqb_spec mc' 0) as [E0 | NE0].
  { exists 0. split; [reflexivity|]. split; [lia|]. split; [lia|].
    split; [intros j s _ _; lia|].
    right. right. exists i, curr. split; [lia|]. split; [exact Hcurr|].
      fold l. destruct (Z.eqb_spec mc (-1)); lia. }
  destruct (IH (S i) mc') as (c & Hc' & Hc0 & Hcle & Hbound & Hatt).
  { intros j Hj. apply Hitems. lia. }
  { right. destruct (Z.eqb_spec mc (-1)); lia. }
  assert (Hcm : c <= mc') by (apply Hcle; destruct (Z.eqb_spec mc (-1)); lia).
  exists c. split; [exact Hc'|]. split; [lia|]. split; [|split].
  - intros Hne. destruct (Z.eqb_spec mc (-1)); lia.
  - intros j s Hj Hs. destruct (decide (j = i)) as [-> | Hne].
    + rewrite Hcurr in Hs. injection Hs as <-. fold l.
      destruct (Z.eqb_spec mc (-1)); lia.
    + apply (Hbound j s); [lia | exact Hs].
  - destruct Hatt as [-> | [[Hm _] | (j & s & Hj & Hs & Hcs)]].
    + destruct (Z.eqb_spec mc (-1)) as [Hm | Hm].
      * right. right. exists i, curr. split; [lia|]. split; [exact Hcurr|]. fold l. lia.
      * destruct (Z.le_gt_cases l mc).
        -- right. right. exists i, curr. split; [lia|]. split; [exact Hcurr|]. fold l. lia.
        -- left. lia.
    + destruct (Z.eqb_spec mc (-1)); lia.
    + right. right. exists j, s. split; [lia|]. split; [exact Hs | exact Hcs].
Qed.

(** X16. On a range of two or more NUL-free strings that all reach [depth],
    [get_common_prefix] returns the length of the longest prefix beyond
    [depth] that all strings of the range share: every string agrees with
    the first one on that many bytes from [depth] on, and some string agrees
    with it on no more. *)
Theorem get_common_prefix_longest (arr : list cstring) (low high : nat) (depth : Z) :
  (low < high)%nat -> 0 <= depth -> strs_ok depth arr low high ->
  exists c ref,
    arr !! low = Some ref
    /\ get_common_prefix arr low high depth = Done c
    /\ (forall k s, (low <= k <= high)%nat -> arr !! k = Some s ->
          c <= Z.of_nat (lcp (suffix ref depth) (suffix s depth)))
    /\ (exists k s, (low < k <= high)%nat /\ arr !! k = Some s
          /\ c = Z.of_nat (lcp (suffix ref depth) (suffix s depth))).
Proof.
  intros Hlh Hd Hok. unfold get_common_prefix.
  destruct (Nat.leb_spec high low) as [|_]; [lia|].
  destruct (Hok low ltac:(lia)) as (ref & Href & Hrok).
  unfold str_get. rewrite Href. cbn [mbind outcome_bind].
  destruct (prefix_loop_exact (high - low) arr ref (S low) depth (-1) Hd Hrok)
    as (c & Hc & Hc0 & _ & Hbound & Hatt).
  { intros k Hk. apply Hok. lia. }
  { left. reflexivity. }
  exists c, ref. split_and!; [reflexivity | exact Hc | |].
  - intros k s Hk Hs. destruct (decide (k = low)) as [-> | Hne].
    + rewrite Href in Hs. injection Hs as <-.
      destruct (Hok high ltac:(lia)) as (z & Hz & _).
      pose proof (Hbound high z ltac:(lia) Hz) as Hb.
      pose proof (lcp_le_length (suffix ref depth) (suffix z depth)) as [Hl _].
      rewrite lcp_diag. lia.
    + apply (Hbound k s); [lia | exact Hs].
  - destruct Hatt as [Hm | [[_ H0] | (k & s & Hk & Hs & Hcs)]]; [lia | lia |].
    exists k, s. split; [lia|]. split; [exact Hs | exact Hcs].
Qed.

Lemma get_common_prefix_longest_witness :
  exists c ref,
    [[120; 97; 98; 99]; [120; 97; 98; 100]; [120; 97; 99]] !! 0%nat = Some ref
    /\ get_common_prefix [[120; 97; 98; 99]; [120; 97; 98; 100]; [120; 97; 99]] 0 2 1
       = Done c
    /\ (forall k s, (0 <= k <= 2)%nat ->
          [[120; 97; 98; 99]; [120; 97; 98; 100]; [120; 97; 99]] !! k = Some s ->
          c <= Z.of_nat (lcp (suffix ref 1) (suffix s 1)))
    /\ (exists k s, (0 < k <= 2)%nat
          /\ [[120; 97; 98; 99]; [120; 97; 98; 100]; [120; 97; 99]] !! k = Some s
          /\ c = Z.of_nat (lcp (suffix ref 1) (suffix s 1))).
Proof.
  apply (get_common_prefix_longest
           [[120; 97; 98; 99]; [120; 97; 98; 100]; [120; 97; 99]] 0 2 1).
  - lia.
  - lia.
  - intros k Hk. destruct k as [|[|[|k]]]; [| | |lia];
      (eexists; split; [reflexivity|]; split;
       [repeat constructor; lia | unfold strlen; cbn [length]; lia]).
Defined.

Lemma prefix_scan_cpp_exact (fuel : nat) (ref curr : cstring) (d k max_k mc : Z) :
  0 <= d + k -> d + k <= max_k -> max_k = Z.min (strlen ref) (strlen curr) ->
  (Z.to_nat (max_k - (d + k)) < fuel)%nat ->
  (mc = npos \/ k < mc) ->
  prefix_scan_cpp fuel ref curr d k max_k mc
  = Done (let l := k + Z.of_nat (lcp (drop (Z.to_nat (d + k)) ref)
                                     (drop (Z.to_nat (d + k)) curr)) in
          if mc =? npos then l else Z.min l mc).
Proof.
  intros H0 Hle Hmax. revert k H0 Hle.
  induction fuel as [|fuel IH]; intros k H0 Hle Hfuel Hmc; [lia|].
  cbn [prefix_scan_cpp]. cbv zeta.
  assert (Hstop : lcp (drop (Z.to_nat (d + k)) ref) (drop (Z.to_nat (d + k)) curr) = 0%nat ->
            Done k = Done (if mc =? npos
                           then k + Z.of_nat (lcp (drop (Z.to_nat (d + k)) ref)
                                                  (drop (Z.to_nat (d + k)) curr))
                           else Z.min (k + Z.of_nat (lcp (drop (Z.to_nat (d + k)) ref)
                                                         (drop (Z.to_nat (d + k)) curr)))
                                      mc)).
  { intros ->. f_equal. destruct (Z.eqb_spec mc npos); lia. }
  destruct (Z.ltb_spec (d + k) max_k) as [Hin | Hout].
  2:{ apply Hstop. assert (Hend : d + k = strlen ref \/ d + k = strlen curr) by lia.
      unfold strlen in Hend. destruct Hend as [He | He].
      - rewrite (drop_ge ref) by lia. reflexivity.
      - rewrite (drop_ge curr) by lia. apply lcp_nil_r. }
  rewrite !char_at_drop by lia. cbn [mbind outcome_bind].
  destruct (drop (Z.to_nat (d + k)) ref) as [|a u] eqn:E1.
  { apply (f_equal length) in E1. rewrite length_drop in E1. cbn [length] in E1.
    unfold strlen in *. lia. }
  destruct (drop (Z.to_nat (d + k)) curr) as [|b v] eqn:E2.
  { apply (f_equal length) in E2. rewrite length_drop in E2. cbn [length] in E2.
    unfold strlen in *. lia. }
  cbn [head default from_option id].
  destruct (Z.eqb_spec a b) as [-> | Hne].
  2:{ apply Hstop. cbn [lcp]. destruct (Z.eqb_spec a b); [contradiction | reflexivity]. }
  destruct (drop_cons_inv _ _ _ _ E1) as [T1 _].
  destruct (drop_cons_inv _ _ _ _ E2) as [T2 _].
  cbn [lcp]. rewrite Z.eqb_refl. cbv iota.
  destruct (Z.eqb_spec mc npos) as [Hm | Hm]; cbn [negb andb].
  - rewrite IH; try lia.
    replace (Z.to_nat (d + (k + 1))) with (S (Z.to_nat (d + k))) by lia.
    rewrite T1, T2. destruct (Z.eqb_spec mc npos); [|contradiction]. cbv zeta. f_equal. lia.
  - destruct (Z.geb_spec (k + 1) mc) as [Hge | Hlt].
    + f_equal. lia.
    + rewrite IH; try lia.
      replace (Z.to_nat (d + (k + 1))) with (S (Z.to_nat (d + k))) by lia.
      rewrite T1, T2. destruct (Z.eqb_spec mc npos); [contradiction|]. cbv zeta. f_equal. lia.
Qed.

Lemma prefix_loop_cpp_exact (count : nat) (arr : list cstring) (ref : cstring) (i : nat)
    (d mc : Z) :
  0 <= d -> strlen ref < npos ->
  (forall k, (i <= k < i + count)%nat -> exists s, arr !! k = Some s) ->
  (mc = npos \/ 0 < mc < npos) ->
  exists c, prefix_loop_cpp count arr ref i d mc = Done c
    /\ 0 <= c /\ (mc <> npos -> c <= mc)
    /\ (forall k s, (i <= k < i + count)%nat -> arr !! k = Some s ->
          c <= Z.of_nat (lcp (suffix ref d) (suffix s d)))
    /\ (c = mc \/ (mc = npos /\ count = 0%nat)
        \/ exists k s, (i <= k < i + count)%nat /\ arr !! k = Some s
             /\ c = Z.of_nat (lcp (suffix ref d) (suffix s d))).
Proof.
  intros Hd Hsmall. revert i mc.
  induction count as [|count IH]; intros i mc Hitems Hmc; cbn [prefix_loop_cpp].
  { exists (if mc =? npos then 0 else mc). split; [reflexivity|].
    destruct (Z.eqb_spec mc npos).
    - split; [lia|]. split; [lia|]. split; [intros k s Hk; lia|].
      right. left. split; [assumption | reflexivity].
    - split; [lia|]. split; [lia|]. split; [intros k s Hk; lia|].
      left. reflexivity. }
  destruct (Hitems i ltac:(lia)) as (curr & Hcurr).
  unfold str_get. rewrite Hcurr. cbn [mbind outcome_bind].
  set (max_k := Z.min (strlen ref) (strlen curr)).
  set (l := Z.of_nat (lcp (suffix ref d) (suffix curr d))).
  assert (Hl0 : 0 <= l) by (unfold l; lia).
  assert (Hlmax : l <= strlen ref).
  { pose proof (lcp_le_length (suffix ref d) (suffix curr d)) as [Hl _].
    unfold l, suffix, strlen in *. rewrite length_drop in Hl. lia. }
  destruct (Z.geb_spec d max_k) as [Hge | Hlt].
  { exists 0. split; [reflexivity|]. split; [lia|]. split; [lia|].
    split; [intros j s _ _; lia|].
    right. right. exists i, curr. split; [lia|]. split; [exact Hcurr|].
    assert (Hend : strlen ref <= d \/ strlen curr <= d) by lia.
    unfold suffix, strlen in *. destruct Hend as [He | He].
    - rewrite (drop_ge ref) by lia. reflexivity.
    - rewrite (drop_ge curr) by lia. rewrite lcp_nil_r. reflexivity. }
  rewrite (prefix_scan_cpp_exact (S (length ref)) ref curr d 0 max_k mc);
    try (unfold max_k, strlen in *; lia).
  cbv zeta. cbn [mbind outcome_bind].
  replace (d + 0) with d by lia. fold (suffix ref d) (suffix curr d). fold l.
  replace (0 + l) with l by lia.
  set (k := if mc =? npos then l else Z.min l mc).
  set (mc' := if (mc =? npos) || (k <? mc) then k else mc).
  assert (Hmc' : mc' = if mc =? npos then l else Z.min l mc).
  { unfold mc', k. destruct (Z.eqb_spec mc npos); cbn [orb]; [reflexivity|].
    destruct (Z.ltb_spec (Z.min l mc) mc); lia. }
  destruct (Z.eqb_spec mc' 0) as [E0 | NE0].
  { exists 0. split; [reflexivity|]. split; [lia|]. split; [lia|].
    split; [intros j s _ _; lia|].
    right. right. exists i, curr. split; [lia|]. split; [exact Hcurr|].
    fold l. destruct (Z.eqb_spec mc npos); lia. }
  destruct (IH (S i) mc') as (c & Hc' & Hc0 & Hcle & Hbound & Hatt).
  { intros j Hj. apply Hitems. lia. }
  { right. destruct (Z.eqb_spec mc npos); lia. }
  assert (Hcm : c <= mc') by (apply Hcle; destruct (Z.eqb_spec mc npos); lia).
  exists c. split; [exact Hc'|]. split; [lia|]. split; [|split].
  - intros Hne. destruct (Z.eqb_spec mc npos); lia.
  - intros j s Hj Hs. destruct (decide (j = i)) as [-> | Hne].
    + rewrite Hcurr in Hs. injection Hs as <-. fold l.
      destruct (Z.eqb_spec mc npos); lia.
    + apply (Hbound j s); [lia | exact Hs].
  - destruct Hatt as [-> | [[Hm _] | (j & s & Hj & Hs & Hcs)]].
    + destruct (Z.eqb_spec mc npos) as [Hm | Hm].
      * right. right. exists i, curr. split; [lia|]. split; [exact Hcurr|]. fold l. lia.
      * destruct (Z.le_gt_cases l mc).
        -- right. right. exists i, curr. split; [lia|]. split; [exact Hcurr|]. fold l. lia.
        -- left. lia.
    + destruct (Z.eqb_spec mc npos); lia.
    + right. right. exists j, s. split; [lia|]. split; [exact Hs | exact Hcs].
Qed.

(** X17. On a range of two or more strings inside the vector,
    [LegrandSort::get_common_prefix] returns, for any [depth >= 0] (also one
    past the end of a string), the length of the longest prefix beyond
    [depth] that all strings of the range share: every string agrees with
    the first one on that many bytes from [depth] on, and some string agrees
    with it on no more. *)
Theorem get_common_prefix_cpp_longest (arr : list cstring) (low high : nat) (depth : Z) :
  (low < high)%nat -> (high < length arr)%nat -> 0 <= depth -> lengths_fit arr ->
  exists c ref,
    arr !! low = Some ref
    /\ get_common_prefix_cpp arr low high depth = Done c
    /\ (forall k s, (low <= k <= high)%nat -> arr !! k = Some s ->
          c <= Z.of_nat (lcp (suffix ref depth) (suffix s depth)))
    /\ (exists k s, (low < k <= high)%nat /\ arr !! k = Some s
          /\ c = Z.of_nat (lcp (suffix ref depth) (suffix s depth))).
Proof.
  intros Hlh Hhigh Hd Hfit. unfold get_common_prefix_cpp.
  destruct (Nat.leb_spec high low) as [|_]; [lia|].
  destruct (lookup_lt_is_Some_2 arr low ltac:(lia)) as [ref Href].
  unfold str_get. rewrite Href. cbn [mbind outcome_bind].
  destruct (prefix_loop_cpp_exact (high - low) arr ref (S low) depth npos Hd)
    as (c & Hc & Hc0 & _ & Hbound & Hatt).
  { eapply Forall_lookup_1 in Hfit; [exact Hfit | exact Href]. }
  { intros k Hk. apply lookup_lt_is_Some_2. lia. }
  { left. reflexivity. }
  exists c, ref. split_and!; [reflexivity | exact Hc | |].
  - intros k s Hk Hs. destruct (decide (k = low)) as [-> | Hne].
    + assert (s = ref) by congruence. subst s.
      destruct (lookup_lt_is_Some_2 arr high Hhigh) as [z Hz].
      pose proof (Hbound high z ltac:(lia) Hz) as Hb.
      pose proof (lcp_le_length (suffix ref depth) (suffix z depth)) as [Hl _].
      rewrite lcp_diag. lia.
    + apply (Hbound k s); [lia | exact Hs].
  - destruct Hatt as [Hm | [[_ H0] | (k & s & Hk & Hs & Hcs)]].
    + unfold npos in Hm. eapply Forall_lookup_1 in Hfit; [|exact Href].
      cbn beta in Hfit.
      destruct (lookup_lt_is_Some_2 arr high Hhigh) as [z Hz].
      pose proof (Hbound high z ltac:(lia) Hz) as Hb.
      pose proof (lcp_le_length (suffix ref depth) (suffix z depth)) as [Hl _].
      unfold suffix in Hl, Hb. rewrite length_drop in Hl. unfold strlen, npos in *. lia.
    + lia.
    + exists k, s. split; [lia|]. split; [exact Hs | exact Hcs].
Qed.

Lemma get_common_prefix_cpp_longest_witness :
  exists c ref,
    [[120; 97; 98; 99]; [120]; [120; 97; 99]] !! 0%nat = Some ref
    /\ get_common_prefix_cpp [[120; 97; 98; 99]; [120]; [120; 97; 99]] 0 2 2 = Done c
    /\ (forall k s, (0 <= k <= 2)%nat ->
          [[120; 97; 98; 99]; [120]; [120; 97; 99]] !! k = Some s ->
          c <= Z.of_nat (lcp (suffix ref 2) (suffix s 2)))
    /\ (exists k s, (0 < k <= 2)%nat
          /\ [[120; 97; 98; 99]; [120]; [120; 97; 99]] !! k = Some s
          /\ c = Z.of_nat (lcp (suffix ref 2) (suffix s 2))).
Proof.
  apply (get_common_prefix_cpp_longest [[120; 97; 98; 99]; [120]; [120; 97; 99]] 0 2 2).
  - lia.
  - cbn [length]. lia.
  - lia.
  - repeat constructor.
Defined.

(** ** The comparison of the precursor *)

(** X18. On two NUL-free strings that both reach [depth], [compare_skip]
    of orasort.c returns a value whose sign is the lexicographic comparison
    of the two strings from [depth] on; when [depth] lies past the end of
    one of the two strings it reads outside that string's buffer. *)
Theorem compare_skip_sign (s1 s2 : cstring) (depth : Z) :
  nul_free s1 -> nul_free s2 -> 0 <= depth ->
  (depth <= strlen s1 -> depth <= strlen s2 ->
   exists c, compare_skip s1 s2 depth = Done c
     /\ (c ?= 0) = lex_compare (suffix s1 depth) (suffix s2 depth))
  /\ (strlen s1 < depth \/ strlen s2 < depth -> compare_skip s1 s2 depth = Fault).
Proof.
  intros N1 N2 Hd. split.
  - intros H1 H2. apply compare_skip_spec; [exact Hd | split; assumption..].
  - intros Hpast. unfold compare_skip. cbn [strcmp_from].
    destruct (Z.lt_ge_cases (strlen s1) depth) as [H1 | H1].
    + rewrite (char_at_fault s1) by exact H1. reflexivity.
    + destruct Hpast as [? | H2]; [lia|].
      rewrite (char_at_drop s1) by lia. rewrite (char_at_fault s2) by exact H2.
      reflexivity.
Qed.

Lemma compare_skip_sign_witness :
  (1 <= strlen [97; 98] -> 1 <= strlen [97; 99; 100] ->
   exists c, compare_skip [97; 98] [97; 99; 100] 1 = Done c
     /\ (c ?= 0) = lex_compare (suffix [97; 98] 1) (suffix [97; 99; 100] 1))
  /\ (strlen [97; 98] < 1 \/ strlen [97; 99; 100] < 1 ->
      compare_skip [97; 98] [97; 99; 100] 1 = Fault).
Proof.
  apply (compare_skip_sign [97; 98] [97; 99; 100] 1).
  - repeat constructor; lia.
  - repeat constructor; lia.
  - lia.
Defined.

(** X19. On two NUL-free strings and any [depth >= 0], also one past the
    end of either string, [LegrandSort::compare_skip] returns a value whose
    sign is the lexicographic comparison of the two strings from [depth] on,
    a string that ends before [depth] counting as empty; it has the sign of
    the C function wherever that one stays in bounds. *)
Theorem compare_skip_cpp_total (s1 s2 : cstring) (depth : Z) :
  nul_free s1 -> nul_free s2 -> 0 <= depth ->
  exists c,
    compare_skip_cpp s1 s2 depth = Done c
    /\ (c ?= 0) = lex_compare (suffix s1 depth) (suffix s2 depth)
    /\ (strlen s1 <= depth -> strlen s2 <= depth -> c = 0)
    /\ (depth <= strlen s1 -> depth <= strlen s2 ->
        exists c', compare_skip s1 s2 depth = Done c' /\ (c' ?= 0) = (c ?= 0)).
Proof.
  intros N1 N2 Hd.
  destruct (compare_skip_cpp_spec s1 s2 depth N1 N2) as (c & Hc & Hcmp).
  exists c. split; [exact Hc|]. split; [exact Hcmp|]. split.
  - intros H1 H2. unfold suffix, strlen in *.
    rewrite (drop_ge s1), (drop_ge s2) in Hcmp by lia.
    apply Z.compare_eq_iff. exact Hcmp.
  - intros H1 H2.
    destruct (compare_skip_spec s1 s2 depth Hd) as (c' & Hc' & Hcmp');
      [split; assumption.. |].
    exists c'. split; [exact Hc' | congruence].
Qed.

Lemma compare_skip_cpp_total_witness :
  exists c,
    compare_skip_cpp [97; 98] [97] 5 = Done c
    /\ (c ?= 0) = lex_compare (suffix [97; 98] 5) (suffix [97] 5)
    /\ (strlen [97; 98] <= 5 -> strlen [97] <= 5 -> c = 0)
    /\ (5 <= strlen [97; 98] -> 5 <= strlen [97] ->
        exists c', compare_skip [97; 98] [97] 5 = Done c' /\ (c' ?= 0) = (c ?= 0)).
Proof.
  apply (compare_skip_cpp_total [97; 98] [97] 5).
  - repeat constructor; lia.
  - repeat constructor; lia.
  - lia.
Defined.

(** X20. When [depth] lies past the end of the first string of a range of
    two or more strings, [get_common_prefix] of orasort.c reads outside that
    string's buffer, whereas [LegrandSort::get_common_prefix] returns 0. *)
Theorem get_common_prefix_past_end (arr : list cstring) (low high : nat) (depth : Z)
    (ref : cstring) :
  (low < high)%nat -> (high < length arr)%nat ->
  arr !! low = Some ref -> strlen ref < depth ->
  get_common_prefix arr low high depth = Fault
  /\ get_common_prefix_cpp arr low high depth = Done 0.
Proof.
  intros Hlh Hhigh Href Hpast.
  destruct (lookup_lt_is_Some_2 arr (S low) ltac:(lia)) as [curr Hcurr].
  unfold get_common_prefix, get_common_prefix_cpp, str_get.
  destruct (Nat.leb_spec high low) as [|_]; [lia|].
  rewrite Href. cbn [mbind outcome_bind].
  destruct (high - low)%nat as [|count] eqn:E; [lia|].
  cbn [prefix_loop prefix_loop_cpp]. unfold str_get. rewrite Hcurr.
  cbn [mbind outcome_bind prefix_scan]. split.
  - rewrite (char_at_fault ref) by lia. reflexivity.
  - destruct (Z.geb_spec depth (Z.min (strlen ref) (strlen curr))); [reflexivity | lia].
Qed.

Lemma get_common_prefix_past_end_witness :
  get_common_prefix [[97]; [97; 98]] 0 1 2 = Fault
  /\ get_common_prefix_cpp [[97]; [97; 98]] 0 1 2 = Done 0.
Proof.
  apply (get_common_prefix_past_end [[97]; [97; 98]] 0 1 2 [97]).
  - lia.
  - cbn [length]. lia.
  - reflexivity.
  - unfold strlen. cbn [length]. lia.
Defined.

(** ** The recursion of the precursor *)

(** X21. Started on a range of NUL-free strings that all reach [depth] and
    agree on their first [depth] bytes, the recursion of the precursor (C,
    and C++ for strings whose lengths fit [size_t]) returns within a budget
    of one level per string, for any values of [rand()]: the strings of the
    range are then in lexicographic order, they are a rearrangement of the
    strings the range held, and nothing outside the range has moved. *)
Theorem precursor_recursion_sorts_range (fuel : nat) (t : rand_tape) (arr : list cstring)
    (low high : nat) (depth : Z) :
  ((low < high)%nat -> naive_pre depth arr low high) -> (high - low < fuel)%nat ->
  (exists arr' t',
     common_prefix_quicksort_recursive fuel t arr low high depth = Done (arr', t')
     /\ moved low high arr arr' /\ strs_sorted low high arr')
  /\ (lengths_fit arr ->
      exists arr' t',
        LegrandSort_sort_recursive fuel t arr low high depth = Done (arr', t')
        /\ moved low high arr arr' /\ strs_sorted low high arr').
Proof.
  intros Hpre Hfuel. split.
  - pose proof (naive_sort_spec fuel t arr low high depth Hpre Hfuel) as H.
    destruct (common_prefix_quicksort_recursive fuel t arr low high depth)
      as [[arr' t']| |]; cbn [naive_post] in H; [|contradiction..].
    exists arr', t'. split; [reflexivity | exact H].
  - intros Hfit.
    pose proof (LegrandSort_sort_recursive_spec fuel t arr low high depth Hfit Hpre Hfuel)
      as H.
    destruct (LegrandSort_sort_recursive fuel t arr low high depth)
      as [[arr' t']| |]; cbn [naive_post] in H; [|contradiction..].
    exists arr', t'. split; [reflexivity | exact H].
Qed.

Lemma precursor_recursion_sorts_range_witness :
  (exists arr' t',
     common_prefix_quicksort_recursive 3 (fun n => n) [[120]; [98]; [97]; [98]] 1 3 0
     = Done (arr', t')
     /\ moved 1 3 [[120]; [98]; [97]; [98]] arr' /\ strs_sorted 1 3 arr')
  /\ (lengths_fit [[120]; [98]; [97]; [98]] ->
      exists arr' t',
        LegrandSort_sort_recursive 3 (fun n => n) [[120]; [98]; [97]; [98]] 1 3 0
        = Done (arr', t')
        /\ moved 1 3 [[120]; [98]; [97]; [98]] arr' /\ strs_sorted 1 3 arr').
Proof.
  apply (precursor_recursion_sorts_range 3 (fun n => n) [[120]; [98]; [97]; [98]] 1 3 0).
  - intros _. split; [lia|]. split.
    + intros k Hk. destruct k as [|[|[|[|k]]]]; try lia;
        (eexists; split; [reflexivity|]; split;
         [repeat constructor; lia | unfold strlen; cbn [length]; lia]).
    + intros x y _ _. reflexivity.
  - lia.
Defined.

(** ** Repeated short strings *)

(** Every comparison a scan logged is one the comparator returned from. *)
Lemma scan_left_tr_log (fuel : nat) (arr : list StringItem) (pv : StringItem) (d : Z)
    (i j : nat) (mc : Z) (i' : nat) (mc' : Z) (log : comparisons) :
  scan_left_tr fuel arr pv d i j mc = Done (i', mc', log) ->
  forall e, e ∈ log -> exists cmp, compare_and_count e.1 pv d = Done (cmp, e.2).
Proof.
  revert i mc i' mc' log. induction fuel as [|fuel IH]; intros i mc i' mc' log H;
    cbn [scan_left_tr] in H; [discriminate|].
  destruct (i <=? j)%nat.
  2:{ injection H as <- <- <-. intros e He. apply elem_of_nil in He. contradiction. }
  destruct (array_get arr i) as [x| |]; cbn [mbind outcome_bind] in H; [|discriminate..].
  destruct (compare_and_count x pv d) as [[cmp ml]| |] eqn:E;
    cbn [mbind outcome_bind] in H; [|discriminate..].
  destruct (cmp >=? 0).
  - injection H as <- <- <-. intros e He. apply list_elem_of_singleton in He. subst e.
    exists cmp. exact E.
  - destruct (scan_left_tr fuel arr pv d (S i) j _) as [[[i2 mc2] log2]| |] eqn:E2;
      cbn [mbind outcome_bind] in H; [|discriminate..].
    injection H as <- <- <-. intros e He. apply elem_of_cons in He.
    destruct He as [-> | He]; [exists cmp; exact E | exact (IH _ _ _ _ _ E2 e He)].
Qed.

Lemma scan_right_tr_log (fuel : nat) (arr : list StringItem) (pv : StringItem) (d : Z)
    (i j : nat) (mc : Z) (j' : nat) (mc' : Z) (log : comparisons) :
  scan_right_tr fuel arr pv d i j mc = Done (j', mc', log) ->
  forall e, e ∈ log -> exists cmp, compare_and_count e.1 pv d = Done (cmp, e.2).
Proof.
  revert j mc j' mc' log. induction fuel as [|fuel IH]; intros j mc j' mc' log H;
    cbn [scan_right_tr] in H; [discriminate|].
  destruct (i <=? j)%nat.
  2:{ injection H as <- <- <-. intros e He. apply elem_of_nil in He. contradiction. }
  destruct (array_get arr j) as [x| |]; cbn [mbind outcome_bind] in H; [|discriminate..].
  destruct (compare_and_count x pv d) as [[cmp ml]| |] eqn:E;
    cbn [mbind outcome_bind] in H; [|discriminate..].
  destruct (cmp <=? 0).
  - injection H as <- <- <-. intros e He. apply list_elem_of_singleton in He. subst e.
    exists cmp. exact E.
  - destruct (scan_right_tr fuel arr pv d i (j - 1) _) as [[[j2 mc2] log2]| |] eqn:E2;
      cbn [mbind outcome_bind] in H; [|discriminate..].
    injection H as <- <- <-. intros e He. apply elem_of_cons in He.
    destruct He as [-> | He]; [exists cmp; exact E | exact (IH _ _ _ _ _ E2 e He)].
Qed.

Lemma partition_loop_tr_log (fuel : nat) (arr : list StringItem) (pv : StringItem) (d : Z)
    (i j : nat) (mc : Z) (arr' : list StringItem) (j' : nat) (mc' : Z) (log : comparisons) :
  partition_loop_tr fuel arr pv d i j mc = Done (arr', j', mc', log) ->
  forall e, e ∈ log -> exists cmp, compare_and_count e.1 pv d = Done (cmp, e.2).
Proof.
  revert arr i j mc arr' j' mc' log.
  induction fuel as [|fuel IH]; intros arr i j mc arr' j' mc' log H;
    cbn [partition_loop_tr] in H; [discriminate|].
  destruct (scan_left_tr (S (S j - i)) arr pv d i j mc) as [[[i1 mc1] log1]| |] eqn:E1;
    cbn [mbind outcome_bind] in H; [|discriminate..].
  destruct (scan_right_tr (S (S j - i1)) arr pv d i1 j mc1) as [[[j1 mc2] log2]| |] eqn:E2;
    cbn [mbind outcome_bind] in H; [|discriminate..].
  pose proof (scan_left_tr_log _ _ _ _ _ _ _ _ _ _ E1) as L1.
  pose proof (scan_right_tr_log _ _ _ _ _ _ _ _ _ _ E2) as L2.
  destruct (i1 <=? j1)%nat.
  - destruct (swap_items arr i1 j1) as [arr2| |]; cbn [mbind outcome_bind] in H;
      [|discriminate..].
    destruct (partition_loop_tr fuel arr2 pv d (S i1) (j1 - 1) mc2)
      as [[[[arr3 j3] mc3] log3]| |] eqn:E3; cbn [mbind outcome_bind] in H;
      [|discriminate..].
    injection H as <- <- <- <-. intros e He.
    apply elem_of_app in He. destruct He as [He | He]; [exact (L1 e He)|].
    apply elem_of_app in He. destruct He as [He | He]; [exact (L2 e He)|].
    exact (IH _ _ _ _ _ _ _ _ E3 e He).
  - injection H as <- <- <- <-. intros e He.
    apply elem_of_app in He. destruct He as [He | He]; [exact (L1 e He) | exact (L2 e He)].
Qed.

Section ShortPairs.
Context {tape : Type}.
Variable pick : tape -> nat -> nat -> nat * tape.
Hypothesis pick_in_range :
  forall t low high, (low <= high)%nat ->
    (low <= fst (pick t low high) <= high)%nat.

(** After a partition call that returned, the item at [j] is the one
    every logged comparison was made against. *)
Lemma partition_tr_compared (t : tape) (arr : list StringItem) (low high : nat) (d : Z)
    (arr3 : list StringItem) (j : nat) (mc : Z) (t' : tape) (log : comparisons) :
  0 <= d -> (low < high)%nat -> range_ok d arr low high ->
  partition_tr pick t arr low high d = Done (arr3, j, mc, t', log) ->
  exists pv, arr3 !! j = Some pv
    /\ forall e, e ∈ log -> exists cmp, compare_and_count e.1 pv d = Done (cmp, e.2).
Proof.
  intros Hd Hlh Hok. unfold partition_tr.
  pose proof (pick_in_range t low high ltac:(lia)) as Hp.
  destruct (pick t low high) as [p t1]. cbn [fst] in Hp.
  destruct (Hok low ltac:(lia)) as (a0 & Ha0 & Ha0ok).
  destruct (Hok p ltac:(lia)) as (pv & Hpv & Hpvok).
  rewrite (swap_items_Done arr low p a0 pv Ha0 Hpv). cbn [mbind outcome_bind].
  set (arr1 := <[p := a0]> (<[low := pv]> arr)).
  assert (Hlk1 : forall k, arr1 !! k = if decide (k = p) then Some a0
                                      else if decide (k = low) then Some pv else arr !! k)
    by (intros k; apply swap_lookup; assumption).
  assert (Hpiv : arr1 !! low = Some pv).
  { rewrite Hlk1. destruct (decide (low = p)) as [<- | ?]; [congruence|].
    rewrite decide_True by reflexivity. reflexivity. }
  unfold array_get at 1. rewrite Hpiv. cbn [mbind outcome_bind].
  assert (Hok1 : range_ok d arr1 (S low) high).
  { intros k Hk. rewrite Hlk1. destruct (decide (k = p)); [eauto|].
    destruct (decide (k = low)); [lia|]. apply Hok. lia. }
  pose proof (partition_loop_tr_spec pv d Hd Hpvok (S (high - low)) arr1 (S low) high
                INT_MAX ltac:(lia) Hok1 ltac:(lia)) as HL.
  destruct (partition_loop_tr (S (high - low)) arr1 pv d (S low) high INT_MAX)
    as [[[[arr2 j2] mc2] log2]| |] eqn:E;
    cbn [partition_loop_post mbind outcome_bind] in *; [|discriminate..].
  destruct HL as (_ & _ & _ & N3 & _).
  assert (Hlow2 : arr2 !! low = Some pv).
  { destruct N3 as (_ & NF & _). rewrite NF by lia. exact Hpiv. }
  unfold swap_items, array_get. rewrite Hlow2. cbn [mbind outcome_bind].
  destruct (arr2 !! j2) as [y|] eqn:Hy; cbn [mbind outcome_bind]; [|discriminate].
  intros H. injection H as <- <- <- <- <-.
  exists pv. split.
  - apply list_lookup_insert_eq. rewrite length_insert. eapply lookup_lt_Some, Hy.
  - exact (partition_loop_tr_log _ _ _ _ _ _ _ _ _ _ _ E).
Qed.

(** After a partition call that returned, no other item of the range
    holds the pivot's string, unless that string has eight bytes or
    more. *)
Lemma partition_no_short_twin (t : tape) (arr : list StringItem) (low high : nat) (d : Z)
    (arr1 : list StringItem) (j : nat) (mc : Z) (t1 : tape) (log : comparisons) :
  0 <= d -> (low < high)%nat -> range_ok d arr low high ->
  partition_tr pick t arr low high d = Done (arr1, j, mc, t1, log) ->
  forall pv k x, arr1 !! j = Some pv -> (low <= k <= high)%nat -> k <> j ->
    arr1 !! k = Some x -> ptr x = ptr pv -> 8 <= strlen (ptr x).
Proof.
  intros Hd Hlh Hok Htr pv k x Hpv Hk Hkj Hx Hptr.
  destruct (partition_tr_compared t arr low high d arr1 j mc t1 log Hd Hlh Hok Htr)
    as (pv' & Hpv' & Hlog).
  assert (pv' = pv) by congruence. subst pv'.
  pose proof (partition_tr_spec pick pick_in_range t arr low high d Hd Hlh Hok) as HP.
  rewrite Htr in HP.
  destruct HP as (Hj & (_ & _ & HI & _) & pivot & Hpiv & _ & _ & Hcmp & _).
  assert (pivot = pv) by congruence. subst pivot.
  destruct (Hlog _ (Hcmp k x Hk Hkj Hx)) as (cmp & Hdone). cbn [fst snd] in Hdone.
  assert (Hxok : item_ok d x).
  { apply (in_range_item_ok d arr low high); [exact Hok|]. apply HI. exists k. auto. }
  assert (Hpvok : item_ok d pv).
  { apply (in_range_item_ok d arr low high); [exact Hok|]. apply HI. exists j. auto. }
  destruct (Z.lt_ge_cases (strlen (ptr x)) 8) as [Hshort | ?]; [exfalso | assumption].
  destruct (compare_and_count_fault_iff x pv d Hd Hxok Hpvok) as [_ Hf].
  rewrite Hf in Hdone; [discriminate|].
  split; [|lia]. destruct Hxok as [_ ->]. destruct Hpvok as [_ ->].
  rewrite Hptr. reflexivity.
Qed.
End ShortPairs.

(** The strings of a range, as a list. *)
Lemma range_slice_lookup {A : Type} (arr : list A) (lo hi i : nat) :
  take (S hi - lo) (drop lo arr) !! i
  = if decide (lo + i <= hi)%nat then arr !! (lo + i)%nat else None.
Proof.
  rewrite lookup_take, lookup_drop.
  destruct (decide (i < S hi - lo)%nat), (decide (lo + i <= hi)%nat); (reflexivity || lia).
Qed.

Lemma moved_slice {A : Type} (lo hi : nat) (arr arr' : list A) :
  (lo <= S hi)%nat -> moved lo hi arr arr' ->
  take (S hi - lo) (drop lo arr') ≡ₚ take (S hi - lo) (drop lo arr).
Proof.
  intros Hlh (HL & HF & _ & HP).
  assert (Hsplit : forall l : list A,
            l = take lo l ++ take (S hi - lo) (drop lo l) ++ drop (S hi) l).
  { intros l. rewrite <- (take_drop lo l) at 1. f_equal.
    rewrite <- (take_drop (S hi - lo) (drop lo l)) at 1. f_equal.
    rewrite drop_drop. f_equal. lia. }
  assert (Hpre : take lo arr' = take lo arr).
  { apply list_eq. intros i. rewrite !lookup_take.
    destruct (decide (i < lo)%nat); [|reflexivity]. apply HF. lia. }
  assert (Hpost : drop (S hi) arr' = drop (S hi) arr).
  { apply list_eq. intros i. rewrite !lookup_drop. apply HF. lia. }
  rewrite (Hsplit arr'), (Hsplit arr), Hpre, Hpost in HP.
  apply Permutation_app_inv_l in HP. apply Permutation_app_inv_r in HP. exact HP.
Qed.

Lemma moved_short_pair (lo hi : nat) (arr arr' : list StringItem) :
  moved lo hi arr arr' -> short_pair arr lo hi -> short_pair arr' lo hi.
Proof.
  intros Hmv (k1 & k2 & x1 & x2 & B1 & B2 & B3 & H1 & H2 & Hptr & Hshort).
  pose proof (moved_slice lo hi arr arr' ltac:(lia) Hmv) as HP.
  symmetry in HP. apply Permutation_inj in HP. destruct HP as (_ & f & Hinj & Hf).
  assert (G1 : take (S hi - lo) (drop lo arr') !! f (k1 - lo)%nat = Some x1).
  { rewrite <- Hf, range_slice_lookup. rewrite decide_True by lia.
    replace (lo + (k1 - lo))%nat with k1 by lia. exact H1. }
  assert (G2 : take (S hi - lo) (drop lo arr') !! f (k2 - lo)%nat = Some x2).
  { rewrite <- Hf, range_slice_lookup. rewrite decide_True by lia.
    replace (lo + (k2 - lo))%nat with k2 by lia. exact H2. }
  rewrite range_slice_lookup in G1, G2.
  destruct (decide (lo + f (k1 - lo) <= hi)%nat) as [L1|]; [|discriminate].
  destruct (decide (lo + f (k2 - lo) <= hi)%nat) as [L2|]; [|discriminate].
  assert (Hne : f (k1 - lo)%nat <> f (k2 - lo)%nat).
  { intros E. apply Hinj in E. lia. }
  destruct (Nat.lt_ge_cases (f (k1 - lo)%nat) (f (k2 - lo)%nat)) as [Hlt | Hge].
  - exists (lo + f (k1 - lo))%nat, (lo + f (k2 - lo))%nat, x1, x2.
    split_and!; (assumption || lia).
  - exists (lo + f (k2 - lo))%nat, (lo + f (k1 - lo))%nat, x2, x1.
    split_and!; try (assumption || lia); [congruence | rewrite <- Hptr; exact Hshort].
Qed.

Lemma refresh_short_pair (arr : list StringItem) (a b : nat) (nd : Z) (c : bool)
    (lo hi : nat) :
  short_pair arr lo hi -> short_pair (if c then refresh_range arr a b nd else arr) lo hi.
Proof.
  destruct c; [|exact (fun H => H)].
  intros (k1 & k2 & x1 & x2 & B1 & B2 & B3 & H1 & H2 & Hptr & Hshort).
  assert (Hlk : forall k x, arr !! k = Some x ->
            exists y, refresh_range arr a b nd !! k = Some y /\ ptr y = ptr x).
  { intros k x Hx. rewrite refresh_range_lookup, Hx.
    destruct (decide (a <= k <= b)%nat); cbn [fmap option_fmap option_map].
    - eexists. split; [reflexivity | apply refresh_cache_ptr].
    - eauto. }
  destruct (Hlk k1 x1 H1) as (y1 & Hy1 & P1). destruct (Hlk k2 x2 H2) as (y2 & Hy2 & P2).
  exists k1, k2, y1, y2. split_and!; try (assumption || lia); congruence.
Qed.

Section ShortPairsFault.
Context {tape : Type}.
Variable pick : tape -> nat -> nat -> nat * tape.
Hypothesis pick_in_range :
  forall t low high, (low <= high)%nat ->
    (low <= fst (pick t low high) <= high)%nat.

(** A range that holds a string shorter than eight bytes twice makes the
    recursion fault: the two copies stay in one sub-range until one of
    them is the pivot, and the comparison of the other one against it
    reads past the terminator. *)
Lemma sort_range_short_pair (fuel : nat) (t : tape) (arr : list StringItem)
    (low high : nat) (d : Z) :
  sort_pre d arr low high -> (high - low < fuel)%nat -> short_pair arr low high ->
  sort_range pick fuel t arr low high d = Fault.
Proof.
  revert t arr low high d.
  induction fuel as [|fuel IH]; intros t arr low high d Hpre Hfuel Hsp; [lia|].
  assert (Hlh : (low < high)%nat).
  { destruct Hsp as (k1 & k2 & _ & _ & B1 & B2 & B3 & _). lia. }
  pose proof Hpre as (Hd & Hok & Hpfx).
  rewrite sort_range_S. destruct (Nat.leb_spec high low) as [|_]; [lia|].
  pose proof (partition_tr_spec pick pick_in_range t arr low high d Hd Hlh Hok) as HP.
  pose proof (partition_erase pick t arr low high d) as Her.
  destruct (partition_tr pick t arr low high d) as [[[[[arr1 j] mc] t1] log]| |] eqn:Htr;
    cbn [fmap outcome_fmap drop_log fst] in Her; rewrite <- Her;
    [ | reflexivity | contradiction].
  cbn [mbind outcome_bind]. cbv zeta.
  symmetry in Her.
  pose proof (partition_no_short_twin pick pick_in_range t arr low high d arr1 j mc t1 log
                Hd Hlh Hok Htr) as Hnt.
  destruct (partition_sides d arr low high arr1 j mc t1 log Hpre HP)
    as (Hmc & pivot & Hpiv & Hside).
  destruct HP as (Hj & Hmv & _).
  destruct (moved_short_pair low high arr arr1 Hmv Hsp)
    as (k1 & k2 & x1 & x2 & B1 & B2 & B3 & H1 & H2 & Hptr & Hshort).
  assert (Hk1 : k1 <> j).
  { intros ->. assert (x1 = pivot) by congruence. subst x1.
    pose proof (Hnt pivot k2 x2 Hpiv ltac:(lia) ltac:(lia) H2 (eq_sym Hptr)).
    rewrite <- Hptr in *. lia. }
  assert (Hk2 : k2 <> j).
  { intros ->. assert (x2 = pivot) by congruence. subst x2.
    pose proof (Hnt pivot k1 x1 Hpiv ltac:(lia) ltac:(lia) H1 Hptr). lia. }
  assert (Hside12 : ~ (k1 < j < k2)%nat).
  { intros [Hl Hr].
    destruct (Hside k1 ltac:(lia) Hk1) as (y1 & Hy1 & _ & _ & _ & Hle & _).
    destruct (Hside k2 ltac:(lia) Hk2) as (y2 & Hy2 & _ & _ & _ & _ & Hge).
    assert (y1 = x1) by congruence. assert (y2 = x2) by congruence. subst y1 y2.
    specialize (Hle Hl). specialize (Hge Hr). rewrite <- Hptr in Hge.
    assert (Heq : ptr x1 = ptr pivot).
    { apply lex_compare_eq. unfold lex_le in *.
      rewrite (lex_compare_antisym (ptr x1) (ptr pivot)) in Hge.
      destruct (lex_compare (ptr x1) (ptr pivot)); cbn [CompOpp] in Hge; congruence. }
    pose proof (Hnt pivot k1 x1 Hpiv ltac:(lia) Hk1 H1 Heq). lia. }
  destruct (Nat.lt_ge_cases k2 j) as [Hleft | Hright].
  - (* both copies are left of the pivot *)
    destruct (Nat.ltb_spec low (j - 1)) as [Hg | Hg]; [|lia].
    rewrite (IH t1 _ low (j - 1)%nat (d + mc)).
    + reflexivity.
    + apply (left_call_pre pick pick_in_range t arr low high d arr1 j mc t1);
        assumption.
    + lia.
    + apply refresh_short_pair. exists k1, k2, x1, x2.
      split_and!; (assumption || lia).
  - (* both copies are right of the pivot *)
    assert (Hk1j : (j < k1)%nat) by lia.
    pose proof (sub_call_post pick fuel t1 arr1 low (j - 1) d (d + mc)
                  (sort_range_spec pick pick_in_range fuel)
                  (left_call_pre pick pick_in_range t arr low high d arr1 j mc t1
                     Hpre Hlh Her)
                  ltac:(lia)) as [HL _].
    destruct (if (low <? j - 1)%nat
              then sort_range pick fuel t1
                     (if d + mc >? d then refresh_range arr1 low (j - 1) (d + mc)
                      else arr1) low (j - 1) (d + mc)
              else Done (arr1, t1)) as [[arr2 t2]| |] eqn:Hleft;
      cbn [sort_post mbind outcome_bind] in *; [ | reflexivity | contradiction].
    destruct HL as [(_ & HF & _) _].
    destruct (Nat.ltb_spec (j + 1) high) as [Hg | Hg]; [|lia].
    rewrite (IH t2 _ (j + 1)%nat high (d + mc)).
    + reflexivity.
    + apply (right_call_pre pick pick_in_range fuel t arr low high d arr1 j mc t1 arr2 t2);
        (assumption || lia).
    + lia.
    + apply refresh_short_pair. exists k1, k2, x1, x2.
      split_and!; try (assumption || lia); rewrite HF by lia; assumption.
Qed.
End ShortPairsFault.

Lemma init_items_short_pair (ss : list cstring) (s : cstring) (i j : nat) :
  i <> j -> ss !! i = Some s -> ss !! j = Some s -> strlen s < 8 ->
  short_pair (init_items ss) 0 (length ss - 1).
Proof.
  intros Hij Hi Hj Hshort.
  pose proof (lookup_lt_Some _ _ _ Hi) as Li. pose proof (lookup_lt_Some _ _ _ Hj) as Lj.
  assert (Hit : forall k, ss !! k = Some s ->
            init_items ss !! k = Some (refresh_cache (mkItem s 0) 0))
    by (intros k Hk; rewrite init_items_lookup, Hk; reflexivity).
  exists (Nat.min i j), (Nat.max i j),
    (refresh_cache (mkItem s 0) 0), (refresh_cache (mkItem s 0) 0).
  split_and!; try lia; try reflexivity.
  - apply Hit. destruct (Nat.min_spec i j) as [[_ ->] | [_ ->]]; assumption.
  - apply Hit. destruct (Nat.max_spec i j) as [[_ ->] | [_ ->]]; assumption.
  - rewrite refresh_cache_ptr. exact Hshort.
Qed.

(** X22. On NUL-free strings, whenever the input holds a string shorter than
    eight bytes at two positions, the cached sort performs a read outside a
    string buffer (the checked run stops there, with [Fault]): the C driver,
    and the C++ driver for every sequence of [rand()] values. *)
Theorem short_duplicates_fault (ss : list cstring) (s : cstring) (i j : nat) :
  Forall nul_free ss ->
  i <> j -> ss !! i = Some s -> ss !! j = Some s -> strlen s < 8 ->
  optimized_orasort true ss = Fault
  /\ forall t, OptimizedOrasort_sort t ss = Fault.
Proof.
  intros Hnf Hij Hi Hj Hshort.
  pose proof (lookup_lt_Some _ _ _ Hi) as Li. pose proof (lookup_lt_Some _ _ _ Hj) as Lj.
  assert (Hlen : (2 <= length ss)%nat) by lia.
  pose proof (init_items_pre ss Hnf ltac:(lia)) as Hpre.
  pose proof (init_items_short_pair ss s i j Hij Hi Hj Hshort) as Hsp.
  split.
  - unfold optimized_orasort. destruct (Nat.leb_spec (length ss) 1) as [|_]; [lia|].
    cbn [negb]. unfold orasort_recursive.
    rewrite (sort_range_short_pair pick_mid pick_mid_in_range); [reflexivity | | lia |].
    + exact Hpre.
    + exact Hsp.
  - intros t. unfold OptimizedOrasort_sort, sort_recursive.
    destruct (Nat.eqb_spec (length ss) 0) as [|_]; [lia|].
    rewrite init_items_length.
    rewrite (sort_range_short_pair pick_rand pick_rand_in_range); [reflexivity | | lia |].
    + exact Hpre.
    + exact Hsp.
Qed.

Lemma short_duplicates_fault_witness :
  optimized_orasort true [[98]; [97; 98]; [99]; [97; 98]; [97]] = Fault
  /\ forall t, OptimizedOrasort_sort t [[98]; [97; 98]; [99]; [97; 98]; [97]] = Fault.
Proof.
  apply (short_duplicates_fault [[98]; [97; 98]; [99]; [97; 98]; [97]] [97; 98] 1 3).
  - repeat constructor; lia.
  - lia.
  - reflexivity.
  - reflexivity.
  - unfold strlen. cbn [length]. lia.
Defined.

(** ** The stand-alone loader *)

Lemma load_bytes_be_refresh (s : cstring) (c : Z) :
  load_bytes_be s = cache (refresh_cache (mkItem s c) 0).
Proof.
  unfold load_bytes_be, refresh_cache, strnlen. cbn [ptr].
  destruct (Z.leb_spec (strlen s) 0) as [H0 | Hpos].
  - assert (s = []) by (destruct s; [reflexivity | unfold strlen in H0; cbn in H0; lia]).
    subst s. reflexivity.
  - cbn [cache]. change (Z.to_nat 0) with 0%nat. rewrite drop_0.
    replace (strlen s - 0) with (strlen s) by lia. reflexivity.
Qed.

(** X23. On a NUL-free string, [load_bytes_be] of orasort2.cpp returns the
    64-bit value that packs the first eight bytes of the string, zero-filled
    when the string is shorter, with the first byte most significant; it is
    the window [refresh_cache] stores at depth 0, and unsigned comparison of
    two such values is the lexicographic comparison of the padded slices. *)
Theorem load_bytes_be_window (s t : cstring) (c : Z) :
  nul_free s -> nul_free t ->
  load_bytes_be s = load_be (pad8 s)
  /\ 0 <= load_bytes_be s < 2 ^ 64
  /\ load_bytes_be s = cache (refresh_cache (mkItem s c) 0)
  /\ (load_bytes_be s ?= load_bytes_be t) = lex_compare (pad8 s) (pad8 t).
Proof.
  intros Hs Ht.
  assert (E : forall u, nul_free u -> load_bytes_be u = load_be (pad8 u)).
  { intros u Hu. rewrite (load_bytes_be_refresh u 0).
    rewrite refresh_cache_window by (try apply nul_free_bytes_ok; cbn [ptr]; (assumption || lia)).
    unfold load_window. cbn [ptr]. change (Z.to_nat 0) with 0%nat. rewrite drop_0.
    reflexivity. }
  split; [|split; [|split]].
  - apply E, Hs.
  - rewrite (E s Hs). change (load_be (pad8 s)) with (load_be (pad8 (drop 0 s))).
    apply (load_window_range s 0), nul_free_bytes_ok, Hs.
  - apply load_bytes_be_refresh.
  - rewrite (E s Hs), (E t Ht). apply load_be_compare.
    + apply padn_bytes_ok, nul_free_bytes_ok, Hs.
    + apply padn_bytes_ok, nul_free_bytes_ok, Ht.
    + unfold pad8. rewrite !padn_length. reflexivity.
Qed.

Lemma load_bytes_be_window_witness :
  load_bytes_be [65; 66; 67; 68] = load_be (pad8 [65; 66; 67; 68])
  /\ 0 <= load_bytes_be [65; 66; 67; 68] < 2 ^ 64
  /\ load_bytes_be [65; 66; 67; 68] = cache (refresh_cache (mkItem [65; 66; 67; 68] 0) 0)
  /\ (load_bytes_be [65; 66; 67; 68] ?= load_bytes_be [65; 66; 67; 69])
     = lex_compare (pad8 [65; 66; 67; 68]) (pad8 [65; 66; 67; 69]).
Proof.
  apply (load_bytes_be_window [65; 66; 67; 68] [65; 66; 67; 69] 0);
    repeat constructor; lia.
Defined.

(** ** The exchange loop of the precursor *)

(** X24. On a range [low + 1 .. high] of NUL-free strings that reach
    [depth], with a NUL-free pivot that reaches [depth], the exchange loop
    of the precursor (C and C++) ends with the cursors crossed ([j < i]),
    [j] still inside [low .. high]; it only rearranges the strings of
    [low + 1 .. high]; afterwards no string left of [i] is greater than the
    pivot and no string right of [j] is smaller than it, from [depth] on. *)
Theorem exchange_loop_splits (pivot : cstring) (depth : Z) (arr : list cstring)
    (low high : nat) :
  0 <= depth -> str_ok depth pivot -> (low < high)%nat ->
  strs_ok depth arr (S low) high ->
  (exists arr' i j,
     exchange_loop (S (S (high - low))) arr pivot depth low high (S low) high
     = Done (arr', i, j)
     /\ moved (S low) high arr arr' /\ (j < i)%nat /\ (low <= j <= high)%nat
     /\ (forall k x, (low < k < i)%nat -> arr' !! k = Some x ->
           lex_compare (suffix x depth) (suffix pivot depth) <> Gt)
     /\ (forall k x, (j < k <= high)%nat -> arr' !! k = Some x ->
           lex_compare (suffix x depth) (suffix pivot depth) <> Lt))
  /\ (exists arr' i j,
        exchange_loop_cpp (S (high - low)) arr pivot depth (S low) high
        = Done (arr', i, j)
        /\ moved (S low) high arr arr' /\ (j < i)%nat /\ (low <= j <= high)%nat
        /\ (forall k x, (low < k < i)%nat -> arr' !! k = Some x ->
              lex_compare (suffix x depth) (suffix pivot depth) <> Gt)
        /\ (forall k x, (j < k <= high)%nat -> arr' !! k = Some x ->
              lex_compare (suffix x depth) (suffix pivot depth) <> Lt)).
Proof.
  intros Hd Hpivot Hlh Hok.
  assert (Hinv : exchange_inv pivot depth arr low high (S low) high).
  { split_and!; try lia; exact Hok. }
  split.
  - destruct (exchange_loop_spec pivot depth Hd Hpivot (S (S (high - low))) arr low high
                (S low) high Hinv) as (arr' & i & j & Hrun & Hmv & Hji & Hinv').
    { destruct (Nat.leb_spec (S low) high); lia. }
    destruct Hinv' as (B1 & B2 & B3 & B4 & _ & HL & HR).
    exists arr', i, j. split_and!; (assumption || lia).
  - destruct (exchange_loop_cpp_spec pivot depth Hpivot (S (high - low)) arr low high
                (S low) high Hinv) as (arr' & i & j & Hrun & Hmv & Hji & Hinv').
    { destruct (Nat.leb_spec (S low) high); lia. }
    destruct Hinv' as (B1 & B2 & B3 & B4 & _ & HL & HR).
    exists arr', i, j. split_and!; (assumption || lia).
Qed.

Lemma exchange_loop_splits_witness :
  (exists arr' i j,
     exchange_loop (S (S (3 - 0))) [[98]; [99]; [97]; [98]] [98] 0 0 3 (S 0) 3
     = Done (arr', i, j)
     /\ moved (S 0) 3 [[98]; [99]; [97]; [98]] arr' /\ (j < i)%nat /\ (0 <= j <= 3)%nat
     /\ (forall k x, (0 < k < i)%nat -> arr' !! k = Some x ->
           lex_compare (suffix x 0) (suffix [98] 0) <> Gt)
     /\ (forall k x, (j < k <= 3)%nat -> arr' !! k = Some x ->
           lex_compare (suffix x 0) (suffix [98] 0) <> Lt))
  /\ (exists arr' i j,
        exchange_loop_cpp (S (3 - 0)) [[98]; [99]; [97]; [98]] [98] 0 (S 0) 3
        = Done (arr', i, j)
        /\ moved (S 0) 3 [[98]; [99]; [97]; [98]] arr' /\ (j < i)%nat /\ (0 <= j <= 3)%nat
        /\ (forall k x, (0 < k < i)%nat -> arr' !! k = Some x ->
              lex_compare (suffix x 0) (suffix [98] 0) <> Gt)
        /\ (forall k x, (j < k <= 3)%nat -> arr' !! k = Some x ->
              lex_compare (suffix x 0) (suffix [98] 0) <> Lt)).
Proof.
  apply (exchange_loop_splits [98] 0 [[98]; [99]; [97]; [98]] 0 3).
  - lia.
  - split; [repeat constructor; lia | unfold strlen; cbn [length]; lia].
  - lia.
  - intros k Hk. destruct k as [|[|[|[|k]]]]; try lia;
      (eexists; split; [reflexivity|]; split;
       [repeat constructor; lia | unfold strlen; cbn [length]; lia]).
Defined.

(** ** Loading the windows of a range *)

(** X25. The refresh loop over [lo .. hi] at [depth >= 0] gives every item
    of the range whose string is NUL-free the window of its string at
    [depth], keeps the string of every item, and leaves the items outside
    the range, and the length of the array, as they were. *)
Theorem refresh_range_effect (arr : list StringItem) (lo hi : nat) (depth : Z) :
  0 <= depth ->
  length (refresh_range arr lo hi depth) = length arr
  /\ map ptr (refresh_range arr lo hi depth) = map ptr arr
  /\ (forall k, ~ (lo <= k <= hi)%nat -> refresh_range arr lo hi depth !! k = arr !! k)
  /\ (forall k x, (lo <= k <= hi)%nat -> arr !! k = Some x -> nul_free (ptr x) ->
        refresh_range arr lo hi depth !! k
        = Some (mkItem (ptr x) (load_window (ptr x) depth))).
Proof.
  intros Hd. split_and!.
  - apply refresh_range_length.
  - apply refresh_range_ptr.
  - intros k Hk. rewrite refresh_range_lookup, decide_False by exact Hk. reflexivity.
  - intros k x Hk Hx Hnf. rewrite refresh_range_lookup, decide_True, Hx by exact Hk.
    cbn [fmap option_fmap option_map]. f_equal.
    pose proof (refresh_cache_ptr x depth) as Hp.
    pose proof (refresh_cache_window x depth (nul_free_bytes_ok _ Hnf) Hd) as Hw.
    destruct (refresh_cache x depth) as [p c]. cbn [ptr cache] in *. subst. reflexivity.
Qed.

Lemma refresh_range_effect_witness :
  length (refresh_range (init_items [[97; 98]; [97; 99]; [100]]) 0 1 1)
  = length (init_items [[97; 98]; [97; 99]; [100]])
  /\ map ptr (refresh_range (init_items [[97; 98]; [97; 99]; [100]]) 0 1 1)
     = map ptr (init_items [[97; 98]; [97; 99]; [100]])
  /\ (forall k, ~ (0 <= k <= 1)%nat ->
        refresh_range (init_items [[97; 98]; [97; 99]; [100]]) 0 1 1 !! k
        = init_items [[97; 98]; [97; 99]; [100]] !! k)
  /\ (forall k x, (0 <= k <= 1)%nat ->
        init_items [[97; 98]; [97; 99]; [100]] !! k = Some x -> nul_free (ptr x) ->
        refresh_range (init_items [[97; 98]; [97; 99]; [100]]) 0 1 1 !! k
        = Some (mkItem (ptr x) (load_window (ptr x) 1))).
Proof.
  apply (refresh_range_effect (init_items [[97; 98]; [97; 99]; [100]]) 0 1 1). lia.
Defined.

(** ** The two embeddings of the cached sort *)

(** X26. Wherever the checked run returns, the run that goes on after stray
    reads returns the same result and takes nothing from its tape: for the
    comparator, for the recursive driver with either pivot rule, and for the
    two top-level drivers. *)
Theorem unchecked_run_extends_checked (g : stray_tape) :
  (forall a b depth r,
      compare_and_count a b depth = Done r ->
      compare_and_count_raw g a b depth = Done (r, g))
  /\ (forall fuel arr low high depth r,
        sort_range pick_mid fuel tt arr low high depth = Done r ->
        sort_range_raw pick_mid fuel tt g arr low high depth = Done (r, g))
  /\ (forall fuel t arr low high depth r,
        sort_range pick_rand fuel t arr low high depth = Done r ->
        sort_range_raw pick_rand fuel t g arr low high depth = Done (r, g))
  /\ (forall malloc_ok ss out,
        optimized_orasort malloc_ok ss = Done out ->
        optimized_orasort_raw malloc_ok g ss = Done out)
  /\ (forall t ss r,
        OptimizedOrasort_sort t ss = Done r ->
        OptimizedOrasort_sort_raw t g ss = Done r).
Proof.
  split_and!.
  - intros a b depth r. apply compare_and_count_raw_Done.
  - intros fuel arr low high depth r. apply sort_range_raw_Done.
  - intros fuel t arr low high depth r. apply sort_range_raw_Done.
  - intros malloc_ok ss out. apply optimized_orasort_raw_Done.
  - intros t ss r. apply OptimizedOrasort_sort_raw_Done.
Qed.

Lemma unchecked_run_extends_checked_witness :
  optimized_orasort_raw true (fun _ => (5%nat, 1, 2)) demo_urls = Done demo_urls_sorted.
Proof.
  apply (unchecked_run_extends_checked (fun _ => (5%nat, 1, 2))).
  exact main_orasort2_c.
Defined.

(** X27. In a run of the cached sort that goes on after stray reads, on
    NUL-free strings, the recursion always returns, and every call of the
    driver on a sub-range of two or more items at depth [d] finds in every
    item of that sub-range the window [load_window text d], whatever the
    stray reads find and for either pivot rule.  The calls are those
    recorded by [sort_range_raw_calls], which computes what [sort_range_raw]
    computes. *)
Theorem windows_valid_in_unchecked_run (ss : list cstring) (fuel : nat) (g : stray_tape) :
  Forall nul_free ss -> (1 <= length ss)%nat -> (length ss - 1 < fuel)%nat ->
  let items := init_items ss in
  let high := (length ss - 1)%nat in
  (snd (sort_range_raw_calls pick_mid fuel tt g items 0 high 0)
   = sort_range_raw pick_mid fuel tt g items 0 high 0
   /\ (exists r, sort_range_raw pick_mid fuel tt g items 0 high 0 = Done r)
   /\ Forall windows_valid (fst (sort_range_raw_calls pick_mid fuel tt g items 0 high 0)))
  /\ forall t,
       snd (sort_range_raw_calls pick_rand fuel t g items 0 high 0)
       = sort_range_raw pick_rand fuel t g items 0 high 0
       /\ (exists r, sort_range_raw pick_rand fuel t g items 0 high 0 = Done r)
       /\ Forall windows_valid
            (fst (sort_range_raw_calls pick_rand fuel t g items 0 high 0)).
Proof.
  intros Hnf Hlen Hfuel. cbv zeta.
  assert (Hpre : (0 < length ss - 1)%nat -> sort_pre 0 (init_items ss) 0 (length ss - 1))
    by (intros _; apply init_items_pre; assumption).
  split; [|intros t]; split_and!.
  - apply sort_range_raw_calls_erase.
  - destruct (sort_items_raw_result pick_mid pick_mid_in_range tt g ss fuel Hnf Hlen Hfuel)
      as (arr' & t' & g' & E & _). eauto.
  - eapply Forall_impl; [|exact call_pre_windows_valid].
    apply (sort_range_raw_calls_pre pick_mid pick_mid_in_range); [exact Hpre | lia].
  - apply sort_range_raw_calls_erase.
  - destruct (sort_items_raw_result pick_rand pick_rand_in_range t g ss fuel Hnf Hlen Hfuel)
      as (arr' & t' & g' & E & _). eauto.
  - eapply Forall_impl; [|exact call_pre_windows_valid].
    apply (sort_range_raw_calls_pre pick_rand pick_rand_in_range); [exact Hpre | lia].
Qed.

Lemma windows_valid_in_unchecked_run_witness :
  Forall windows_valid
    (fst (sort_range_raw_calls pick_mid 3 tt (fun _ => (2%nat, 9, 4))
            (init_items [[97]; [97]; [97]]) 0 2 0))
  /\ forall t,
       Forall windows_valid
         (fst (sort_range_raw_calls pick_rand 3 t (fun _ => (2%nat, 9, 4))
                 (init_items [[97]; [97]; [97]]) 0 2 0)).
Proof.
  assert (Hnf : Forall nul_free [[97]; [97]; [97]]) by (repeat constructor; lia).
  pose proof (windows_valid_in_unchecked_run [[97]; [97]; [97]] 3 (fun _ => (2%nat, 9, 4))
                Hnf ltac:(cbn; lia) ltac:(cbn; lia)) as H.
  cbv zeta in H.
  change (length [[97]; [97]; [97]] - 1)%nat with 2%nat in H.
  destruct H as [(_ & _ & Hmid) Hrand]. split; [exact Hmid|].
  intros t. destruct (Hrand t) as (_ & _ & H). exact H.
Defined.

